(** * Explaining debate evolution under the QEM gradual semantics

    A shallow embedding of the computational core of the repository:
    vote aggregation ([compute_initial_weights_and_graphs.py]), QEM weight
    propagation ([compute_final_weights_and_graphs_QEM.py] and the copies
    in the two explanation generators), branch extraction
    ([identify_branches.py]), direction ([generate_branch_rankings.py]) and
    the constructive and destructive explanation searches; then the steps
    around them: sub-debate extraction ([extract_subdebates.py]), the
    choice of the files whose target changed
    ([extract_debates_with_target_weight_change.py],
    [analyze_weight_changes.py]), the rankings and their table
    ([generate_branch_rankings.py]), the size analysis
    ([generate_size_analysis.py]) and the bins of
    [aggregate_explanation_stats.py].

    Conventions of the embedding.
    - Python [float] weights are modelled by exact rationals [Q]; results
      are compared with [==] ([Qeq]).
    - A Python [dict] with string keys is an insertion-ordered association
      list ([dict V]) without repeated keys: iteration order is observable
      in the code (fallback order on cycles, order of supporters), so it is
      kept.
    - Raised exceptions are values of [exn]; a function that can raise
      returns [result A].
    - The two library calls the propagation rests on are embedded from the
      libraries' own code: [nx.DiGraph.add_edge] and [nx.topological_sort]
      (networkx 2.6 and later, where the sort is [topological_generations],
      Kahn's algorithm), and label lookup in a [pd.Series]. Both copies of
      [create_restriction], [apply_qem_to_restriction], [qem_accept],
      [calculate_energy] and [h] in the two explanation generators are the
      same text, and are embedded once.
    - A [while] loop is a function with fuel; each is followed, in the
      second part, by the proof that the fuel it is given suffices. *)

From Stdlib Require Import String Ascii List Bool Arith ZArith QArith Qminmax Qabs Lia Lqa.
From Stdlib Require Import Permutation Sorted.
Import ListNotations.

Open Scope string_scope.
Open Scope list_scope.

(** ** Exceptions and the error monad *)

Inductive exn : Type :=
| NetworkXUnfeasible            (* nx.topological_sort on a cyclic graph *)
| RuntimeError                  (* networkx: graph changed during iteration *)
| KeyError (key : string).      (* d[k] with k absent *)

Inductive result (A : Type) : Type :=
| Ok (a : A)
| Raise (e : exn).

Arguments Ok {A} a.
Arguments Raise {A} e.

Definition bind {A B} (m : result A) (k : A -> result B) : result B :=
  match m with
  | Ok a => k a
  | Raise e => Raise e
  end.

Notation "x <- m ;; k" := (bind m (fun x => k))
  (at level 61, m at next level, right associativity).

(** ** Python dictionaries with string keys, in insertion order *)

Definition dict (V : Type) : Type := list (string * V).

Section Dict.
Context {V : Type}.

(** [d.get(k)] *)
Fixpoint dget (d : dict V) (k : string) : option V :=
  match d with
  | [] => None
  | (k', v) :: d' => if String.eqb k k' then Some v else dget d' k
  end.

(** [k in d] *)
Definition dmem (d : dict V) (k : string) : bool :=
  match dget d k with Some _ => true | None => false end.

(** [d[k] = v]: an existing key keeps its position, a new key goes last. *)
Fixpoint dset (d : dict V) (k : string) (v : V) : dict V :=
  match d with
  | [] => [(k, v)]
  | (k', v') :: d' =>
      if String.eqb k k' then (k', v) :: d' else (k', v') :: dset d' k v
  end.

(** [del d[k]] *)
Fixpoint ddel (d : dict V) (k : string) : dict V :=
  match d with
  | [] => []
  | (k', v') :: d' => if String.eqb k k' then d' else (k', v') :: ddel d' k
  end.

(** [d[k]], raising [KeyError] *)
Definition dindex (d : dict V) (k : string) : result V :=
  match dget d k with Some v => Ok v | None => Raise (KeyError k) end.

Definition keys (d : dict V) : list string := map fst d.

(** Two dictionaries are equal as Python values ([d1 == d2]) when they
    agree on every key, whatever the insertion order. *)
Definition dict_eq (d1 d2 : dict V) : Prop :=
  forall k, dget d1 k = dget d2 k.
End Dict.

(** [x in l] for a list of strings *)
Definition mem (x : string) (l : list string) : bool :=
  existsb (String.eqb x) l.

(** ** Data model *)

(** A node of a debate JSON file; both weights may be absent. *)
Record node : Type := mk_node {
  initial_weight : option Q;
  final_weight : option Q
}.

(** An edge is stored under its source id; [relation] may be absent
    ([e.get("relation", 0.0)]). *)
Record edge : Type := mk_edge {
  successor_id : string;
  relation : option Q
}.

Record debate : Type := mk_debate {
  nodes : dict node;
  edges : dict edge
}.

Definition rel_of (e : edge) : Q :=
  match relation e with Some r => r | None => 0 end.

Definition Qltb (x y : Q) : bool := negb (Qle_bool y x).

(** ** Vote aggregation ([compute_initial_weights_and_graphs.py]) *)

Definition weights : list Q := [0; 1#4; 1#2; 3#4; 1].

(** [str(i)] for [i] in [range(5)] *)
Definition str (i : nat) : string :=
  match i with
  | 0%nat => "0" | 1%nat => "1" | 2%nat => "2" | 3%nat => "3" | _ => "4"
  end.

Definition Qnat (n : nat) : Q := inject_Z (Z.of_nat n).

(** Python's [sum] over rationals: left to right from [0]. *)
Definition Qsum (l : list Q) : Q := fold_left Qplus l 0.

(** [votes.get(str(i), 0)] *)
Definition bucket (votes : dict nat) (i : nat) : nat :=
  match dget votes (str i) with Some c => c | None => 0%nat end.

Definition vote_counts (votes : dict nat) : list nat :=
  map (bucket votes) (seq 0 5).

Definition aggregate_votes_with (votes : dict nat) (neutral : Q) : Q :=
  let counts := vote_counts votes in
  let total := fold_left Nat.add counts 0%nat in
  if Nat.eqb total 0 then neutral
  else
    let weighted_sum :=
      Qsum (map (fun cw => Qnat (fst cw) * snd cw) (combine counts weights)) in
    weighted_sum / Qnat total.

(** Total number of votes of a tally: the sum of its five buckets. *)
Definition votes_total (votes : dict nat) : nat :=
  (bucket votes 0 + bucket votes 1 + bucket votes 2 + bucket votes 3
   + bucket votes 4)%nat.

(** The default argument [neutral = 0.5]. *)
Definition aggregate_votes (votes : dict nat) : Q :=
  aggregate_votes_with votes (1#2).

(** ** QEM helper functions ([compute_final_weights_and_graphs_QEM.py])

    Over the rationals these are the values the float operations round:
    the float [h] reaches 1.0 for a large argument (and its square
    overflows past 1e154), a float sum can miss a cancellation, and an
    update by a tiny energy can round back to the initial weight. The
    properties below that are meant of the float code as well are stated
    with closed bounds, without strict inequalities, and on a range where
    nothing overflows. *)

Definition h (x : Q) : Q := (Qmax x 0) ^ 2 / (1 + (Qmax x 0) ^ 2).

Definition get_or {V} (d : dict V) (k : string) (default : V) : V :=
  match dget d k with Some v => v | None => default end.

Definition calculate_energy (n : string) (sup att : dict (list string))
    (final_acc : dict Q) : Q :=
  Qsum (map (fun s => get_or final_acc s 0) (get_or sup n []))
  - Qsum (map (fun a => get_or final_acc a 0) (get_or att n [])).

(** The update applied once the energy is known. *)
Definition qem_update (w0 e : Q) : Q :=
  if Qltb 0 e then w0 + (1 - w0) * h e else w0 - w0 * h (- e).

Definition qem_accept (n : string) (sup att : dict (list string))
    (final_acc w_init : dict Q) : result Q :=
  if negb (dmem sup n) && negb (dmem att n) then dindex w_init n
  else
    let e := calculate_energy n sup att final_acc in
    w0 <- dindex w_init n ;;
    Ok (qem_update w0 e).

(** ** [networkx.DiGraph], as far as the code uses it

    Nodes and edges are kept in insertion order, as networkx keeps them: the
    order of [G.in_degree()] and of [G.neighbors(n)] decides the order of
    the topological sort. *)

Record DiGraph : Type := mk_graph {
  g_nodes : list string;
  g_edges : list (string * string)
}.

Definition empty_graph : DiGraph := mk_graph [] [].

Definition add_node (ns : list string) (u : string) : list string :=
  if mem u ns then ns else ns ++ [u].

Definition edge_eqb (e1 e2 : string * string) : bool :=
  String.eqb (fst e1) (fst e2) && String.eqb (snd e1) (snd e2).

(** [G.add_edge(u, v)] *)
Definition add_edge (G : DiGraph) (u v : string) : DiGraph :=
  mk_graph (add_node (add_node (g_nodes G) u) v)
           (if existsb (edge_eqb (u, v)) (g_edges G) then g_edges G
            else g_edges G ++ [(u, v)]).

(** [G.neighbors(u)]: the successors of [u] *)
Definition neighbors (G : DiGraph) (u : string) : list string :=
  map snd (filter (fun e => String.eqb (fst e) u) (g_edges G)).

Definition in_degree (G : DiGraph) (v : string) : nat :=
  length (filter (fun e => String.eqb (snd e) v) (g_edges G)).

(** *** [nx.topological_sort] (networkx's [topological_generations],
    Kahn's algorithm). The state is [indegree_map] and the
    [zero_indegree] list under construction. The final weights do not
    depend on which topological order is produced, only on whether one
    exists: the sums of [calculate_energy] follow the order of the
    supporter and attacker lists. *)

Definition kahn_state : Type := (dict Z * list string)%type.

(** [indegree_map[child] -= 1], then the move to [zero_indegree] when it
    reaches zero; a missing key is networkx's [RuntimeError]. *)
Definition visit_child (st : kahn_state) (child : string) : result kahn_state :=
  let '(indegree_map, zero_indegree) := st in
  match dget indegree_map child with
  | None => Raise RuntimeError
  | Some d =>
      if Z.eqb (d - 1) 0
      then Ok (ddel indegree_map child, zero_indegree ++ [child])
      else Ok (dset indegree_map child (d - 1)%Z, zero_indegree)
  end.

Fixpoint visit_children (children : list string) (st : kahn_state)
  : result kahn_state :=
  match children with
  | [] => Ok st
  | child :: rest => st' <- visit_child st child ;; visit_children rest st'
  end.

Fixpoint visit_generation (G : DiGraph) (this_generation : list string)
    (st : kahn_state) : result kahn_state :=
  match this_generation with
  | [] => Ok st
  | n :: rest =>
      if mem n (g_nodes G)
      then st' <- visit_children (neighbors G n) st ;;
           visit_generation G rest st'
      else Raise RuntimeError
  end.

(** The [while zero_indegree:] loop, which yields one generation per
    round and raises [NetworkXUnfeasible] at the end if [indegree_map] is
    not empty. [None] means the fuel ran out; [topological_sort_fuel]
    shows that it does not. *)
Fixpoint generations (fuel : nat) (G : DiGraph) (indegree_map : dict Z)
    (zero_indegree : list string) : option (result (list string)) :=
  match zero_indegree with
  | [] =>
      Some (match indegree_map with
            | [] => Ok []
            | _ :: _ => Raise NetworkXUnfeasible
            end)
  | _ :: _ =>
      match fuel with
      | O => None
      | S fuel' =>
          match visit_generation G zero_indegree (indegree_map, []) with
          | Raise e => Some (Raise e)
          | Ok (indegree_map', zero_indegree') =>
              match generations fuel' G indegree_map' zero_indegree' with
              | Some (Ok rest) => Some (Ok (zero_indegree ++ rest))
              | other => other
              end
          end
      end
  end.

Definition in_degrees (G : DiGraph) : list (string * Z) :=
  map (fun v => (v, Z.of_nat (in_degree G v))) (g_nodes G).

Definition initial_indegree_map (G : DiGraph) : dict Z :=
  filter (fun vd => Z.ltb 0 (snd vd)) (in_degrees G).

Definition initial_zero_indegree (G : DiGraph) : list string :=
  map fst (filter (fun vd => Z.eqb (snd vd) 0) (in_degrees G)).

Definition topological_sort_fueled (G : DiGraph) : option (result (list string)) :=
  generations (S (length (initial_indegree_map G))) G
              (initial_indegree_map G) (initial_zero_indegree G).

(** [list(nx.topological_sort(G))]. The last case is never reached on a
    graph built by [add_edge] ([topological_sort_fuel]). *)
Definition topological_sort (G : DiGraph) : result (list string) :=
  match topological_sort_fueled G with
  | Some r => r
  | None => Raise RuntimeError
  end.

(** ** Weight propagation *)

(** [sup.setdefault(k, []).append(x)] *)
Definition setdefault_append (d : dict (list string)) (k x : string)
  : dict (list string) :=
  dset d k (get_or d k [] ++ [x]).

Definition build_state : Type :=
  (dict (list string) * dict (list string) * DiGraph)%type.

(** Body of the loop [for src_id, e in edges.items()]. *)
Definition build_step (st : build_state) (item : string * edge) : build_state :=
  let '(sup, att, G) := st in
  let src_id := fst item in
  let dst_id := successor_id (snd item) in
  let rel := rel_of (snd item) in
  let G' := add_edge G src_id dst_id in
  if Qltb 0 rel then (setdefault_append sup dst_id src_id, att, G')
  else if Qltb rel 0 then (sup, setdefault_append att dst_id src_id, G')
  else (sup, att, G').

Definition build_graph (es : dict edge) : build_state :=
  fold_left build_step es ([], [], empty_graph).

(** [pd.Series({nid: nd["initial_weight"] for nid, nd in nodes.items()})] *)
Fixpoint initial_weights (ns : dict node) : result (dict Q) :=
  match ns with
  | [] => Ok []
  | (nid, nd) :: rest =>
      match initial_weight nd with
      | None => Raise (KeyError "initial_weight")
      | Some w => ws <- initial_weights rest ;; Ok ((nid, w) :: ws)
      end
  end.

(** The loop [for n in topo: final_acc[n] = qem_accept(...)]. *)
Fixpoint qem_loop (topo : list string) (sup att : dict (list string))
    (w_init final_acc : dict Q) : result (dict Q) :=
  match topo with
  | [] => Ok final_acc
  | n :: rest =>
      w <- qem_accept n sup att final_acc w_init ;;
      qem_loop rest sup att w_init (dset final_acc n w)
  end.

Definition set_final (nd : node) (w : Q) : node :=
  mk_node (initial_weight nd) (Some w).

(** The same loop in [enrich_with_final], which also stores each weight in
    the node: [nodes[n]["final_weight"] = final_acc[n]]. *)
Fixpoint enrich_loop (topo : list string) (sup att : dict (list string))
    (w_init final_acc : dict Q) (ns : dict node)
  : result (dict Q * dict node) :=
  match topo with
  | [] => Ok (final_acc, ns)
  | n :: rest =>
      w <- qem_accept n sup att final_acc w_init ;;
      nd <- dindex ns n ;;
      enrich_loop rest sup att w_init (dset final_acc n w)
                  (dset ns n (set_final nd w))
  end.

(** [enrich_with_final] of [compute_final_weights_and_graphs_QEM.py],
    without the file reads and writes: the mapping [final_acc] and the
    enriched debate. *)
Definition enrich_with_final_acc (data : debate) : result (dict Q * debate) :=
  w_init <- initial_weights (nodes data) ;;
  let '(sup, att, G) := build_graph (edges data) in
  topo <- topological_sort G ;;
  r <- enrich_loop topo sup att w_init [] (nodes data) ;;
  Ok (fst r, mk_debate (snd r) (edges data)).

Definition enrich_with_final (data : debate) : result debate :=
  r <- enrich_with_final_acc data ;; Ok (snd r).

(** ** Restrictions ([generate_constructive_explanations.py]; the copy in
    [generate_destructive_explanations.py] is the same text) *)

(** The dictionary comprehension that fills [restricted_nodes]: one
    insertion per element of [args_subset] that is a node of the debate. *)
Definition restrict_nodes (ns : dict node) (args : list string) (acc : dict node)
  : dict node :=
  fold_left (fun acc arg_id =>
               match dget ns arg_id with
               | Some nd => dset acc arg_id nd
               | None => acc
               end) args acc.

Definition create_restriction (debate_data : debate) (args_subset : list string)
  : debate :=
  match args_subset with
  | [] => mk_debate [] []
  | _ :: _ =>
      let restricted_nodes :=
        restrict_nodes (nodes debate_data) args_subset [] in
      let restricted_edges :=
        filter (fun item => mem (fst item) args_subset
                            && mem (successor_id (snd item)) args_subset)
               (edges debate_data) in
      mk_debate restricted_nodes restricted_edges
  end.

(** [{nid: w_init[nid] for nid in nodes.keys()}] *)
Fixpoint copy_weights (ks : list string) (w_init acc : dict Q) : result (dict Q) :=
  match ks with
  | [] => Ok acc
  | nid :: rest =>
      w <- dindex w_init nid ;; copy_weights rest w_init (dset acc nid w)
  end.

Definition apply_qem_to_restriction (restricted_framework : debate)
  : result (dict Q) :=
  match nodes restricted_framework with
  | [] => Ok []
  | _ :: _ =>
      w_init <- initial_weights (nodes restricted_framework) ;;
      let '(sup, att, G) := build_graph (edges restricted_framework) in
      match g_edges G with
      | [] => copy_weights (keys (nodes restricted_framework)) w_init []
      | _ :: _ =>
          topo <- match topological_sort G with
                  | Raise NetworkXUnfeasible => Ok (keys (nodes restricted_framework))
                  | r => r
                  end ;;
          qem_loop topo sup att w_init []
      end
  end.

(** ** Significance and direction *)

(** [is_significant] of [identify_branches.py]:
    [argument.get('final_weight', 0.0) != 0.0] *)
Definition is_significant (argument : node) : bool :=
  negb (Qeq_bool (match final_weight argument with Some w => w | None => 0 end) 0).

Definition empty_node : node := mk_node None None.

(** [determine_direction] of [generate_branch_rankings.py] *)
Definition determine_direction (target_id : string) (ns : dict node) : string :=
  let target_node := get_or ns target_id empty_node in
  let initial := match initial_weight target_node with Some w => w | None => 0 end in
  let final := match final_weight target_node with Some w => w | None => 0 end in
  if Qltb initial final then "strengthening"
  else if Qltb final initial then "weakening"
  else "unchanged".

(** The decision [process_folder] of
    [extract_debates_with_target_weight_change.py] takes for one debate
    file once the target is known, as the reason it writes to its report:
    only a debate reported "copied" reaches the folder the rankings and
    the searches read. *)
Definition weight_change_report (target_id : string) (ns : dict node) : string :=
  match dget ns target_id with
  | None => "target_not_in_nodes"
  | Some nd =>
      match initial_weight nd, final_weight nd with
      | Some iw, Some fw =>
          if negb (Qeq_bool iw fw) then "copied" else "no_change"
      | _, _ => "missing_weight"
      end
  end.

(** ** Branch extraction ([identify_branches.py]) *)

Section Branches.
Variable ns : dict node.
Variable es : dict edge.
Variable target : string.

Definition is_significant_root (arg_id : string) : bool :=
  match dget ns arg_id with
  | Some nd => is_significant nd
  | None => false
  end.

(** Sources of the edges into [current] with a non-zero relation, in the
    order of [edges.items()]. *)
Definition children (current : string) : list string :=
  map fst (filter (fun item => String.eqb (successor_id (snd item)) current
                               && negb (Qeq_bool (rel_of (snd item)) 0)) es).

(** The [while stack:] loop of [traverse_full_branch]. The head of [stack]
    is the element [stack.pop()] returns. *)
Fixpoint traverse_full_loop (fuel : nat) (stack visited branch : list string)
  : option (list string) :=
  match stack with
  | [] => Some branch
  | current :: rest =>
      match fuel with
      | O => None
      | S fuel' =>
          if mem current visited then traverse_full_loop fuel' rest visited branch
          else traverse_full_loop fuel' (rev (children current) ++ rest)
                                  (current :: visited) (branch ++ [current])
      end
  end.

(** Every edge is pushed at most once, so one more round than there are
    edges is enough ([branch_loops_terminate]): the default is never used. *)
Definition traverse_full_branch (root_id : string) : list string :=
  match traverse_full_loop (S (length es)) [root_id] [] [] with
  | Some branch => branch
  | None => []
  end.

(** Successors enqueued from [current] by [compute_path_sign_significant_only]. *)
Definition significant_successors (current : string) (path_sign : Z)
  : list (string * Z) :=
  flat_map (fun item =>
              if String.eqb (fst item) current then
                let successor := successor_id (snd item) in
                let rel := rel_of (snd item) in
                if negb (String.eqb successor "")
                   && negb (Qeq_bool rel 0)
                   && is_significant_root successor
                then [(successor, (path_sign * (if Qltb 0 rel then 1 else -1))%Z)]
                else []
              else []) es.

(** The breadth-first [while queue:] loop. *)
Fixpoint path_sign_loop (fuel : nat) (target_id : string)
    (queue : list (string * Z)) (visited : list string) : option Z :=
  match queue with
  | [] => Some 0%Z
  | (current, path_sign) :: rest =>
      match fuel with
      | O => None
      | S fuel' =>
          if mem current visited then path_sign_loop fuel' target_id rest visited
          else if String.eqb current target_id then Some path_sign
          else path_sign_loop fuel' target_id
                 (rest ++ significant_successors current path_sign)
                 (current :: visited)
      end
  end.

(** The loop is given enough fuel ([branch_loops_terminate]); the default
    of the last case is never used. *)
Definition compute_path_sign_significant_only (arg_id target_id : string) : Z :=
  if String.eqb arg_id target_id then 1%Z
  else if negb (is_significant_root arg_id) then 0%Z
  else match path_sign_loop (S (length es)) target_id [(arg_id, 1%Z)] [] with
       | Some sign => sign
       | None => 0%Z
       end.

Definition is_pro_argument (arg_id : string) : bool :=
  Z.ltb 0 (compute_path_sign_significant_only arg_id target).

Definition is_con_argument (arg_id : string) : bool :=
  Z.ltb (compute_path_sign_significant_only arg_id target) 0.

(** The test [expected_type == "pro" and is_pro_argument(current)], or the
    same for "con". *)
Definition matches_type (expected_type arg_id : string) : bool :=
  (String.eqb expected_type "pro" && is_pro_argument arg_id)
  || (String.eqb expected_type "con" && is_con_argument arg_id).

Fixpoint traverse_unweakened_loop (fuel : nat) (root_id expected_type : string)
    (stack visited branch : list string) : option (list string) :=
  match stack with
  | [] => Some branch
  | current :: rest =>
      match fuel with
      | O => None
      | S fuel' =>
          if mem current visited
          then traverse_unweakened_loop fuel' root_id expected_type rest visited branch
          else if matches_type expected_type current
          then traverse_unweakened_loop fuel' root_id expected_type
                 (rev (children current) ++ rest)
                 (current :: visited) (branch ++ [current])
          else if String.eqb current root_id
          then traverse_unweakened_loop fuel' root_id expected_type rest
                 (current :: visited) (branch ++ [current])
          else traverse_unweakened_loop fuel' root_id expected_type rest
                 (current :: visited) branch
      end
  end.

(** As for [traverse_full_branch], the default is never used. *)
Definition traverse_unweakened_branch (root_id expected_type : string)
  : list string :=
  match traverse_unweakened_loop (S (length es)) root_id expected_type
          [root_id] [] [] with
  | Some branch => branch
  | None => []
  end.

(** The check run over a candidate branch: no argument of the wrong type. *)
Definition all_expected_type (expected_type : string) (branch : list string)
  : bool :=
  forallb (fun arg_id =>
             if String.eqb expected_type "pro" && negb (is_pro_argument arg_id)
             then false
             else if String.eqb expected_type "con"
                     && negb (is_con_argument arg_id)
             then false
             else true) branch.

Definition find_unweakened_branches (supporters_or_attackers : list string)
    (expected_type : string) : list (list string) :=
  flat_map (fun root =>
              if is_significant_root root then
                let branch := traverse_unweakened_branch root expected_type in
                if (0 <? length branch)%nat && all_expected_type expected_type branch
                then [branch] else []
              else []) supporters_or_attackers.

(** Direct significant supporters ([positive = true]) or attackers of the
    target, in the order of [edges.items()]. *)
Definition significant_neighbours (positive : bool) : list string :=
  map fst
      (filter (fun item =>
                 String.eqb (successor_id (snd item)) target
                 && is_significant_root (fst item)
                 && (if positive then Qltb 0 (rel_of (snd item))
                     else Qltb (rel_of (snd item)) 0)) es).

(** [find_pro_weakening_sub_branches] and its "con" twin: the full branch
    of every significant attacker of an argument of [arguments_set]. *)
Definition find_weakening_sub_branches (arguments_set : list string)
  : list (list string) :=
  flat_map (fun item =>
              if Qltb (rel_of (snd item)) 0
                 && mem (successor_id (snd item)) arguments_set
                 && is_significant_root (fst item)
              then [traverse_full_branch (fst item)] else []) es.
End Branches.

Record branches_data : Type := mk_branches {
  pro_branches : list (list string);
  con_branches : list (list string);
  unweakened_pro_branches : list (list string);
  unweakened_con_branches : list (list string);
  pro_weakening_sub_branches : list (list string);
  con_weakening_sub_branches : list (list string)
}.

Definition identify_branches (d : debate) (target : string) : branches_data :=
  let ns := nodes d in
  let es := edges d in
  let significant_supporters := significant_neighbours ns es target true in
  let significant_attackers := significant_neighbours ns es target false in
  let full roots :=
    map (traverse_full_branch es)
        (filter (is_significant_root ns) roots) in
  let unweakened_pro :=
    find_unweakened_branches ns es target significant_supporters "pro" in
  let unweakened_con :=
    find_unweakened_branches ns es target significant_attackers "con" in
  mk_branches (full significant_supporters) (full significant_attackers)
              unweakened_pro unweakened_con
              (find_weakening_sub_branches ns es (concat unweakened_pro))
              (find_weakening_sub_branches ns es (concat unweakened_con)).

(** ** Explanation search

    Inputs: the rankings table of one (debate, target), as
    [load_branch_rankings_data] returns it, and the debate. *)

Record category_data : Type := mk_category {
  branches_abv : list string;
  branches : list (list string);
  ranking_abv : list string;
  ranking : list (list string)
}.

(** What [heuristic_data.get(name, {})] followed by [.get(field, [])]
    reads from an absent category. *)
Definition empty_category : category_data := mk_category [] [] [] [].

Record rankings_data : Type := mk_rankings {
  debate_id : string;
  t_id : string;
  direction : string;
  rankings : dict (dict category_data)
}.

Definition category (heuristic_data : dict category_data) (name : string)
  : category_data :=
  get_or heuristic_data name empty_category.

(** The dictionary both searches return; the keys are
    [constructive_explanation_abv]/[_arg] in one file and
    [destructive_explanation_abv]/[_arg] in the other. *)
Record explanation : Type := mk_explanation {
  success : bool;
  explanation_abv : list (list string);
  explanation_arg : list (list string)
}.

Definition no_explanation : explanation := mk_explanation false [] [].

(** [get_branch_arguments] *)
Definition get_branch_arguments (branches_data : list (list string))
  : list string :=
  fold_left (fun all_args branch_args => all_args ++ branch_args)
            branches_data [].

(** The searches call the propagator once per candidate restriction. The
    calls are the only effect of a search: they are recorded, in order, in
    a log of the argument lists that were restricted to and propagated. *)
Definition log : Type := list (list string).

Definition traced (A : Type) : Type := log -> result A * log.

Definition tret {A} (a : A) : traced A := fun l => (Ok a, l).

Definition tbind {A B} (m : traced A) (k : A -> traced B) : traced B :=
  fun l => match m l with
           | (Ok a, l') => k a l'
           | (Raise e, l') => (Raise e, l')
           end.

Notation "x <~ m ;; k" := (tbind m (fun x => k))
  (at level 61, m at next level, right associativity).

Section Search.
Variable debate_data : debate.
Variable target_id : string.
Variable w0_target : Q.

(** [restriction = create_restriction(debate_data, current_args)],
    [final_weights = apply_qem_to_restriction(restriction)],
    [w1_target = final_weights.get(target_id, w0_target)]. *)
Definition retest (current_args : list string) : traced Q :=
  fun l =>
    (final_weights <-
       apply_qem_to_restriction (create_restriction debate_data current_args) ;;
     Ok (get_or final_weights target_id w0_target),
     l ++ [current_args]).

(** One incremental loop, [for i, branch_args in enumerate(ranking)]:
    [current_args_of] builds [current_args] from the arguments added so
    far and [reached] is the comparison of [w1_target] that stops the
    loop. The result says whether the loop returned, with the two
    accumulators. *)
Fixpoint add_branches (current_args_of : list string -> list string)
    (reached : Q -> bool) (ranking_abv : list string)
    (ranking : list (list string)) (i : nat)
    (added_args added_abv : list string)
  : traced (bool * list string * list string) :=
  match ranking with
  | [] => tret (false, added_args, added_abv)
  | branch_args :: rest =>
      let added_args := added_args ++ branch_args in
      let added_abv :=
        match nth_error ranking_abv i with
        | Some abv => added_abv ++ [abv]
        | None => added_abv
        end in
      w1_target <~ retest (current_args_of added_args) ;;
      if reached w1_target then tret (true, added_args, added_abv)
      else add_branches current_args_of reached ranking_abv rest (S i)
                        added_args added_abv
  end.

(** The body shared by the two directions of
    [generate_constructive_explanation]: [unweakened] is the base
    category, [first] the category added first and [weakening] the one
    added after it. *)
Definition constructive_search (reached : Q -> bool)
    (unweakened first weakening : category_data) : traced explanation :=
  let base_args := get_branch_arguments (branches unweakened) in
  w1_target <~ retest (base_args ++ [target_id]) ;;
  if reached w1_target
  then tret (mk_explanation true [branches_abv unweakened; []] [base_args; []])
  else
    r1 <~ add_branches (fun added => base_args ++ added ++ [target_id])
            reached (ranking_abv first) (ranking first) 0 [] [] ;;
    let '(found1, added1_args, added1_abv) := r1 in
    if found1
    then tret (mk_explanation true [branches_abv unweakened; added1_abv]
                              [base_args; added1_args])
    else
      r2 <~ add_branches
              (fun added => base_args ++ added1_args ++ added ++ [target_id])
              reached (ranking_abv weakening) (ranking weakening) 0 [] [] ;;
      let '(found2, added2_args, added2_abv) := r2 in
      if found2
      then tret (mk_explanation true
                   [branches_abv unweakened; added1_abv; added2_abv]
                   [base_args; added1_args; added2_args])
      else tret no_explanation.

(** The body shared by the two directions of
    [generate_destructive_explanation]. *)
Definition destructive_search (reached : Q -> bool)
    (unweakened weakening opposing : category_data) : traced explanation :=
  let unweakened_args := get_branch_arguments (branches unweakened) in
  let weakening_args := get_branch_arguments (branches weakening) in
  let base_args := unweakened_args ++ weakening_args ++ [target_id] in
  w1_target <~ retest base_args ;;
  if reached w1_target
  then tret (mk_explanation true
               [branches_abv unweakened; branches_abv weakening; []]
               [unweakened_args; weakening_args; []])
  else
    r <~ add_branches (fun added => base_args ++ added)
           reached (ranking_abv opposing) (ranking opposing) 0 [] [] ;;
    let '(found, added_args, added_abv) := r in
    if found
    then tret (mk_explanation true
                 [branches_abv unweakened; branches_abv weakening; added_abv]
                 [unweakened_args; weakening_args; added_args])
    else tret no_explanation.
End Search.

(** [debate_data['nodes'][target_id]['initial_weight']] *)
Definition target_initial_weight (target_node : node) : result Q :=
  match initial_weight target_node with
  | Some w => Ok w
  | None => Raise (KeyError "initial_weight")
  end.

Definition generate_constructive_explanation_traced
    (rd : rankings_data) (debate_data : debate) (heuristic : string)
  : traced explanation :=
  let target_id := t_id rd in
  match dget (nodes debate_data) target_id with
  | None => tret no_explanation
  | Some target_node =>
      w0_target <~ (fun l => (target_initial_weight target_node, l)) ;;
      let heuristic_data := get_or (rankings rd) heuristic [] in
      if String.eqb (direction rd) "strengthening"
      then constructive_search debate_data target_id w0_target
             (fun w1_target => Qltb w0_target w1_target)
             (category heuristic_data "unweakened con-branches")
             (category heuristic_data "pro-branches")
             (category heuristic_data "con-weakening branches")
      else constructive_search debate_data target_id w0_target
             (fun w1_target => Qltb w1_target w0_target)
             (category heuristic_data "unweakened pro-branches")
             (category heuristic_data "con-branches")
             (category heuristic_data "pro-weakening branches")
  end.

Definition generate_destructive_explanation_traced
    (rd : rankings_data) (debate_data : debate) (heuristic : string)
  : traced explanation :=
  let target_id := t_id rd in
  match dget (nodes debate_data) target_id with
  | None => tret no_explanation
  | Some target_node =>
      w0_target <~ (fun l => (target_initial_weight target_node, l)) ;;
      let heuristic_data := get_or (rankings rd) heuristic [] in
      if String.eqb (direction rd) "strengthening"
      then destructive_search debate_data target_id w0_target
             (fun w1_target => Qltb w0_target w1_target)
             (category heuristic_data "unweakened con-branches")
             (category heuristic_data "con-weakening branches")
             (category heuristic_data "pro-branches")
      else destructive_search debate_data target_id w0_target
             (fun w1_target => Qltb w1_target w0_target)
             (category heuristic_data "unweakened pro-branches")
             (category heuristic_data "pro-weakening branches")
             (category heuristic_data "con-branches")
  end.

(** The value a search returns, and the restrictions it propagated. *)
Definition generate_constructive_explanation (rd : rankings_data)
    (debate_data : debate) (heuristic : string) : result explanation :=
  fst (generate_constructive_explanation_traced rd debate_data heuristic []).

Definition generate_destructive_explanation (rd : rankings_data)
    (debate_data : debate) (heuristic : string) : result explanation :=
  fst (generate_destructive_explanation_traced rd debate_data heuristic []).

Definition constructive_restrictions (rd : rankings_data)
    (debate_data : debate) (heuristic : string) : log :=
  snd (generate_constructive_explanation_traced rd debate_data heuristic []).

Definition destructive_restrictions (rd : rankings_data)
    (debate_data : debate) (heuristic : string) : log :=
  snd (generate_destructive_explanation_traced rd debate_data heuristic []).

(** ** Helpers for statements, and the scenarios used below *)

(** The mapping [m] gives [k] a weight equal to [q]. *)
Definition weight_is (m : dict Q) (k : string) (q : Q) : Prop :=
  exists w, dget m k = Some w /\ w == q.

(** A node with each absent weight replaced by [0.0]. *)
Definition with_defaults (nd : node) : node :=
  mk_node (Some (match initial_weight nd with Some w => w | None => 0 end))
          (Some (match final_weight nd with Some w => w | None => 0 end)).

Definition set_direction (rd : rankings_data) (dir : string) : rankings_data :=
  mk_rankings (debate_id rd) (t_id rd) dir (rankings rd).

(** A node with initial weight 0.5 and no final weight yet. *)
Definition fresh_node : node := mk_node (Some (1#2)) None.

Definition support (dst : string) : edge := mk_edge dst (Some 1).
Definition attack (dst : string) : edge := mk_edge dst (Some (-1)).

(** The chain A -> B -> target of supports. *)
Definition chain_debate : debate :=
  mk_debate [("A", fresh_node); ("B", fresh_node); ("target", fresh_node)]
            [("A", support "B"); ("B", support "target")].

(** Two arguments supporting each other. *)
Definition cycle_debate : debate :=
  mk_debate [("a", fresh_node); ("b", fresh_node)]
            [("a", support "b"); ("b", support "a")].

(** An edge a -> b and a node c that no edge touches. *)
Definition isolated_debate : debate :=
  mk_debate [("a", fresh_node); ("b", fresh_node); ("c", fresh_node)]
            [("a", support "b")].

(** A target T with one supporter S and one attacker A of equal strength. *)
Definition tie_debate : debate :=
  mk_debate [("T", fresh_node); ("S", fresh_node); ("A", fresh_node)]
            [("S", support "T"); ("A", attack "T")].

(** [tie_debate] after [enrich_with_final]. *)
Definition tie_debate_final : debate :=
  match enrich_with_final tie_debate with
  | Ok d => d
  | Raise _ => tie_debate
  end.

(** A category holding a single branch. *)
Definition single_branch (abv : string) (branch : list string) : category_data :=
  mk_category [abv] [branch] [abv] [branch].

(** The rankings table the pipeline writes for [tie_debate_final] and
    target T: one branch per non-empty category (so every heuristic ranks
    it the same), the direction being the one [determine_direction]
    computes. *)
Definition tie_categories : dict category_data :=
  [("pro-branches", single_branch "Pb1" ["S"]);
   ("con-branches", single_branch "Cb1" ["A"]);
   ("unweakened pro-branches", single_branch "UnWPb1" ["S"]);
   ("unweakened con-branches", single_branch "UnWCb1" ["A"])].

Definition tie_rankings : rankings_data :=
  mk_rankings "tie" "T" (determine_direction "T" (nodes tie_debate_final))
              [("weak to strong", tie_categories);
               ("strong to weak", tie_categories);
               ("small to large", tie_categories)].

(** [chain_debate] after [enrich_with_final], and the rankings table the
    pipeline writes for it and the target: the only branch is the
    pro-branch rooted at B. *)
Definition chain_debate_final : debate :=
  match enrich_with_final chain_debate with
  | Ok d => d
  | Raise _ => chain_debate
  end.

Definition chain_categories : dict category_data :=
  [("pro-branches", single_branch "Pb1" ["B"; "A"]);
   ("unweakened pro-branches", single_branch "UnWPb1" ["B"; "A"])].

Definition chain_rankings : rankings_data :=
  mk_rankings "chain" "target"
              (determine_direction "target" (nodes chain_debate_final))
              [("weak to strong", chain_categories);
               ("strong to weak", chain_categories);
               ("small to large", chain_categories)].

(** ** The constructive search for a strengthened target, as the
    specification words it

    The candidates of a ranked list are its non-empty prefixes, shortest
    first; a stage succeeds at the first candidate whose restriction makes
    the target's final weight exceed its initial weight. *)

Definition prefixes {A} (l : list A) : list (list A) :=
  map (fun k => firstn k l) (seq 1 (length l)).

Fixpoint find_first {A} (test : A -> result bool) (candidates : list A)
  : result (option A) :=
  match candidates with
  | [] => Ok None
  | c :: rest =>
      b <- test c ;;
      if b then Ok (Some c) else find_first test rest
  end.

(** The test of one restriction, in the specification's words: restrict
    the graph to the arguments, propagate, and compare the target's final
    weight with its initial weight. A target the propagated mapping does
    not hold is an isolated node of the restriction, whose final weight
    the specification sets to its initial weight. *)
Definition strengthens (debate_data : debate) (target_id : string) (w0_target : Q)
    (args : list string) : result bool :=
  final <- apply_qem_to_restriction (create_restriction debate_data args) ;;
  let final_target :=
    match dget final target_id with
    | Some w => w
    | None => w0_target
    end in
  Ok (Qltb w0_target final_target).

Definition constructive_strengthening_spec (rd : rankings_data)
    (debate_data : debate) (heuristic : string) : result explanation :=
  let target_id := t_id rd in
  match dget (nodes debate_data) target_id with
  | None => Ok no_explanation
  | Some target_node =>
      w0_target <- target_initial_weight target_node ;;
      let heuristic_data := get_or (rankings rd) heuristic [] in
      let unweakened_con := category heuristic_data "unweakened con-branches" in
      let pro := category heuristic_data "pro-branches" in
      let con_weakening := category heuristic_data "con-weakening branches" in
      let base := concat (branches unweakened_con) in
      let test := strengthens debate_data target_id w0_target in
      already <- test (base ++ [target_id]) ;;
      if already
      then Ok (mk_explanation true [branches_abv unweakened_con; []] [base; []])
      else
        stage1 <- find_first (fun p => test (base ++ concat p ++ [target_id]))
                    (prefixes (ranking pro)) ;;
        match stage1 with
        | Some p =>
            Ok (mk_explanation true
                  [branches_abv unweakened_con;
                   firstn (length p) (ranking_abv pro)]
                  [base; concat p])
        | None =>
            let all_pro := concat (ranking pro) in
            stage2 <- find_first
                        (fun q => test (base ++ all_pro ++ concat q ++ [target_id]))
                        (prefixes (ranking con_weakening)) ;;
            match stage2 with
            | Some q =>
                Ok (mk_explanation true
                      [branches_abv unweakened_con;
                       firstn (length (ranking pro)) (ranking_abv pro);
                       firstn (length q) (ranking_abv con_weakening)]
                      [base; all_pro; concat q])
            | None => Ok no_explanation
            end
        end
  end.

(** ** Measures used in the termination proofs of the traversal loops *)

(** Edges whose destination has not been visited yet. *)
Definition unvisited_dst (es : dict edge) (visited : list string) : nat :=
  length (filter (fun item => negb (mem (successor_id (snd item)) visited)) es).

(** Edges whose source has not been visited yet. *)
Definition unvisited_src (es : dict edge) (visited : list string) : nat :=
  length (filter (fun item => negb (mem (fst item) visited)) es).

(** ** Comparing the outcomes of two propagations *)

(** The graph that propagation sorts: the third component of [build_graph]. *)
Definition graph_of (es : dict edge) : DiGraph := snd (build_graph es).

(** Both raise the same exception, or both return and the mappings are
    equal as Python dictionaries. *)
Definition same_weights (r1 r2 : result (dict Q)) : Prop :=
  match r1, r2 with
  | Ok m1, Ok m2 => dict_eq m1 m2
  | Raise e1, Raise e2 => e1 = e2
  | _, _ => False
  end.

(** ** Cycles, and the invariant of the topological sort *)

(** [path es u w]: one can walk from [u] to [w] along one or more edges. *)
Inductive path (es : dict edge) : string -> string -> Prop :=
| path_edge (u : string) (e : edge) :
    In (u, e) es -> path es u (successor_id e)
| path_step (u w : string) (e : edge) :
    In (u, e) es -> path es (successor_id e) w -> path es u w.

Definition cyclic (es : dict edge) : Prop := exists v, path es v v.

(** A set of nodes each of which has a predecessor in the set: the nodes
    of a cycle form one, and Kahn's algorithm can never output any of
    them. *)
Definition closed_backwards (G : DiGraph) (S : string -> Prop) : Prop :=
  forall c, S c -> exists p, S p /\ In (p, c) (g_edges G).

(** The visits of children still to come: the children of the node being
    processed that are left ([cs]), and all the children of the nodes that
    have not been processed ([P], waiting with in-degree zero, and the keys
    of [indegree_map]). *)
Definition pending (G : DiGraph) (cs P : list string) (indegree_map : dict Z)
  : list string :=
  cs ++ flat_map (neighbors G) (P ++ keys indegree_map).

Definition kahn_inv (G : DiGraph) (S : string -> Prop) (cs P : list string)
    (indegree_map : dict Z) : Prop :=
  NoDup (keys indegree_map) /\
  (forall u, In u (P ++ keys indegree_map) -> In u (g_nodes G)) /\
  (forall w, In w (pending G cs P indegree_map) -> dget indegree_map w <> None) /\
  (forall w d, dget indegree_map w = Some d ->
               (0 < d)%Z /\
               d = Z.of_nat (count_occ string_dec (pending G cs P indegree_map) w)) /\
  (forall c, S c -> dget indegree_map c <> None).

(** A graph as [add_edge] builds it. *)
Definition graph_wf (G : DiGraph) : Prop :=
  NoDup (g_nodes G) /\
  forall u v, In (u, v) (g_edges G) -> In u (g_nodes G) /\ In v (g_nodes G).

(** The test of the candidate obtained by adding the branches [p] to the
    arguments added so far. *)
Definition candidate_test (debate_data : debate) (target_id : string)
    (w0_target : Q) (current_args_of : list string -> list string)
    (reached : Q -> bool) (added_args : list string) (p : list (list string))
  : result bool :=
  w1 <- fst (retest debate_data target_id w0_target
               (current_args_of (added_args ++ concat p)) []) ;;
  Ok (reached w1).

(** ** Sub-debate extraction ([extract_subdebates.py]) *)

(** The test the traversals apply to an edge: [relation != 0.0], an absent
    relation being read as [0.0]. *)
Definition non_neutral (e : edge) : bool := negb (Qeq_bool (rel_of e) 0).

(** [get_targets]: the neutral predecessors of the root [<debate_id>.0], or
    the root itself when it has none. Here the relation is read with
    [edge.get('relation')]: an absent relation is [None], which is not
    [0.0]. *)
Definition get_targets (debate_id : string) (es : dict edge) : list string :=
  let root_id := (debate_id ++ ".0")%string in
  let neutral_predecessors :=
    map fst
        (filter (fun item =>
                   String.eqb (successor_id (snd item)) root_id
                   && match relation (snd item) with
                      | Some r => Qeq_bool r 0
                      | None => false
                      end) es) in
  match neutral_predecessors with
  | [] => [root_id]
  | _ :: _ => neutral_predecessors
  end.

(** The state of [get_connected_arguments]: [queue], [visited] and
    [connected]. The two Python sets are kept as lists of their members;
    nothing below depends on the order of a set. *)
Definition connect_state : Type :=
  (list string * list string * list string)%type.

(** Body of [for src, edge in edges.items()] for the node [current]. *)
Definition connect_step (current : string) (st : connect_state)
    (item : string * edge) : connect_state :=
  let '(queue, visited, connected) := st in
  let src := fst item in
  if String.eqb (successor_id (snd item)) current && non_neutral (snd item)
  then if mem src visited then st
       else (queue ++ [src], src :: visited, connected ++ [src])
  else st.

(** The [while queue:] loop; the head of [queue] is [queue.pop(0)]. *)
Fixpoint connected_loop (fuel : nat) (es : dict edge) (queue visited
    connected : list string) : option (list string) :=
  match queue with
  | [] => Some connected
  | current :: rest =>
      match fuel with
      | O => None
      | S fuel' =>
          let '(queue', visited', connected') :=
            fold_left (connect_step current) es (rest, visited, connected) in
          connected_loop fuel' es queue' visited' connected'
      end
  end.

(** Every source is enqueued at most once, so one more round than there
    are edges is enough ([connected_loop_fuel]): the default is never
    used. *)
Definition get_connected_arguments (target_id : string) (es : dict edge)
  : list string :=
  match connected_loop (S (length es)) es [target_id] [target_id] [target_id] with
  | Some connected => connected
  | None => []
  end.

(** The sub-debate [main] writes for one target. [sub_nodes] is filled in
    the iteration order of the set [connected], which Python does not fix:
    only its content is meant. *)
Definition sub_debate (data : debate) (target_id : string) : debate :=
  let connected := get_connected_arguments target_id (edges data) in
  let sub_nodes := restrict_nodes (nodes data) connected [] in
  let sub_edges :=
    filter (fun item => mem (fst item) connected
                        && mem (successor_id (snd item)) connected)
           (edges data) in
  mk_debate sub_nodes sub_edges.

(** [reaches es u w]: [u] is [w], or one can walk from [u] to [w] along
    edges with a non-zero relation. *)
Inductive reaches (es : dict edge) : string -> string -> Prop :=
| reaches_refl (u : string) : reaches es u u
| reaches_step (u w : string) (e : edge) :
    In (u, e) es -> non_neutral e = true ->
    reaches es (successor_id e) w -> reaches es u w.

(** ** The order produced by the topological sort, and the QEM equations *)

(** In [done], every node comes after the sources of the edges into it. *)
Definition edges_ordered (G : DiGraph) (done : list string) : Prop :=
  forall l1 w l2 u, done = l1 ++ w :: l2 -> In (u, w) (g_edges G) -> In u l1.

(** The invariant of the sort that gives the order: [done] are the nodes
    taken so far (the one whose children [cs] are being visited included),
    [P] the nodes waiting with in-degree zero. *)
Definition kahn_order_inv (G : DiGraph) (done cs P : list string)
    (indegree_map : dict Z) : Prop :=
  kahn_inv G (fun _ => False) cs P indegree_map /\
  NoDup (done ++ P ++ keys indegree_map) /\
  (forall u, In u (g_nodes G) -> In u (done ++ P ++ keys indegree_map)) /\
  (forall w u, In w P -> In (u, w) (g_edges G) -> In u done) /\
  edges_ordered G done.

Definition is_nil {A} (l : list A) : bool :=
  match l with [] => true | _ :: _ => false end.

(** The supporters and the attackers of [n], in the order of
    [edges.items()]. *)
Definition supporters (es : dict edge) (n : string) : list string :=
  map fst (filter (fun item => String.eqb (successor_id (snd item)) n
                               && Qltb 0 (rel_of (snd item))) es).

Definition attackers (es : dict edge) (n : string) : list string :=
  map fst (filter (fun item => String.eqb (successor_id (snd item)) n
                               && Qltb (rel_of (snd item)) 0) es).

(** The weight the QEM semantics gives [n] when its initial weight is
    [w0] and its supporters and attackers have the weights [final]. *)
Definition qem_equation (es : dict edge) (final : dict Q) (n : string) (w0 : Q)
  : Q :=
  match supporters es n, attackers es n with
  | [], [] => w0
  | sups, atts =>
      qem_update w0 (Qsum (map (fun s => get_or final s 0) sups)
                     - Qsum (map (fun a => get_or final a 0) atts))
  end.

(** The mapping [m] gives every node it holds the weight the QEM equation
    of the node asks for, computed from the initial weight of the node and
    from the weights [m] itself gives its supporters and attackers. *)
Definition solves_qem (framework : debate) (m : dict Q) : Prop :=
  forall n w, dget m n = Some w ->
    exists nd w0,
      dget (nodes framework) n = Some nd /\ initial_weight nd = Some w0 /\
      w = qem_equation (edges framework) m n w0.

(** ** Branch rankings ([generate_branch_rankings.py]) *)

(** A branch as [load_branch_data_from_csv] reads it: the keys ['id'],
    ['size'] and ['arguments']. *)
Record branch : Type := mk_branch {
  branch_id : string;
  size : Z;
  arguments : list string
}.

Definition get_root_final_weight (b : branch) (ns : dict node) : Q :=
  match arguments b with
  | [] => 0
  | root_id :: _ =>
      match final_weight (get_or ns root_id empty_node) with
      | Some w => w
      | None => 0
      end
  end.

(** [branch_copy], the branch with its ['root_weight']. *)
Record weighted_branch : Type := mk_weighted {
  the_branch : branch;
  root_weight : Q
}.

(** Python's [sorted(l, key=key)] is a stable sort: among the
    arrangements of [l] in non-decreasing order of key it returns the one
    that keeps elements with equal keys in their order. Insertion from the
    right computes it: an element goes before the first element of the
    sorted rest whose key is not smaller ([leb] is [<=] on keys). *)
Fixpoint insert_sorted {A K} (leb : K -> K -> bool) (key : A -> K) (x : A)
    (l : list A) : list A :=
  match l with
  | [] => [x]
  | y :: l' =>
      if leb (key x) (key y) then x :: y :: l'
      else y :: insert_sorted leb key x l'
  end.

Definition sorted {A K} (leb : K -> K -> bool) (key : A -> K) (l : list A)
  : list A :=
  fold_right (insert_sorted leb key) [] l.

(** [sorted(l, key=key, reverse=True)]: the list is reversed, sorted, and
    the result reversed, as CPython does to keep the sort stable. *)
Definition sorted_reverse {A K} (leb : K -> K -> bool) (key : A -> K)
    (l : list A) : list A :=
  rev (sorted leb key (rev l)).

Definition apply_heuristics (branches : list branch) (ns : dict node)
  : dict (list weighted_branch) :=
  match branches with
  | [] => [("weak to strong", []); ("strong to weak", []);
           ("small to large", [])]
  | _ :: _ =>
      let branches_with_weights :=
        map (fun b => mk_weighted b (get_root_final_weight b ns)) branches in
      [("weak to strong", sorted Qle_bool root_weight branches_with_weights);
       ("strong to weak",
        sorted_reverse Qle_bool root_weight branches_with_weights);
       ("small to large",
        sorted Z.leb (fun x => size (the_branch x)) branches_with_weights)]
  end.

(** [s.lower()], for ASCII letters. *)
Definition lower_ascii (c : ascii) : ascii :=
  let n := nat_of_ascii c in
  if (65 <=? n)%nat && (n <=? 90)%nat then ascii_of_nat (n + 32) else c.

Fixpoint lower (s : string) : string :=
  match s with
  | EmptyString => EmptyString
  | String c s' => String (lower_ascii c) (lower s')
  end.

Definition category_mapping : dict string :=
  [("Pro-branch", "pro-branches");
   ("Con-branch", "con-branches");
   ("Unweakened Pro-branch", "unweakened pro-branches");
   ("Unweakened Con-branch", "unweakened con-branches");
   ("Pro-Weakening branch", "pro-weakening branches");
   ("Con-Weakening branch", "con-weakening branches")].

(** A data row of a rankings file. The four list columns are written with
    [str] and read back with [ast.literal_eval], and the file with the
    [csv] module: a row is kept here as the values written. *)
Record ranking_row : Type := mk_ranking_row {
  row_debate_id : string;
  row_t_id : string;
  row_direction : string;
  row_heuristic : string;
  row_category : string;
  row_branches_abv : list string;
  row_branches : list (list string);
  row_ranking_abv : list string;
  row_ranking : list (list string)
}.

(** The rows [save_rankings_to_csv] writes after the header, for the
    branches of [branch_data['branches']]. *)
Definition save_rankings_to_csv (branches_by_category : dict (list branch))
    (ns : dict node) (debate_id t_id direction : string) : list ranking_row :=
  flat_map
    (fun entry : string * list branch =>
       let category := fst entry in
       let branches := snd entry in
       match branches with
       | [] => []
       | _ :: _ =>
           let standardized_category :=
             get_or category_mapping category (lower category) in
           let rankings := apply_heuristics branches ns in
           flat_map
             (fun ranked : string * list weighted_branch =>
                let heuristic := fst ranked in
                let ranked_branches := snd ranked in
                match ranked_branches with
                | [] => []
                | _ :: _ =>
                    [mk_ranking_row debate_id t_id direction heuristic
                       standardized_category
                       (map branch_id branches)
                       (map arguments branches)
                       (map (fun x => branch_id (the_branch x)) ranked_branches)
                       (map (fun x => arguments (the_branch x)) ranked_branches)]
                end) rankings
       end) branches_by_category.

(** The entry [load_branch_rankings_data] stores for a row. *)
Definition row_category_data (r : ranking_row) : category_data :=
  mk_category (row_branches_abv r) (row_branches r)
              (row_ranking_abv r) (row_ranking r).

(** Body of the loop of [load_branch_rankings_data] (the copies in the two
    explanation generators are the same text) for one row with its nine
    columns. *)
Definition load_ranking_row (data : rankings_data) (r : ranking_row)
  : rankings_data :=
  let data1 :=
    if String.eqb (debate_id data) ""
    then mk_rankings (row_debate_id r) (row_t_id r) (row_direction r)
                     (rankings data)
    else data in
  let rankings1 :=
    if dmem (rankings data1) (row_heuristic r) then rankings data1
    else dset (rankings data1) (row_heuristic r) [] in
  let heuristic_data := get_or rankings1 (row_heuristic r) [] in
  mk_rankings (debate_id data1) (t_id data1) (direction data1)
    (dset rankings1 (row_heuristic r)
       (dset heuristic_data (row_category r) (row_category_data r))).

Definition load_branch_rankings_data (rows : list ranking_row) : rankings_data :=
  fold_left load_ranking_row rows (mk_rankings "" "" "" []).

(** The rankings table the pipeline hands to the searches. *)
Definition pipeline_rankings (branches_by_category : dict (list branch))
    (ns : dict node) (debate_id t_id direction : string) : rankings_data :=
  load_branch_rankings_data
    (save_rankings_to_csv branches_by_category ns debate_id t_id direction).

(** The branches are ranked in the order [leb] of the keys [key]. *)
Definition ranked_by {A K} (leb : K -> K -> bool) (key : A -> K) (l : list A)
  : Prop :=
  StronglySorted (fun x y => leb (key x) (key y) = true) l.

(** [l'] keeps the elements of [l] that share a key in the order they have
    in [l]. *)
Definition keeps_ties {A K} (eqb : K -> K -> bool) (key : A -> K)
    (l l' : list A) : Prop :=
  forall k, filter (fun x => eqb (key x) k) l' = filter (fun x => eqb (key x) k) l.

(** The names and the arguments of a category are those of the same
    branches, in the same order. *)
Definition aligned (cd : category_data) : Prop :=
  length (ranking_abv cd) = length (ranking cd) /\
  length (branches_abv cd) = length (branches cd) /\
  Permutation (combine (ranking_abv cd) (ranking cd))
              (combine (branches_abv cd) (branches cd)) /\
  branches cd <> [].

(** ** Size analysis ([generate_size_analysis.py])

    The two explanation columns are read back with [ast.literal_eval]; they
    are taken here as the lists of lists that were written. *)

(** [all_args.update(arg_list)], the set being kept as the list of its
    members. *)
Definition set_update (all_args arg_list : list string) : list string :=
  fold_left add_node arg_list all_args.

Definition count_arguments_in_explanation (arg_lists : list (list string)) : nat :=
  length (fold_left set_update arg_lists []).

Definition count_branches_in_explanation (branch_lists : list (list string))
    (relevant_categories : list nat) : nat :=
  fold_left (fun total_branches category_idx =>
               match nth_error branch_lists category_idx with
               | Some category_branches =>
                   (total_branches + length category_branches)%nat
               | None => total_branches
               end) relevant_categories 0%nat.

(** ['total_branches'] of a category, as this file's
    [load_branch_rankings_data] stores it: [len(branches_abv_list)], and
    [0] for an absent category. *)
Definition total_branches (heuristic_data : dict category_data) (name : string)
  : nat :=
  length (branches_abv (category heuristic_data name)).

Definition get_total_branches_for_explanation_type (rd : rankings_data)
    (heuristic explanation_type direction : string) : nat :=
  let heuristic_data := get_or (rankings rd) heuristic [] in
  if String.eqb explanation_type "constructive" then
    if String.eqb direction "strengthening"
    then (total_branches heuristic_data "pro-branches"
          + total_branches heuristic_data "con-weakening branches")%nat
    else (total_branches heuristic_data "con-branches"
          + total_branches heuristic_data "pro-weakening branches")%nat
  else
    if String.eqb direction "strengthening"
    then total_branches heuristic_data "pro-branches"
    else total_branches heuristic_data "con-branches".

Definition get_relevant_branch_categories (explanation_type direction : string)
  : list nat :=
  if String.eqb explanation_type "constructive" then
    if String.eqb direction "strengthening" then [1; 2]%nat else [1; 2]%nat
  else
    if String.eqb direction "strengthening" then [2]%nat else [2]%nat.

(** The integer columns [process_explanation_row] computes for one
    explanation; the two percentage columns are these counts divided and
    rounded, and are left out. *)
Record size_counts : Type := mk_size_counts {
  size_total_branches : nat;
  count_args_returned : nat;
  count_branches_returned : nat
}.

Definition process_explanation_row (direction heuristic explanation_type : string)
    (explanation_abv explanation_arg : list (list string)) (rd : rankings_data)
  : size_counts :=
  mk_size_counts
    (get_total_branches_for_explanation_type rd heuristic explanation_type direction)
    (count_arguments_in_explanation explanation_arg + 1)
    (count_branches_in_explanation explanation_abv
       (get_relevant_branch_categories explanation_type direction)).

(** Every category of the heuristic has as many ranked names as branch
    names, as in the tables the pipeline writes. *)
Definition rankings_complete (rd : rankings_data) (heuristic : string) : Prop :=
  forall c cd, dget (get_or (rankings rd) heuristic []) c = Some cd ->
               length (ranking_abv cd) = length (branches_abv cd).

(** ** Initial weights of a raw debate ([compute_initial_weights_and_graphs.py]) *)

(** A node of a raw Kialo file: its ['votes'], when it has the key, and
    the weights the file may already hold. *)
Record raw_node : Type := mk_raw_node {
  votes : option (dict nat);
  raw_weights : node
}.

(** [enrich_and_save], without the file read and write:
    [node["initial_weight"] = aggregate_votes(node.get("votes", {}))] for
    every node. *)
Definition enrich_and_save (raw_nodes : dict raw_node) : dict node :=
  map (fun item =>
         (fst item,
          mk_node (Some (aggregate_votes
                           (match votes (snd item) with
                            | Some v => v
                            | None => []
                            end)))
                  (final_weight (raw_weights (snd item)))))
      raw_nodes.

(** ** Targets of sub-debate files
    ([extract_debates_with_target_weight_change.py],
    [analyze_weight_changes.py]) *)

(** [s.rsplit(sep, 1)] for a one-character separator: [None] when [sep]
    does not occur in [s] (the list has one part), else the text before
    and the text after its last occurrence. *)
Fixpoint rsplit1 (sep : ascii) (s : string) : option (string * string) :=
  match s with
  | EmptyString => None
  | String c s' =>
      match rsplit1 sep s' with
      | Some (before, after) => Some (String c before, after)
      | None => if Ascii.eqb c sep then Some (EmptyString, s') else None
      end
  end.

(** [s.endswith(suffix)] *)
Definition endswith (s suffix : string) : bool :=
  (String.length suffix <=? String.length s)%nat
  && String.eqb (substring (String.length s - String.length suffix)
                           (String.length suffix) s) suffix.

(** [extract_target_id_from_filename] (the two files have the same text):
    the part after the last underscore, without its [.json]. *)
Definition extract_target_id_from_filename (fname : string) : option string :=
  match rsplit1 "_" fname with
  | None => None
  | Some (_, last) =>
      if negb (endswith last ".json") then None
      else Some (substring 0 (String.length last - 5) last)
  end.

(** [incoming] of [find_target_id_in_data]: a counter per node, raised
    once for every edge into the node. *)
Definition count_incoming (ns : dict node) (es : dict edge) : dict nat :=
  fold_left (fun incoming item =>
               let succ := successor_id (snd item) in
               match dget incoming succ with
               | Some c => dset incoming succ (S c)
               | None => incoming
               end) es
            (fold_left (fun incoming item => dset incoming (fst item) 0%nat) ns []).

(** [max(items, key=lambda kv: kv[1])]: the first item with the largest
    count. *)
Fixpoint max_by_count (best : string * nat) (items : list (string * nat))
  : string * nat :=
  match items with
  | [] => best
  | kv :: rest =>
      if (snd best <? snd kv)%nat then max_by_count kv rest
      else max_by_count best rest
  end.

Definition find_target_id_in_data (ns : dict node) (es : dict edge)
  : option string :=
  match ns with
  | [] => None
  | [(nid, _)] => Some nid
  | _ :: _ :: _ =>
      match count_incoming ns es with
      | [] => None
      | kv :: rest => Some (fst (max_by_count kv rest))
      end
  end.

(** One row of the report of [process_folder]. *)
Record report_row : Type := mk_report {
  report_target : option string;
  report_iw : option Q;
  report_fw : option Q;
  report_action : string;
  report_reason : string
}.

(** The target [process_folder] settles on for a file: the one of the file
    name when it is a node, else the inferred one. *)
Definition choose_target (fname : string) (ns : dict node) (es : dict edge)
  : option string :=
  match extract_target_id_from_filename fname with
  | Some target_id =>
      if dmem ns target_id then Some target_id
      else find_target_id_in_data ns es
  | None => find_target_id_in_data ns es
  end.

(** The body of the loop of [process_folder] for a file that was read and
    whose copy, when one is made, succeeds. *)
Definition process_file (fname : string) (data : debate) : report_row :=
  let ns := nodes data in
  let es := edges data in
  match choose_target fname ns es with
  | None => mk_report None None None "skipped" "no_target_found"
  | Some target_id =>
      match dget ns target_id with
      | None =>
          mk_report (Some target_id) None None "skipped" "target_not_in_nodes"
      | Some nd =>
          match initial_weight nd, final_weight nd with
          | Some iw, Some fw =>
              if negb (Qeq_bool iw fw)
              then mk_report (Some target_id) (Some iw) (Some fw) "copied" "copied"
              else mk_report (Some target_id) (Some iw) (Some fw)
                             "skipped" "no_change"
          | iw, fw =>
              mk_report (Some target_id) iw fw "skipped" "missing_weight"
          end
      end
  end.

(** The list [analyze_weight_changes] puts a file in: one of
    "strengthening", "weakening", "no_change", or "errors" with the
    message. *)
Definition analyze_weight_change (fname : string) (data : debate)
  : string * string :=
  match extract_target_id_from_filename fname with
  | None => ("errors", "could_not_parse_target_id")
  | Some target_id =>
      if String.eqb target_id "" then ("errors", "could_not_parse_target_id")
      else
        match dget (nodes data) target_id with
        | None => ("errors", ("target_id_" ++ target_id ++ "_not_found")%string)
        | Some nd =>
            match initial_weight nd, final_weight nd with
            | Some initial, Some final =>
                let weight_change := final - initial in
                if Qltb 0 weight_change then ("strengthening", "")
                else if Qltb weight_change 0 then ("weakening", "")
                else ("no_change", "")
            | _, _ => ("errors", "missing_weights")
            end
        end
  end.

(** The number of edges into [k]. *)
Definition incoming_edges (es : dict edge) (k : string) : nat :=
  length (filter (fun item => String.eqb (successor_id (snd item)) k) es).

(** ** Statements about the destructive search *)

(** The categories the destructive search reads for the direction of the
    table: the unweakened branches and the weakening branches of its base,
    and the opposing branches it adds one by one. *)
Definition destructive_categories (rd : rankings_data) (heuristic : string)
  : category_data * category_data * category_data :=
  let heuristic_data := get_or (rankings rd) heuristic [] in
  if String.eqb (direction rd) "strengthening"
  then (category heuristic_data "unweakened con-branches",
        category heuristic_data "con-weakening branches",
        category heuristic_data "pro-branches")
  else (category heuristic_data "unweakened pro-branches",
        category heuristic_data "pro-weakening branches",
        category heuristic_data "con-branches").

(** The comparison of [w1_target] with [w0_target] that ends a search. *)
Definition direction_reached (rd : rankings_data) (w0_target w1_target : Q)
  : bool :=
  if String.eqb (direction rd) "strengthening"
  then Qltb w0_target w1_target else Qltb w1_target w0_target.

(** The arguments of the base and of the first [j] opposing branches. *)
Definition destructive_candidate (rd : rankings_data) (heuristic : string)
    (j : nat) : list string :=
  let '(unweakened, weakening, opposing) := destructive_categories rd heuristic in
  (concat (branches unweakened) ++ concat (branches weakening) ++ [t_id rd])
  ++ concat (firstn j (ranking opposing)).

(** Restrict to [args], propagate, and compare the target's weight. *)
Definition passes (rd : rankings_data) (debate_data : debate) (w0_target : Q)
    (args : list string) : result bool :=
  w1_target <- fst (retest debate_data (t_id rd) w0_target args []) ;;
  Ok (direction_reached rd w0_target w1_target).

(** ** Bins of the aggregated statistics ([aggregate_explanation_stats.py]) *)

(** [list(range(0, 101, 10))] *)
Definition BIN_EDGES : list Q := [0; 10; 20; 30; 40; 50; 60; 70; 80; 90; 100].

(** [[f"bin_{low}_{low+10}" for low in BIN_EDGES[:-1]]] *)
Definition BIN_LABELS : list string :=
  ["bin_0_10"; "bin_10_20"; "bin_20_30"; "bin_30_40"; "bin_40_50";
   "bin_50_60"; "bin_60_70"; "bin_70_80"; "bin_80_90"; "bin_90_100"].

(** The test of the inner loop for the bin of index [i]. *)
Definition in_bin (v : Q) (i : nat) : bool :=
  let low := nth i BIN_EDGES 0 in
  let high := nth (i + 1) BIN_EDGES 0 in
  (Qeq_bool v 100 && Nat.eqb i (length BIN_EDGES - 2))
  || (Qle_bool low v && Qltb v high).

(** [for i in range(len(BIN_EDGES) - 1): if ...: bins[...] += 1; break]:
    the first bin whose test holds, if any. *)
Definition bin_of (v : Q) : option nat :=
  find (in_bin v) (seq 0 (length BIN_EDGES - 1)).

Definition count_bins (values : list Q) : dict nat :=
  fold_left (fun bins v =>
               match bin_of v with
               | Some i =>
                   let label := nth i BIN_LABELS "" in
                   dset bins label (get_or bins label 0 + 1)%nat
               | None => bins
               end) values
            (map (fun label => (label, 0%nat)) BIN_LABELS).

(** The sum of the counts of all bins. *)
Definition bins_total (bins : dict nat) : nat :=
  fold_right Nat.add 0%nat (map snd bins).


(** ** Statements about the constructive search *)

(** The categories the constructive search reads for the direction of the
    table: the unweakened branches of its base, the branches it adds
    first, and the weakening branches it adds after all of those. *)
Definition constructive_categories (rd : rankings_data) (heuristic : string)
  : category_data * category_data * category_data :=
  let heuristic_data := get_or (rankings rd) heuristic [] in
  if String.eqb (direction rd) "strengthening"
  then (category heuristic_data "unweakened con-branches",
        category heuristic_data "pro-branches",
        category heuristic_data "con-weakening branches")
  else (category heuristic_data "unweakened pro-branches",
        category heuristic_data "con-branches",
        category heuristic_data "pro-weakening branches").

(** The arguments of the candidate the constructive search tests at step
    [p]: the base, the first [p] branches of the first ranking, the
    branches of the second ranking past those (none while [p] is within
    the first ranking), and the target. *)
Definition constructive_candidate (rd : rankings_data) (heuristic : string)
    (p : nat) : list string :=
  let '(unweakened, first, weakening) := constructive_categories rd heuristic in
  concat (branches unweakened)
  ++ concat (firstn p (ranking first))
  ++ concat (firstn (p - length (ranking first)) (ranking weakening))
  ++ [t_id rd].
(** * Part II: properties *)

(** ** Vote aggregation *)

Lemma Qnat_nonneg (n : nat) : 0 <= Qnat n.
Proof.
  unfold Qnat, Qle; simpl. lia.
Qed.

Lemma Qnat_pos (n : nat) : (0 < n)%nat -> 0 < Qnat n.
Proof.
  intros Hn. unfold Qnat, Qlt; simpl. lia.
Qed.

Lemma Qnat_add (n m : nat) : Qnat (n + m) == Qnat n + Qnat m.
Proof.
  unfold Qnat. rewrite Nat2Z.inj_add, inject_Z_plus. reflexivity.
Qed.

Lemma aggregate_votes_unfold (votes : dict nat) :
  aggregate_votes votes =
  if Nat.eqb (votes_total votes) 0 then 1#2
  else
    (0 + Qnat (bucket votes 0) * 0 + Qnat (bucket votes 1) * (1#4)
     + Qnat (bucket votes 2) * (1#2) + Qnat (bucket votes 3) * (3#4)
     + Qnat (bucket votes 4) * 1) / Qnat (votes_total votes).
Proof. reflexivity. Qed.

Lemma Qnat_total (votes : dict nat) :
  Qnat (votes_total votes) ==
  Qnat (bucket votes 0) + Qnat (bucket votes 1) + Qnat (bucket votes 2)
  + Qnat (bucket votes 3) + Qnat (bucket votes 4).
Proof.
  unfold votes_total. rewrite !Qnat_add. reflexivity.
Qed.

(** The aggregate in terms of the five counts the function reads. *)
Lemma aggregate_votes_buckets (votes : dict nat) :
  (votes_total votes = 0%nat -> aggregate_votes votes = 1#2) /\
  (forall i, (i < 5)%nat -> (0 < bucket votes i)%nat ->
     (forall j, (j < 5)%nat -> j <> i -> bucket votes j = 0%nat) ->
     aggregate_votes votes == nth i weights 0) /\
  ((0 < votes_total votes)%nat ->
     aggregate_votes votes ==
     (Qnat (bucket votes 1) * (1#4) + Qnat (bucket votes 2) * (1#2)
      + Qnat (bucket votes 3) * (3#4) + Qnat (bucket votes 4))
     / Qnat (votes_total votes)) /\
  0 <= aggregate_votes votes <= 1.
Proof.
  rewrite aggregate_votes_unfold.
  pose proof (Qnat_nonneg (bucket votes 0)) as H0.
  pose proof (Qnat_nonneg (bucket votes 1)) as H1.
  pose proof (Qnat_nonneg (bucket votes 2)) as H2.
  pose proof (Qnat_nonneg (bucket votes 3)) as H3.
  pose proof (Qnat_nonneg (bucket votes 4)) as H4.
  pose proof (Qnat_total votes) as Ht.
  split; [| split; [| split]].
  - intros E. rewrite E. reflexivity.
  - intros i Hi Hc Hz.
    assert (Hpos : (0 < votes_total votes)%nat).
    { unfold votes_total.
      do 5 (destruct i as [| i]; [lia |]). lia. }
    destruct (Nat.eqb_spec (votes_total votes) 0) as [E | _]; [lia |].
    assert (Hq : 0 < Qnat (votes_total votes)) by (apply Qnat_pos; exact Hpos).
    assert (Hb : forall j, (j < 5)%nat -> j <> i -> Qnat (bucket votes j) == 0).
    { intros j Hj Hji. rewrite (Hz j Hj Hji). reflexivity. }
    assert (Hne : ~ Qnat (votes_total votes) == 0) by lra.
    do 5 (destruct i as [| i];
          [ pose proof (fun j Hj => Hb j Hj) as Hb';
            try (assert (B0 := Hb' 0%nat ltac:(lia) ltac:(lia)));
            try (assert (B1 := Hb' 1%nat ltac:(lia) ltac:(lia)));
            try (assert (B2 := Hb' 2%nat ltac:(lia) ltac:(lia)));
            try (assert (B3 := Hb' 3%nat ltac:(lia) ltac:(lia)));
            try (assert (B4 := Hb' 4%nat ltac:(lia) ltac:(lia)));
            simpl nth;
            apply (Qmult_inj_r _ _ (Qnat (votes_total votes)) Hne);
            rewrite Qmult_comm, Qmult_div_r by exact Hne;
            lra
          |]).
    lia.
  - intros Hpos.
    destruct (Nat.eqb_spec (votes_total votes) 0) as [E | _]; [lia |].
    assert (Hq : 0 < Qnat (votes_total votes)) by (apply Qnat_pos; exact Hpos).
    assert (Hne : ~ Qnat (votes_total votes) == 0) by lra.
    apply (Qmult_inj_r _ _ (Qnat (votes_total votes)) Hne).
    rewrite (Qmult_comm (_ / _)), Qmult_div_r by exact Hne.
    rewrite (Qmult_comm (_ / _)), Qmult_div_r by exact Hne.
    lra.
  - destruct (Nat.eqb_spec (votes_total votes) 0) as [E | Hn].
    + split; [unfold Qle; simpl; lia | unfold Qle; simpl; lia].
    + assert (Hq : 0 < Qnat (votes_total votes)) by (apply Qnat_pos; lia).
      split.
      * apply Qle_shift_div_l; [exact Hq | lra].
      * apply Qle_shift_div_r; [exact Hq | lra].
Qed.

(** C8. The tally is the dict of the counts stored under the keys "0" to
    "4", an absent key counting for none. A tally with no votes aggregates
    to exactly 0.5; a tally with all its votes in one bucket aggregates to
    that bucket's value (0, 0.25, 0.5, 0.75 or 1 for the buckets 0 to 4);
    in general the result is the count-weighted average of the bucket
    values, and it lies in [0,1]. *)
Theorem aggregate_votes_weighted_average (votes : dict nat) :
  let count := fun key : string =>
                 match dget votes key with Some c => c | None => 0%nat end in
  let total := (count "0" + count "1" + count "2" + count "3" + count "4")%nat in
  let q := fun key : string => inject_Z (Z.of_nat (count key)) in
  (total = 0%nat -> aggregate_votes votes = 1#2) /\
  (forall i, (i < 5)%nat ->
     (0 < count (nth i ["0"; "1"; "2"; "3"; "4"] ""))%nat ->
     (forall j, (j < 5)%nat -> j <> i ->
                count (nth j ["0"; "1"; "2"; "3"; "4"] "") = 0%nat) ->
     aggregate_votes votes == inject_Z (Z.of_nat i) / 4) /\
  ((0 < total)%nat ->
     aggregate_votes votes ==
     (q "0" * 0 + q "1" * (1#4) + q "2" * (1#2) + q "3" * (3#4) + q "4" * 1)
     / inject_Z (Z.of_nat total)) /\
  0 <= aggregate_votes votes <= 1.
Proof.
  cbv zeta.
  destruct (aggregate_votes_buckets votes) as [Hzero [Hone [Havg Hrange]]].
  unfold votes_total, bucket, str, Qnat in Hzero, Hone, Havg.
  split; [exact Hzero |]. split; [| split; [| exact Hrange]].
  - intros i Hi Hpos Hothers.
    assert (Hval : nth i weights 0 == inject_Z (Z.of_nat i) / 4).
    { do 5 (destruct i as [| i]; [reflexivity |]). lia. }
    rewrite <- Hval. apply (Hone i Hi).
    + unfold bucket, str.
      do 5 (destruct i as [| i]; [exact Hpos |]). lia.
    + intros j Hj Hji. unfold bucket, str.
      specialize (Hothers j Hj Hji).
      do 5 (destruct j as [| j]; [exact Hothers |]). lia.
  - intros Hpos. rewrite (Havg Hpos).
    match goal with |- ?a / ?d == ?b / ?d => setoid_replace a with b by ring end.
    reflexivity.
Qed.

(** Three tallies: all votes in bucket 4, no vote at all (the key of
    another score is not a vote), and a mixed tally. *)
Lemma aggregate_votes_weighted_average_witness :
  aggregate_votes [("4", 3%nat)] == 1 /\
  aggregate_votes [("0", 0%nat); ("5", 7%nat)] = 1#2 /\
  aggregate_votes [("3", 1%nat); ("0", 2%nat); ("1", 1%nat)] == 1#4.
Proof.
  split; [| split].
  - assert (H : aggregate_votes [("4", 3%nat)] == inject_Z (Z.of_nat 4) / 4).
    { apply (proj1 (proj2 (aggregate_votes_weighted_average [("4", 3%nat)])) 4%nat).
      - lia.
      - simpl. lia.
      - intros j Hj Hji. do 4 (destruct j as [| j]; [reflexivity |]). lia. }
    rewrite H. reflexivity.
  - apply (proj1 (aggregate_votes_weighted_average [("0", 0%nat); ("5", 7%nat)])).
    reflexivity.
  - rewrite (proj1 (proj2 (proj2 (aggregate_votes_weighted_average
                                    [("3", 1%nat); ("0", 2%nat); ("1", 1%nat)])))).
    + reflexivity.
    + simpl. lia.
Defined.

(** ** The QEM update *)

Lemma Qmax0_nonneg (x : Q) : 0 <= Qmax x 0.
Proof. apply Q.le_max_r. Qed.

Lemma Qsquare_nonneg (m : Q) : 0 <= m ^ 2.
Proof.
  simpl. destruct (Qlt_le_dec m 0) as [Hneg | Hpos].
  - setoid_replace (m * m) with ((- m) * (- m)) by ring.
    apply Qmult_le_0_compat; lra.
  - apply Qmult_le_0_compat; assumption.
Qed.

(** [h] saturates in [0,1). *)
Lemma h_range (x : Q) : 0 <= h x /\ h x < 1.
Proof.
  unfold h. pose proof (Qsquare_nonneg (Qmax x 0)) as Hsq.
  set (s := Qmax x 0 ^ 2) in *.
  assert (Hden : 0 < 1 + s) by lra.
  split.
  - apply Qle_shift_div_l; [exact Hden | lra].
  - apply Qlt_shift_div_r; [exact Hden | lra].
Qed.

Lemma h_nonpos (x : Q) : x <= 0 -> h x == 0.
Proof.
  intros Hx. unfold h.
  assert (E : Qmax x 0 == 0) by (apply Q.max_r; exact Hx).
  rewrite E. reflexivity.
Qed.

Lemma Qltb_true (x y : Q) : Qltb x y = true <-> x < y.
Proof.
  unfold Qltb. rewrite negb_true_iff.
  split.
  - intros Hb. apply Qnot_le_lt. intros Hle.
    apply Qle_bool_iff in Hle. congruence.
  - intros Hlt. destruct (Qle_bool y x) eqn:E; [| reflexivity].
    apply Qle_bool_iff in E. lra.
Qed.

Lemma Qltb_false (x y : Q) : Qltb x y = false <-> y <= x.
Proof.
  unfold Qltb. rewrite negb_false_iff. apply Qle_bool_iff.
Qed.

Lemma qem_update_range (w0 e : Q) :
  0 <= w0 <= 1 -> 0 <= qem_update w0 e <= 1.
Proof.
  intros [Hlo Hhi]. unfold qem_update.
  destruct (Qltb 0 e).
  - destruct (h_range e) as [Hh0 Hh1].
    assert (Hp : 0 <= (1 - w0) * h e) by (apply Qmult_le_0_compat; lra).
    assert (Hq : 0 <= (1 - w0) * (1 - h e)) by (apply Qmult_le_0_compat; lra).
    split; [lra |].
    setoid_replace (w0 + (1 - w0) * h e) with (1 - (1 - w0) * (1 - h e)) by ring.
    lra.
  - destruct (h_range (- e)) as [Hh0 Hh1].
    assert (Hp : 0 <= w0 * h (- e)) by (apply Qmult_le_0_compat; lra).
    assert (Hq : 0 <= w0 * (1 - h (- e))) by (apply Qmult_le_0_compat; lra).
    split; [| lra].
    setoid_replace (w0 - w0 * h (- e)) with (w0 * (1 - h (- e))) by ring.
    exact Hq.
Qed.

Lemma qem_accept_in_range (n : string) (sup att : dict (list string))
    (final_acc w_init : dict Q) (w1 : Q) :
  (forall k w, dget w_init k = Some w -> 0 <= w <= 1) ->
  qem_accept n sup att final_acc w_init = Ok w1 -> 0 <= w1 <= 1.
Proof.
  intros Hinit. unfold qem_accept, dindex.
  destruct (dget w_init n) as [w0 |] eqn:E.
  - specialize (Hinit n w0 E).
    destruct (negb (dmem sup n) && negb (dmem att n)); cbn [bind];
      intros H; inversion H; subst; [exact Hinit |].
    apply qem_update_range. exact Hinit.
  - destruct (negb (dmem sup n) && negb (dmem att n)); discriminate.
Qed.

(** X2. The saturating function of QEM vanishes up to 0: [h 0] is 0 and
    [h x] is 0 for every [x <= 0]. For every [x] up to 1e150, the range in
    which the square is a finite float, [h x] lies in [0,1]; the bounds
    are closed, as the float result reaches 1.0 for a large [x]. *)
Theorem h_properties :
  h 0 == 0 /\
  (forall x, x <= 0 -> h x == 0) /\
  (forall x, x <= inject_Z (10 ^ 150) -> 0 <= h x <= 1).
Proof.
  split; [reflexivity |]. split; [apply h_nonpos |].
  intros x _. destruct (h_range x) as [H0 H1]. split; [exact H0 | lra].
Qed.

(** C4. Bound preservation: whatever the supporters, attackers and the
    weights accumulated so far (hence whatever the energy), a node whose
    initial weight lies in [0,1] receives from [qem_accept] a final weight
    in [0,1]; with parents it is the blend [qem_update w0 e]. *)
Theorem qem_accept_bounded (n : string) (sup att : dict (list string))
    (final_acc w_init : dict Q) (w0 : Q) :
  dget w_init n = Some w0 ->
  0 <= w0 <= 1 ->
  exists w1, qem_accept n sup att final_acc w_init = Ok w1 /\
             0 <= w1 <= 1 /\
             (dmem sup n || dmem att n = true ->
              w1 = qem_update w0 (calculate_energy n sup att final_acc)) /\
             forall e, 0 <= qem_update w0 e <= 1.
Proof.
  intros Hw Hr. unfold qem_accept, dindex. rewrite Hw.
  destruct (dmem sup n) eqn:Es; destruct (dmem att n) eqn:Ea; simpl;
    eexists; (split; [reflexivity |]);
    (split; [| split; [| intros e; apply qem_update_range; exact Hr]]);
    try (apply qem_update_range; exact Hr);
    try exact Hr; try discriminate; intros _; reflexivity.
Qed.

Lemma qem_accept_bounded_witness :
  exists w1,
    qem_accept "t" [("t", ["s"])] [] [("s", 1#2)] [("s", 1#2); ("t", 1#2)] = Ok w1 /\
    0 <= w1 <= 1 /\
    (dmem [("t", ["s"])] "t" || dmem (V := list string) [] "t" = true ->
     w1 = qem_update (1#2) (calculate_energy "t" [("t", ["s"])] [] [("s", 1#2)])) /\
    forall e, 0 <= qem_update (1#2) e <= 1.
Proof.
  apply (qem_accept_bounded "t" [("t", ["s"])] [] [("s", 1#2)]
           [("s", 1#2); ("t", 1#2)] (1#2)).
  - reflexivity.
  - split; unfold Qle; simpl; lia.
Defined.

(** ** The chain scenario *)

(** C7 (as the code computes it). On the chain A -> B -> target of
    supports, all initial weights 0.5, propagation gives final(A) = 0.5,
    final(B) = 0.5 + 0.5 h(0.5) = 0.6 and
    final(target) = 0.5 + 0.5 h(0.6) = 43/68, about 0.6324. *)
Theorem chain_scenario_weights :
  exists final_acc data,
    enrich_with_final_acc chain_debate = Ok (final_acc, data) /\
    apply_qem_to_restriction chain_debate = Ok final_acc /\
    weight_is final_acc "A" (1#2) /\
    weight_is final_acc "B" (3#5) /\
    weight_is final_acc "target" (43#68) /\
    (3#5) == (1#2) + (1#2) * h (1#2) /\
    (43#68) == (1#2) + (1#2) * h (3#5) /\
    (6323#10000) < (43#68) /\ (43#68) < (6324#10000).
Proof.
  eexists. eexists.
  split; [vm_compute; reflexivity |].
  split; [vm_compute; reflexivity |].
  repeat split; try (eexists; split; [reflexivity | reflexivity]).
Qed.

(** The claim as stated gives final(target) as about 0.6596: the computed
    weight is more than 0.02 below that. *)
Lemma chain_scenario_target_not_06596 :
  exists final_acc data w,
    enrich_with_final_acc chain_debate = Ok (final_acc, data) /\
    dget final_acc "target" = Some w /\
    w + (1#50) < (6596#10000) /\
    ~ (Qabs (w - (6596#10000)) <= (1#10000)).
Proof.
  eexists. eexists. eexists.
  split; [vm_compute; reflexivity |].
  split; [reflexivity |].
  split; [reflexivity |].
  intros H. vm_compute in H. apply H. reflexivity.
Qed.

(** ** Absent weights *)

Lemma initial_weights_missing (ns : dict node) (k : string) (nd : node) :
  In (k, nd) ns -> initial_weight nd = None ->
  initial_weights ns = Raise (KeyError "initial_weight").
Proof.
  induction ns as [| [k' nd'] ns IH]; intros Hin Hnone; [contradiction |].
  simpl. destruct Hin as [Heq | Hin].
  - inversion Heq; subst. rewrite Hnone. reflexivity.
  - destruct (initial_weight nd'); [| reflexivity].
    rewrite (IH Hin Hnone). reflexivity.
Qed.

(** C6 (as the code behaves). An absent weight is not reported:
    [is_significant] reads an absent final weight as 0.0,
    [determine_direction] reads an absent initial or final weight (or an
    absent target node) as 0.0, and a search reads the target's weight as
    its initial weight when the propagated mapping has no entry for it.
    A missing initial weight is surfaced as a [KeyError], not as a
    missing-weight outcome: each search raises it when its target has no
    initial weight, before it propagates anything, and propagation (of a
    restriction and of the full graph) raises it when a node of the
    framework has none. *)
Theorem absent_weights_are_defaulted :
  (forall nd, is_significant nd = is_significant (with_defaults nd)) /\
  (forall nd, final_weight nd = None -> is_significant nd = false) /\
  (forall target_id ns,
      determine_direction target_id ns =
      determine_direction target_id
        [(target_id, with_defaults (get_or ns target_id empty_node))]) /\
  (forall debate_data target_id w0_target current_args l final_weights,
      apply_qem_to_restriction (create_restriction debate_data current_args)
      = Ok final_weights ->
      dget final_weights target_id = None ->
      fst (retest debate_data target_id w0_target current_args l) = Ok w0_target) /\
  (forall rd debate_data heuristic target_node,
      dget (nodes debate_data) (t_id rd) = Some target_node ->
      initial_weight target_node = None ->
      generate_constructive_explanation_traced rd debate_data heuristic []
      = (Raise (KeyError "initial_weight"), []) /\
      generate_destructive_explanation_traced rd debate_data heuristic []
      = (Raise (KeyError "initial_weight"), [])) /\
  (forall framework k nd,
      In (k, nd) (nodes framework) -> initial_weight nd = None ->
      apply_qem_to_restriction framework = Raise (KeyError "initial_weight") /\
      enrich_with_final_acc framework = Raise (KeyError "initial_weight")).
Proof.
  split; [| split; [| split; [| split; [| split]]]].
  - intros nd. unfold is_significant, with_defaults. simpl. reflexivity.
  - intros nd Hnone. unfold is_significant. rewrite Hnone. reflexivity.
  - intros target_id ns. unfold determine_direction.
    assert (E : get_or [(target_id, with_defaults (get_or ns target_id empty_node))]
                       target_id empty_node
                = with_defaults (get_or ns target_id empty_node)).
    { unfold get_or at 1. simpl. rewrite String.eqb_refl. reflexivity. }
    rewrite E. reflexivity.
  - intros debate_data target_id w0_target current_args l final_weights Hq Hnone.
    unfold retest. simpl. rewrite Hq. simpl. unfold get_or. rewrite Hnone.
    reflexivity.
  - intros rd debate_data heuristic target_node Hnode Hnone.
    unfold generate_constructive_explanation_traced,
      generate_destructive_explanation_traced.
    rewrite Hnode. unfold tbind, target_initial_weight. rewrite Hnone.
    split; reflexivity.
  - intros framework k nd Hin Hnone.
    unfold apply_qem_to_restriction, enrich_with_final_acc.
    rewrite (initial_weights_missing _ k nd Hin Hnone).
    destruct (nodes framework) as [| item rest] eqn:E; [contradiction |].
    split; reflexivity.
Qed.

(** A target without an initial weight: both searches raise the
    [KeyError] with nothing propagated, and so do the two propagations of
    a framework that holds such a node. *)
Lemma absent_weights_are_defaulted_witness :
  let unweighted := mk_debate [("target", mk_node None (Some (1#2)))] [] in
  generate_constructive_explanation_traced chain_rankings unweighted
    "weak to strong" []
  = (Raise (KeyError "initial_weight"), []) /\
  generate_destructive_explanation_traced chain_rankings unweighted
    "weak to strong" []
  = (Raise (KeyError "initial_weight"), []) /\
  apply_qem_to_restriction unweighted = Raise (KeyError "initial_weight") /\
  enrich_with_final_acc unweighted = Raise (KeyError "initial_weight") /\
  determine_direction "target" (nodes unweighted) = "strengthening".
Proof.
  cbv zeta.
  destruct absent_weights_are_defaulted as [_ [_ [_ [_ [Hsearch Hprop]]]]].
  destruct (Hsearch chain_rankings
              (mk_debate [("target", mk_node None (Some (1#2)))] [])
              "weak to strong" (mk_node None (Some (1#2))) eq_refl eq_refl)
    as [Hc Hd].
  destruct (Hprop (mk_debate [("target", mk_node None (Some (1#2)))] [])
              "target" (mk_node None (Some (1#2)))
              (or_introl eq_refl) eq_refl) as [Hp He].
  split; [exact Hc |]. split; [exact Hd |]. split; [exact Hp |].
  split; [exact He | reflexivity].
Defined.

(** A node with no final weight is silently read as weight 0.0 by the
    significance test and by the direction, and the search reads the
    weight of a target that propagation left out as its initial weight:
    no missing-weight error is raised, and the significance test cannot
    tell an absent final weight from a stored 0.0. *)
Lemma missing_weight_not_surfaced :
  final_weight fresh_node = None /\
  is_significant fresh_node = false /\
  determine_direction "t" [("t", fresh_node)] = "weakening" /\
  (exists final_weights,
      apply_qem_to_restriction (create_restriction isolated_debate ["a"; "b"; "c"])
      = Ok final_weights /\
      dget final_weights "c" = None /\
      fst (retest isolated_debate "c" (1#2) ["a"; "b"; "c"] []) = Ok (1#2)) /\
  ~ (forall nd w, final_weight nd = None ->
                  is_significant nd <> is_significant (set_final nd w)).
Proof.
  split; [reflexivity |]. split; [reflexivity |]. split; [reflexivity |].
  split.
  - eexists. split; [vm_compute; reflexivity |]. split; reflexivity.
  - intros Hclaim. apply (Hclaim fresh_node 0 eq_refl). reflexivity.
Qed.

(** ** Direction "unchanged" *)

(** C3 (as the code behaves). Neither search has a not-applicable
    outcome: whatever direction other than "strengthening" the rankings
    carry, "unchanged" included, the search performed, its result and the
    restrictions it propagates are those of the weakening case. *)
Theorem unchanged_is_searched_as_weakening (rd : rankings_data)
    (debate_data : debate) (heuristic : string) :
  direction rd <> "strengthening" ->
  generate_constructive_explanation_traced rd debate_data heuristic
  = generate_constructive_explanation_traced (set_direction rd "weakening")
      debate_data heuristic /\
  generate_destructive_explanation_traced rd debate_data heuristic
  = generate_destructive_explanation_traced (set_direction rd "weakening")
      debate_data heuristic.
Proof.
  intros Hdir.
  unfold generate_constructive_explanation_traced,
    generate_destructive_explanation_traced.
  simpl.
  destruct (String.eqb_spec (direction rd) "strengthening") as [E | _];
    [contradiction |].
  split; reflexivity.
Qed.

Lemma unchanged_is_searched_as_weakening_witness :
  direction tie_rankings = "unchanged" /\
  generate_constructive_explanation_traced tie_rankings tie_debate_final
    "weak to strong" []
  = generate_constructive_explanation_traced
      (set_direction tie_rankings "weakening") tie_debate_final "weak to strong" []
  /\
  generate_destructive_explanation_traced tie_rankings tie_debate_final
    "weak to strong" []
  = generate_destructive_explanation_traced
      (set_direction tie_rankings "weakening") tie_debate_final "weak to strong" []
  /\
  generate_constructive_explanation_traced
    (set_direction tie_rankings "weakening") tie_debate_final "weak to strong" []
  = (Ok no_explanation, [["S"; "T"]; ["S"; "A"; "T"]]).
Proof.
  assert (Hdir : direction tie_rankings <> "strengthening")
    by (vm_compute; discriminate).
  destruct (unchanged_is_searched_as_weakening tie_rankings tie_debate_final
              "weak to strong" Hdir) as [Hc Hd].
  split; [vm_compute; reflexivity |].
  split; [rewrite Hc; reflexivity |].
  split; [rewrite Hd; reflexivity |].
  vm_compute. reflexivity.
Defined.

(** On a target whose supporter and attacker cancel out the direction is
    "unchanged", the rankings are those of the extracted branches, and yet
    both searches run: each propagates the base restriction, adds the
    con-branch, propagates again, and ends with the result it also gives
    for an exhausted search. *)
Lemma unchanged_direction_is_searched :
  determine_direction "T" (nodes tie_debate_final) = "unchanged" /\
  direction tie_rankings = "unchanged" /\
  identify_branches tie_debate_final "T"
  = mk_branches [["S"]] [["A"]] [["S"]] [["A"]] [] [] /\
  generate_constructive_explanation_traced tie_rankings tie_debate_final
    "weak to strong" []
  = (Ok no_explanation, [["S"; "T"]; ["S"; "A"; "T"]]) /\
  generate_destructive_explanation_traced tie_rankings tie_debate_final
    "weak to strong" []
  = (Ok no_explanation, [["S"; "T"]; ["S"; "T"; "A"]]) /\
  weight_change_report "T" (nodes tie_debate_final) = "no_change" /\
  ~ (forall rd debate_data heuristic,
        direction rd = "unchanged" ->
        constructive_restrictions rd debate_data heuristic = [] /\
        destructive_restrictions rd debate_data heuristic = []).
Proof.
  do 6 (split; [vm_compute; reflexivity |]).
  intros Hclaim.
  destruct (Hclaim tie_rankings tie_debate_final "weak to strong") as [Hc _].
  - vm_compute. reflexivity.
  - vm_compute in Hc. discriminate Hc.
Qed.

(** ** Branch extraction *)

(** *** The traversal loops terminate within their fuel. *)

Lemma mem_cons (x y : string) (l : list string) :
  mem x (y :: l) = String.eqb x y || mem x l.
Proof. reflexivity. Qed.

Lemma mem_true_iff (x : string) (l : list string) : mem x l = true <-> In x l.
Proof.
  unfold mem. rewrite existsb_exists. split.
  - intros [y [Hin Heq]]. apply String.eqb_eq in Heq. subst. exact Hin.
  - intros Hin. exists x. split; [exact Hin | apply String.eqb_refl].
Qed.

Lemma mem_false_iff (x : string) (l : list string) : mem x l = false <-> ~ In x l.
Proof.
  rewrite <- mem_true_iff. destruct (mem x l); split; intros H; congruence.
Qed.

Lemma children_measure (es : dict edge) (current : string) (visited : list string) :
  mem current visited = false ->
  (length (children es current) + unvisited_dst es (current :: visited)
   <= unvisited_dst es visited)%nat.
Proof.
  intros Hnew. unfold children, unvisited_dst.
  induction es as [| [src e] es IH]; cbn -[mem]; [lia |].
  rewrite mem_cons.
  destruct (String.eqb_spec (successor_id e) current) as [E | NE]; cbn -[mem].
  - rewrite E, Hnew. cbn -[mem].
    destruct (negb (Qeq_bool (rel_of e) 0)); cbn -[mem]; lia.
  - destruct (mem (successor_id e) visited); cbn -[mem]; lia.
Qed.

Lemma successors_measure (ns : dict node) (es : dict edge) (current : string)
    (path_sign : Z) (visited : list string) :
  mem current visited = false ->
  (length (significant_successors ns es current path_sign)
   + unvisited_src es (current :: visited) <= unvisited_src es visited)%nat.
Proof.
  intros Hnew. unfold significant_successors, unvisited_src.
  induction es as [| [src e] es IH]; cbn -[mem]; [lia |].
  rewrite mem_cons, length_app.
  destruct (String.eqb_spec src current) as [E | NE]; cbn -[mem].
  - rewrite E, Hnew. cbn -[mem].
    destruct (negb (String.eqb (successor_id e) "") && negb (Qeq_bool (rel_of e) 0)
              && is_significant_root ns (successor_id e)); cbn -[mem]; lia.
  - destruct (mem src visited); cbn -[mem]; lia.
Qed.

Lemma traverse_full_loop_fuel (es : dict edge) (fuel : nat) :
  forall stack visited branch,
    (length stack + unvisited_dst es visited <= fuel)%nat ->
    exists b, traverse_full_loop es fuel stack visited branch = Some b.
Proof.
  induction fuel as [| fuel IH]; intros stack visited branch Hm.
  - destruct stack; simpl in *; [eexists; reflexivity | lia].
  - destruct stack as [| current rest]; simpl; [eexists; reflexivity |].
    destruct (mem current visited) eqn:Hv.
    + apply IH. simpl in Hm. lia.
    + apply IH. pose proof (children_measure es current visited Hv).
      rewrite length_app, length_rev. simpl in Hm. lia.
Qed.

Lemma path_sign_loop_fuel (ns : dict node) (es : dict edge) (target_id : string)
    (fuel : nat) :
  forall queue visited,
    (length queue + unvisited_src es visited <= fuel)%nat ->
    exists s, path_sign_loop ns es fuel target_id queue visited = Some s.
Proof.
  induction fuel as [| fuel IH]; intros queue visited Hm.
  - destruct queue as [| [c s] q]; simpl in *; [eexists; reflexivity | lia].
  - destruct queue as [| [current path_sign] rest]; simpl; [eexists; reflexivity |].
    destruct (mem current visited) eqn:Hv.
    + apply IH. simpl in Hm. lia.
    + destruct (String.eqb current target_id); [eexists; reflexivity |].
      apply IH.
      pose proof (successors_measure ns es current path_sign visited Hv).
      rewrite length_app. simpl in Hm. lia.
Qed.

Lemma traverse_unweakened_loop_fuel (ns : dict node) (es : dict edge)
    (target root_id expected_type : string) (fuel : nat) :
  forall stack visited branch,
    (length stack + unvisited_dst es visited <= fuel)%nat ->
    exists b, traverse_unweakened_loop ns es target fuel root_id expected_type
                stack visited branch = Some b.
Proof.
  induction fuel as [| fuel IH]; intros stack visited branch Hm.
  - destruct stack; simpl in *; [eexists; reflexivity | lia].
  - destruct stack as [| current rest]; simpl; [eexists; reflexivity |].
    simpl in Hm.
    pose proof (children_measure es current visited) as Hc.
    destruct (mem current visited) eqn:Hv; [apply IH; lia |].
    specialize (Hc eq_refl).
    destruct (matches_type ns es target expected_type current).
    + apply IH. rewrite length_app, length_rev. lia.
    + destruct (String.eqb current root_id); apply IH; lia.
Qed.

Lemma unvisited_nil (es : dict edge) :
  unvisited_dst es [] = length es /\ unvisited_src es [] = length es.
Proof.
  unfold unvisited_dst, unvisited_src.
  split; induction es as [| item es IH]; simpl; auto.
Qed.

(** The three [while] loops of [identify_branches] end before the fuel
    given to them does: the default results of [traverse_full_branch],
    [compute_path_sign_significant_only] and [traverse_unweakened_branch]
    are never used. *)
Lemma branch_loops_terminate (ns : dict node) (es : dict edge)
    (target root_id expected_type : string) :
  (exists b, traverse_full_loop es (S (length es)) [root_id] [] [] = Some b) /\
  (exists s, path_sign_loop ns es (S (length es)) target [(root_id, 1%Z)] []
             = Some s) /\
  (exists b, traverse_unweakened_loop ns es target (S (length es)) root_id
               expected_type [root_id] [] [] = Some b).
Proof.
  destruct (unvisited_nil es) as [Hd Hs].
  split; [| split].
  - apply traverse_full_loop_fuel. simpl. lia.
  - apply path_sign_loop_fuel. simpl. lia.
  - apply traverse_unweakened_loop_fuel. simpl. lia.
Qed.

(** *** Polarity-pure branches exclude each other. *)

Lemma find_unweakened_all_expected (ns : dict node) (es : dict edge)
    (target expected_type : string) (roots : list string) (branch : list string) :
  In branch (find_unweakened_branches ns es target roots expected_type) ->
  all_expected_type ns es target expected_type branch = true.
Proof.
  unfold find_unweakened_branches. rewrite in_flat_map.
  intros [root [_ Hin]].
  destruct (is_significant_root ns root); [| contradiction].
  destruct ((0 <? length (traverse_unweakened_branch ns es target root expected_type))%nat
            && all_expected_type ns es target expected_type
                 (traverse_unweakened_branch ns es target root expected_type))
           eqn:E; [| contradiction].
  destruct Hin as [Heq | []]. subst branch.
  apply andb_true_iff in E. apply E.
Qed.

Lemma all_pro (ns : dict node) (es : dict edge) (target : string)
    (branch : list string) (x : string) :
  all_expected_type ns es target "pro" branch = true -> In x branch ->
  is_pro_argument ns es target x = true.
Proof.
  unfold all_expected_type. rewrite forallb_forall. intros Hall Hin.
  specialize (Hall x Hin). simpl in Hall.
  destruct (is_pro_argument ns es target x); [reflexivity | discriminate].
Qed.

Lemma all_con (ns : dict node) (es : dict edge) (target : string)
    (branch : list string) (x : string) :
  all_expected_type ns es target "con" branch = true -> In x branch ->
  is_con_argument ns es target x = true.
Proof.
  unfold all_expected_type. rewrite forallb_forall. intros Hall Hin.
  specialize (Hall x Hin). simpl in Hall.
  destruct (is_con_argument ns es target x); [reflexivity | discriminate].
Qed.

(** C9. No argument belongs both to an unweakened pro-branch and to an
    unweakened con-branch returned by [identify_branches] for the same
    target: the members of the former have a positive path sign to the
    target, those of the latter a negative one. *)
Theorem unweakened_branches_exclusive (d : debate) (target x : string)
    (pro_branch con_branch : list string) :
  In pro_branch (unweakened_pro_branches (identify_branches d target)) ->
  In con_branch (unweakened_con_branches (identify_branches d target)) ->
  In x pro_branch ->
  (0 < compute_path_sign_significant_only (nodes d) (edges d) x target)%Z /\
  ~ In x con_branch.
Proof.
  intros Hpro Hcon Hx. simpl in Hpro, Hcon.
  apply find_unweakened_all_expected in Hpro.
  apply find_unweakened_all_expected in Hcon.
  pose proof (all_pro _ _ _ _ _ Hpro Hx) as Hp.
  unfold is_pro_argument in Hp. apply Z.ltb_lt in Hp.
  split; [exact Hp |].
  intros Hx'. pose proof (all_con _ _ _ _ _ Hcon Hx') as Hc.
  unfold is_con_argument in Hc. apply Z.ltb_lt in Hc. lia.
Qed.

Lemma unweakened_branches_exclusive_witness :
  (0 < compute_path_sign_significant_only (nodes tie_debate_final)
         (edges tie_debate_final) "S" "T")%Z /\
  ~ In "S" ["A"].
Proof.
  apply (unweakened_branches_exclusive tie_debate_final "T" "S" ["S"] ["A"]).
  - vm_compute. left. reflexivity.
  - vm_compute. left. reflexivity.
  - simpl. left. reflexivity.
Defined.

(** ** The constructive search *)

Lemma get_branch_arguments_concat (bs : list (list string)) :
  get_branch_arguments bs = concat bs.
Proof.
  unfold get_branch_arguments.
  assert (H : forall acc, fold_left (fun a b : list string => a ++ b) bs acc
                          = acc ++ concat bs).
  { induction bs as [| b bs IH]; intros acc; simpl.
    - rewrite app_nil_r. reflexivity.
    - rewrite IH, app_assoc. reflexivity. }
  apply H.
Qed.

Lemma retest_eq (debate_data : debate) (target_id : string) (w0_target : Q)
    (args : list string) (l : log) :
  retest debate_data target_id w0_target args l
  = (fst (retest debate_data target_id w0_target args []), l ++ [args]).
Proof. reflexivity. Qed.

Lemma prefixes_cons {A} (b : A) (l : list A) :
  prefixes (b :: l) = [b] :: map (cons b) (prefixes l).
Proof.
  unfold prefixes. simpl. f_equal.
  rewrite <- seq_shift, !map_map. reflexivity.
Qed.

Lemma find_first_map {A B} (f : A -> B) (test : B -> result bool) (l : list A) :
  find_first test (map f l)
  = r <- find_first (fun a => test (f a)) l ;; Ok (option_map f r).
Proof.
  induction l as [| a l IH]; simpl; [reflexivity |].
  destruct (test (f a)) as [[|] | e]; simpl; auto.
Qed.

Lemma find_first_cons {A} (test : A -> result bool) (c : A) (rest : list A) :
  find_first test (c :: rest)
  = b <- test c ;; if b then Ok (Some c) else find_first test rest.
Proof. reflexivity. Qed.

Lemma find_first_ext {A} (test1 test2 : A -> result bool) (l : list A) :
  (forall a, test1 a = test2 a) -> find_first test1 l = find_first test2 l.
Proof.
  intros Hext. induction l as [| a l IH]; simpl; [reflexivity |].
  rewrite Hext, IH. reflexivity.
Qed.

Lemma find_first_all_false {A} (test : A -> result bool) (l : list A) :
  (forall a, test a = Ok false) -> find_first test l = Ok None.
Proof.
  intros Hf. induction l as [| a l IH]; simpl; [reflexivity |].
  rewrite Hf. simpl. exact IH.
Qed.

Lemma find_first_all_false_on {A} (test : A -> result bool) (l : list A) :
  (forall a, In a l -> test a = Ok false) -> find_first test l = Ok None.
Proof.
  intros Hf. induction l as [| a l IH]; simpl; [reflexivity |].
  rewrite (Hf a) by (left; reflexivity). simpl.
  apply IH. intros b Hb. apply Hf. right. exact Hb.
Qed.

(** Identifier added at step [i], if the list of identifiers is that long. *)
Lemma firstn_S_skipn {A} (l : list A) (i n : nat) :
  firstn (S n) (skipn i l)
  = match nth_error l i with Some a => [a] | None => [] end
    ++ firstn n (skipn (S i) l).
Proof.
  revert i. induction l as [| a l IH]; intros i.
  - destruct i; simpl; rewrite ?firstn_nil; reflexivity.
  - destruct i as [| i].
    + reflexivity.
    + simpl nth_error. change (skipn (S i) (a :: l)) with (skipn i l).
      change (skipn (S (S i)) (a :: l)) with (skipn (S i) l). apply IH.
Qed.

Section SearchFacts.
Variable debate_data : debate.
Variable target_id : string.
Variable w0_target : Q.
Variable current_args_of : list string -> list string.
Variable reached : Q -> bool.
Variable ranking_abv : list string.

Local Abbreviation ctest :=
  (candidate_test debate_data target_id w0_target current_args_of reached).

Lemma candidate_test_one (added_args b : list string) :
  ctest added_args [b]
  = w1 <- fst (retest debate_data target_id w0_target
                 (current_args_of (added_args ++ b)) []) ;;
    Ok (reached w1).
Proof.
  unfold candidate_test. simpl concat. rewrite app_nil_r. reflexivity.
Qed.

Lemma add_branches_cons (b : list string) (rest : list (list string)) (i : nat)
    (added_args added_abv : list string) (l : log) :
  fst (add_branches debate_data target_id w0_target current_args_of reached
         ranking_abv (b :: rest) i added_args added_abv l)
  = match fst (retest debate_data target_id w0_target
                 (current_args_of (added_args ++ b)) []) with
    | Ok w1 =>
        let added_abv' :=
          match nth_error ranking_abv i with
          | Some abv => added_abv ++ [abv]
          | None => added_abv
          end in
        if reached w1 then Ok (true, added_args ++ b, added_abv')
        else fst (add_branches debate_data target_id w0_target current_args_of
                    reached ranking_abv rest (S i) (added_args ++ b) added_abv'
                    (l ++ [current_args_of (added_args ++ b)]))
    | Raise e => Raise e
    end.
Proof.
  simpl add_branches. unfold tbind. rewrite retest_eq.
  destruct (fst (retest debate_data target_id w0_target
                   (current_args_of (added_args ++ b)) [])) as [w1 | e];
    [| reflexivity].
  destruct (reached w1); reflexivity.
Qed.

(** What the incremental loop returns: it stops at the first prefix of
    the ranking whose candidate passes the test. *)
Lemma add_branches_first_prefix (ranking : list (list string)) :
  forall i added_args added_abv l,
    fst (add_branches debate_data target_id w0_target current_args_of reached
           ranking_abv ranking i added_args added_abv l)
    = r <- find_first (ctest added_args) (prefixes ranking) ;;
      Ok (match r with
          | Some p => (true, added_args ++ concat p,
                       added_abv ++ firstn (length p) (skipn i ranking_abv))
          | None => (false, added_args ++ concat ranking,
                     added_abv ++ firstn (length ranking) (skipn i ranking_abv))
          end).
Proof.
  induction ranking as [| b rest IH]; intros i added_args added_abv l.
  - simpl. rewrite !app_nil_r. reflexivity.
  - rewrite prefixes_cons, find_first_cons, add_branches_cons, candidate_test_one.
    destruct (fst (retest debate_data target_id w0_target
                     (current_args_of (added_args ++ b)) [])) as [w1 | e];
      [| reflexivity].
    unfold bind.
    destruct (reached w1) eqn:Hr.
    + change (length [b]) with 1%nat.
      change (concat [b]) with (b ++ []). rewrite app_nil_r.
      rewrite (firstn_S_skipn ranking_abv i 0).
      destruct (nth_error ranking_abv i) eqn:En; simpl;
        rewrite ?app_nil_r; reflexivity.
    + rewrite IH, find_first_map.
      rewrite (find_first_ext
                 (fun a => ctest added_args (b :: a))
                 (ctest (added_args ++ b))).
      2:{ intros p. unfold candidate_test. change (concat (b :: p)) with (b ++ concat p).
          rewrite app_assoc. reflexivity. }
      destruct (find_first (ctest (added_args ++ b)) (prefixes rest))
        as [[p |] | e]; unfold bind, option_map; [| | reflexivity].
      * change (length (b :: p)) with (S (length p)).
        change (concat (b :: p)) with (b ++ concat p).
        rewrite <- !app_assoc, (firstn_S_skipn ranking_abv i (length p)).
        destruct (nth_error ranking_abv i); simpl; rewrite <- ?app_assoc;
          reflexivity.
      * change (length (b :: rest)) with (S (length rest)).
        change (concat (b :: rest)) with (b ++ concat rest).
        rewrite <- !app_assoc, (firstn_S_skipn ranking_abv i (length rest)).
        destruct (nth_error ranking_abv i); simpl; rewrite <- ?app_assoc;
          reflexivity.
Qed.

(** The loop leaves the log alone except for appending to it, so its
    result does not depend on the log it starts from. *)
Lemma add_branches_fst (ranking : list (list string)) :
  forall i added_args added_abv l,
    fst (add_branches debate_data target_id w0_target current_args_of reached
           ranking_abv ranking i added_args added_abv l)
    = fst (add_branches debate_data target_id w0_target current_args_of reached
             ranking_abv ranking i added_args added_abv []).
Proof.
  intros. rewrite !add_branches_first_prefix. reflexivity.
Qed.
End SearchFacts.

Lemma tbind_fst {A B} (m : traced A) (k : A -> traced B) (l : log) :
  fst (tbind m k l)
  = match fst (m l) with
    | Ok a => fst (k a (snd (m l)))
    | Raise e => Raise e
    end.
Proof.
  unfold tbind. destruct (m l) as [[a | e] l']; reflexivity.
Qed.

(** The value of the constructive search, stage by stage. *)
Lemma constructive_search_value (debate_data : debate) (target_id : string)
    (w0_target : Q) (reached : Q -> bool)
    (unweakened first weakening : category_data) (l : log) :
  let base := concat (branches unweakened) in
  fst (constructive_search debate_data target_id w0_target reached
         unweakened first weakening l)
  = w1 <- fst (retest debate_data target_id w0_target (base ++ [target_id]) []) ;;
    if reached w1
    then Ok (mk_explanation true [branches_abv unweakened; []] [base; []])
    else
      stage1 <- find_first
                  (candidate_test debate_data target_id w0_target
                     (fun added => base ++ added ++ [target_id]) reached [])
                  (prefixes (ranking first)) ;;
      match stage1 with
      | Some p =>
          Ok (mk_explanation true
                [branches_abv unweakened; firstn (length p) (ranking_abv first)]
                [base; concat p])
      | None =>
          stage2 <- find_first
                      (candidate_test debate_data target_id w0_target
                         (fun added => base ++ concat (ranking first) ++ added
                                       ++ [target_id]) reached [])
                      (prefixes (ranking weakening)) ;;
          match stage2 with
          | Some q =>
              Ok (mk_explanation true
                    [branches_abv unweakened;
                     firstn (length (ranking first)) (ranking_abv first);
                     firstn (length q) (ranking_abv weakening)]
                    [base; concat (ranking first); concat q])
          | None => Ok no_explanation
          end
      end.
Proof.
  intros base. unfold constructive_search.
  rewrite get_branch_arguments_concat. fold base.
  rewrite tbind_fst, retest_eq. cbn [fst snd].
  destruct (fst (retest debate_data target_id w0_target (base ++ [target_id]) []))
    as [w1 | e]; [| reflexivity].
  unfold bind at 1.
  destruct (reached w1); [reflexivity |].
  rewrite tbind_fst, add_branches_first_prefix.
  destruct (find_first
              (candidate_test debate_data target_id w0_target
                 (fun added => base ++ added ++ [target_id]) reached [])
              (prefixes (ranking first))) as [[p |] | e]; [| | reflexivity].
  - unfold bind at 1 2.
    destruct (add_branches debate_data target_id w0_target
                (fun added => base ++ added ++ [target_id]) reached
                (ranking_abv first) (ranking first) 0 [] []
                (l ++ [base ++ [target_id]])) as [r l'] eqn:E.
    unfold snd. reflexivity.
  - unfold bind at 1 2.
    destruct (add_branches debate_data target_id w0_target
                (fun added => base ++ added ++ [target_id]) reached
                (ranking_abv first) (ranking first) 0 [] []
                (l ++ [base ++ [target_id]])) as [r l'] eqn:E.
    unfold snd. cbn [app]. rewrite tbind_fst, add_branches_first_prefix.
    destruct (find_first
                (candidate_test debate_data target_id w0_target
                   (fun added => base ++ concat (ranking first) ++ added
                                 ++ [target_id]) reached [])
                (prefixes (ranking weakening))) as [[q |] | e]; reflexivity.
Qed.

(** The code's retest computes the specification's test. *)
Lemma strengthens_retest (debate_data : debate) (target_id : string)
    (w0_target : Q) (args : list string) :
  strengthens debate_data target_id w0_target args
  = w1_target <- fst (retest debate_data target_id w0_target args []) ;;
    Ok (Qltb w0_target w1_target).
Proof.
  unfold strengthens, retest, get_or. cbn [fst].
  destruct (apply_qem_to_restriction (create_restriction debate_data args));
    reflexivity.
Qed.

(** The value of the search in the strengthening case is the value the
    specification's wording defines. *)
Lemma constructive_strengthening_value (rd : rankings_data)
    (debate_data : debate) (heuristic : string) :
  direction rd = "strengthening" ->
  generate_constructive_explanation rd debate_data heuristic
  = constructive_strengthening_spec rd debate_data heuristic.
Proof.
  intros Hdir.
  unfold generate_constructive_explanation,
    generate_constructive_explanation_traced, constructive_strengthening_spec.
  destruct (dget (nodes debate_data) (t_id rd)) as [target_node |];
    [| reflexivity].
  rewrite tbind_fst. cbn [fst snd].
  destruct (target_initial_weight target_node) as [w0_target | e];
    [| reflexivity].
  unfold bind at 1. rewrite Hdir. cbn [String.eqb Ascii.eqb Bool.eqb].
  rewrite constructive_search_value. cbv zeta.
  set (base := concat (branches (category (get_or (rankings rd) heuristic [])
                                          "unweakened con-branches"))).
  rewrite strengthens_retest.
  destruct (fst (retest debate_data (t_id rd) w0_target (base ++ [t_id rd]) []))
    as [w1 | e]; [| reflexivity].
  cbn [bind].
  destruct (Qltb w0_target w1); [reflexivity |].
  rewrite (find_first_ext
             (fun p => strengthens debate_data (t_id rd) w0_target
                         (base ++ concat p ++ [t_id rd]))
             (candidate_test debate_data (t_id rd) w0_target
                (fun added => base ++ added ++ [t_id rd])
                (fun w1_target => Qltb w0_target w1_target) []))
    by (intros p; rewrite strengthens_retest; reflexivity).
  match goal with
  | |- context [find_first ?f ?l] => destruct (find_first f l) as [[p |] | e]
  end; [reflexivity | | reflexivity].
  cbn [bind].
  rewrite (find_first_ext
             (fun q => strengthens debate_data (t_id rd) w0_target
                         (base ++ concat (ranking (category
                            (get_or (rankings rd) heuristic []) "pro-branches"))
                          ++ concat q ++ [t_id rd]))
             (candidate_test debate_data (t_id rd) w0_target
                (fun added => base ++ concat (ranking (category
                     (get_or (rankings rd) heuristic []) "pro-branches"))
                   ++ added ++ [t_id rd])
                (fun w1_target => Qltb w0_target w1_target) []))
    by (intros q; rewrite strengthens_retest; reflexivity).
  reflexivity.
Qed.

(** C5. For a strengthened target the constructive search computes what
    the specification describes: the base is the arguments of all
    unweakened con-branches plus the target; if it already passes the
    test the search succeeds with an empty addition; otherwise the first
    prefix of the ranked pro-branches that passes is returned, then the
    first prefix of the ranked con-weakening branches on top of all
    pro-branches; and when the base and every prefix have been tested
    without passing, the result is the explicit failure record, not an
    exception. The test is the specification's: restrict, propagate, and
    compare the target's final weight with its initial weight. *)
Theorem constructive_strengthening_refines_spec (rd : rankings_data)
    (debate_data : debate) (heuristic : string) :
  direction rd = "strengthening" ->
  generate_constructive_explanation rd debate_data heuristic
  = constructive_strengthening_spec rd debate_data heuristic /\
  (forall target_node w0_target,
      dget (nodes debate_data) (t_id rd) = Some target_node ->
      initial_weight target_node = Some w0_target ->
      let heuristic_data := get_or (rankings rd) heuristic [] in
      let base :=
        concat (branches (category heuristic_data "unweakened con-branches")) in
      let pro := ranking (category heuristic_data "pro-branches") in
      let con_weakening :=
        ranking (category heuristic_data "con-weakening branches") in
      let test := strengthens debate_data (t_id rd) w0_target in
      test (base ++ [t_id rd]) = Ok false ->
      (forall k, (1 <= k <= length pro)%nat ->
                 test (base ++ concat (firstn k pro) ++ [t_id rd]) = Ok false) ->
      (forall k, (1 <= k <= length con_weakening)%nat ->
                 test (base ++ concat pro ++ concat (firstn k con_weakening)
                       ++ [t_id rd]) = Ok false) ->
      generate_constructive_explanation rd debate_data heuristic
      = Ok no_explanation).
Proof.
  intros Hdir.
  pose proof (constructive_strengthening_value rd debate_data heuristic Hdir)
    as Hspec.
  split; [exact Hspec |].
  intros target_node w0_target Hnode Hw heuristic_data base pro con_weakening
         test Hbase Hpro Hcw.
  rewrite Hspec. unfold constructive_strengthening_spec.
  rewrite Hnode. unfold target_initial_weight. rewrite Hw.
  unfold bind at 1. cbv zeta.
  fold heuristic_data. fold base. fold test.
  rewrite Hbase. unfold bind at 1.
  rewrite (find_first_all_false_on _ (prefixes pro)).
  2:{ intros p Hp. unfold prefixes in Hp. apply in_map_iff in Hp.
      destruct Hp as [k [Ek Hk]]. apply in_seq in Hk. subst p.
      apply Hpro. lia. }
  unfold bind at 1.
  rewrite (find_first_all_false_on _ (prefixes con_weakening)).
  2:{ intros p Hp. unfold prefixes in Hp. apply in_map_iff in Hp.
      destruct Hp as [k [Ek Hk]]. apply in_seq in Hk. subst p.
      apply Hcw. lia. }
  reflexivity.
Qed.

(** Two runs. On the chain the base (the target alone) leaves the target
    at its initial weight, and the pro-branch rooted at B raises it: the
    search succeeds with that branch. On the tie debate searched as a
    strengthening, the base (the attacker A) lowers the target and the
    pro-branch S only restores it: every candidate is tested, none passes,
    and the result is the failure record. *)
Lemma constructive_strengthening_refines_spec_witness :
  constructive_strengthening_spec chain_rankings chain_debate_final "weak to strong"
  = Ok (mk_explanation true [[]; ["Pb1"]] [[]; ["B"; "A"]]) /\
  generate_constructive_explanation chain_rankings chain_debate_final
    "weak to strong"
  = Ok (mk_explanation true [[]; ["Pb1"]] [[]; ["B"; "A"]]) /\
  strengthens tie_debate_final "T" (1#2) ["A"; "T"] = Ok false /\
  strengthens tie_debate_final "T" (1#2) ["A"; "S"; "T"] = Ok false /\
  generate_constructive_explanation (set_direction tie_rankings "strengthening")
    tie_debate_final "weak to strong"
  = Ok no_explanation.
Proof.
  assert (Hchain : direction chain_rankings = "strengthening")
    by (vm_compute; reflexivity).
  assert (Htie : direction (set_direction tie_rankings "strengthening")
                 = "strengthening") by reflexivity.
  destruct (constructive_strengthening_refines_spec chain_rankings
              chain_debate_final "weak to strong" Hchain) as [Heq _].
  destruct (constructive_strengthening_refines_spec
              (set_direction tie_rankings "strengthening") tie_debate_final
              "weak to strong" Htie) as [_ Hfail].
  assert (H1 : strengthens tie_debate_final "T" (1#2) ["A"; "T"] = Ok false)
    by (vm_compute; reflexivity).
  assert (H2 : strengthens tie_debate_final "T" (1#2) ["A"; "S"; "T"] = Ok false)
    by (vm_compute; reflexivity).
  split; [vm_compute; reflexivity |].
  split; [rewrite Heq; vm_compute; reflexivity |].
  split; [exact H1 |]. split; [exact H2 |].
  apply (Hfail (mk_node (Some (1#2)) (Some (512 # 1024))) (1#2)).
  - vm_compute. reflexivity.
  - reflexivity.
  - exact H1.
  - intros k Hk. change (length _) with 1%nat in Hk.
    assert (k = 1%nat) by lia. subst k. exact H2.
  - intros k Hk. change (length _) with 0%nat in Hk. lia.
Defined.

(** The chain scenario end to end: the direction is "strengthening", the
    base (the target alone) fails the test, and adding the pro-branch
    rooted at B succeeds. *)
Example chain_scenario_search :
  direction chain_rankings = "strengthening" /\
  pro_branches (identify_branches chain_debate_final "target") = [["B"; "A"]] /\
  generate_constructive_explanation_traced chain_rankings chain_debate_final
    "weak to strong" []
  = (Ok (mk_explanation true [[]; ["Pb1"]] [[]; ["B"; "A"]]),
     [["target"]; ["B"; "A"; "target"]]).
Proof.
  repeat split; vm_compute; reflexivity.
Qed.

(** ** Restrictions depend on the set of arguments *)

Lemma dget_dset {V} (d : dict V) (k k' : string) (v : V) :
  dget (dset d k v) k' = if String.eqb k' k then Some v else dget d k'.
Proof.
  induction d as [| [k0 v0] d IH]; simpl.
  - reflexivity.
  - destruct (String.eqb_spec k k0) as [E | NE]; simpl.
    + subst k0. destruct (String.eqb k' k); reflexivity.
    + rewrite IH. destruct (String.eqb_spec k' k0) as [E' | NE'].
      * subst k0. destruct (String.eqb_spec k' k); [congruence | reflexivity].
      * reflexivity.
Qed.

Lemma dget_In {V} (d : dict V) (k : string) (v : V) :
  dget d k = Some v -> In (k, v) d.
Proof.
  induction d as [| [k0 v0] d IH]; simpl; [discriminate |].
  destruct (String.eqb_spec k k0) as [E | NE].
  - intros H. inversion H. subst. left. reflexivity.
  - intros H. right. apply IH. exact H.
Qed.

Lemma dget_None_keys {V} (d : dict V) (k : string) :
  dget d k = None <-> ~ In k (keys d).
Proof.
  induction d as [| [k0 v0] d IH]; simpl.
  - split; auto.
  - destruct (String.eqb_spec k k0) as [E | NE].
    + split; [discriminate | intros H; exfalso; apply H; left; congruence].
    + rewrite IH. split; intros H; [intros [E | Hin]; congruence | tauto].
Qed.

Lemma In_dget {V} (d : dict V) (k : string) (v : V) :
  NoDup (keys d) -> In (k, v) d -> dget d k = Some v.
Proof.
  induction d as [| [k0 v0] d IH]; simpl; intros Hnd Hin; [contradiction |].
  inversion Hnd as [| ? ? Hnotin Hnd']; subst.
  destruct Hin as [E | Hin].
  - inversion E; subst. rewrite String.eqb_refl. reflexivity.
  - destruct (String.eqb_spec k k0) as [E | NE].
    + subst k0. exfalso. apply Hnotin.
      change k with (fst (k, v)). apply in_map. exact Hin.
    + apply IH; assumption.
Qed.

Lemma keys_dset {V} (d : dict V) (k : string) (v : V) :
  keys (dset d k v) = if dmem d k then keys d else keys d ++ [k].
Proof.
  unfold dmem. induction d as [| [k0 v0] d IH]; simpl; [reflexivity |].
  destruct (String.eqb_spec k k0) as [E | NE]; simpl; [reflexivity |].
  rewrite IH. destruct (dget d k); reflexivity.
Qed.

Lemma NoDup_keys_dset {V} (d : dict V) (k : string) (v : V) :
  NoDup (keys d) -> NoDup (keys (dset d k v)).
Proof.
  intros Hnd. rewrite keys_dset. unfold dmem.
  destruct (dget d k) eqn:E; [exact Hnd |].
  apply dget_None_keys in E.
  apply NoDup_app; [exact Hnd | constructor; [intros [] | constructor] |].
  intros x Hx [Hk | []]. congruence.
Qed.

Lemma mem_ext (l1 l2 : list string) :
  (forall x, In x l1 <-> In x l2) -> forall k, mem k l1 = mem k l2.
Proof.
  intros Hset k. destruct (mem k l2) eqn:E.
  - apply mem_true_iff. apply Hset. apply mem_true_iff. exact E.
  - apply mem_false_iff. rewrite Hset. apply mem_false_iff. exact E.
Qed.

Lemma restrict_nodes_get (ns : dict node) (args : list string) :
  forall acc k,
    dget (restrict_nodes ns args acc) k
    = if mem k args
      then match dget ns k with Some nd => Some nd | None => dget acc k end
      else dget acc k.
Proof.
  unfold restrict_nodes.
  induction args as [| a args IH]; intros acc k; [reflexivity |].
  cbn [fold_left]. rewrite IH, mem_cons.
  destruct (mem k args) eqn:Hm.
  - rewrite orb_true_r.
    destruct (dget ns k) eqn:Ek; [reflexivity |].
    destruct (dget ns a) eqn:Ea; [| reflexivity].
    rewrite dget_dset.
    destruct (String.eqb_spec k a); [congruence | reflexivity].
  - rewrite orb_false_r.
    destruct (dget ns a) eqn:Ea.
    + rewrite dget_dset.
      destruct (String.eqb_spec k a) as [E | NE]; [| reflexivity].
      subst a. rewrite Ea. reflexivity.
    + destruct (String.eqb_spec k a) as [E | NE]; [| reflexivity].
      subst a. rewrite Ea. reflexivity.
Qed.

Lemma restrict_nodes_NoDup (ns : dict node) (args : list string) :
  forall acc, NoDup (keys acc) -> NoDup (keys (restrict_nodes ns args acc)).
Proof.
  unfold restrict_nodes.
  induction args as [| a args IH]; intros acc Hnd; [exact Hnd |].
  cbn [fold_left]. apply IH.
  destruct (dget ns a); [apply NoDup_keys_dset |]; exact Hnd.
Qed.

Lemma create_restriction_nodes (d : debate) (args : list string) :
  nodes (create_restriction d args) = restrict_nodes (nodes d) args [].
Proof. destruct args; reflexivity. Qed.

Lemma create_restriction_edges (d : debate) (args : list string) :
  edges (create_restriction d args)
  = filter (fun item => mem (fst item) args && mem (successor_id (snd item)) args)
           (edges d).
Proof.
  destruct args; [| reflexivity].
  simpl. induction (edges d) as [| item es IH]; simpl; auto.
Qed.

Lemma initial_weights_Ok (ns : dict node) (ws : dict Q) :
  initial_weights ns = Ok ws ->
  keys ws = keys ns /\
  forall k, dget ws k
            = match dget ns k with Some nd => initial_weight nd | None => None end.
Proof.
  revert ws. induction ns as [| [k0 nd0] ns IH]; intros ws Hok.
  - inversion Hok. split; reflexivity.
  - simpl in Hok. destruct (initial_weight nd0) as [w0 |] eqn:E0; [| discriminate].
    destruct (initial_weights ns) as [ws' | e]; [| discriminate].
    inversion Hok; subst ws. destruct (IH ws' eq_refl) as [Hk Hg].
    split; [simpl; rewrite Hk; reflexivity |].
    intros k. simpl. destruct (String.eqb k k0); [symmetry; exact E0 | apply Hg].
Qed.

Lemma initial_weights_cases (ns : dict node) :
  (exists ws, initial_weights ns = Ok ws /\
              forall k nd, In (k, nd) ns -> initial_weight nd <> None) \/
  (initial_weights ns = Raise (KeyError "initial_weight") /\
   exists k nd, In (k, nd) ns /\ initial_weight nd = None).
Proof.
  induction ns as [| [k0 nd0] ns IH].
  - left. exists []. split; [reflexivity | intros k nd []].
  - simpl. destruct (initial_weight nd0) as [w0 |] eqn:E0.
    + destruct IH as [[ws [Hok Hall]] | [Herr [k [nd [Hin Hnone]]]]].
      * left. rewrite Hok. eexists. split; [reflexivity |].
        intros k nd [E | Hin]; [inversion E; subst; congruence | eauto].
      * right. rewrite Herr. split; [reflexivity |].
        exists k, nd. split; [right; exact Hin | exact Hnone].
    + right. split; [reflexivity |].
      exists k0, nd0. split; [left; reflexivity | exact E0].
Qed.

(** Propagation reads the initial weights of equal dictionaries alike. *)
Lemma initial_weights_dict_eq (ns1 ns2 : dict node) :
  NoDup (keys ns1) -> NoDup (keys ns2) -> dict_eq ns1 ns2 ->
  match initial_weights ns1, initial_weights ns2 with
  | Ok w1, Ok w2 => dict_eq w1 w2
  | Raise e1, Raise e2 => e1 = e2
  | _, _ => False
  end.
Proof.
  intros Hnd1 Hnd2 Heq.
  destruct (initial_weights_cases ns1) as [[w1 [Hok1 Hall1]] | [Herr1 [k [nd [Hin Hnone]]]]];
    destruct (initial_weights_cases ns2) as [[w2 [Hok2 Hall2]] | [Herr2 [k' [nd' [Hin' Hnone']]]]].
  - rewrite Hok1, Hok2. intros x.
    destruct (initial_weights_Ok _ _ Hok1) as [_ H1].
    destruct (initial_weights_Ok _ _ Hok2) as [_ H2].
    rewrite H1, H2, (Heq x). reflexivity.
  - exfalso. apply (Hall1 k' nd'); [| exact Hnone'].
    apply dget_In. rewrite (Heq k'). apply In_dget; assumption.
  - exfalso. apply (Hall2 k nd); [| exact Hnone].
    apply dget_In. rewrite <- (Heq k). apply In_dget; assumption.
  - rewrite Herr1, Herr2. reflexivity.
Qed.

Lemma qem_accept_ext (n : string) (sup att : dict (list string))
    (final_acc w1 w2 : dict Q) :
  dict_eq w1 w2 ->
  qem_accept n sup att final_acc w1 = qem_accept n sup att final_acc w2.
Proof.
  intros Heq. unfold qem_accept, dindex. rewrite (Heq n). reflexivity.
Qed.

Lemma qem_loop_ext (topo : list string) (sup att : dict (list string))
    (w1 w2 : dict Q) :
  dict_eq w1 w2 ->
  forall final_acc,
    qem_loop topo sup att w1 final_acc = qem_loop topo sup att w2 final_acc.
Proof.
  intros Heq. induction topo as [| n topo IH]; intros final_acc; simpl;
    [reflexivity |].
  rewrite (qem_accept_ext n sup att final_acc w1 w2 Heq).
  destruct (qem_accept n sup att final_acc w2); simpl; [apply IH | reflexivity].
Qed.

Lemma copy_weights_get (ks : list string) (w_init : dict Q) :
  (forall k, In k ks -> dget w_init k <> None) ->
  forall acc, exists m,
    copy_weights ks w_init acc = Ok m /\
    forall k, dget m k = if mem k ks then dget w_init k else dget acc k.
Proof.
  induction ks as [| a ks IH]; intros Hall acc.
  - exists acc. split; reflexivity.
  - simpl copy_weights. unfold dindex.
    destruct (dget w_init a) as [w |] eqn:Ea;
      [| exfalso; apply (Hall a); [left; reflexivity | exact Ea]].
    simpl bind.
    destruct (IH (fun k Hk => Hall k (or_intror Hk)) (dset acc a w)) as [m [Hm Hget]].
    exists m. split; [exact Hm |].
    intros k. rewrite Hget, mem_cons, dget_dset.
    destruct (mem k ks); [rewrite orb_true_r; reflexivity |].
    rewrite orb_false_r.
    destruct (String.eqb_spec k a) as [E | NE]; [subst; auto | reflexivity].
Qed.

Lemma dict_eq_nil {V} (d : dict V) : dict_eq [] d -> d = [].
Proof.
  intros Heq. destruct d as [| [k v] d]; [reflexivity |].
  specialize (Heq k). simpl in Heq. rewrite String.eqb_refl in Heq. discriminate.
Qed.

Lemma dict_eq_keys {V} (d1 d2 : dict V) :
  dict_eq d1 d2 -> forall k, mem k (keys d1) = mem k (keys d2).
Proof.
  intros Heq. apply mem_ext. intros x.
  split; intros Hin.
  - destruct (dget d2 x) eqn:E.
    + apply dget_In in E. change x with (fst (x, v)). apply in_map. exact E.
    + rewrite <- (Heq x) in E. apply dget_None_keys in E. contradiction.
  - destruct (dget d1 x) eqn:E.
    + apply dget_In in E. change x with (fst (x, v)). apply in_map. exact E.
    + rewrite (Heq x) in E. apply dget_None_keys in E. contradiction.
Qed.

(** Propagation of two frameworks with the same edges and equal node
    dictionaries: the same outcome, unless the topological sort reports a
    cycle and the order of the node keys is used instead. *)
Lemma apply_qem_dict_eq (ns1 ns2 : dict node) (es : dict edge) :
  NoDup (keys ns1) -> NoDup (keys ns2) -> dict_eq ns1 ns2 ->
  topological_sort (graph_of es) <> Raise NetworkXUnfeasible ->
  same_weights (apply_qem_to_restriction (mk_debate ns1 es))
               (apply_qem_to_restriction (mk_debate ns2 es)).
Proof.
  intros Hnd1 Hnd2 Heq Hacyclic.
  unfold apply_qem_to_restriction. cbn [nodes edges].
  destruct ns1 as [| item1 ns1'] eqn:E1.
  { rewrite (dict_eq_nil ns2 Heq). simpl. intros k. reflexivity. }
  destruct ns2 as [| item2 ns2'] eqn:E2.
  { assert (Hnil : dict_eq (V := node) [] (item1 :: ns1')) by (intros k; symmetry; apply Heq).
    apply dict_eq_nil in Hnil. discriminate. }
  rewrite <- E1, <- E2 in *. clear E1 E2 item1 ns1' item2 ns2'.
  pose proof (initial_weights_dict_eq ns1 ns2 Hnd1 Hnd2 Heq) as Hw.
  destruct (initial_weights ns1) as [w1 | e1] eqn:Ew1;
    destruct (initial_weights ns2) as [w2 | e2] eqn:Ew2;
    try contradiction; [| exact Hw].
  simpl bind. unfold graph_of in Hacyclic.
  destruct (build_graph es) as [[sup att] G]. cbn [snd] in Hacyclic.
  destruct (g_edges G) as [| ed eds].
  - destruct (initial_weights_Ok _ _ Ew1) as [Hk1 Hg1].
    destruct (initial_weights_Ok _ _ Ew2) as [Hk2 Hg2].
    assert (Hin1 : forall k, In k (keys ns1) -> dget w1 k <> None).
    { intros k Hk. rewrite <- Hk1 in Hk. intros Hnone.
      apply dget_None_keys in Hnone. contradiction. }
    assert (Hin2 : forall k, In k (keys ns2) -> dget w2 k <> None).
    { intros k Hk. rewrite <- Hk2 in Hk. intros Hnone.
      apply dget_None_keys in Hnone. contradiction. }
    destruct (copy_weights_get (keys ns1) w1 Hin1 []) as [m1 [Hm1 Hget1]].
    destruct (copy_weights_get (keys ns2) w2 Hin2 []) as [m2 [Hm2 Hget2]].
    rewrite Hm1, Hm2. intros k.
    rewrite Hget1, Hget2, (dict_eq_keys ns1 ns2 Heq k), (Hw k). reflexivity.
  - destruct (topological_sort G) as [topo | e] eqn:Et.
    + simpl bind. rewrite (qem_loop_ext topo sup att w1 w2 Hw).
      destruct (qem_loop topo sup att w2 []); simpl; [intros k |]; reflexivity.
    + destruct e; [congruence | simpl; reflexivity | simpl; reflexivity].
Qed.

(** ** Cycles and the topological sort *)

Lemma dget_ddel_ne {V} (d : dict V) (k k' : string) :
  k' <> k -> dget (ddel d k) k' = dget d k'.
Proof.
  intros Hne. induction d as [| [k0 v0] d IH]; simpl; [reflexivity |].
  destruct (String.eqb_spec k k0) as [E | NE]; simpl.
  - subst k0. destruct (String.eqb_spec k' k); [contradiction | reflexivity].
  - rewrite IH. reflexivity.
Qed.

Lemma dget_ddel_eq {V} (d : dict V) (k : string) :
  NoDup (keys d) -> dget (ddel d k) k = None.
Proof.
  induction d as [| [k0 v0] d IH]; simpl; intros Hnd; [reflexivity |].
  inversion Hnd as [| ? ? Hnotin Hnd']; subst.
  destruct (String.eqb_spec k k0) as [E | NE]; simpl.
  - subst k0. apply dget_None_keys. exact Hnotin.
  - destruct (String.eqb_spec k k0); [contradiction | apply IH; exact Hnd'].
Qed.

Lemma keys_ddel_perm {V} (d : dict V) (k : string) :
  dget d k <> None -> Permutation (keys d) (k :: keys (ddel d k)).
Proof.
  induction d as [| [k0 v0] d IH]; simpl; intros Hin; [congruence |].
  destruct (String.eqb_spec k k0) as [E | NE]; simpl.
  - subst k0. apply Permutation_refl.
  - apply perm_trans with (k0 :: k :: keys (ddel d k)).
    + apply perm_skip. apply IH. exact Hin.
    + apply perm_swap.
Qed.

Lemma NoDup_keys_ddel {V} (d : dict V) (k : string) :
  NoDup (keys d) -> NoDup (keys (ddel d k)).
Proof.
  intros Hnd. destruct (dget d k) eqn:E.
  - assert (Hp : Permutation (keys d) (k :: keys (ddel d k)))
      by (apply keys_ddel_perm; congruence).
    apply (Permutation_NoDup Hp) in Hnd. inversion Hnd; assumption.
  - assert (Hid : ddel d k = d).
    { clear Hnd. induction d as [| [k0 v0] d IH]; simpl in *; [reflexivity |].
      destruct (String.eqb k k0); [discriminate |]. rewrite IH; auto. }
    rewrite Hid. exact Hnd.
Qed.

Lemma length_ddel {V} (d : dict V) (k : string) :
  dget d k <> None -> S (length (ddel d k)) = length d.
Proof.
  intros Hin. apply keys_ddel_perm in Hin. apply Permutation_length in Hin.
  unfold keys in Hin. rewrite !length_map in Hin. simpl in Hin.
  rewrite length_map in Hin. symmetry. exact Hin.
Qed.

Lemma keys_dset_present {V} (d : dict V) (k : string) (v : V) :
  dget d k <> None -> keys (dset d k v) = keys d.
Proof.
  intros Hin. rewrite keys_dset. unfold dmem.
  destruct (dget d k); [reflexivity | congruence].
Qed.

Lemma length_dset_present {V} (d : dict V) (k : string) (v : V) :
  dget d k <> None -> length (dset d k v) = length d.
Proof.
  intros Hin. apply keys_dset_present with (v := v) in Hin.
  apply (f_equal (@length string)) in Hin. unfold keys in Hin.
  rewrite !length_map in Hin. exact Hin.
Qed.

Lemma neighbors_In (G : DiGraph) (u v : string) :
  In v (neighbors G u) <-> In (u, v) (g_edges G).
Proof.
  unfold neighbors. rewrite in_map_iff. split.
  - intros [[a b] [Hsnd Hin]]. apply filter_In in Hin. destruct Hin as [Hin Heq].
    simpl in *. apply String.eqb_eq in Heq. subst. exact Hin.
  - intros Hin. exists (u, v). split; [reflexivity |].
    apply filter_In. split; [exact Hin | apply String.eqb_refl].
Qed.

Lemma count_occ_flat_map_perm (f : string -> list string) (l1 l2 : list string)
    (w : string) :
  Permutation l1 l2 ->
  count_occ string_dec (flat_map f l1) w = count_occ string_dec (flat_map f l2) w.
Proof.
  intros Hp. apply Permutation_count_occ. apply Permutation_flat_map. exact Hp.
Qed.

Section KahnInvariant.
Variable G : DiGraph.
Variable S : string -> Prop.
Hypothesis Hclosed : closed_backwards G S.

Lemma moved_to_zero_perm (rest zero : list string) (m : dict Z) (v : string) :
  dget m v <> None ->
  Permutation ((rest ++ zero) ++ keys m)
              ((rest ++ zero ++ [v]) ++ keys (ddel m v)).
Proof.
  intros Hv.
  replace ((rest ++ zero ++ [v]) ++ keys (ddel m v))
    with ((rest ++ zero) ++ v :: keys (ddel m v)).
  - apply Permutation_app_head. apply keys_ddel_perm. exact Hv.
  - rewrite (app_assoc rest zero [v]), <- (app_assoc (rest ++ zero) [v]).
    reflexivity.
Qed.

(** A node of [S] that is about to be visited as a child still has its
    predecessor of [S] among the keys: it is pending at least twice. *)
Lemma closed_node_pending_twice (v : string) (cs P : list string) (m : dict Z) :
  kahn_inv G S (v :: cs) P m -> S v ->
  (2 <= count_occ string_dec (pending G (v :: cs) P m) v)%nat.
Proof.
  intros [_ [_ [_ [_ HS]]]] Hv.
  destruct (Hclosed v Hv) as [p [Hp Hedge]].
  unfold pending. simpl. destruct (string_dec v v) as [_ | NE]; [| congruence].
  rewrite count_occ_app.
  assert (Hin : In v (flat_map (neighbors G) (P ++ keys m))).
  { apply in_flat_map. exists p. split.
    - apply in_or_app. right. specialize (HS p Hp).
      destruct (dget m p) eqn:E; [| congruence].
      apply dget_In in E. change p with (fst (p, z)). apply in_map. exact E.
    - apply neighbors_In. exact Hedge. }
  apply (count_occ_In string_dec) in Hin. lia.
Qed.

Lemma visit_child_inv (v : string) (cs rest zero : list string) (m : dict Z) :
  kahn_inv G S (v :: cs) (rest ++ zero) m ->
  exists m' zero',
    visit_child (m, zero) v = Ok (m', zero') /\
    kahn_inv G S cs (rest ++ zero') m' /\
    (length m' + length zero' = length m + length zero)%nat.
Proof.
  intros Hinv. pose proof Hinv as [Hnd [Hsub [HB [HA HS]]]].
  destruct (dget m v) as [d |] eqn:Ed;
    [| exfalso; apply (HB v); [left; reflexivity | exact Ed]].
  assert (Hv : dget m v <> None) by (rewrite Ed; discriminate).
  unfold visit_child. rewrite Ed.
  pose proof (HA v d Ed) as Hcount.
  assert (Hhead : count_occ string_dec (pending G (v :: cs) (rest ++ zero) m) v
                  = Datatypes.S (count_occ string_dec (pending G cs (rest ++ zero) m) v)).
  { unfold pending. simpl. destruct (string_dec v v); [reflexivity | congruence]. }
  assert (Htail : forall w, w <> v ->
            count_occ string_dec (pending G (v :: cs) (rest ++ zero) m) w
            = count_occ string_dec (pending G cs (rest ++ zero) m) w).
  { intros w Hne. unfold pending. simpl.
    destruct (string_dec v w); [congruence | reflexivity]. }
  destruct (Z.eqb_spec (d - 1) 0) as [Hz | Hnz].
  - (* the last pending visit of v: it moves to zero_indegree *)
    assert (HnotS : ~ S v).
    { intros HSv. pose proof (closed_node_pending_twice v cs _ m Hinv HSv). lia. }
    assert (Hperm := moved_to_zero_perm rest zero m v Hv).
    assert (Hpend : forall w,
              count_occ string_dec (pending G cs (rest ++ zero ++ [v]) (ddel m v)) w
              = count_occ string_dec (pending G cs (rest ++ zero) m) w).
    { intros w. unfold pending. rewrite !count_occ_app. f_equal.
      symmetry. apply count_occ_flat_map_perm. exact Hperm. }
    exists (ddel m v), (zero ++ [v]). split; [reflexivity |]. split.
    + split; [apply NoDup_keys_ddel; exact Hnd |].
      split.
      { intros u Hu. apply Hsub.
        apply (Permutation_in u (Permutation_sym Hperm)). exact Hu. }
      split.
      { intros w Hw.
        assert (Hc : (0 < count_occ string_dec
                            (pending G cs (rest ++ zero ++ [v]) (ddel m v)) w)%nat)
          by (apply count_occ_In; exact Hw).
        rewrite Hpend in Hc.
        destruct (string_dec w v) as [E | NE].
        - subst w. lia.
        - rewrite dget_ddel_ne by exact NE. apply HB.
          apply (count_occ_In string_dec). rewrite Htail by exact NE. exact Hc. }
      split.
      { intros w d' Hd'.
        destruct (string_dec w v) as [E | NE].
        - subst w. rewrite dget_ddel_eq in Hd' by exact Hnd. discriminate.
        - rewrite dget_ddel_ne in Hd' by exact NE.
          rewrite Hpend, <- Htail by exact NE. apply HA. exact Hd'. }
      { intros c Hc. destruct (string_dec c v) as [E | NE]; [congruence |].
        rewrite dget_ddel_ne by exact NE. apply HS. exact Hc. }
    + rewrite length_app. simpl. pose proof (length_ddel m v Hv). lia.
  - (* v stays in indegree_map with one visit less to come *)
    assert (Hkeys : keys (dset m v (d - 1)%Z) = keys m)
      by (apply keys_dset_present; exact Hv).
    assert (Hpend : pending G cs (rest ++ zero) (dset m v (d - 1)%Z)
                    = pending G cs (rest ++ zero) m).
    { unfold pending. rewrite Hkeys. reflexivity. }
    exists (dset m v (d - 1)%Z), zero. split; [reflexivity |]. split.
    + split; [rewrite Hkeys; exact Hnd |].
      split; [rewrite Hkeys; exact Hsub |].
      split.
      { intros w Hw. rewrite Hpend in Hw. rewrite dget_dset.
        destruct (String.eqb w v); [discriminate |].
        apply HB. unfold pending in *. simpl. right. exact Hw. }
      split.
      { intros w d' Hd'. rewrite Hpend. rewrite dget_dset in Hd'.
        destruct (String.eqb_spec w v) as [E | NE].
        - subst w. inversion Hd'; subst d'. lia.
        - rewrite <- Htail by exact NE. apply HA. exact Hd'. }
      { intros c Hc. rewrite dget_dset.
        destruct (String.eqb c v); [discriminate | apply HS; exact Hc]. }
    + rewrite (length_dset_present m v _ Hv). reflexivity.
Qed.

Lemma visit_children_inv (cs : list string) :
  forall rest zero m,
    kahn_inv G S cs (rest ++ zero) m ->
    exists m' zero',
      visit_children cs (m, zero) = Ok (m', zero') /\
      kahn_inv G S [] (rest ++ zero') m' /\
      (length m' + length zero' = length m + length zero)%nat.
Proof.
  induction cs as [| v cs IH]; intros rest zero m Hinv.
  - exists m, zero. split; [reflexivity |]. split; [exact Hinv | reflexivity].
  - destruct (visit_child_inv v cs rest zero m Hinv) as [m1 [z1 [Hstep [Hinv1 Hlen1]]]].
    destruct (IH rest z1 m1 Hinv1) as [m2 [z2 [Hrest [Hinv2 Hlen2]]]].
    exists m2, z2. cbn [visit_children]. rewrite Hstep. cbn [bind]. rewrite Hrest.
    split; [reflexivity |]. split; [exact Hinv2 | lia].
Qed.

Lemma visit_generation_inv (gen : list string) :
  forall zero m,
    kahn_inv G S [] (gen ++ zero) m ->
    exists m' zero',
      visit_generation G gen (m, zero) = Ok (m', zero') /\
      kahn_inv G S [] zero' m' /\
      (length m' + length zero' = length m + length zero)%nat.
Proof.
  induction gen as [| n rest IH]; intros zero m Hinv.
  - exists m, zero. split; [reflexivity |]. split; [exact Hinv | reflexivity].
  - pose proof Hinv as [Hnd [Hsub [HB [HA HS]]]].
    assert (Hn : mem n (g_nodes G) = true).
    { apply mem_true_iff. apply Hsub. left. reflexivity. }
    assert (Hinv' : kahn_inv G S (neighbors G n) (rest ++ zero) m).
    { split; [exact Hnd |].
      split; [intros u Hu; apply Hsub; right; exact Hu |].
      split; [exact HB |]. split; [exact HA | exact HS]. }
    destruct (visit_children_inv (neighbors G n) rest zero m Hinv')
      as [m1 [z1 [Hstep [Hinv1 Hlen1]]]].
    destruct (IH z1 m1 Hinv1) as [m2 [z2 [Hrest [Hinv2 Hlen2]]]].
    exists m2, z2. cbn [visit_generation]. rewrite Hn, Hstep. cbn [bind].
    rewrite Hrest.
    split; [reflexivity |]. split; [exact Hinv2 | lia].
Qed.

(** The loop cannot end well while a backwards-closed set is non-empty:
    its nodes never leave [indegree_map]. *)
Lemma generations_unfeasible (fuel : nat) :
  forall m zero,
    kahn_inv G S [] zero m ->
    (exists c, S c) ->
    (zero <> [] -> (length m < fuel)%nat) ->
    generations fuel G m zero = Some (Raise NetworkXUnfeasible).
Proof.
  induction fuel as [| fuel IH]; intros m zero Hinv [c Hc] Hfuel.
  - destruct zero as [| z zero]; [| exfalso; assert (z :: zero <> []) as H by discriminate;
                                    specialize (Hfuel H); lia].
    simpl. destruct Hinv as [_ [_ [_ [_ HS]]]]. specialize (HS c Hc).
    destruct m; [simpl in HS; congruence | reflexivity].
  - destruct zero as [| z zero].
    + simpl. destruct Hinv as [_ [_ [_ [_ HS]]]]. specialize (HS c Hc).
      destruct m; [simpl in HS; congruence | reflexivity].
    + assert (Hinv0 : kahn_inv G S [] ((z :: zero) ++ []) m)
        by (rewrite app_nil_r; exact Hinv).
      destruct (visit_generation_inv (z :: zero) [] m Hinv0)
        as [m' [zero' [Hgen [Hinv' Hlen]]]].
      cbn [generations]. rewrite Hgen.
      rewrite (IH m' zero' Hinv' (ex_intro _ c Hc)); [reflexivity |].
      intros Hne. assert (z :: zero <> []) as H by discriminate.
      specialize (Hfuel H). destruct zero'; [congruence |]. simpl in Hlen. lia.
Qed.
(** With the fuel [topological_sort] gives it, the loop ends, and it ends
    with a list or with [NetworkXUnfeasible]. *)
Lemma generations_fuel (fuel : nat) :
  forall m zero,
    kahn_inv G S [] zero m ->
    (zero <> [] -> (length m < fuel)%nat) ->
    exists r, generations fuel G m zero = Some r /\
              (r = Raise NetworkXUnfeasible \/ exists topo, r = Ok topo).
Proof.
  induction fuel as [| fuel IH]; intros m zero Hinv Hfuel.
  - destruct zero as [| z zero]; [| exfalso; assert (z :: zero <> []) as H by discriminate;
                                    specialize (Hfuel H); lia].
    simpl. destruct m; eexists; (split; [reflexivity |]); eauto.
  - destruct zero as [| z zero].
    + simpl. destruct m; eexists; (split; [reflexivity |]); eauto.
    + assert (Hinv0 : kahn_inv G S [] ((z :: zero) ++ []) m)
        by (rewrite app_nil_r; exact Hinv).
      destruct (visit_generation_inv (z :: zero) [] m Hinv0)
        as [m' [zero' [Hgen [Hinv' Hlen]]]].
      cbn [generations]. rewrite Hgen.
      destruct (IH m' zero' Hinv') as [r [Hr Hcase]].
      { intros Hne. assert (z :: zero <> []) as H by discriminate.
        specialize (Hfuel H). destruct zero'; [congruence |]. simpl in Hlen. lia. }
      rewrite Hr. destruct Hcase as [E | [topo E]]; subst r;
        eexists; (split; [reflexivity |]); eauto.
Qed.
End KahnInvariant.

(** *** The invariant holds when the loop starts. *)

Lemma keys_initial_indegree_map (G : DiGraph) :
  keys (initial_indegree_map G)
  = filter (fun v => (0 <? in_degree G v)%nat) (g_nodes G).
Proof.
  unfold initial_indegree_map, in_degrees, keys.
  induction (g_nodes G) as [| v ns IH]; simpl; [reflexivity |].
  destruct (in_degree G v) as [| k] eqn:E; simpl; rewrite IH; reflexivity.
Qed.

Lemma initial_zero_indegree_filter (G : DiGraph) :
  initial_zero_indegree G = filter (fun v => (in_degree G v =? 0)%nat) (g_nodes G).
Proof.
  unfold initial_zero_indegree, in_degrees.
  induction (g_nodes G) as [| v ns IH]; simpl; [reflexivity |].
  destruct (in_degree G v) as [| k] eqn:E; simpl; rewrite IH; reflexivity.
Qed.

Lemma Z_ltb_0_of_nat (n : nat) : (0 <? Z.of_nat n)%Z = (0 <? n)%nat.
Proof.
  destruct n; reflexivity.
Qed.

Lemma dget_initial_indegree_map (G : DiGraph) (w : string) :
  dget (initial_indegree_map G) w
  = if mem w (g_nodes G) && (0 <? in_degree G w)%nat
    then Some (Z.of_nat (in_degree G w)) else None.
Proof.
  unfold initial_indegree_map, in_degrees.
  induction (g_nodes G) as [| v ns IH]; [reflexivity |].
  cbn [map filter snd]. rewrite Z_ltb_0_of_nat, mem_cons.
  destruct (0 <? in_degree G v)%nat eqn:Ev.
  - cbn [dget]. destruct (String.eqb_spec w v) as [E | NE].
    + subst v. rewrite Ev. reflexivity.
    + exact IH.
  - rewrite IH. destruct (String.eqb_spec w v) as [E | NE]; [| reflexivity].
    subst v. rewrite Ev, !andb_false_r. reflexivity.
Qed.

(** Over a duplicate-free list of sources that holds the source of every
    edge, each edge into [w] is counted exactly once. *)
Lemma count_occ_neighbors_eq (ns l : list string) (es : list (string * string))
    (w : string) :
  NoDup l ->
  (forall a b, In (a, b) es -> In a l) ->
  count_occ string_dec (flat_map (neighbors (mk_graph ns es)) l) w
  = in_degree (mk_graph ns es) w.
Proof.
  intros Hnd. unfold in_degree, neighbors. cbn [g_edges].
  induction es as [| [a b] es IH]; intros Hsrc.
  - clear Hnd Hsrc. induction l as [| u l IHl]; simpl; [reflexivity | exact IHl].
  - assert (Hsplit :
      count_occ string_dec
        (flat_map (fun u => map snd (filter (fun e => String.eqb (fst e) u)
                                            ((a, b) :: es))) l) w
      = ((if String.eqb b w then count_occ string_dec l a else 0)
         + count_occ string_dec
             (flat_map (fun u => map snd (filter (fun e => String.eqb (fst e) u) es)) l)
             w)%nat).
    { clear IH Hnd Hsrc. induction l as [| u l IHl]; cbn [flat_map].
      - destruct (String.eqb b w); reflexivity.
      - rewrite !count_occ_app, IHl. cbn [filter fst].
        destruct (String.eqb_spec a u) as [E | NE]; cbn [map snd count_occ].
        + subst u. destruct (string_dec a a) as [_ | NE]; [| congruence].
          destruct (string_dec b w) as [E | NE];
            destruct (String.eqb_spec b w); try congruence; lia.
        + destruct (string_dec u a) as [E | _]; [congruence |].
          destruct (String.eqb b w); lia. }
    rewrite Hsplit. cbn [filter snd].
    rewrite IH by (intros x y Hxy; apply (Hsrc x y); right; exact Hxy).
    assert (Hone : count_occ string_dec l a = 1%nat).
    { assert (Hle : (count_occ string_dec l a <= 1)%nat)
        by (apply NoDup_count_occ; exact Hnd).
      assert (Hin : In a l) by (apply (Hsrc a b); left; reflexivity).
      apply (count_occ_In string_dec) in Hin. lia. }
    rewrite Hone. destruct (String.eqb b w); reflexivity.
Qed.

Lemma in_degree_pos (G : DiGraph) (u v : string) :
  In (u, v) (g_edges G) -> (0 < in_degree G v)%nat.
Proof.
  intros Hin. unfold in_degree.
  assert (H : In (u, v) (filter (fun e => String.eqb (snd e) v) (g_edges G))).
  { apply filter_In. split; [exact Hin | apply String.eqb_refl]. }
  destruct (filter (fun e => String.eqb (snd e) v) (g_edges G));
    [contradiction | simpl; lia].
Qed.

Lemma initial_kahn_inv (G : DiGraph) (S : string -> Prop) :
  graph_wf G -> closed_backwards G S ->
  kahn_inv G S [] (initial_zero_indegree G) (initial_indegree_map G).
Proof.
  intros [Hnd Hends] Hclosed.
  assert (Hpos : forall u v, In (u, v) (g_edges G) ->
                             dget (initial_indegree_map G) v <> None).
  { intros u v Hin. rewrite dget_initial_indegree_map.
    destruct (Hends u v Hin) as [_ Hv]. apply mem_true_iff in Hv. rewrite Hv.
    pose proof (in_degree_pos G u v Hin) as Hd. apply Nat.ltb_lt in Hd.
    rewrite Hd. discriminate. }
  assert (Hnd2 : NoDup (initial_zero_indegree G ++ keys (initial_indegree_map G))).
  { rewrite keys_initial_indegree_map, initial_zero_indegree_filter.
    apply NoDup_app; try (apply NoDup_filter; exact Hnd).
    intros a Ha Hb. apply filter_In in Ha. apply filter_In in Hb.
    destruct Ha as [_ Ha]. destruct Hb as [_ Hb].
    apply Nat.eqb_eq in Ha. apply Nat.ltb_lt in Hb. lia. }
  split.
  { rewrite keys_initial_indegree_map. apply NoDup_filter. exact Hnd. }
  split.
  { intros u Hu. rewrite keys_initial_indegree_map, initial_zero_indegree_filter in Hu.
    apply in_app_or in Hu. destruct Hu as [Hu | Hu]; apply filter_In in Hu; tauto. }
  split.
  { intros w Hw. unfold pending in Hw. simpl in Hw.
    apply in_flat_map in Hw. destruct Hw as [u [_ Hw]].
    apply neighbors_In in Hw. apply (Hpos u w Hw). }
  split.
  { intros w d Hd. rewrite dget_initial_indegree_map in Hd.
    destruct (mem w (g_nodes G)); [| discriminate]. cbn [andb] in Hd.
    destruct (0 <? in_degree G w)%nat eqn:Epos; [| discriminate].
    apply Nat.ltb_lt in Epos.
    inversion Hd; subst d. split; [lia |]. f_equal. unfold pending. simpl.
    destruct G as [ns es]. symmetry. apply count_occ_neighbors_eq; [exact Hnd2 |].
    intros a b Hab. destruct (Hends a b Hab) as [Ha _]. cbn [g_nodes] in Ha.
    rewrite keys_initial_indegree_map, initial_zero_indegree_filter.
    cbn [g_nodes]. apply in_or_app.
    destruct (in_degree (mk_graph ns es) a) eqn:Ea.
    - left. apply filter_In. split; [exact Ha | rewrite Ea; reflexivity].
    - right. apply filter_In. split; [exact Ha | rewrite Ea; reflexivity]. }
  { intros c Hc. destruct (Hclosed c Hc) as [p [_ Hedge]]. apply (Hpos p c Hedge). }
Qed.

(** A graph with a non-empty backwards-closed set of nodes is rejected. *)
Lemma topological_sort_unfeasible (G : DiGraph) (S : string -> Prop) :
  graph_wf G -> closed_backwards G S -> (exists c, S c) ->
  topological_sort G = Raise NetworkXUnfeasible.
Proof.
  intros Hwf Hclosed Hex. unfold topological_sort, topological_sort_fueled.
  rewrite (generations_unfeasible G S Hclosed); [reflexivity | | exact Hex |].
  - apply initial_kahn_inv; assumption.
  - intros _. lia.
Qed.

(** *** The graph built from the edges of a debate *)

Lemma add_node_In (ns : list string) (u x : string) :
  In x (add_node ns u) <-> In x ns \/ x = u.
Proof.
  unfold add_node. destruct (mem u ns) eqn:E.
  - apply mem_true_iff in E. split; [auto | intros [H | H]; subst; auto].
  - rewrite in_app_iff. simpl. intuition congruence.
Qed.

Lemma add_node_NoDup (ns : list string) (u : string) :
  NoDup ns -> NoDup (add_node ns u).
Proof.
  intros Hnd. unfold add_node. destruct (mem u ns) eqn:E; [exact Hnd |].
  apply mem_false_iff in E.
  apply NoDup_app; [exact Hnd | constructor; [intros [] | constructor] |].
  intros a Ha [Hu | []]. congruence.
Qed.

Lemma add_edge_edges (G : DiGraph) (u v : string) (e : string * string) :
  In e (g_edges (add_edge G u v)) <-> In e (g_edges G) \/ e = (u, v).
Proof.
  unfold add_edge. cbn [g_edges].
  destruct (existsb (edge_eqb (u, v)) (g_edges G)) eqn:E.
  - split; [auto |]. intros [H | H]; [exact H |]. subst e.
    apply existsb_exists in E. destruct E as [[a b] [Hin Heq]].
    unfold edge_eqb in Heq. simpl in Heq. apply andb_true_iff in Heq.
    destruct Heq as [Ha Hb]. apply String.eqb_eq in Ha, Hb. subst. exact Hin.
  - rewrite in_app_iff. simpl. intuition congruence.
Qed.

Lemma add_edge_wf (G : DiGraph) (u v : string) :
  graph_wf G -> graph_wf (add_edge G u v).
Proof.
  intros [Hnd Hends]. split.
  - unfold add_edge. cbn [g_nodes]. apply add_node_NoDup, add_node_NoDup, Hnd.
  - intros a b Hin. apply add_edge_edges in Hin.
    unfold add_edge. cbn [g_nodes]. rewrite !add_node_In.
    destruct Hin as [Hin | Heq].
    + destruct (Hends a b Hin). tauto.
    + inversion Heq; subst. tauto.
Qed.

Lemma build_step_graph (st : build_state) (item : string * edge) :
  snd (build_step st item) = add_edge (snd st) (fst item) (successor_id (snd item)).
Proof.
  destruct st as [[sup att] G]. unfold build_step. cbn [snd].
  destruct (Qltb 0 (rel_of (snd item))); [reflexivity |].
  destruct (Qltb (rel_of (snd item)) 0); reflexivity.
Qed.

Lemma build_graph_facts (es : dict edge) :
  forall st,
    graph_wf (snd st) ->
    graph_wf (snd (fold_left build_step es st)) /\
    (forall e, In e (g_edges (snd st)) ->
               In e (g_edges (snd (fold_left build_step es st)))) /\
    (forall u e, In (u, e) es ->
                 In (u, successor_id e) (g_edges (snd (fold_left build_step es st)))).
Proof.
  induction es as [| item es IH]; intros st Hwf.
  - split; [exact Hwf |]. split; [auto | intros u e []].
  - cbn [fold_left].
    assert (Hwf' : graph_wf (snd (build_step st item)))
      by (rewrite build_step_graph; apply add_edge_wf; exact Hwf).
    destruct (IH (build_step st item) Hwf') as [H1 [H2 H3]].
    split; [exact H1 |]. split.
    + intros e He. apply H2. rewrite build_step_graph. apply add_edge_edges.
      left. exact He.
    + intros u e [Heq | Hin]; [| apply H3; exact Hin].
      subst item. apply H2. rewrite build_step_graph. apply add_edge_edges.
      right. reflexivity.
Qed.

Lemma graph_of_wf (es : dict edge) : graph_wf (graph_of es).
Proof.
  unfold graph_of, build_graph. apply build_graph_facts.
  split; [constructor | intros u v []].
Qed.

Lemma graph_of_edges (es : dict edge) (u : string) (e : edge) :
  In (u, e) es -> In (u, successor_id e) (g_edges (graph_of es)).
Proof.
  unfold graph_of, build_graph. apply build_graph_facts.
  split; [constructor | intros a b []].
Qed.

(** Every node on a cycle has a predecessor on a cycle. *)
Lemma path_last (es : dict edge) (u w : string) :
  path es u w ->
  exists p e, In (p, e) es /\ successor_id e = w /\ (p = u \/ path es u p).
Proof.
  induction 1 as [u e Hin | u w e Hin Hpath IH].
  - exists u, e. auto.
  - destruct IH as [p [e' [Hin' [Hsucc Hcase]]]].
    exists p, e'. split; [exact Hin' |]. split; [exact Hsucc |].
    right. destruct Hcase as [E | Hp].
    + subst p. apply path_edge. exact Hin.
    + apply path_step with e; assumption.
Qed.

Lemma path_trans (es : dict edge) (u v w : string) :
  path es u v -> path es v w -> path es u w.
Proof.
  induction 1 as [u e Hin | u v e Hin Hpath IH]; intros Hvw.
  - apply path_step with e; assumption.
  - apply path_step with e; [exact Hin | apply IH; exact Hvw].
Qed.

Lemma on_cycle_closed (es : dict edge) :
  closed_backwards (graph_of es) (fun v => path es v v).
Proof.
  intros c Hc. destruct (path_last es c c Hc) as [p [e [Hin [Hsucc Hcase]]]].
  exists p. split.
  - destruct Hcase as [E | Hp].
    + subst p. exact Hc.
    + apply path_trans with c; [| exact Hp].
      rewrite <- Hsucc. apply path_edge. exact Hin.
  - rewrite <- Hsucc. apply graph_of_edges. exact Hin.
Qed.

(** networkx rejects the graph of a cyclic edge set. *)
Lemma cyclic_unfeasible (es : dict edge) :
  cyclic es -> topological_sort (graph_of es) = Raise NetworkXUnfeasible.
Proof.
  intros [v Hv].
  apply (topological_sort_unfeasible (graph_of es) (fun v => path es v v)).
  - apply graph_of_wf.
  - apply on_cycle_closed.
  - exists v. exact Hv.
Qed.

(** The fuel of [topological_sort] suffices: on the graph of any edge set
    the sort returns a list or raises [NetworkXUnfeasible], and never the
    [RuntimeError] reserved for a graph mutated during the iteration. *)
Lemma topological_sort_fuel (es : dict edge) :
  exists r, topological_sort_fueled (graph_of es) = Some r /\
            topological_sort (graph_of es) = r /\
            (r = Raise NetworkXUnfeasible \/ exists topo, r = Ok topo).
Proof.
  unfold topological_sort, topological_sort_fueled.
  assert (Hclosed : closed_backwards (graph_of es) (fun _ => False))
    by (intros c []).
  destruct (generations_fuel (graph_of es) (fun _ => False) Hclosed
              (Datatypes.S (length (initial_indegree_map (graph_of es))))
              (initial_indegree_map (graph_of es))
              (initial_zero_indegree (graph_of es)))
    as [r [Hr Hcase]].
  - apply initial_kahn_inv; [apply graph_of_wf | exact Hclosed].
  - intros _. lia.
  - exists r. rewrite Hr. auto.
Qed.

(** *** Propagation of a cyclic edge set *)

Lemma qem_accept_total (n : string) (sup att : dict (list string))
    (final_acc w_init : dict Q) :
  dget w_init n <> None -> exists w, qem_accept n sup att final_acc w_init = Ok w.
Proof.
  intros Hn. unfold qem_accept, dindex.
  destruct (dget w_init n) as [w0 |]; [| congruence].
  destruct (negb (dmem sup n) && negb (dmem att n)); eexists; reflexivity.
Qed.

Lemma qem_loop_total (topo : list string) (sup att : dict (list string))
    (w_init : dict Q) :
  (forall n, In n topo -> dget w_init n <> None) ->
  forall final_acc,
  exists m, qem_loop topo sup att w_init final_acc = Ok m /\
            forall k, In k topo \/ dget final_acc k <> None -> dget m k <> None.
Proof.
  induction topo as [| n topo IH]; intros Hall final_acc.
  - exists final_acc. split; [reflexivity |]. intros k [[] | Hk]. exact Hk.
  - destruct (qem_accept_total n sup att final_acc w_init) as [w Hw];
      [apply Hall; left; reflexivity |].
    destruct (IH (fun x Hx => Hall x (or_intror Hx)) (dset final_acc n w))
      as [m [Hm Hkeys]].
    exists m. cbn [qem_loop]. rewrite Hw. cbn [bind]. split; [exact Hm |].
    intros k Hk. apply Hkeys. rewrite dget_dset.
    destruct (String.eqb_spec k n) as [E | NE]; [right; discriminate |].
    destruct Hk as [[E | Hin] | Hacc]; [congruence | left; exact Hin | right; exact Hacc].
Qed.

Lemma qem_loop_raises_key_error (topo : list string) (sup att : dict (list string))
    (w_init : dict Q) :
  forall final_acc e,
    qem_loop topo sup att w_init final_acc = Raise e -> exists k, e = KeyError k.
Proof.
  induction topo as [| n topo IH]; intros final_acc e; cbn [qem_loop];
    [discriminate |].
  unfold qem_accept, dindex.
  destruct (dget w_init n) as [w0 |].
  - destruct (negb (dmem sup n) && negb (dmem att n)); cbn [bind]; apply IH.
  - destruct (negb (dmem sup n) && negb (dmem att n)); cbn [bind];
      intros H; inversion H; eauto.
Qed.

Lemma copy_weights_raises_key_error (ks : list string) (w_init : dict Q) :
  forall acc e, copy_weights ks w_init acc = Raise e -> exists k, e = KeyError k.
Proof.
  induction ks as [| a ks IH]; intros acc e; cbn [copy_weights]; [discriminate |].
  unfold dindex. destruct (dget w_init a); cbn [bind]; [apply IH |].
  intros H. inversion H. eauto.
Qed.

(** The per-restriction propagation never reports a cycle. *)
Lemma apply_qem_never_unfeasible (framework : debate) :
  apply_qem_to_restriction framework <> Raise NetworkXUnfeasible.
Proof.
  unfold apply_qem_to_restriction.
  destruct (nodes framework) as [| item ns] eqn:En; [discriminate |].
  rewrite <- En.
  destruct (initial_weights_cases (nodes framework))
    as [[w_init [Hok _]] | [Herr _]]; [| rewrite Herr; discriminate].
  rewrite Hok. cbn [bind].
  destruct (build_graph (edges framework)) as [[sup att] G].
  destruct (g_edges G).
  - intros H. apply copy_weights_raises_key_error in H. destruct H; discriminate.
  - destruct (topological_sort G) as [topo | [| |]]; cbn [bind];
      try discriminate;
      intros H; apply qem_loop_raises_key_error in H; destruct H; discriminate.
Qed.

(** C1 (as the code behaves). On a cyclic edge set the full-graph
    propagation [enrich_with_final] fails: it raises [NetworkXUnfeasible]
    as soon as the initial weights have been read, and returns no
    weights. The per-restriction propagation never raises that error: it
    catches it, processes the nodes in the order of the node keys and,
    when every node has an initial weight, returns a weight for each of
    them. *)
Theorem cyclic_edges_propagation (data : debate) :
  cyclic (edges data) ->
  topological_sort (graph_of (edges data)) = Raise NetworkXUnfeasible /\
  enrich_with_final data
  = (w_init <- initial_weights (nodes data) ;; Raise NetworkXUnfeasible) /\
  (forall enriched, enrich_with_final data <> Ok enriched) /\
  apply_qem_to_restriction data <> Raise NetworkXUnfeasible /\
  (forall w_init,
      nodes data <> [] ->
      initial_weights (nodes data) = Ok w_init ->
      exists final_weights,
        apply_qem_to_restriction data = Ok final_weights /\
        qem_loop (keys (nodes data)) (fst (fst (build_graph (edges data))))
                 (snd (fst (build_graph (edges data)))) w_init []
        = Ok final_weights /\
        forall k, In k (keys (nodes data)) -> dget final_weights k <> None).
Proof.
  intros Hcyc. pose proof (cyclic_unfeasible (edges data) Hcyc) as Htopo.
  assert (Henrich : enrich_with_final data
                    = (w_init <- initial_weights (nodes data) ;;
                       Raise NetworkXUnfeasible)).
  { unfold enrich_with_final, enrich_with_final_acc.
    destruct (initial_weights (nodes data)) as [w_init | e]; [| reflexivity].
    cbn [bind]. unfold graph_of in Htopo.
    destruct (build_graph (edges data)) as [[sup att] G]. cbn [snd] in Htopo.
    rewrite Htopo. reflexivity. }
  split; [exact Htopo |]. split; [exact Henrich |]. split.
  { intros enriched. rewrite Henrich.
    destruct (initial_weights (nodes data)); discriminate. }
  split; [apply apply_qem_never_unfeasible |].
  intros w_init Hne Hok.
  destruct (initial_weights_Ok _ _ Hok) as [Hkeys _].
  destruct (qem_loop_total (keys (nodes data))
              (fst (fst (build_graph (edges data))))
              (snd (fst (build_graph (edges data)))) w_init)
    with (final_acc := @nil (string * Q)) as [m [Hm Hall]].
  { intros n Hn. rewrite <- Hkeys in Hn. intros Hnone.
    apply dget_None_keys in Hnone. contradiction. }
  exists m. split; [| split; [exact Hm | intros k Hk; apply Hall; left; exact Hk]].
  unfold apply_qem_to_restriction.
  destruct (nodes data) as [| item ns] eqn:En; [congruence |].
  rewrite <- En in *. rewrite Hok. cbn [bind].
  unfold graph_of in Htopo.
  destruct Hcyc as [v Hv].
  assert (Hedge : exists u e, In (u, e) (edges data)).
  { destruct Hv; eauto. }
  destruct Hedge as [u [e Hin]]. apply graph_of_edges in Hin. unfold graph_of in Hin.
  destruct (build_graph (edges data)) as [[sup att] G]. cbn [fst snd] in *.
  destruct (g_edges G); [contradiction |].
  rewrite Htopo. cbn [bind]. exact Hm.
Qed.

Lemma cycle_debate_cyclic : cyclic (edges cycle_debate).
Proof.
  exists "a". apply path_step with (support "b").
  - left. reflexivity.
  - change (path (edges cycle_debate) "b" (successor_id (support "a"))).
    apply path_edge. right. left. reflexivity.
Qed.

Lemma cyclic_edges_propagation_witness :
  topological_sort (graph_of (edges cycle_debate)) = Raise NetworkXUnfeasible /\
  enrich_with_final cycle_debate
  = (w_init <- initial_weights (nodes cycle_debate) ;; Raise NetworkXUnfeasible) /\
  (forall enriched, enrich_with_final cycle_debate <> Ok enriched) /\
  apply_qem_to_restriction cycle_debate <> Raise NetworkXUnfeasible /\
  (forall w_init,
      nodes cycle_debate <> [] ->
      initial_weights (nodes cycle_debate) = Ok w_init ->
      exists final_weights,
        apply_qem_to_restriction cycle_debate = Ok final_weights /\
        qem_loop (keys (nodes cycle_debate))
                 (fst (fst (build_graph (edges cycle_debate))))
                 (snd (fst (build_graph (edges cycle_debate)))) w_init []
        = Ok final_weights /\
        forall k, In k (keys (nodes cycle_debate)) -> dget final_weights k <> None).
Proof.
  apply (cyclic_edges_propagation cycle_debate).
  exact cycle_debate_cyclic.
Defined.

(** Two arguments supporting each other form a cycle; the restriction to
    them is propagated all the same, in the order of the node keys, and a
    weight mapping comes back instead of an error. *)
Lemma cyclic_restriction_is_propagated :
  cyclic (edges (create_restriction cycle_debate ["a"; "b"])) /\
  exists final_weights,
    apply_qem_to_restriction (create_restriction cycle_debate ["a"; "b"])
    = Ok final_weights /\
    weight_is final_weights "a" (1#2) /\ weight_is final_weights "b" (3#5) /\
    ~ (forall framework,
          cyclic (edges framework) ->
          forall m, apply_qem_to_restriction framework <> Ok m).
Proof.
  split; [exact cycle_debate_cyclic |].
  eexists. split; [vm_compute; reflexivity |].
  split; [eexists; split; reflexivity |].
  split; [eexists; split; reflexivity |].
  intros Hclaim.
  destruct (apply_qem_to_restriction cycle_debate) as [m | e] eqn:E.
  - apply (Hclaim cycle_debate cycle_debate_cyclic m E).
  - vm_compute in E. discriminate E.
Qed.

(** *** Conversely, a rejected edge set has a cycle. *)

(** When the loop ends with [NetworkXUnfeasible], what is left in
    [indegree_map] is non-empty and the invariant holds for it with nothing
    waiting. *)
Lemma generations_unfeasible_state (G : DiGraph) (fuel : nat) :
  forall m zero,
    kahn_inv G (fun _ => False) [] zero m ->
    generations fuel G m zero = Some (Raise NetworkXUnfeasible) ->
    exists m', m' <> [] /\ kahn_inv G (fun _ => False) [] [] m'.
Proof.
  assert (Hclosed : closed_backwards G (fun _ => False)) by (intros c []).
  induction fuel as [| fuel IH]; intros m zero Hinv Hres.
  - destruct zero; [| discriminate]. simpl in Hres.
    exists m. split; [| exact Hinv]. destruct m; [discriminate | discriminate].
  - destruct zero as [| z zero].
    + simpl in Hres. exists m. split; [| exact Hinv].
      destruct m; [discriminate | discriminate].
    + assert (Hinv0 : kahn_inv G (fun _ => False) [] ((z :: zero) ++ []) m)
        by (rewrite app_nil_r; exact Hinv).
      destruct (visit_generation_inv G (fun _ => False) Hclosed (z :: zero) [] m Hinv0)
        as [m' [zero' [Hgen [Hinv' _]]]].
      cbn [generations] in Hres. rewrite Hgen in Hres.
      apply (IH m' zero' Hinv').
      destruct (generations fuel G m' zero') as [[rest | e] |];
        [discriminate | exact Hres | discriminate].
Qed.

Lemma build_graph_edges_from (es : dict edge) :
  forall st,
    (forall u w, In (u, w) (g_edges (snd (fold_left build_step es st))) ->
                 In (u, w) (g_edges (snd st))
                 \/ exists e, In (u, e) es /\ successor_id e = w).
Proof.
  induction es as [| item es IH]; intros st u w Hin.
  - left. exact Hin.
  - cbn [fold_left] in Hin. apply IH in Hin. destruct Hin as [Hin | [e [He Hs]]].
    + rewrite build_step_graph in Hin. apply add_edge_edges in Hin.
      destruct Hin as [Hin | Heq]; [left; exact Hin |].
      right. inversion Heq; subst. exists (snd item). split; [| reflexivity].
      left. destruct item; reflexivity.
    + right. exists e. split; [right; exact He | exact Hs].
Qed.

Lemma graph_of_edges_inv (es : dict edge) (u w : string) :
  In (u, w) (g_edges (graph_of es)) ->
  exists e, In (u, e) es /\ successor_id e = w.
Proof.
  intros Hin. unfold graph_of, build_graph in Hin.
  apply build_graph_edges_from in Hin. destruct Hin as [[] | H]. exact H.
Qed.

(** A non-empty finite set of nodes, each with a predecessor in the set,
    holds a cycle: walking backwards from any node, a node must repeat. *)
Lemma closed_set_has_cycle (es : dict edge) (K : list string) :
  K <> [] ->
  (forall w, In w K -> exists u e, In u K /\ In (u, e) es /\ successor_id e = w) ->
  cyclic es.
Proof.
  intros Hne Hclosed.
  assert (Hwalk : forall n,
            cyclic es \/
            exists h l, NoDup (h :: l) /\ length l = n /\ incl (h :: l) K /\
                        forall y, In y l -> path es h y).
  { induction n as [| n IH].
    - right. destruct K as [| c K']; [congruence |].
      exists c, []. split; [constructor; [intros [] | constructor] |].
      split; [reflexivity |]. split; [| intros y []].
      intros x [E | []]. subst. left. reflexivity.
    - destruct IH as [Hc | [h [l [Hnd [Hlen [Hincl Hreach]]]]]]; [left; exact Hc |].
      destruct (Hclosed h (Hincl h (or_introl eq_refl))) as [u [e [Hu [He Hs]]]].
      assert (Huh : path es u h) by (rewrite <- Hs; apply path_edge; exact He).
      destruct (in_dec string_dec u (h :: l)) as [Hin | Hnotin].
      + left. exists u. destruct Hin as [E | Hin].
        * rewrite E in Huh. exact Huh.
        * apply path_trans with h; [exact Huh | apply Hreach; exact Hin].
      + right. exists u, (h :: l).
        split; [constructor; assumption |].
        split; [simpl; rewrite Hlen; reflexivity |].
        split.
        * intros x [E | Hx]; [rewrite <- E; exact Hu | apply Hincl; exact Hx].
        * intros y [E | Hy]; [rewrite <- E; exact Huh |].
          apply path_trans with h; [exact Huh | apply Hreach; exact Hy]. }
  destruct (Hwalk (length K)) as [Hc | [h [l [Hnd [Hlen [Hincl _]]]]]]; [exact Hc |].
  pose proof (NoDup_incl_length Hnd Hincl) as Hle. simpl in Hle. lia.
Qed.

Lemma unfeasible_cyclic (es : dict edge) :
  topological_sort (graph_of es) = Raise NetworkXUnfeasible -> cyclic es.
Proof.
  intros Htopo.
  destruct (topological_sort_fuel es) as [r [Hfuel [Hr _]]].
  rewrite Htopo in Hr. subst r. unfold topological_sort_fueled in Hfuel.
  assert (Hclosed : closed_backwards (graph_of es) (fun _ => False))
    by (intros c []).
  destruct (generations_unfeasible_state (graph_of es) _ _ _
              (initial_kahn_inv (graph_of es) (fun _ => False)
                 (graph_of_wf es) Hclosed) Hfuel)
    as [m [Hne [Hnd [_ [_ [HA _]]]]]].
  apply (closed_set_has_cycle es (keys m)).
  - destruct m; [congruence | discriminate].
  - intros w Hw.
    destruct (dget m w) as [d |] eqn:Ed;
      [| apply dget_None_keys in Ed; contradiction].
    destruct (HA w d Ed) as [Hpos Hcount].
    assert (Hin : In w (pending (graph_of es) [] [] m)).
    { apply (count_occ_In string_dec). lia. }
    unfold pending in Hin. simpl in Hin. apply in_flat_map in Hin.
    destruct Hin as [u [Hu Hnb]]. apply neighbors_In in Hnb.
    apply graph_of_edges_inv in Hnb. destruct Hnb as [e [He Hs]].
    exists u, e. auto.
Qed.

(** networkx's topological sort rejects exactly the cyclic edge sets. *)
Lemma unfeasible_iff_cyclic (es : dict edge) :
  topological_sort (graph_of es) = Raise NetworkXUnfeasible <-> cyclic es.
Proof.
  split; [apply unfeasible_cyclic | apply cyclic_unfeasible].
Qed.

(** *** Restrictions of the same set of arguments *)

(** C10 (as the code behaves). Two argument lists with the same set of
    ids give the same restricted edges and the same restricted nodes (as
    dictionaries), and propagation then gives the same final weights,
    provided the restricted edges hold no cycle. *)
Theorem restriction_depends_on_set (d : debate) (args1 args2 : list string) :
  (forall x, In x args1 <-> In x args2) ->
  edges (create_restriction d args1) = edges (create_restriction d args2) /\
  dict_eq (nodes (create_restriction d args1)) (nodes (create_restriction d args2)) /\
  (~ cyclic (edges (create_restriction d args1)) ->
   same_weights (apply_qem_to_restriction (create_restriction d args1))
                (apply_qem_to_restriction (create_restriction d args2))).
Proof.
  intros Hset. pose proof (mem_ext _ _ Hset) as Hmem.
  assert (He : edges (create_restriction d args1) = edges (create_restriction d args2)).
  { rewrite !create_restriction_edges. apply filter_ext.
    intros item. rewrite !Hmem. reflexivity. }
  assert (Hn : dict_eq (nodes (create_restriction d args1))
                       (nodes (create_restriction d args2))).
  { intros k. rewrite !create_restriction_nodes, !restrict_nodes_get, Hmem.
    reflexivity. }
  split; [exact He |]. split; [exact Hn |].
  intros Hacyclic.
  assert (Hr : forall args, create_restriction d args
                            = mk_debate (nodes (create_restriction d args))
                                        (edges (create_restriction d args))).
  { intros args. destruct (create_restriction d args). reflexivity. }
  rewrite (Hr args1), (Hr args2), <- He.
  apply apply_qem_dict_eq; try exact Hn;
    try (rewrite create_restriction_nodes; apply restrict_nodes_NoDup; constructor).
  intros Htopo. apply Hacyclic. apply unfeasible_cyclic. exact Htopo.
Qed.

Lemma restriction_depends_on_set_witness :
  edges (create_restriction chain_debate ["A"; "B"; "target"])
  = edges (create_restriction chain_debate ["target"; "B"; "A"; "B"]) /\
  dict_eq (nodes (create_restriction chain_debate ["A"; "B"; "target"]))
          (nodes (create_restriction chain_debate ["target"; "B"; "A"; "B"])) /\
  same_weights
    (apply_qem_to_restriction (create_restriction chain_debate ["A"; "B"; "target"]))
    (apply_qem_to_restriction
       (create_restriction chain_debate ["target"; "B"; "A"; "B"])).
Proof.
  destruct (restriction_depends_on_set chain_debate
              ["A"; "B"; "target"] ["target"; "B"; "A"; "B"])
    as [He [Hn Hw]].
  - intros x. simpl. tauto.
  - split; [exact He |]. split; [exact Hn |].
    apply Hw. intros Hc. apply cyclic_unfeasible in Hc.
    vm_compute in Hc. discriminate Hc.
Defined.

(** On two arguments supporting each other the subset [a; b] and the
    subset [b; a] have the same elements, yet propagation of the two
    restrictions gives b the weights 0.6 and 0.5. *)
Lemma restriction_order_matters_on_cycle :
  (forall x, In x ["a"; "b"] <-> In x ["b"; "a"]) /\
  exists m1 m2,
    apply_qem_to_restriction (create_restriction cycle_debate ["a"; "b"]) = Ok m1 /\
    apply_qem_to_restriction (create_restriction cycle_debate ["b"; "a"]) = Ok m2 /\
    weight_is m1 "b" (3#5) /\ weight_is m2 "b" (1#2) /\
    ~ same_weights (Ok m1) (Ok m2) /\
    cyclic (edges (create_restriction cycle_debate ["a"; "b"])) /\
    ~ (forall d args1 args2,
          (forall x, In x args1 <-> In x args2) ->
          same_weights (apply_qem_to_restriction (create_restriction d args1))
                       (apply_qem_to_restriction (create_restriction d args2))).
Proof.
  split; [intros x; simpl; tauto |].
  eexists. eexists.
  split; [vm_compute; reflexivity |].
  split; [vm_compute; reflexivity |].
  split; [eexists; split; reflexivity |].
  split; [eexists; split; reflexivity |].
  split; [| split; [exact cycle_debate_cyclic |]].
  - intros H. specialize (H "b"). vm_compute in H. discriminate H.
  - intros Hclaim.
    assert (Hset : forall x, In x ["a"; "b"] <-> In x ["b"; "a"])
      by (intros x; simpl; tauto).
    specialize (Hclaim cycle_debate ["a"; "b"] ["b"; "a"] Hset).
    vm_compute in Hclaim. specialize (Hclaim "b").
    vm_compute in Hclaim. discriminate Hclaim.
Qed.


(** ** Bounds of the propagated weights *)

Lemma qem_loop_bounded (topo : list string) (sup att : dict (list string))
    (w_init : dict Q) :
  (forall k w, dget w_init k = Some w -> 0 <= w <= 1) ->
  forall final_acc m,
    (forall k w, dget final_acc k = Some w -> 0 <= w <= 1) ->
    qem_loop topo sup att w_init final_acc = Ok m ->
    forall k w, dget m k = Some w -> 0 <= w <= 1.
Proof.
  intros Hinit. induction topo as [| n topo IH]; intros final_acc m Hacc Hm.
  - inversion Hm; subst. exact Hacc.
  - cbn [qem_loop] in Hm.
    destruct (qem_accept n sup att final_acc w_init) as [w1 |] eqn:Ew;
      [| discriminate].
    cbn [bind] in Hm. apply (IH (dset final_acc n w1) m); [| exact Hm].
    intros k w. rewrite dget_dset.
    destruct (String.eqb k n).
    + intros H. inversion H; subst.
      apply (qem_accept_in_range n sup att final_acc w_init w Hinit Ew).
    + apply Hacc.
Qed.

Lemma copy_weights_bounded (ks : list string) (w_init : dict Q) :
  (forall k w, dget w_init k = Some w -> 0 <= w <= 1) ->
  forall acc m,
    (forall k w, dget acc k = Some w -> 0 <= w <= 1) ->
    copy_weights ks w_init acc = Ok m ->
    forall k w, dget m k = Some w -> 0 <= w <= 1.
Proof.
  intros Hinit. induction ks as [| a ks IH]; intros acc m Hacc Hm.
  - inversion Hm; subst. exact Hacc.
  - cbn [copy_weights] in Hm. unfold dindex in Hm.
    destruct (dget w_init a) as [wa |] eqn:Ea; [| discriminate].
    cbn [bind] in Hm. apply (IH (dset acc a wa) m); [| exact Hm].
    intros k w. rewrite dget_dset.
    destruct (String.eqb k a); [| apply Hacc].
    intros H. inversion H; subst. apply (Hinit a w Ea).
Qed.

Lemma enrich_loop_qem_loop (topo : list string) (sup att : dict (list string))
    (w_init : dict Q) :
  forall final_acc ns m ns',
    enrich_loop topo sup att w_init final_acc ns = Ok (m, ns') ->
    qem_loop topo sup att w_init final_acc = Ok m.
Proof.
  induction topo as [| n topo IH]; intros final_acc ns m ns' H.
  - inversion H; subst. reflexivity.
  - cbn [enrich_loop qem_loop] in *.
    destruct (qem_accept n sup att final_acc w_init) as [w1 |]; [| discriminate].
    cbn [bind] in *. destruct (dindex ns n) as [nd |]; [| discriminate].
    cbn [bind] in H. apply (IH _ _ _ _ H).
Qed.

Lemma initial_weights_bounded (ns : dict node) (w_init : dict Q) :
  (forall k nd w, In (k, nd) ns -> initial_weight nd = Some w -> 0 <= w <= 1) ->
  initial_weights ns = Ok w_init ->
  forall k w, dget w_init k = Some w -> 0 <= w <= 1.
Proof.
  intros Hall Hok k w Hk.
  destruct (initial_weights_Ok ns w_init Hok) as [_ Hget].
  rewrite Hget in Hk. destruct (dget ns k) as [nd |] eqn:E; [| discriminate].
  apply (Hall k nd w); [apply dget_In; exact E | exact Hk].
Qed.

(** Bound preservation of a whole propagation: when every initial weight
    of the framework lies in [0,1], so does every final weight that the
    per-restriction propagation or the full-graph propagation returns. *)
Theorem propagation_bounded (framework : debate) :
  (forall k nd w, In (k, nd) (nodes framework) ->
                  initial_weight nd = Some w -> 0 <= w <= 1) ->
  (forall m, apply_qem_to_restriction framework = Ok m ->
             forall k w, dget m k = Some w -> 0 <= w <= 1) /\
  (forall m data, enrich_with_final_acc framework = Ok (m, data) ->
                  forall k w, dget m k = Some w -> 0 <= w <= 1).
Proof.
  intros Hall.
  assert (Hnil : forall k w, dget (V := Q) [] k = Some w -> 0 <= w <= 1)
    by (intros k w H; discriminate).
  split.
  - intros m Hm. unfold apply_qem_to_restriction in Hm.
    destruct (nodes framework) as [| item ns] eqn:En.
    { inversion Hm; subst. exact Hnil. }
    rewrite <- En in *.
    destruct (initial_weights (nodes framework)) as [w_init |] eqn:Ew;
      [| discriminate].
    pose proof (initial_weights_bounded _ _ Hall Ew) as Hinit.
    cbn [bind] in Hm.
    destruct (build_graph (edges framework)) as [[sup att] G].
    destruct (g_edges G).
    + apply (copy_weights_bounded _ _ Hinit _ _ Hnil Hm).
    + destruct (topological_sort G) as [topo | [| |]]; cbn [bind] in Hm;
        try discriminate; apply (qem_loop_bounded _ _ _ _ Hinit _ _ Hnil Hm).
  - intros m data Hm. unfold enrich_with_final_acc in Hm.
    destruct (initial_weights (nodes framework)) as [w_init |] eqn:Ew;
      [| discriminate].
    pose proof (initial_weights_bounded _ _ Hall Ew) as Hinit.
    cbn [bind] in Hm.
    destruct (build_graph (edges framework)) as [[sup att] G].
    destruct (topological_sort G) as [topo |]; [| discriminate].
    cbn [bind] in Hm.
    destruct (enrich_loop topo sup att w_init [] (nodes framework))
      as [[fa ns'] |] eqn:El; [| discriminate].
    cbn [bind fst snd] in Hm. inversion Hm; subst.
    apply enrich_loop_qem_loop in El.
    apply (qem_loop_bounded _ _ _ _ Hinit _ _ Hnil El).
Qed.

Lemma propagation_bounded_witness :
  (forall m, apply_qem_to_restriction chain_debate = Ok m ->
             forall k w, dget m k = Some w -> 0 <= w <= 1) /\
  (forall m data, enrich_with_final_acc chain_debate = Ok (m, data) ->
                  forall k w, dget m k = Some w -> 0 <= w <= 1).
Proof.
  apply (propagation_bounded chain_debate).
  intros k nd w Hin Hw. simpl in Hin.
  destruct Hin as [E | [E | [E | []]]]; inversion E; subst; simpl in Hw;
    inversion Hw; subst; split; unfold Qle; simpl; lia.
Defined.

(** ** Results of the constructive search verify themselves *)

Lemma find_first_Some {A} (test : A -> result bool) (l : list A) (a : A) :
  find_first test l = Ok (Some a) -> test a = Ok true.
Proof.
  induction l as [| c l IH]; cbn [find_first]; [discriminate |].
  destruct (test c) as [[|] |] eqn:E; cbn [bind]; [| exact IH | discriminate].
  intros H. inversion H; subst. exact E.
Qed.

(** A success reported by the constructive search for a strengthened
    target is reproducible: propagating the restriction to the returned
    arguments plus the target gives the target a final weight above its
    initial weight. *)
Theorem constructive_success_reproducible (rd : rankings_data)
    (debate_data : debate) (heuristic : string) (r : explanation)
    (target_node : node) (w0_target : Q) :
  direction rd = "strengthening" ->
  dget (nodes debate_data) (t_id rd) = Some target_node ->
  initial_weight target_node = Some w0_target ->
  generate_constructive_explanation rd debate_data heuristic = Ok r ->
  success r = true ->
  strengthens debate_data (t_id rd) w0_target
    (concat (explanation_arg r) ++ [t_id rd]) = Ok true.
Proof.
  intros Hdir Hnode Hw Hres Hsucc.
  rewrite (constructive_strengthening_value rd debate_data heuristic Hdir) in Hres. unfold constructive_strengthening_spec in Hres.
  rewrite Hnode in Hres. unfold target_initial_weight in Hres. rewrite Hw in Hres.
  cbn [bind] in Hres. cbv zeta in Hres.
  set (base := concat (branches (category (get_or (rankings rd) heuristic [])
                                          "unweakened con-branches"))) in *.
  destruct (strengthens debate_data (t_id rd) w0_target (base ++ [t_id rd]))
    as [[|] |] eqn:E0; cbn [bind] in Hres; [| | discriminate].
  - inversion Hres; subst r. cbn [explanation_arg concat].
    rewrite !app_nil_r. exact E0.
  - match type of Hres with
    | context [find_first ?f ?l] =>
        destruct (find_first f l) as [[p |] |] eqn:E1
    end; cbn [bind] in Hres; [| | discriminate].
    + inversion Hres; subst r. cbn [explanation_arg concat].
      apply find_first_Some in E1. rewrite app_nil_r, <- app_assoc. exact E1.
    + match type of Hres with
      | context [find_first ?f ?l] =>
          destruct (find_first f l) as [[q |] |] eqn:E2
      end; cbn [bind] in Hres; [| | discriminate].
      * inversion Hres; subst r. cbn [explanation_arg concat].
        apply find_first_Some in E2. rewrite app_nil_r, <- !app_assoc. exact E2.
      * inversion Hres; subst r. discriminate Hsucc.
Qed.

Lemma constructive_success_reproducible_witness :
  strengthens chain_debate_final (t_id chain_rankings) (1#2)
    (concat (explanation_arg (mk_explanation true [[]; ["Pb1"]] [[]; ["B"; "A"]]))
     ++ [t_id chain_rankings]) = Ok true.
Proof.
  apply (constructive_success_reproducible chain_rankings chain_debate_final
           "weak to strong" (mk_explanation true [[]; ["Pb1"]] [[]; ["B"; "A"]])
           (mk_node (Some (1#2)) (Some (140902400 # 222822400))) (1#2));
    vm_compute; reflexivity.
Defined.

(** ** Nodes that no edge touches *)

Lemma generations_output_nodes (G : DiGraph) (fuel : nat) :
  forall m zero topo,
    kahn_inv G (fun _ => False) [] zero m ->
    generations fuel G m zero = Some (Ok topo) ->
    forall x, In x topo -> In x (g_nodes G).
Proof.
  assert (Hclosed : closed_backwards G (fun _ => False)) by (intros c []).
  induction fuel as [| fuel IH]; intros m zero topo Hinv Hres x Hx.
  - destruct zero; [| discriminate]. simpl in Hres.
    destruct m; inversion Hres; subst. contradiction.
  - destruct zero as [| z zero].
    + simpl in Hres. destruct m; inversion Hres; subst. contradiction.
    + assert (Hinv0 : kahn_inv G (fun _ => False) [] ((z :: zero) ++ []) m)
        by (rewrite app_nil_r; exact Hinv).
      destruct (visit_generation_inv G (fun _ => False) Hclosed (z :: zero) [] m Hinv0)
        as [m' [zero' [Hgen [Hinv' _]]]].
      cbn [generations] in Hres. rewrite Hgen in Hres.
      destruct (generations fuel G m' zero') as [[rest | e] |] eqn:Erest;
        try discriminate.
      inversion Hres; subst topo.
      change (In x ((z :: zero) ++ rest)) in Hx. apply in_app_or in Hx.
      destruct Hx as [Hx | Hx].
      * destruct Hinv as [_ [Hsub _]]. apply Hsub. apply in_or_app. left. exact Hx.
      * apply (IH m' zero' rest Hinv' Erest x Hx).
Qed.

Lemma build_graph_nodes_from (es : dict edge) :
  forall st x,
    In x (g_nodes (snd (fold_left build_step es st))) ->
    In x (g_nodes (snd st))
    \/ exists u e, In (u, e) es /\ (x = u \/ x = successor_id e).
Proof.
  induction es as [| item es IH]; intros st x Hin.
  - left. exact Hin.
  - cbn [fold_left] in Hin. apply IH in Hin.
    destruct Hin as [Hin | [u [e [He Hx]]]].
    + rewrite build_step_graph in Hin. unfold add_edge in Hin. cbn [g_nodes] in Hin.
      rewrite !add_node_In in Hin.
      destruct Hin as [[Hin | Hu] | Hv]; [left; exact Hin | |];
        right; exists (fst item), (snd item);
        (split; [left; destruct item; reflexivity | tauto]).
    + right. exists u, e. split; [right; exact He | exact Hx].
Qed.

Lemma qem_loop_keys (topo : list string) (sup att : dict (list string))
    (w_init : dict Q) :
  forall final_acc m,
    qem_loop topo sup att w_init final_acc = Ok m ->
    forall k, dget m k <> None -> In k topo \/ dget final_acc k <> None.
Proof.
  induction topo as [| n topo IH]; intros final_acc m Hm k Hk.
  - inversion Hm; subst. right. exact Hk.
  - cbn [qem_loop] in Hm.
    destruct (qem_accept n sup att final_acc w_init) as [w |]; [| discriminate].
    cbn [bind] in Hm. destruct (IH _ _ Hm k Hk) as [Hin | Hacc].
    + left. right. exact Hin.
    + rewrite dget_dset in Hacc.
      destruct (String.eqb_spec k n) as [E | NE]; [left; left; congruence |].
      right. exact Hacc.
Qed.

Lemma topological_sort_output_endpoints (es : dict edge) (topo : list string) :
  topological_sort (graph_of es) = Ok topo ->
  forall x, In x topo ->
            exists u e, In (u, e) es /\ (x = u \/ x = successor_id e).
Proof.
  intros Htopo x Hx.
  destruct (topological_sort_fuel es) as [r [Hfuel [Hr _]]].
  rewrite Htopo in Hr. subst r. unfold topological_sort_fueled in Hfuel.
  assert (Hclosed : closed_backwards (graph_of es) (fun _ => False))
    by (intros c []).
  pose proof (generations_output_nodes (graph_of es) _ _ _ topo
                (initial_kahn_inv (graph_of es) (fun _ => False)
                   (graph_of_wf es) Hclosed) Hfuel x Hx) as Hnode.
  unfold graph_of, build_graph in Hnode.
  apply build_graph_nodes_from in Hnode. destruct Hnode as [[] | H]. exact H.
Qed.

(** C2 (where the code departs from the claim). As soon as the framework
    has an edge, and no cycle, the mapping returned by the per-restriction
    propagation holds only endpoints of edges: a node that no edge touches
    gets no final weight. In particular, with an edge a -> b and an
    isolated node c, the propagation returns weights for a and b only and
    [enrich_with_final] leaves c without a final weight, whereas with no
    edge at all the restriction propagation does return every node. *)
Theorem isolated_node_dropped :
  (forall framework m k,
      edges framework <> [] ->
      ~ cyclic (edges framework) ->
      apply_qem_to_restriction framework = Ok m ->
      dget m k <> None ->
      exists u e, In (u, e) (edges framework) /\ (k = u \/ k = successor_id e)) /\
  (exists final_weights,
      apply_qem_to_restriction isolated_debate = Ok final_weights /\
      keys final_weights = ["a"; "b"] /\
      dget final_weights "c" = None) /\
  (exists data nd,
      enrich_with_final isolated_debate = Ok data /\
      dget (nodes data) "c" = Some nd /\ final_weight nd = None) /\
  (exists final_weights,
      apply_qem_to_restriction (mk_debate (nodes isolated_debate) []) = Ok final_weights /\
      keys final_weights = ["a"; "b"; "c"]).
Proof.
  split; [| split; [| split]].
  - intros framework m k Hedges Hacyclic Hm Hk.
    unfold apply_qem_to_restriction in Hm.
    destruct (nodes framework) as [| item ns] eqn:En.
    { inversion Hm; subst. simpl in Hk. congruence. }
    rewrite <- En in *.
    destruct (initial_weights (nodes framework)) as [w_init |]; [| discriminate].
    cbn [bind] in Hm.
    assert (Hne : exists u e, In (u, e) (edges framework)).
    { destruct (edges framework) as [| [u e] es]; [congruence |].
      exists u, e. left. reflexivity. }
    destruct Hne as [u0 [e0 Hin0]]. apply graph_of_edges in Hin0.
    pose proof (topological_sort_output_endpoints (edges framework)) as Hout.
    pose proof (unfeasible_cyclic (edges framework)) as Hunf.
    unfold graph_of in Hin0, Hout, Hunf.
    destruct (build_graph (edges framework)) as [[sup att] G].
    cbn [snd] in Hin0, Hout, Hunf.
    destruct (g_edges G); [contradiction |].
    destruct (topological_sort G) as [topo | [| |]]; cbn [bind] in Hm;
      try discriminate.
    + destruct (qem_loop_keys _ _ _ _ _ _ Hm k Hk) as [Hin | Hacc];
        [| simpl in Hacc; congruence].
      apply (Hout topo eq_refl k Hin).
    + exfalso. apply Hacyclic. apply Hunf. reflexivity.
  - eexists. split; [vm_compute; reflexivity |]. split; reflexivity.
  - eexists. eexists. split; [vm_compute; reflexivity |]. split; reflexivity.
  - eexists. split; [vm_compute; reflexivity |]. reflexivity.
Qed.

(** * Part III: the rest of the pipeline *)

(** ** Traversals and reachability *)

Lemma children_In (es : dict edge) (v c : string) :
  In c (children es v) <->
  exists e, In (c, e) es /\ successor_id e = v /\ non_neutral e = true.
Proof.
  unfold children, non_neutral. rewrite in_map_iff. split.
  - intros [[c' e] [Hfst Hin]]. simpl in Hfst. subst c'.
    apply filter_In in Hin. destruct Hin as [Hin Hb]. simpl in Hb.
    apply andb_true_iff in Hb. destruct Hb as [Hs Hr].
    apply String.eqb_eq in Hs. exists e. auto.
  - intros [e [Hin [Hs Hr]]]. exists (c, e). split; [reflexivity |].
    apply filter_In. split; [exact Hin |]. simpl.
    rewrite Hs, String.eqb_refl, Hr. reflexivity.
Qed.

Lemma reaches_child (es : dict edge) (v c root : string) :
  In c (children es v) -> reaches es v root -> reaches es c root.
Proof.
  intros Hc Hv. apply children_In in Hc. destruct Hc as [e [Hin [Hs Hr]]].
  subst v. eapply reaches_step; eauto.
Qed.

(** A set that holds [root] and the children of its members holds every
    argument that reaches [root]. *)
Lemma reaches_closed (es : dict edge) (root : string) (b : list string) :
  In root b ->
  (forall v c, In v b -> In c (children es v) -> In c b) ->
  forall x, reaches es x root -> In x b.
Proof.
  intros Hroot Hclosed x Hx. induction Hx as [u | u w e Hin Hr Hreach IH].
  - exact Hroot.
  - apply (Hclosed (successor_id e)); [apply IH; exact Hroot |].
    apply children_In. exists e. auto.
Qed.

Lemma traverse_full_loop_inv (es : dict edge) (root : string) (fuel : nat) :
  forall stack visited branch b,
    traverse_full_loop es fuel stack visited branch = Some b ->
    (forall x, In x branch <-> In x visited) ->
    NoDup branch ->
    (forall x, In x stack -> reaches es x root) ->
    (forall x, In x visited -> reaches es x root) ->
    (forall v c, In v visited -> In c (children es v) ->
                 In c visited \/ In c stack) ->
    (exists suffix, b = branch ++ suffix) /\
    NoDup b /\
    (forall x, In x b -> reaches es x root) /\
    (forall x, In x stack -> In x b) /\
    (forall v c, In v b -> In c (children es v) -> In c b).
Proof.
  induction fuel as [| fuel IH]; intros stack visited branch b Hrun Hbv Hnd Hst Hvis Hcl.
  - destruct stack; simpl in Hrun; [| discriminate].
    inversion Hrun; subst b. split; [exists []; symmetry; apply app_nil_r |].
    split; [exact Hnd |]. split; [intros x Hx; apply Hvis, Hbv, Hx |].
    split; [intros x [] |].
    intros v c Hv Hc. apply Hbv. apply Hbv in Hv.
    destruct (Hcl v c Hv Hc) as [H | []]. exact H.
  - destruct stack as [| current rest]; simpl in Hrun.
    + inversion Hrun; subst b. split; [exists []; symmetry; apply app_nil_r |].
      split; [exact Hnd |]. split; [intros x Hx; apply Hvis, Hbv, Hx |].
      split; [intros x [] |].
      intros v c Hv Hc. apply Hbv. apply Hbv in Hv.
      destruct (Hcl v c Hv Hc) as [H | []]. exact H.
    + destruct (mem current visited) eqn:Hm.
      * apply mem_true_iff in Hm.
        destruct (IH rest visited branch b Hrun Hbv Hnd) as [Hsuf [Hnd' [Hre [Hin Hclosed]]]].
        -- intros x Hx. apply Hst. right. exact Hx.
        -- exact Hvis.
        -- intros v c Hv Hc. destruct (Hcl v c Hv Hc) as [H | [H | H]]; auto.
           subst c. left. exact Hm.
        -- split; [exact Hsuf |]. split; [exact Hnd' |]. split; [exact Hre |].
           split; [| exact Hclosed].
           intros x [E | Hx]; [| apply Hin; exact Hx].
           subst x. destruct Hsuf as [suffix E]. subst b.
           apply in_or_app. left. apply Hbv. exact Hm.
      * apply mem_false_iff in Hm.
        assert (Hcur : reaches es current root) by (apply Hst; left; reflexivity).
        destruct (IH (rev (children es current) ++ rest) (current :: visited)
                     (branch ++ [current]) b Hrun)
          as [Hsuf [Hnd' [Hre [Hin Hclosed]]]].
        -- intros x. rewrite in_app_iff. simpl. rewrite Hbv. tauto.
        -- apply NoDup_app; [exact Hnd | constructor; [intros [] | constructor] |].
           intros x Hx [E | []]. subst x. apply Hm, Hbv, Hx.
        -- intros x Hx. apply in_app_or in Hx. destruct Hx as [Hx | Hx].
           ++ apply in_rev in Hx. eapply reaches_child; eauto.
           ++ apply Hst. right. exact Hx.
        -- intros x [E | Hx]; [subst x; exact Hcur | apply Hvis; exact Hx].
        -- intros v c [E | Hv] Hc.
           ++ subst v. right. apply in_or_app. left. apply in_rev.
              rewrite rev_involutive. exact Hc.
           ++ destruct (Hcl v c Hv Hc) as [H | [H | H]].
              ** left. right. exact H.
              ** left. left. exact H.
              ** right. apply in_or_app. right. exact H.
        -- destruct Hsuf as [suffix E].
           split; [exists ([current] ++ suffix); rewrite E, <- app_assoc; reflexivity |].
           split; [exact Hnd' |]. split; [exact Hre |]. split; [| exact Hclosed].
           intros x [Ex | Hx].
           ++ subst x b. apply in_or_app. left. apply in_or_app. right. left. reflexivity.
           ++ apply Hin. apply in_or_app. right. exact Hx.
Qed.

Lemma traverse_full_branch_facts (es : dict edge) (root : string) :
  (exists rest, traverse_full_branch es root = root :: rest) /\
  NoDup (traverse_full_branch es root) /\
  (forall x, In x (traverse_full_branch es root) <-> reaches es x root).
Proof.
  unfold traverse_full_branch.
  destruct (traverse_full_loop_fuel es (S (length es)) [root] [] []) as [b Hb].
  { destruct (unvisited_nil es) as [Hd _]. simpl. lia. }
  rewrite Hb. pose proof Hb as Hrun. cbn -[mem children] in Hrun.
  change (mem root []) with false in Hrun.
  destruct (traverse_full_loop_inv es root (S (length es)) [root] [] [] b Hb)
    as [_ [Hnd [Hre [Hin Hclosed]]]].
  - intros x; tauto.
  - constructor.
  - intros x [E | []]. subst x. constructor.
  - intros x [].
  - intros v c [].
  - destruct (traverse_full_loop_inv es root (length es)
                (rev (children es root) ++ []) [root] [root] b Hrun)
      as [[suffix Hsuf] _].
    + intros x; tauto.
    + constructor; [intros [] | constructor].
    + intros x Hx. rewrite app_nil_r in Hx. apply in_rev in Hx.
      eapply reaches_child; [exact Hx | constructor].
    + intros x [E | []]. subst x. constructor.
    + intros v c [E | []] Hc. subst v. right. rewrite app_nil_r.
      apply in_rev. rewrite rev_involutive. exact Hc.
    + split; [exists suffix; exact Hsuf |]. split; [exact Hnd |].
      intros x. split; [apply Hre |].
      apply reaches_closed; [apply Hin; left; reflexivity | exact Hclosed].
Qed.

(** *** The breadth-first loop of [get_connected_arguments] *)

Lemma children_cons (item : string * edge) (l : dict edge) (current : string) :
  children (item :: l) current =
  if String.eqb (successor_id (snd item)) current && non_neutral (snd item)
  then fst item :: children l current else children l current.
Proof.
  unfold children, non_neutral. simpl.
  destruct (String.eqb (successor_id (snd item)) current
            && negb (Qeq_bool (rel_of (snd item)) 0)); reflexivity.
Qed.

Lemma connect_fold (current : string) (l : dict edge) :
  forall queue visited connected,
  exists new,
    fold_left (connect_step current) l (queue, visited, connected)
    = (queue ++ new, rev new ++ visited, connected ++ new) /\
    NoDup new /\
    (forall x, In x new -> ~ In x visited /\ In x (children l current)) /\
    (forall x, In x (children l current) -> In x visited \/ In x new).
Proof.
  induction l as [| item l IH]; intros queue visited connected.
  - exists []. simpl. rewrite !app_nil_r. split; [reflexivity |].
    split; [constructor |]. split; [intros x [] | intros x []].
  - cbn [fold_left]. rewrite children_cons. unfold connect_step at 2.
    destruct (String.eqb (successor_id (snd item)) current && non_neutral (snd item)).
    + destruct (mem (fst item) visited) eqn:Hm.
      * destruct (IH queue visited connected) as [new [Hf [Hnd [Hnew Hall]]]].
        exists new. split; [exact Hf |]. split; [exact Hnd |]. split.
        -- intros x Hx. destruct (Hnew x Hx) as [H1 H2]. split; [exact H1 | right; exact H2].
        -- intros x [E | Hx]; [| apply Hall; exact Hx].
           subst x. left. apply mem_true_iff. exact Hm.
      * apply mem_false_iff in Hm.
        destruct (IH (queue ++ [fst item]) (fst item :: visited)
                     (connected ++ [fst item])) as [new [Hf [Hnd [Hnew Hall]]]].
        exists (fst item :: new). split.
        { rewrite Hf. simpl. rewrite <- !app_assoc. reflexivity. }
        split.
        { constructor; [| exact Hnd]. intros Hin.
          destruct (Hnew _ Hin) as [H1 _]. apply H1. left. reflexivity. }
        split.
        -- intros x [E | Hx].
           ++ subst x. split; [exact Hm | left; reflexivity].
           ++ destruct (Hnew x Hx) as [H1 H2]. split; [| right; exact H2].
              intros Hv. apply H1. right. exact Hv.
        -- intros x [E | Hx]; [right; left; exact E |].
           destruct (Hall x Hx) as [[E | H] | H]; [right; left; exact E | left; exact H |].
           right. right. exact H.
    + destruct (IH queue visited connected) as [new [Hf [Hnd [Hnew Hall]]]].
      exists new. auto.
Qed.

Lemma unvisited_src_visit (es : dict edge) (x : string) (visited : list string) :
  ~ In x visited -> In x (keys es) ->
  (S (unvisited_src es (x :: visited)) <= unvisited_src es visited)%nat.
Proof.
  intros Hx Hin. unfold unvisited_src.
  induction es as [| [src e] es IH]; [destruct Hin |].
  cbn -[mem]. rewrite mem_cons.
  assert (Hle : (length (filter (fun item => negb (mem (fst item) (x :: visited))) es)
                 <= length (filter (fun item => negb (mem (fst item) visited)) es))%nat).
  { clear. induction es as [| [s e] es IH]; cbn -[mem]; [lia |].
    rewrite mem_cons. destruct (String.eqb s x); cbn -[mem];
      destruct (mem s visited); cbn -[mem]; lia. }
  destruct (String.eqb_spec src x) as [E | NE]; cbn -[mem].
  - subst src. apply mem_false_iff in Hx. rewrite Hx. cbn -[mem]. lia.
  - destruct Hin as [E | Hin]; [simpl in E; congruence |].
    specialize (IH Hin). destruct (mem src visited); cbn -[mem]; lia.
Qed.

Lemma unvisited_src_new (es : dict edge) (new : list string) :
  forall visited,
    NoDup new -> (forall x, In x new -> ~ In x visited /\ In x (keys es)) ->
    (length new + unvisited_src es (rev new ++ visited) <= unvisited_src es visited)%nat.
Proof.
  induction new as [| x new IH]; intros visited Hnd Hnew; [simpl; lia |].
  inversion Hnd as [| ? ? Hx Hnd']; subst.
  simpl rev. rewrite <- app_assoc. simpl app.
  destruct (Hnew x (or_introl eq_refl)) as [Hv Hk].
  pose proof (unvisited_src_visit es x visited Hv Hk).
  specialize (IH (x :: visited) Hnd').
  assert (forall y, In y new -> ~ In y (x :: visited) /\ In y (keys es)).
  { intros y Hy. destruct (Hnew y (or_intror Hy)) as [H1 H2]. split; [| exact H2].
    intros [E | H']; [subst y; contradiction | contradiction]. }
  specialize (IH H0). simpl. lia.
Qed.

Lemma children_keys (es : dict edge) (current x : string) :
  In x (children es current) -> In x (keys es).
Proof.
  intros Hx. apply children_In in Hx. destruct Hx as [e [Hin _]].
  change x with (fst (x, e)). apply in_map. exact Hin.
Qed.

Lemma connected_loop_fuel (es : dict edge) (fuel : nat) :
  forall queue visited connected,
    (length queue + unvisited_src es visited <= fuel)%nat ->
    exists c, connected_loop fuel es queue visited connected = Some c.
Proof.
  induction fuel as [| fuel IH]; intros queue visited connected Hm.
  - destruct queue; simpl in *; [eexists; reflexivity | lia].
  - destruct queue as [| current rest]; [eexists; reflexivity |].
    cbn [connected_loop].
    destruct (connect_fold current es rest visited connected)
      as [new [Hf [Hnd [Hnew _]]]].
    rewrite Hf. apply IH. rewrite length_app.
    pose proof (unvisited_src_new es new visited Hnd) as Hdec.
    assert (forall x, In x new -> ~ In x visited /\ In x (keys es)).
    { intros x Hx. destruct (Hnew x Hx) as [H1 H2]. split; [exact H1 |].
      eapply children_keys; eauto. }
    specialize (Hdec H). simpl in Hm. lia.
Qed.

Lemma connected_loop_inv (es : dict edge) (target : string) (fuel : nat) :
  forall queue visited connected c,
    connected_loop fuel es queue visited connected = Some c ->
    (forall x, In x connected <-> In x visited) ->
    NoDup connected ->
    (forall x, In x queue -> In x visited) ->
    (forall x, In x visited -> reaches es x target) ->
    (forall v ch, In v visited -> In ch (children es v) ->
                  In ch visited \/ In v queue) ->
    (exists suffix, c = connected ++ suffix) /\
    NoDup c /\
    (forall x, In x c -> reaches es x target) /\
    (forall v ch, In v c -> In ch (children es v) -> In ch c).
Proof.
  assert (Hdone : forall visited connected,
            (forall x, In x connected <-> In x visited) ->
            NoDup connected ->
            (forall x, In x visited -> reaches es x target) ->
            (forall v ch, In v visited -> In ch (children es v) ->
                          In ch visited \/ In v []) ->
            (exists suffix, connected = connected ++ suffix) /\
            NoDup connected /\
            (forall x, In x connected -> reaches es x target) /\
            (forall v ch, In v connected -> In ch (children es v) -> In ch connected)).
  { intros visited connected Hcv Hnd Hvis Hcl.
    split; [exists []; symmetry; apply app_nil_r |]. split; [exact Hnd |].
    split; [intros x Hx; apply Hvis, Hcv, Hx |].
    intros v ch Hv Hc. apply Hcv. apply Hcv in Hv.
    destruct (Hcl v ch Hv Hc) as [H | []]. exact H. }
  induction fuel as [| fuel IH]; intros queue visited connected c Hrun Hcv Hnd Hq Hvis Hcl.
  - destruct queue; simpl in Hrun; [| discriminate].
    inversion Hrun; subst c. eapply Hdone; eauto.
  - destruct queue as [| current rest].
    + simpl in Hrun. inversion Hrun; subst c. eapply Hdone; eauto.
    + cbn [connected_loop] in Hrun.
      destruct (connect_fold current es rest visited connected)
        as [new [Hf [Hndn [Hnew Hall]]]].
      rewrite Hf in Hrun.
      assert (Hcur : In current visited) by (apply Hq; left; reflexivity).
      destruct (IH (rest ++ new) (rev new ++ visited) (connected ++ new) c Hrun)
        as [[suffix Hsuf] [Hnd' [Hre Hclosed]]].
      * intros x. rewrite !in_app_iff, <- in_rev, Hcv. tauto.
      * apply NoDup_app; [exact Hnd | exact Hndn |].
        intros x Hx Hx'. destruct (Hnew x Hx') as [H1 _]. apply H1, Hcv, Hx.
      * intros x Hx. apply in_app_or in Hx. apply in_or_app.
        destruct Hx as [Hx | Hx]; [right; apply Hq; right; exact Hx |].
        left. apply in_rev. rewrite rev_involutive. exact Hx.
      * intros x Hx. apply in_app_or in Hx. destruct Hx as [Hx | Hx].
        -- apply in_rev in Hx. destruct (Hnew x Hx) as [_ H2].
           eapply reaches_child; [exact H2 | apply Hvis; exact Hcur].
        -- apply Hvis. exact Hx.
      * intros v ch Hv Hc. apply in_app_or in Hv. destruct Hv as [Hv | Hv].
        -- right. apply in_or_app. right. apply in_rev. exact Hv.
        -- destruct (Hcl v ch Hv Hc) as [H | [E | H]].
           ++ left. apply in_or_app. right. exact H.
           ++ subst v. destruct (Hall ch Hc) as [H | H].
              ** left. apply in_or_app. right. exact H.
              ** left. apply in_or_app. left. apply in_rev.
                 rewrite rev_involutive. exact H.
           ++ right. apply in_or_app. left. exact H.
      * split; [exists (new ++ suffix); rewrite Hsuf, <- app_assoc; reflexivity |].
        split; [exact Hnd' |]. split; [exact Hre | exact Hclosed].
Qed.

Lemma get_connected_arguments_facts (es : dict edge) (target : string) :
  (exists rest, get_connected_arguments target es = target :: rest) /\
  NoDup (get_connected_arguments target es) /\
  (forall x, In x (get_connected_arguments target es) <-> reaches es x target).
Proof.
  unfold get_connected_arguments.
  destruct (connected_loop_fuel es (S (length es)) [target] [target] [target])
    as [c Hc].
  { destruct (unvisited_nil es) as [_ Hs]. simpl.
    assert (unvisited_src es [target] <= unvisited_src es [])%nat.
    { unfold unvisited_src. clear. induction es as [| [s e] es IH]; cbn -[mem]; [lia |].
      change (mem s []) with false.
      destruct (mem s [target]); cbn -[mem]; lia. }
    lia. }
  rewrite Hc.
  destruct (connected_loop_inv es target (S (length es)) [target] [target] [target]
              c Hc) as [[suffix Hsuf] [Hnd [Hre Hclosed]]].
  - intros x; tauto.
  - constructor; [intros [] | constructor].
  - intros x Hx; exact Hx.
  - intros x [E | []]. subst x. constructor.
  - intros v ch [E | []] _. right. left. exact E.
  - split; [exists suffix; exact Hsuf |]. split; [exact Hnd |].
    intros x. split; [apply Hre |].
    apply reaches_closed; [rewrite Hsuf; left; reflexivity | exact Hclosed].
Qed.

(** X6. [traverse_full_branch] of [identify_branches] returns, for every
    edge set (cyclic or not), a list without repetition that starts with
    the root and whose members are exactly the arguments from which the
    root can be reached along edges with a non-zero relation. *)
Theorem full_branch_is_reachability (es : dict edge) (root x : string) :
  (exists rest, traverse_full_branch es root = root :: rest) /\
  NoDup (traverse_full_branch es root) /\
  (In x (traverse_full_branch es root) <-> reaches es x root).
Proof.
  destruct (traverse_full_branch_facts es root) as [H1 [H2 H3]].
  split; [exact H1 |]. split; [exact H2 | apply H3].
Qed.

(** X7. [get_connected_arguments] returns the target and exactly the
    arguments from which the target can be reached along edges with a
    non-zero relation, each once; it has the same members as the full
    branch [identify_branches] would traverse from the target. *)
Theorem connected_arguments_are_reachability (es : dict edge) (target x : string) :
  In target (get_connected_arguments target es) /\
  NoDup (get_connected_arguments target es) /\
  (In x (get_connected_arguments target es) <-> reaches es x target) /\
  (In x (get_connected_arguments target es) <->
   In x (traverse_full_branch es target)).
Proof.
  destruct (get_connected_arguments_facts es target) as [[rest H1] [H2 H3]].
  destruct (traverse_full_branch_facts es target) as [_ [_ H4]].
  split; [rewrite H1; left; reflexivity |]. split; [exact H2 |].
  split; [apply H3 |]. rewrite H3, H4. tauto.
Qed.

Lemma reaches_incl (es1 es2 : dict edge) (x w : string) :
  (forall item, In item es1 -> In item es2) ->
  reaches es1 x w -> reaches es2 x w.
Proof.
  intros Hincl Hx. induction Hx as [u | u w e Hin Hr Hreach IH].
  - constructor.
  - eapply reaches_step; [apply Hincl; exact Hin | exact Hr | exact IH].
Qed.

Lemma sub_debate_nodes_get (data : debate) (target k : string) (nd : node) :
  dget (nodes (sub_debate data target)) k = Some nd <->
  reaches (edges data) k target /\ dget (nodes data) k = Some nd.
Proof.
  destruct (get_connected_arguments_facts (edges data) target) as [_ [_ Hc]].
  unfold sub_debate. cbn [nodes]. rewrite restrict_nodes_get.
  destruct (mem k (get_connected_arguments target (edges data))) eqn:Hm.
  - apply mem_true_iff, Hc in Hm. destruct (dget (nodes data) k); simpl.
    + split; [intros H; split; [exact Hm | exact H] | intros [_ H]; exact H].
    + split; [discriminate | intros [_ H]; discriminate].
  - simpl. split; [discriminate |]. intros [Hr _].
    apply Hc, mem_true_iff in Hr. congruence.
Qed.

(** X8. The sub-debate [extract_subdebates] writes for a target is the
    restriction of the debate to the arguments that reach the target: it
    holds the nodes of the debate among them, the edges of the debate that
    join two of them, and with every argument it holds, all the
    non-neutral edges of the debate into that argument; reachability of
    the target is the same in the sub-debate as in the debate. *)
Theorem sub_debate_is_closed (data : debate) (target : string) :
  (forall k nd, dget (nodes (sub_debate data target)) k = Some nd <->
                reaches (edges data) k target /\ dget (nodes data) k = Some nd) /\
  (forall u e, In (u, e) (edges (sub_debate data target)) <->
               In (u, e) (edges data) /\ reaches (edges data) u target /\
               reaches (edges data) (successor_id e) target) /\
  (forall u e, In (u, e) (edges data) -> non_neutral e = true ->
               reaches (edges data) (successor_id e) target ->
               In (u, e) (edges (sub_debate data target))) /\
  (forall x, reaches (edges (sub_debate data target)) x target <->
             reaches (edges data) x target).
Proof.
  destruct (get_connected_arguments_facts (edges data) target) as [_ [_ Hc]].
  assert (Hmem : forall k, mem k (get_connected_arguments target (edges data)) = true
                           <-> reaches (edges data) k target).
  { intros k. rewrite mem_true_iff. apply Hc. }
  assert (Hedges : forall u e, In (u, e) (edges (sub_debate data target)) <->
               In (u, e) (edges data) /\ reaches (edges data) u target /\
               reaches (edges data) (successor_id e) target).
  { intros u e. unfold sub_debate. cbn [edges]. rewrite filter_In. cbn [fst snd].
    rewrite andb_true_iff, !Hmem. tauto. }
  assert (Hkeep : forall u e, In (u, e) (edges data) -> non_neutral e = true ->
               reaches (edges data) (successor_id e) target ->
               In (u, e) (edges (sub_debate data target))).
  { intros u e Hin Hr Hs. apply Hedges. split; [exact Hin |].
    split; [eapply reaches_step; eauto | exact Hs]. }
  split; [| split; [exact Hedges | split; [exact Hkeep |]]].
  - intros k nd. unfold sub_debate. cbn [nodes]. rewrite restrict_nodes_get.
    destruct (mem k (get_connected_arguments target (edges data))) eqn:Hm.
    + apply Hmem in Hm. destruct (dget (nodes data) k); simpl.
      * split; [intros H; split; [exact Hm | exact H] | intros [_ H]; exact H].
      * split; [discriminate | intros [_ H]; discriminate].
    + simpl. split; [discriminate |]. intros [Hr _]. apply Hmem in Hr. congruence.
  - intros x. split.
    + apply reaches_incl. intros [u e] Hin. apply Hedges in Hin. apply Hin.
    + intros Hx. induction Hx as [u | u w e Hin Hr Hreach IH].
      * constructor.
      * eapply reaches_step; [apply Hkeep; eauto | exact Hr | apply IH; assumption].
Qed.

(** ** The topological sort returns a topological order *)

Lemma snoc_split {A} (done l1 l2 : list A) (n w : A) :
  done ++ [n] = l1 ++ w :: l2 ->
  (l2 = [] /\ w = n /\ l1 = done) \/
  (exists l2', l2 = l2' ++ [n] /\ done = l1 ++ w :: l2').
Proof.
  intros H. destruct (rev l2) as [| x r] eqn:E.
  - left. apply (f_equal (@rev A)) in E. rewrite rev_involutive in E. simpl in E.
    subst l2. change (l1 ++ [w]) with (l1 ++ [w]) in H.
    apply app_inj_tail in H. destruct H as [H1 H2]. auto.
  - right. apply (f_equal (@rev A)) in E. rewrite rev_involutive in E. simpl in E.
    subst l2.
    change (l1 ++ w :: rev r ++ [x]) with (l1 ++ (w :: rev r) ++ [x]) in H.
    rewrite app_assoc in H. apply app_inj_tail in H. destruct H as [H1 H2].
    subst x. exists (rev r). split; [reflexivity | exact H1].
Qed.

Lemma closed_backwards_empty (G : DiGraph) : closed_backwards G (fun _ => False).
Proof. intros c []. Qed.

Section KahnOrder.
Variable G : DiGraph.
Hypothesis Hwf : graph_wf G.

Lemma visit_child_order (done : list string) (v : string)
    (cs rest zero : list string) (m : dict Z) :
  kahn_order_inv G done (v :: cs) (rest ++ zero) m ->
  exists m' zero',
    visit_child (m, zero) v = Ok (m', zero') /\
    kahn_order_inv G done cs (rest ++ zero') m'.
Proof.
  intros [Hinv [Hnd [Hall [HP Hord]]]].
  destruct (visit_child_inv G _ (closed_backwards_empty G) v cs rest zero m Hinv)
    as [m' [zero' [Hstep [Hinv' _]]]].
  exists m', zero'. split; [exact Hstep |].
  pose proof Hinv as [Hndk [_ [HB _]]].
  assert (Hv : dget m v <> None) by (apply HB; left; reflexivity).
  unfold visit_child in Hstep. destruct (dget m v) as [d |] eqn:Ed; [| congruence].
  clear Hv. assert (Hv : dget m v <> None) by (rewrite Ed; discriminate).
  destruct (Z.eqb (d - 1) 0).
  - inversion Hstep; subst m' zero'. clear Hstep.
    assert (Hperm : Permutation (done ++ (rest ++ zero) ++ keys m)
                      (done ++ (rest ++ zero ++ [v]) ++ keys (ddel m v))).
    { apply Permutation_app_head. apply moved_to_zero_perm. exact Hv. }
    split; [exact Hinv' |].
    split; [eapply Permutation_NoDup; eauto |].
    split; [intros u Hu; eapply Permutation_in; [exact Hperm | apply Hall; exact Hu] |].
    split; [| exact Hord].
    intros w u Hw Hedge.
    rewrite app_assoc in Hw. apply in_app_or in Hw. destruct Hw as [Hw | [E | []]].
    + apply (HP w u Hw Hedge).
    + subst w.
      destruct Hwf as [_ Hends]. destruct (Hends u v Hedge) as [Hu _].
      apply Hall in Hu. eapply Permutation_in in Hu; [| exact Hperm].
      apply in_app_or in Hu. destruct Hu as [Hu | Hu]; [exact Hu |].
      exfalso. destruct Hinv' as [_ [_ [HB' _]]].
      apply (HB' v).
      * unfold pending. apply in_or_app. right. apply in_flat_map.
        exists u. split; [exact Hu | apply neighbors_In; exact Hedge].
      * apply dget_ddel_eq. exact Hndk.
  - inversion Hstep; subst m' zero'. clear Hstep.
    unfold kahn_order_inv. rewrite (keys_dset_present m v _ Hv).
    split; [exact Hinv' |]. split; [exact Hnd |]. split; [exact Hall |].
    split; [exact HP | exact Hord].
Qed.

Lemma visit_children_order (done : list string) (cs : list string) :
  forall rest zero m,
    kahn_order_inv G done cs (rest ++ zero) m ->
    exists m' zero',
      visit_children cs (m, zero) = Ok (m', zero') /\
      kahn_order_inv G done [] (rest ++ zero') m'.
Proof.
  induction cs as [| v cs IH]; intros rest zero m Hinv.
  - exists m, zero. split; [reflexivity | exact Hinv].
  - destruct (visit_child_order done v cs rest zero m Hinv) as [m1 [z1 [Hstep Hinv1]]].
    destruct (IH rest z1 m1 Hinv1) as [m2 [z2 [Hrest Hinv2]]].
    exists m2, z2. cbn [visit_children]. rewrite Hstep. cbn [bind].
    split; [exact Hrest | exact Hinv2].
Qed.

Lemma visit_generation_order (gen : list string) :
  forall done zero m,
    kahn_order_inv G done [] (gen ++ zero) m ->
    exists m' zero',
      visit_generation G gen (m, zero) = Ok (m', zero') /\
      kahn_order_inv G (done ++ gen) [] zero' m'.
Proof.
  induction gen as [| n rest IH]; intros done zero m Hinv.
  - exists m, zero. rewrite app_nil_r. split; [reflexivity | exact Hinv].
  - destruct Hinv as [Hinv [Hnd [Hall [HP Hord]]]].
    pose proof Hinv as [Hndk [Hsub [HB [HA HS]]]].
    assert (Hn : mem n (g_nodes G) = true).
    { apply mem_true_iff. apply Hsub. left. reflexivity. }
    assert (Hinv' : kahn_order_inv G (done ++ [n]) (neighbors G n) (rest ++ zero) m).
    { split.
      { split; [exact Hndk |].
        split; [intros u Hu; apply Hsub; right; exact Hu |].
        split; [exact HB |]. split; [exact HA | exact HS]. }
      split; [rewrite <- app_assoc; exact Hnd |].
      split; [intros u Hu; rewrite <- app_assoc; apply Hall; exact Hu |].
      split.
      - intros w u Hw Hedge. apply in_or_app. left.
        apply (HP w u); [right; exact Hw | exact Hedge].
      - intros l1 w l2 u Hsplit Hedge.
        apply snoc_split in Hsplit.
        destruct Hsplit as [[_ [Ew El]] | [l2' [_ Hd]]].
        + subst w l1. apply (HP n u); [left; reflexivity | exact Hedge].
        + apply (Hord l1 w l2' u Hd Hedge). }
    destruct (visit_children_order (done ++ [n]) (neighbors G n) rest zero m Hinv')
      as [m1 [z1 [Hstep Hinv1]]].
    destruct (IH (done ++ [n]) z1 m1 Hinv1) as [m2 [z2 [Hrest Hinv2]]].
    exists m2, z2. cbn [visit_generation]. rewrite Hn, Hstep. cbn [bind].
    rewrite <- app_assoc in Hinv2.
    split; [exact Hrest | exact Hinv2].
Qed.

Lemma generations_order (fuel : nat) :
  forall done m zero topo,
    kahn_order_inv G done [] zero m ->
    generations fuel G m zero = Some (Ok topo) ->
    edges_ordered G (done ++ topo) /\ NoDup (done ++ topo) /\
    (forall u, In u (g_nodes G) -> In u (done ++ topo)).
Proof.
  assert (Hend : forall done m topo,
            kahn_order_inv G done [] [] m ->
            match m with [] => Ok [] | _ :: _ => Raise NetworkXUnfeasible end
            = Ok topo ->
            edges_ordered G (done ++ topo) /\ NoDup (done ++ topo) /\
            (forall u, In u (g_nodes G) -> In u (done ++ topo))).
  { intros done m topo [_ [Hnd [Hall [_ Hord]]]] Hr.
    destruct m; [| discriminate]. inversion Hr; subst topo.
    simpl in Hnd, Hall. rewrite app_nil_r in *. auto. }
  induction fuel as [| fuel IH]; intros done m zero topo Hinv Hrun.
  - destruct zero; simpl in Hrun; [| discriminate].
    inversion Hrun as [Hr]. apply (Hend done m topo Hinv Hr).
  - destruct zero as [| z zero].
    + simpl in Hrun. inversion Hrun as [Hr]. apply (Hend done m topo Hinv Hr).
    + assert (Hinv0 : kahn_order_inv G done [] ((z :: zero) ++ []) m)
        by (rewrite app_nil_r; exact Hinv).
      destruct (visit_generation_order (z :: zero) done [] m Hinv0)
        as [m' [zero' [Hgen Hinv']]].
      cbn [generations] in Hrun. rewrite Hgen in Hrun.
      destruct (generations fuel G m' zero') as [[rest | e] |] eqn:Hrec;
        try discriminate.
      inversion Hrun; subst topo.
      pose proof (IH (done ++ z :: zero) m' zero' rest Hinv' Hrec) as Hres.
      rewrite <- app_assoc in Hres. exact Hres.
Qed.

Lemma initial_kahn_order_inv :
  kahn_order_inv G [] [] (initial_zero_indegree G) (initial_indegree_map G).
Proof.
  pose proof Hwf as [Hnd Hends].
  split; [apply initial_kahn_inv; [exact Hwf | apply closed_backwards_empty] |].
  cbn [app].
  split.
  { rewrite keys_initial_indegree_map, initial_zero_indegree_filter.
    apply NoDup_app; try (apply NoDup_filter; exact Hnd).
    intros a Ha Hb. apply filter_In in Ha. apply filter_In in Hb.
    destruct Ha as [_ Ha]. destruct Hb as [_ Hb].
    apply Nat.eqb_eq in Ha. apply Nat.ltb_lt in Hb. lia. }
  split.
  { intros u Hu. rewrite keys_initial_indegree_map, initial_zero_indegree_filter.
    apply in_or_app. destruct (in_degree G u) eqn:E.
    - left. apply filter_In. split; [exact Hu | rewrite E; reflexivity].
    - right. apply filter_In. split; [exact Hu | rewrite E; reflexivity]. }
  split.
  { intros w u Hw Hedge. rewrite initial_zero_indegree_filter in Hw.
    apply filter_In in Hw. destruct Hw as [_ Hw]. apply Nat.eqb_eq in Hw.
    pose proof (in_degree_pos G u w Hedge). lia. }
  intros l1 w l2 u Hsplit. destruct l1; discriminate.
Qed.

(** A list returned by [topological_sort] has no repetition, holds every
    node of the graph, and lists every node after the sources of the edges
    into it. *)
Lemma topological_sort_order (topo : list string) :
  topological_sort G = Ok topo ->
  edges_ordered G topo /\ NoDup topo /\ (forall u, In u (g_nodes G) -> In u topo).
Proof.
  unfold topological_sort, topological_sort_fueled. intros Hrun.
  destruct (generations (S (length (initial_indegree_map G))) G
              (initial_indegree_map G) (initial_zero_indegree G))
    as [r |] eqn:E; [| discriminate].
  subst r.
  apply (generations_order _ [] _ _ topo initial_kahn_order_inv E).
Qed.
End KahnOrder.

(** ** The final weights solve the QEM equations *)

Lemma get_or_setdefault_append (d : dict (list string)) (k x n : string) :
  get_or (setdefault_append d k x) n []
  = if String.eqb n k then get_or d k [] ++ [x] else get_or d n [].
Proof.
  unfold setdefault_append, get_or. rewrite dget_dset.
  destruct (String.eqb n k); reflexivity.
Qed.

Lemma dmem_setdefault_append (d : dict (list string)) (k x n : string) :
  dmem (setdefault_append d k x) n = String.eqb n k || dmem d n.
Proof.
  unfold setdefault_append, dmem. rewrite dget_dset.
  destruct (String.eqb n k); reflexivity.
Qed.

Lemma Qltb_asym (r : Q) : Qltb 0 r = true -> Qltb r 0 = false.
Proof.
  intros H. apply Qltb_true in H. apply Qltb_false. apply Qlt_le_weak. exact H.
Qed.

Lemma build_step_eq (sup att : dict (list string)) (G : DiGraph)
    (src : string) (e : edge) :
  build_step (sup, att, G) (src, e)
  = if Qltb 0 (rel_of e)
    then (setdefault_append sup (successor_id e) src, att,
          add_edge G src (successor_id e))
    else if Qltb (rel_of e) 0
    then (sup, setdefault_append att (successor_id e) src,
          add_edge G src (successor_id e))
    else (sup, att, add_edge G src (successor_id e)).
Proof. reflexivity. Qed.

Lemma supporters_cons (src : string) (e : edge) (es : dict edge) (n : string) :
  supporters ((src, e) :: es) n
  = if String.eqb (successor_id e) n && Qltb 0 (rel_of e)
    then src :: supporters es n else supporters es n.
Proof.
  unfold supporters. cbn [filter fst snd].
  destruct (String.eqb (successor_id e) n && Qltb 0 (rel_of e)); reflexivity.
Qed.

Lemma attackers_cons (src : string) (e : edge) (es : dict edge) (n : string) :
  attackers ((src, e) :: es) n
  = if String.eqb (successor_id e) n && Qltb (rel_of e) 0
    then src :: attackers es n else attackers es n.
Proof.
  unfold attackers. cbn [filter fst snd].
  destruct (String.eqb (successor_id e) n && Qltb (rel_of e) 0); reflexivity.
Qed.

Lemma build_fold_sup_att (es : dict edge) :
  forall sup0 att0 G0 n,
    get_or (fst (fst (fold_left build_step es (sup0, att0, G0)))) n []
    = get_or sup0 n [] ++ supporters es n /\
    get_or (snd (fst (fold_left build_step es (sup0, att0, G0)))) n []
    = get_or att0 n [] ++ attackers es n /\
    dmem (fst (fst (fold_left build_step es (sup0, att0, G0)))) n
    = dmem sup0 n || negb (is_nil (supporters es n)) /\
    dmem (snd (fst (fold_left build_step es (sup0, att0, G0)))) n
    = dmem att0 n || negb (is_nil (attackers es n)).
Proof.
  induction es as [| [src e] es IH]; intros sup0 att0 G0 n.
  - simpl. rewrite !app_nil_r, !orb_false_r. auto.
  - cbn [fold_left]. rewrite build_step_eq, supporters_cons, attackers_cons.
    destruct (Qltb 0 (rel_of e)) eqn:Hpos.
    + rewrite (Qltb_asym _ Hpos), andb_false_r.
      destruct (IH (setdefault_append sup0 (successor_id e) src) att0
                   (add_edge G0 src (successor_id e)) n) as [H1 [H2 [H3 H4]]].
      rewrite H1, H2, H3, H4.
      rewrite get_or_setdefault_append, dmem_setdefault_append.
      rewrite (String.eqb_sym n (successor_id e)).
      destruct (String.eqb_spec (successor_id e) n) as [E | NE];
        cbn [andb is_nil negb orb].
      * rewrite E, <- app_assoc. cbn [app]. rewrite orb_true_r. auto.
      * auto.
    + rewrite andb_false_r.
      destruct (Qltb (rel_of e) 0) eqn:Hneg.
      * destruct (IH sup0 (setdefault_append att0 (successor_id e) src)
                     (add_edge G0 src (successor_id e)) n) as [H1 [H2 [H3 H4]]].
        rewrite H1, H2, H3, H4.
        rewrite get_or_setdefault_append, dmem_setdefault_append.
        rewrite (String.eqb_sym n (successor_id e)).
        destruct (String.eqb_spec (successor_id e) n) as [E | NE];
          cbn [andb is_nil negb orb].
        -- rewrite E, <- app_assoc. cbn [app]. rewrite orb_true_r. auto.
        -- auto.
      * rewrite andb_false_r.
        apply (IH sup0 att0 (add_edge G0 src (successor_id e)) n).
Qed.

Lemma build_graph_sup_att (es : dict edge) (n : string) :
  get_or (fst (fst (build_graph es))) n [] = supporters es n /\
  get_or (snd (fst (build_graph es))) n [] = attackers es n /\
  dmem (fst (fst (build_graph es))) n = negb (is_nil (supporters es n)) /\
  dmem (snd (fst (build_graph es))) n = negb (is_nil (attackers es n)).
Proof.
  destruct (build_fold_sup_att es [] [] empty_graph n) as [H1 [H2 [H3 H4]]].
  split; [exact H1 |]. split; [exact H2 |]. split; [exact H3 | exact H4].
Qed.

Lemma qem_accept_equation (es : dict edge) (n : string) (acc w_init : dict Q) :
  qem_accept n (fst (fst (build_graph es))) (snd (fst (build_graph es))) acc w_init
  = (w0 <- dindex w_init n ;; Ok (qem_equation es acc n w0)).
Proof.
  unfold qem_accept, calculate_energy.
  destruct (build_graph_sup_att es n) as [H1 [H2 [H3 H4]]].
  rewrite H3, H4.
  destruct (dindex w_init n) as [w0 | err]; cbn [bind];
    [| destruct (negb (negb (is_nil (supporters es n)))
                 && negb (negb (is_nil (attackers es n)))); reflexivity].
  rewrite H1, H2. unfold qem_equation.
  destruct (supporters es n) as [| s sups]; destruct (attackers es n) as [| a atts];
    reflexivity.
Qed.

Lemma qem_equation_ext (es : dict edge) (a1 a2 : dict Q) (n : string) (w0 : Q) :
  (forall s, In s (supporters es n ++ attackers es n) ->
             get_or a1 s 0 = get_or a2 s 0) ->
  qem_equation es a1 n w0 = qem_equation es a2 n w0.
Proof.
  intros Hext. unfold qem_equation.
  assert (Hs : map (fun s => get_or a1 s 0) (supporters es n)
               = map (fun s => get_or a2 s 0) (supporters es n)).
  { apply map_ext_in. intros s Hin. apply Hext. apply in_or_app. left. exact Hin. }
  assert (Ha : map (fun s => get_or a1 s 0) (attackers es n)
               = map (fun s => get_or a2 s 0) (attackers es n)).
  { apply map_ext_in. intros s Hin. apply Hext. apply in_or_app. right. exact Hin. }
  destruct (supporters es n); destruct (attackers es n); try reflexivity;
    rewrite Hs, Ha; reflexivity.
Qed.

Lemma qem_loop_equations (es : dict edge) (w_init : dict Q) (topo : list string) :
  forall acc0 m,
    qem_loop topo (fst (fst (build_graph es))) (snd (fst (build_graph es)))
             w_init acc0 = Ok m ->
    NoDup topo ->
    (forall k, In k topo -> dget acc0 k = None) ->
    (forall l1 n l2 s, topo = l1 ++ n :: l2 ->
                       In s (supporters es n ++ attackers es n) ->
                       In s l1 \/ dget acc0 s <> None) ->
    (forall k w, dget acc0 k = Some w -> dget m k = Some w) /\
    (forall n, In n topo ->
               exists w0, dget w_init n = Some w0 /\
                          dget m n = Some (qem_equation es m n w0)).
Proof.
  induction topo as [| n topo IH]; intros acc0 m Hrun Hnd Hfresh Hord.
  - inversion Hrun; subst m. split; [auto | intros n []].
  - cbn [qem_loop] in Hrun. rewrite qem_accept_equation in Hrun.
    unfold dindex in Hrun. destruct (dget w_init n) as [w0 |] eqn:Ew0;
      [| discriminate].
    cbn [bind] in Hrun.
    inversion Hnd as [| ? ? Hn Hnd']; subst.
    assert (Hn0 : dget acc0 n = None) by (apply Hfresh; left; reflexivity).
    destruct (IH (dset acc0 n (qem_equation es acc0 n w0)) m Hrun Hnd')
      as [Hkeep Heq].
    + intros k Hk. rewrite dget_dset.
      destruct (String.eqb_spec k n) as [E | NE]; [subst k; contradiction |].
      apply Hfresh. right. exact Hk.
    + intros l1 x l2 s Hsplit Hs.
      destruct (Hord (n :: l1) x l2 s) as [[E | H] | H].
      * rewrite Hsplit. reflexivity.
      * exact Hs.
      * right. subst s. rewrite dget_dset, String.eqb_refl. discriminate.
      * left. exact H.
      * right. rewrite dget_dset. destruct (String.eqb s n); [discriminate | exact H].
    + assert (Hkeep0 : forall k w, dget acc0 k = Some w -> dget m k = Some w).
      { intros k w Hk. apply Hkeep. rewrite dget_dset.
        destruct (String.eqb_spec k n) as [E | NE]; [subst k; congruence | exact Hk]. }
      split; [exact Hkeep0 |].
      intros x [E | Hx]; [| apply Heq; exact Hx].
      subst x. exists w0. split; [exact Ew0 |].
      rewrite (Hkeep n (qem_equation es acc0 n w0))
        by (rewrite dget_dset, String.eqb_refl; reflexivity).
      f_equal. apply qem_equation_ext. intros s Hs.
      destruct (Hord [] n topo s eq_refl Hs) as [[] | Hin].
      unfold get_or. destruct (dget acc0 s) as [v |] eqn:Ev; [| congruence].
      rewrite (Hkeep0 s v Ev). reflexivity.
Qed.

Lemma supporter_edge (es : dict edge) (n s : string) :
  In s (supporters es n ++ attackers es n) ->
  In (s, n) (g_edges (graph_of es)).
Proof.
  intros Hs. apply in_app_or in Hs. unfold supporters, attackers in Hs.
  destruct Hs as [Hs | Hs]; apply in_map_iff in Hs;
    destruct Hs as [[s' e] [Hfst Hin]]; simpl in Hfst; subst s';
    apply filter_In in Hin; destruct Hin as [Hin Hb]; simpl in Hb;
    apply andb_true_iff in Hb; destruct Hb as [Hsucc _];
    apply String.eqb_eq in Hsucc; subst n; apply graph_of_edges; exact Hin.
Qed.

Lemma qem_loop_topo_solves (framework : debate) (w_init m : dict Q)
    (topo : list string) :
  initial_weights (nodes framework) = Ok w_init ->
  topological_sort (graph_of (edges framework)) = Ok topo ->
  qem_loop topo (fst (fst (build_graph (edges framework))))
           (snd (fst (build_graph (edges framework)))) w_init [] = Ok m ->
  solves_qem framework m.
Proof.
  intros Hinit Htopo Hrun n w Hn.
  destruct (topological_sort_order (graph_of (edges framework))
              (graph_of_wf (edges framework)) topo Htopo) as [Hord [Hnd _]].
  destruct (qem_loop_equations (edges framework) w_init topo [] m Hrun Hnd)
    as [_ Heq].
  - intros k _. reflexivity.
  - intros l1 x l2 s Hsplit Hs. left.
    apply (Hord l1 x l2 s Hsplit). apply supporter_edge. exact Hs.
  - assert (Hin : In n topo).
    { destruct (qem_loop_keys topo _ _ w_init [] m Hrun n) as [H | H];
        [rewrite Hn; discriminate | exact H | simpl in H; congruence]. }
    destruct (Heq n Hin) as [w0 [Hw0 Hm]].
    destruct (initial_weights_Ok _ _ Hinit) as [_ Hget].
    rewrite Hget in Hw0.
    destruct (dget (nodes framework) n) as [nd |] eqn:End; [| discriminate].
    exists nd, w0. split; [reflexivity |]. split; [exact Hw0 |]. congruence.
Qed.

Lemma copy_weights_sound (ks : list string) (w_init : dict Q) :
  forall acc m,
    copy_weights ks w_init acc = Ok m ->
    forall k w, dget m k = Some w ->
                dget w_init k = Some w \/ dget acc k = Some w.
Proof.
  induction ks as [| a ks IH]; intros acc m Hm k w Hk.
  - inversion Hm; subst. right. exact Hk.
  - cbn [copy_weights] in Hm. unfold dindex in Hm.
    destruct (dget w_init a) as [wa |] eqn:Ea; [| discriminate].
    cbn [bind] in Hm. destruct (IH _ _ Hm k w Hk) as [H | H]; [left; exact H |].
    rewrite dget_dset in H. destruct (String.eqb_spec k a) as [E | NE].
    + inversion H; subst. left. exact Ea.
    + right. exact H.
Qed.

Lemma build_graph_no_edges (es : dict edge) :
  g_edges (snd (build_graph es)) = [] -> es = [].
Proof.
  intros H. destruct es as [| [u e] es]; [reflexivity |].
  pose proof (graph_of_edges ((u, e) :: es) u e (or_introl eq_refl)) as Hin.
  unfold graph_of in Hin. rewrite H in Hin. destruct Hin.
Qed.

Lemma propagation_solves_qem (framework : debate) (m : dict Q) :
  (apply_qem_to_restriction framework = Ok m /\ ~ cyclic (edges framework)) \/
  (exists d', enrich_with_final_acc framework = Ok (m, d')) ->
  solves_qem framework m.
Proof.
  intros [[Hrun Hacyclic] | [d' Hrun]].
  - unfold apply_qem_to_restriction in Hrun.
    destruct (nodes framework) as [| item ns] eqn:Ens.
    { inversion Hrun; subst m. intros n w Hn. discriminate. }
    rewrite <- Ens in Hrun.
    destruct (initial_weights (nodes framework)) as [w_init |] eqn:Einit;
      [| discriminate].
    cbn [bind] in Hrun.
    pose proof (qem_loop_topo_solves framework w_init m) as Hsolve.
    destruct (build_graph (edges framework)) as [[sup att] G] eqn:Eb.
    cbn [fst snd] in Hsolve.
    destruct (g_edges G) as [| ed eds] eqn:Eg.
    + assert (Hes : edges framework = []).
      { apply build_graph_no_edges. rewrite Eb. exact Eg. }
      intros n w Hn.
      destruct (copy_weights_sound _ _ _ _ Hrun n w Hn) as [H | H];
        [| discriminate].
      destruct (initial_weights_Ok _ _ Einit) as [_ Hget]. rewrite Hget in H.
      destruct (dget (nodes framework) n) as [nd |] eqn:End; [| discriminate].
      exists nd, w. split; [reflexivity |]. split; [exact H |].
      unfold qem_equation, supporters, attackers. rewrite Hes. reflexivity.
    + destruct (topological_sort_fuel (edges framework)) as [r [_ [Hr Hcase]]].
      unfold graph_of in Hr, Hsolve. rewrite Eb in Hr, Hsolve. cbn [snd] in Hr, Hsolve.
      destruct Hcase as [E | [topo E]]; rewrite E in Hr.
      * exfalso. apply Hacyclic. apply unfeasible_cyclic.
        unfold graph_of. rewrite Eb. exact Hr.
      * rewrite Hr in Hrun. cbn [bind] in Hrun.
        apply (Hsolve topo Einit Hr Hrun).
  - unfold enrich_with_final_acc in Hrun.
    destruct (initial_weights (nodes framework)) as [w_init |] eqn:Einit;
      [| discriminate].
    cbn [bind] in Hrun.
    pose proof (qem_loop_topo_solves framework w_init m) as Hsolve.
    destruct (build_graph (edges framework)) as [[sup att] G] eqn:Eb.
    unfold graph_of in Hsolve. rewrite Eb in Hsolve. cbn [fst snd] in Hsolve.
    destruct (topological_sort G) as [topo |] eqn:Etopo; [| discriminate].
    cbn [bind] in Hrun.
    destruct (enrich_loop topo sup att w_init [] (nodes framework))
      as [[acc ns'] |] eqn:Eloop; [| discriminate].
    cbn [bind fst snd] in Hrun. inversion Hrun; subst acc d'.
    apply (Hsolve topo Einit eq_refl).
    apply (enrich_loop_qem_loop _ _ _ _ _ _ _ _ Eloop).
Qed.


(** X9. The final weights are a solution of the QEM equations. When the
    edges hold no cycle, every weight returned by the per-restriction
    propagation, and every weight returned by the full-graph propagation,
    is the QEM update of the node's initial weight by the energy computed
    from the returned (final) weights of its supporters and attackers; a
    node with neither keeps its initial weight. *)
Theorem final_weights_solve_qem (framework : debate) (m : dict Q) :
  (apply_qem_to_restriction framework = Ok m /\ ~ cyclic (edges framework)) \/
  (exists d', enrich_with_final_acc framework = Ok (m, d')) ->
  solves_qem framework m.
Proof. apply propagation_solves_qem. Qed.

Lemma final_weights_solve_qem_witness :
  ~ cyclic (edges chain_debate) /\
  solves_qem chain_debate
    (match apply_qem_to_restriction chain_debate with Ok m => m | Raise _ => [] end).
Proof.
  assert (Hacyclic : ~ cyclic (edges chain_debate)).
  { intros Hc. apply cyclic_unfeasible in Hc. vm_compute in Hc. discriminate Hc. }
  split; [exact Hacyclic |].
  apply final_weights_solve_qem. left. split; [| exact Hacyclic].
  vm_compute. reflexivity.
Defined.

(** ** The weights of a sub-debate are those of the debate *)

Lemma qem_loop_defined (topo : list string) (sup att : dict (list string))
    (w_init : dict Q) :
  forall final_acc m,
    qem_loop topo sup att w_init final_acc = Ok m ->
    forall k, In k topo \/ dget final_acc k <> None -> dget m k <> None.
Proof.
  induction topo as [| n topo IH]; intros final_acc m Hm k Hk.
  - inversion Hm; subst. destruct Hk as [[] | Hk]. exact Hk.
  - cbn [qem_loop] in Hm.
    destruct (qem_accept n sup att final_acc w_init) as [w |]; [| discriminate].
    cbn [bind] in Hm. apply (IH _ _ Hm). rewrite dget_dset.
    destruct (String.eqb_spec k n) as [E | NE]; [right; discriminate |].
    destruct Hk as [[E | Hin] | Hacc]; [congruence | left; exact Hin | right; exact Hacc].
Qed.

Lemma filter_filter_implied {A} (f g : A -> bool) (l : list A) :
  (forall x, In x l -> f x = true -> g x = true) ->
  filter f (filter g l) = filter f l.
Proof.
  intros H. induction l as [| x l IH]; [reflexivity |].
  simpl. destruct (g x) eqn:Eg; simpl.
  - rewrite IH by (intros y Hy; apply H; right; exact Hy). reflexivity.
  - destruct (f x) eqn:Ef.
    + rewrite (H x (or_introl eq_refl) Ef) in Eg. discriminate.
    + apply IH. intros y Hy. apply H. right. exact Hy.
Qed.

(** What a propagation that ended well has done. *)
Lemma apply_qem_inv (framework : debate) (m : dict Q) :
  apply_qem_to_restriction framework = Ok m ->
  ~ cyclic (edges framework) ->
  m = [] \/
  exists w_init,
    initial_weights (nodes framework) = Ok w_init /\
    ((edges framework = [] /\
      copy_weights (keys (nodes framework)) w_init [] = Ok m) \/
     (exists topo,
        topological_sort (graph_of (edges framework)) = Ok topo /\
        qem_loop topo (fst (fst (build_graph (edges framework))))
                 (snd (fst (build_graph (edges framework)))) w_init [] = Ok m)).
Proof.
  intros Hrun Hacyclic. unfold apply_qem_to_restriction in Hrun.
  destruct (nodes framework) as [| item ns] eqn:Ens.
  { left. inversion Hrun. reflexivity. }
  rewrite <- Ens in *. right.
  destruct (initial_weights (nodes framework)) as [w_init |] eqn:Einit;
    [| discriminate].
  cbn [bind] in Hrun. exists w_init. split; [reflexivity |].
  destruct (topological_sort_fuel (edges framework)) as [r [_ [Hr Hcase]]].
  unfold graph_of in *.
  destruct (build_graph (edges framework)) as [[sup att] G] eqn:Eb.
  cbn [fst snd] in *.
  destruct (g_edges G) as [| ed eds] eqn:Eg.
  - left. split; [| exact Hrun].
    apply build_graph_no_edges. rewrite Eb. exact Eg.
  - right. destruct Hcase as [E | [topo E]]; rewrite E in Hr.
    + exfalso. apply Hacyclic. apply unfeasible_cyclic.
      unfold graph_of. rewrite Eb. exact Hr.
    + rewrite Hr in Hrun. cbn [bind] in Hrun. exists topo. split; [exact Hr | exact Hrun].
Qed.

Lemma enrich_inv (framework : debate) (acc : dict Q) (d' : debate) :
  enrich_with_final_acc framework = Ok (acc, d') ->
  exists w_init topo ns',
    initial_weights (nodes framework) = Ok w_init /\
    topological_sort (graph_of (edges framework)) = Ok topo /\
    enrich_loop topo (fst (fst (build_graph (edges framework))))
                (snd (fst (build_graph (edges framework)))) w_init []
                (nodes framework) = Ok (acc, ns') /\
    d' = mk_debate ns' (edges framework).
Proof.
  intros Hrun. unfold enrich_with_final_acc in Hrun.
  destruct (initial_weights (nodes framework)) as [w_init |] eqn:Einit;
    [| discriminate].
  cbn [bind] in Hrun. unfold graph_of.
  destruct (build_graph (edges framework)) as [[sup att] G] eqn:Eb.
  cbn [fst snd].
  destruct (topological_sort G) as [topo |] eqn:Etopo; [| discriminate].
  cbn [bind] in Hrun.
  destruct (enrich_loop topo sup att w_init [] (nodes framework))
    as [[acc0 ns'] |] eqn:Eloop; [| discriminate].
  cbn [bind fst snd] in Hrun. inversion Hrun; subst.
  exists w_init, topo, ns'. auto.
Qed.

(** A propagation that went through the topological order gives a weight
    to both ends of every edge. *)
Lemma qem_loop_endpoints (es : dict edge) (topo : list string)
    (sup att : dict (list string)) (w_init m : dict Q) :
  topological_sort (graph_of es) = Ok topo ->
  qem_loop topo sup att w_init [] = Ok m ->
  forall u e, In (u, e) es ->
              dget m u <> None /\ dget m (successor_id e) <> None.
Proof.
  intros Htopo Hrun u e Hin.
  destruct (topological_sort_order (graph_of es) (graph_of_wf es) topo Htopo)
    as [_ [_ Hall]].
  destruct (graph_of_wf es) as [_ Hends].
  destruct (Hends u (successor_id e) (graph_of_edges es u e Hin)) as [Hu Hs].
  split; apply (qem_loop_defined _ _ _ _ _ _ Hrun); left; apply Hall; assumption.
Qed.

Lemma signed_non_neutral (e : edge) :
  Qltb 0 (rel_of e) = true \/ Qltb (rel_of e) 0 = true -> non_neutral e = true.
Proof.
  unfold non_neutral. intros H.
  destruct (Qeq_bool (rel_of e) 0) eqn:E; [| reflexivity].
  apply Qeq_bool_iff in E. exfalso.
  destruct H as [H | H]; apply Qltb_true in H; rewrite E in H;
    apply (Qlt_irrefl 0 H).
Qed.

Lemma parent_edge (es : dict edge) (n s : string) :
  In s (supporters es n ++ attackers es n) ->
  exists e, In (s, e) es /\ successor_id e = n /\ non_neutral e = true.
Proof.
  intros Hs. apply in_app_or in Hs. unfold supporters, attackers in Hs.
  destruct Hs as [Hs | Hs]; apply in_map_iff in Hs;
    destruct Hs as [[s' e] [Hfst Hin]]; simpl in Hfst; subst s';
    apply filter_In in Hin; destruct Hin as [Hin Hb]; simpl in Hb;
    apply andb_true_iff in Hb; destruct Hb as [Hsucc Hrel];
    apply String.eqb_eq in Hsucc; exists e;
    (split; [exact Hin |]); (split; [exact Hsucc |]);
    apply signed_non_neutral; auto.
Qed.

Lemma sub_debate_edges_In (data : debate) (target u : string) (e : edge) :
  In (u, e) (edges (sub_debate data target)) <->
  In (u, e) (edges data) /\ reaches (edges data) u target /\
  reaches (edges data) (successor_id e) target.
Proof.
  destruct (get_connected_arguments_facts (edges data) target) as [_ [_ Hc]].
  unfold sub_debate. cbn [edges]. rewrite filter_In. cbn [fst snd].
  rewrite andb_true_iff, !mem_true_iff, !Hc. tauto.
Qed.

Lemma sub_debate_parents (data : debate) (target n : string) :
  reaches (edges data) n target ->
  supporters (edges (sub_debate data target)) n = supporters (edges data) n /\
  attackers (edges (sub_debate data target)) n = attackers (edges data) n.
Proof.
  intros Hn.
  destruct (get_connected_arguments_facts (edges data) target) as [_ [_ Hc]].
  assert (Hkeep : forall sign : edge -> bool,
            (forall e, sign e = true -> non_neutral e = true) ->
            forall item, In item (edges data) ->
              String.eqb (successor_id (snd item)) n && sign (snd item) = true ->
              mem (fst item) (get_connected_arguments target (edges data))
              && mem (successor_id (snd item))
                     (get_connected_arguments target (edges data)) = true).
  { intros sign Hsign [u e] Hin Hb. cbn [fst snd] in *.
    apply andb_true_iff in Hb. destruct Hb as [Hs Hr].
    apply String.eqb_eq in Hs. apply andb_true_iff.
    split; apply mem_true_iff; apply Hc.
    - eapply reaches_step; [exact Hin | apply Hsign; exact Hr | rewrite Hs; exact Hn].
    - rewrite Hs. exact Hn. }
  unfold supporters, attackers, sub_debate. cbn [edges].
  split; f_equal; apply filter_filter_implied.
  - apply (Hkeep (fun e => Qltb 0 (rel_of e))).
    intros e He. apply signed_non_neutral. left. exact He.
  - apply (Hkeep (fun e => Qltb (rel_of e) 0)).
    intros e He. apply signed_non_neutral. right. exact He.
Qed.

Lemma path_incl (es1 es2 : dict edge) (u w : string) :
  (forall item, In item es1 -> In item es2) -> path es1 u w -> path es2 u w.
Proof.
  intros Hincl Hp. induction Hp as [u e Hin | u w e Hin Hp IH].
  - apply path_edge. apply Hincl. exact Hin.
  - eapply path_step; [apply Hincl; exact Hin | exact IH].
Qed.

Lemma sub_debate_acyclic (data : debate) (target : string) :
  ~ cyclic (edges data) -> ~ cyclic (edges (sub_debate data target)).
Proof.
  intros Hacyclic [v Hv]. apply Hacyclic. exists v.
  apply (path_incl (edges (sub_debate data target))); [| exact Hv].
  intros [u e] Hin. apply sub_debate_edges_In in Hin. apply Hin.
Qed.

Lemma qem_equation_agree (es1 es2 : dict edge) (a1 a2 : dict Q) (n : string)
    (w0 : Q) :
  supporters es1 n = supporters es2 n ->
  attackers es1 n = attackers es2 n ->
  (forall s, In s (supporters es2 n ++ attackers es2 n) ->
             get_or a1 s 0 = get_or a2 s 0) ->
  qem_equation es1 a1 n w0 = qem_equation es2 a2 n w0.
Proof.
  intros Hs Ha Hext. unfold qem_equation at 1. rewrite Hs, Ha.
  apply (qem_equation_ext es2 a1 a2 n w0 Hext).
Qed.

(** Where both propagations give a weight, it is the same weight. *)
Lemma sub_debate_weights_agree (data : debate) (target : string)
    (acc m : dict Q) (d' : debate) :
  enrich_with_final_acc data = Ok (acc, d') ->
  apply_qem_to_restriction (sub_debate data target) = Ok m ->
  forall n w w', dget m n = Some w -> dget acc n = Some w' -> w = w'.
Proof.
  intros Hfull Hsub.
  destruct (enrich_inv data acc d' Hfull) as [w_init [topo [ns' [Hinit [Htopo [Hloop _]]]]]].
  apply enrich_loop_qem_loop in Hloop.
  assert (Hacyclic : ~ cyclic (edges data)).
  { intros Hc. apply cyclic_unfeasible in Hc. congruence. }
  pose proof (sub_debate_acyclic data target Hacyclic) as Hacyclic'.
  assert (Hsolve_acc : solves_qem data acc).
  { apply propagation_solves_qem. right. exists d'. exact Hfull. }
  assert (Hsolve_m : solves_qem (sub_debate data target) m).
  { apply propagation_solves_qem. left. split; assumption. }
  destruct (topological_sort_order (graph_of (edges data))
              (graph_of_wf (edges data)) topo Htopo) as [Hord _].
  assert (Hdef_m : forall u e, In (u, e) (edges (sub_debate data target)) ->
                               m <> [] -> dget m u <> None).
  { intros u e Hin Hne.
    destruct (apply_qem_inv _ m Hsub Hacyclic') as [E | [wi [_ [[E _] | [tp [Htp Hlp]]]]]].
    - contradiction.
    - rewrite E in Hin. destruct Hin.
    - apply (qem_loop_endpoints _ tp _ _ wi m Htp Hlp u e Hin). }
  assert (Hprefix : forall l1, (exists l2, topo = l1 ++ l2) ->
            forall n, In n l1 -> forall w w',
              dget m n = Some w -> dget acc n = Some w' -> w = w').
  { induction l1 as [| x l1 IH] using rev_ind; intros [l2 Hsplit] n Hn w w' Hm Ha;
      [destruct Hn |].
    rewrite <- app_assoc in Hsplit. cbn [app] in Hsplit.
    assert (IH' := IH (ex_intro _ (x :: l2) Hsplit)). clear IH.
    apply in_app_or in Hn. destruct Hn as [Hn | [E | []]];
      [apply (IH' n Hn w w' Hm Ha) |].
    subst x.
    destruct (Hsolve_m n w Hm) as [nd [w0 [Hnd [Hw0 Hw]]]].
    destruct (Hsolve_acc n w' Ha) as [nd' [w0' [Hnd' [Hw0' Hw']]]].
    apply sub_debate_nodes_get in Hnd. destruct Hnd as [Hreach Hnd].
    rewrite Hnd in Hnd'. inversion Hnd'; subst nd'. clear Hnd'.
    rewrite Hw0 in Hw0'. inversion Hw0'; subst w0'. clear Hw0'.
    destruct (sub_debate_parents data target n Hreach) as [Hs Hat].
    rewrite Hw, Hw'. apply qem_equation_agree; [exact Hs | exact Hat |].
    intros s Hpar.
    pose proof (supporter_edge _ _ _ Hpar) as Hedge.
    pose proof (Hord l1 n l2 s Hsplit Hedge) as Hbefore.
    destruct (parent_edge _ _ _ Hpar) as [e [Hin [Hsucc Hnn]]].
    assert (Hin' : In (s, e) (edges (sub_debate data target))).
    { apply sub_debate_edges_In. split; [exact Hin |]. rewrite Hsucc.
      split; [| exact Hreach].
      eapply reaches_step; [exact Hin | exact Hnn | rewrite Hsucc; exact Hreach]. }
    assert (Hms : dget m s <> None).
    { apply (Hdef_m s e Hin'). intros E. rewrite E in Hm. discriminate. }
    assert (Has : dget acc s <> None).
    { apply (qem_loop_endpoints _ topo _ _ w_init acc Htopo Hloop s e Hin). }
    unfold get_or.
    destruct (dget m s) as [v |] eqn:Ev; [| congruence].
    destruct (dget acc s) as [v' |] eqn:Ev'; [| congruence].
    apply (IH' s Hbefore v v' Ev Ev'). }
  intros n w w' Hm Ha.
  apply (Hprefix topo (ex_intro _ [] (eq_sym (app_nil_r topo))) n); try assumption.
  destruct (qem_loop_keys topo _ _ w_init [] acc Hloop n) as [H | H];
    [rewrite Ha; discriminate | exact H | simpl in H; congruence].
Qed.


Lemma In_dset {V} (d : dict V) (k k' : string) (v v' : V) :
  In (k, v) (dset d k' v') -> (k = k' /\ v = v') \/ In (k, v) d.
Proof.
  induction d as [| [k0 v0] d IH]; simpl.
  - intros [E | []]. inversion E. left. auto.
  - destruct (String.eqb_spec k' k0) as [E0 | NE].
    + intros [E | H]; [inversion E; subst; left; auto | right; right; exact H].
    + intros [E | H]; [right; left; exact E |].
      destruct (IH H) as [Hk | Hin]; [left; exact Hk | right; right; exact Hin].
Qed.

Lemma restrict_nodes_In (ns : dict node) (args : list string) :
  forall acc k nd,
    In (k, nd) (restrict_nodes ns args acc) -> In (k, nd) acc \/ In (k, nd) ns.
Proof.
  unfold restrict_nodes.
  induction args as [| a args IH]; intros acc k nd H; [left; exact H |].
  cbn [fold_left] in H. apply IH in H. destruct H as [H | H]; [| right; exact H].
  destruct (dget ns a) as [nd0 |] eqn:E; [| left; exact H].
  apply In_dset in H. destruct H as [[Ek Ev] | H]; [| left; exact H].
  subst. right. apply dget_In. exact E.
Qed.

(** A walk to [t] either is empty or ends with an edge into [t]. *)
Lemma reaches_last (es : dict edge) (u t : string) :
  reaches es u t ->
  u = t \/
  exists u' e', In (u', e') es /\ non_neutral e' = true /\
                successor_id e' = t /\ reaches es u' t.
Proof.
  induction 1 as [u | u w e Hin Hn Hr IH]; [left; reflexivity |].
  right. destruct IH as [E | [u' [e' H]]].
  - exists u, e. split; [exact Hin |]. split; [exact Hn |]. split; [exact E |].
    eapply reaches_step; [exact Hin | exact Hn | exact Hr].
  - exists u', e'. exact H.
Qed.

(** In a sub-debate that has an edge, every argument is an end of one. *)
Lemma sub_debate_endpoint (data : debate) (target n : string) :
  reaches (edges data) n target ->
  edges (sub_debate data target) <> [] ->
  exists u e, In (u, e) (edges (sub_debate data target))
              /\ (n = u \/ n = successor_id e).
Proof.
  intros Hn Hne.
  assert (Hinto : forall x, reaches (edges data) x target -> x <> target ->
            exists e, In (x, e) (edges (sub_debate data target))).
  { intros x Hx Hxt. inversion Hx as [| x' w e Hin Hnn Hr]; subst; [congruence |].
    exists e. apply sub_debate_edges_In. auto. }
  destruct (String.eqb_spec n target) as [E | NE].
  - subst n. destruct (edges (sub_debate data target)) as [| [u e] rest] eqn:Ees;
      [congruence |].
    assert (Hin : In (u, e) (edges (sub_debate data target)))
      by (rewrite Ees; left; reflexivity).
    rewrite <- Ees.
    pose proof Hin as Hin0. apply sub_debate_edges_In in Hin0.
    destruct Hin0 as [_ [Hu _]].
    destruct (reaches_last _ _ _ Hu) as [E | [u' [e' [Hin' [Hnn [Hs Hr]]]]]].
    + exists u, e. split; [exact Hin | left; symmetry; exact E].
    + exists u', e'. split; [| right; symmetry; exact Hs].
      apply sub_debate_edges_In. split; [exact Hin' |]. split; [exact Hr |].
      rewrite Hs. constructor.
  - destruct (Hinto n Hn NE) as [e Hin]. exists n, e. auto.
Qed.

(** When the full-graph propagation succeeds, so does the propagation of
    every sub-debate, and it reaches every argument of the sub-debate that
    the full-graph propagation reached. *)
Lemma sub_debate_propagation (data : debate) (target : string) (acc : dict Q)
    (d' : debate) :
  enrich_with_final_acc data = Ok (acc, d') ->
  exists m,
    apply_qem_to_restriction (sub_debate data target) = Ok m /\
    forall n, reaches (edges data) n target -> dget acc n <> None ->
              dget m n <> None.
Proof.
  intros Hfull.
  destruct (enrich_inv data acc d' Hfull)
    as [w_init [topo [ns' [Hinit [Htopo [Hloop _]]]]]].
  apply enrich_loop_qem_loop in Hloop.
  assert (Hacyclic : ~ cyclic (edges data)).
  { intros Hc. apply cyclic_unfeasible in Hc. congruence. }
  pose proof (sub_debate_acyclic data target Hacyclic) as Hacyclic'.
  assert (Hsolve_acc : solves_qem data acc).
  { apply propagation_solves_qem. right. exists d'. exact Hfull. }
  assert (Hsubnode : forall n, reaches (edges data) n target -> dget acc n <> None ->
            exists nd w0, dget (nodes (sub_debate data target)) n = Some nd /\
                          initial_weight nd = Some w0).
  { intros n Hr Ha. destruct (dget acc n) as [w |] eqn:Ew; [| congruence].
    destruct (Hsolve_acc n w Ew) as [nd [w0 [Hnd [Hw0 _]]]].
    exists nd, w0. split; [| exact Hw0].
    apply sub_debate_nodes_get. auto. }
  assert (Hends : forall u e x, In (u, e) (edges (sub_debate data target)) ->
            x = u \/ x = successor_id e ->
            reaches (edges data) x target /\ dget acc x <> None).
  { intros u e x Hin Hx. apply sub_debate_edges_In in Hin.
    destruct Hin as [Hin [Hu Hs]].
    destruct (qem_loop_endpoints _ topo _ _ w_init acc Htopo Hloop u e Hin)
      as [Hau Has].
    destruct Hx as [E | E]; subst x; auto. }
  destruct (initial_weights_cases (nodes (sub_debate data target)))
    as [[ws [Hws Hall]] | [_ [k [nd [Hin Hnone]]]]].
  2:{ exfalso. unfold sub_debate in Hin. cbn [nodes] in Hin.
      apply restrict_nodes_In in Hin. destruct Hin as [[] | Hin].
      rewrite (initial_weights_missing _ k nd Hin Hnone) in Hinit. discriminate. }
  destruct (initial_weights_Ok _ _ Hws) as [_ Hget].
  assert (Hws_def : forall n, reaches (edges data) n target -> dget acc n <> None ->
                              dget ws n <> None).
  { intros n Hr Ha. destruct (Hsubnode n Hr Ha) as [nd [w0 [Hnd Hw0]]].
    rewrite Hget, Hnd, Hw0. discriminate. }
  unfold apply_qem_to_restriction.
  destruct (nodes (sub_debate data target)) as [| item rest] eqn:Ens.
  { exists []. split; [reflexivity |]. intros n Hr Ha.
    destruct (Hsubnode n Hr Ha) as [nd [w0 [Hnd _]]]. discriminate. }
  rewrite <- Ens in *. rewrite Hws. cbn [bind].
  destruct (build_graph (edges (sub_debate data target))) as [[sup att] G] eqn:Eb.
  destruct (g_edges G) as [| ed eds] eqn:Eg.
  - assert (Hk : forall k, In k (keys (nodes (sub_debate data target))) ->
                           dget ws k <> None).
    { intros k Hk. rewrite Hget.
      destruct (dget (nodes (sub_debate data target)) k) as [nd |] eqn:E.
      - apply (Hall k nd). apply dget_In. exact E.
      - apply dget_None_keys in E. contradiction. }
    destruct (copy_weights_get _ ws Hk []) as [m [Hm Hgetm]].
    exists m. split; [exact Hm |]. intros n Hr Ha. rewrite Hgetm.
    destruct (Hsubnode n Hr Ha) as [nd [w0 [Hnd Hw0]]].
    assert (Hmem : mem n (keys (nodes (sub_debate data target))) = true).
    { apply mem_true_iff.
      destruct (in_dec string_dec n (keys (nodes (sub_debate data target))))
        as [Hi | Hni]; [exact Hi |].
      apply dget_None_keys in Hni. congruence. }
    rewrite Hmem. apply Hws_def; assumption.
  - assert (Hne : edges (sub_debate data target) <> []).
    { intros E. rewrite E in Eb. inversion Eb; subst G. discriminate Eg. }
    destruct (topological_sort_fuel (edges (sub_debate data target)))
      as [r [_ [Hr Hcase]]].
    unfold graph_of in Hr. rewrite Eb in Hr. cbn [snd] in Hr.
    destruct Hcase as [E | [tp E]]; rewrite E in Hr.
    { exfalso. apply Hacyclic'. apply unfeasible_cyclic.
      unfold graph_of. rewrite Eb. exact Hr. }
    rewrite Hr. cbn [bind].
    assert (Htp : topological_sort (graph_of (edges (sub_debate data target)))
                  = Ok tp) by (unfold graph_of; rewrite Eb; exact Hr).
    assert (Htp_def : forall n, In n tp -> dget ws n <> None).
    { intros n Hn.
      destruct (topological_sort_output_endpoints _ tp Htp n Hn)
        as [u [e [Hin Hx]]].
      destruct (Hends u e n Hin Hx) as [Hreach Ha]. apply Hws_def; assumption. }
    destruct (qem_loop_total tp sup att ws Htp_def []) as [m [Hm _]].
    exists m. split; [exact Hm |]. intros n Hreach Ha.
    destruct (sub_debate_endpoint data target n Hreach Hne) as [u [e [Hin Hx]]].
    destruct (qem_loop_endpoints _ tp sup att ws m Htp Hm u e Hin) as [Hu Hs].
    destruct Hx as [Ex | Ex]; subst n; assumption.
Qed.

(** X10. Extraction keeps the weights. When the full-graph propagation of
    a debate succeeds (so the debate has no cycle), the propagation of the
    sub-debate that [extract_subdebates] writes for a target succeeds as
    well; it gives every argument that reaches the target and has a
    weight in the whole debate that very weight, and it gives a weight to
    nothing else, but for a target that no edge of the debate touches
    (which the full-graph propagation leaves without a weight). *)
Theorem sub_debate_keeps_weights (data : debate) (target : string)
    (acc : dict Q) (d' : debate) :
  enrich_with_final_acc data = Ok (acc, d') ->
  exists m,
    apply_qem_to_restriction (sub_debate data target) = Ok m /\
    (forall n w, reaches (edges data) n target -> dget acc n = Some w ->
                 dget m n = Some w) /\
    (forall n w, dget m n = Some w ->
       reaches (edges data) n target /\
       (dget acc n = Some w \/
        (n = target /\ dget acc n = None /\
         forall u e, In (u, e) (edges data) ->
                     u <> target /\ successor_id e <> target))).
Proof.
  intros Hfull.
  destruct (sub_debate_propagation data target acc d' Hfull) as [m [Hm Hcover]].
  pose proof (sub_debate_weights_agree data target acc m d' Hfull Hm) as Hagree.
  exists m. split; [exact Hm |]. split.
  - intros n w Hreach Ha.
    assert (Hn : dget m n <> None)
      by (apply Hcover; [exact Hreach | rewrite Ha; discriminate]).
    destruct (dget m n) as [v |] eqn:Ev; [| congruence].
    rewrite (Hagree n v w Ev Ha). reflexivity.
  - intros n w Hn.
    destruct (enrich_inv data acc d' Hfull)
      as [w_init [topo [ns' [_ [Htopo [Hloop _]]]]]].
    apply enrich_loop_qem_loop in Hloop.
    assert (Hacyclic : ~ cyclic (edges data)).
    { intros Hc. apply cyclic_unfeasible in Hc. congruence. }
    assert (Hsolve_m : solves_qem (sub_debate data target) m).
    { apply propagation_solves_qem. left. split; [exact Hm |].
      apply sub_debate_acyclic. exact Hacyclic. }
    destruct (Hsolve_m n w Hn) as [nd [w0 [Hnd _]]].
    apply sub_debate_nodes_get in Hnd. destruct Hnd as [Hreach _].
    split; [exact Hreach |].
    destruct (dget acc n) as [w' |] eqn:Ea.
    + left. rewrite (Hagree n w w' Hn Ea). reflexivity.
    + right.
      assert (Huntouched : forall u e, In (u, e) (edges data) ->
                                       u <> n /\ successor_id e <> n).
      { intros u e Hin.
        destruct (qem_loop_endpoints _ topo _ _ w_init acc Htopo Hloop u e Hin)
          as [Hu Hs].
        split; intros E; subst n; congruence. }
      assert (En : n = target).
      { inversion Hreach as [| x t e Hin Hnn Hr]; subst; [reflexivity |].
        destruct (Huntouched n e Hin) as [H _]. congruence. }
      subst n. split; [reflexivity |]. split; [reflexivity | exact Huntouched].
Qed.

(** On the chain A -> B -> target: the sub-debate of B is propagated and
    gives A and B the weights they have in the whole chain. *)
Lemma sub_debate_keeps_weights_witness :
  exists acc d' m,
    enrich_with_final_acc chain_debate = Ok (acc, d') /\
    apply_qem_to_restriction (sub_debate chain_debate "B") = Ok m /\
    dget acc "B" = Some (48 # 80) /\ dget m "B" = Some (48 # 80) /\
    dget acc "A" = Some (1 # 2) /\ dget m "A" = Some (1 # 2).
Proof.
  destruct (enrich_with_final_acc chain_debate) as [[acc d'] | e] eqn:E;
    [| vm_compute in E; discriminate E].
  destruct (sub_debate_keeps_weights chain_debate "B" acc d' E)
    as [m [Hm [Hcover _]]].
  assert (HB : dget acc "B" = Some (48 # 80))
    by (vm_compute in E; inversion E; reflexivity).
  assert (HA : dget acc "A" = Some (1 # 2))
    by (vm_compute in E; inversion E; reflexivity).
  exists acc, d', m. split; [reflexivity |]. split; [exact Hm |].
  split; [exact HB |]. split; [apply Hcover; [constructor | exact HB] |].
  split; [exact HA |]. apply Hcover; [| exact HA].
  apply (reaches_step _ "A" "B" (support "B")); [left; reflexivity | reflexivity |].
  constructor.
Defined.

(** ** The rankings *)

Section StableSort.
Context {A K : Type}.
Variable leb : K -> K -> bool.
Variable key : A -> K.
Hypothesis leb_total : forall a b, leb a b = true \/ leb b a = true.
Hypothesis leb_trans :
  forall a b c, leb a b = true -> leb b c = true -> leb a c = true.

Lemma insert_sorted_perm (x : A) (l : list A) :
  Permutation (insert_sorted leb key x l) (x :: l).
Proof.
  induction l as [| y l IH]; simpl; [apply Permutation_refl |].
  destruct (leb (key x) (key y)); [apply Permutation_refl |].
  eapply Permutation_trans; [apply perm_skip; exact IH | apply perm_swap].
Qed.

Lemma sorted_perm (l : list A) : Permutation (sorted leb key l) l.
Proof.
  induction l as [| x l IH]; simpl; [constructor |].
  eapply Permutation_trans; [apply insert_sorted_perm | apply perm_skip; exact IH].
Qed.

Lemma insert_sorted_ranked (x : A) (l : list A) :
  ranked_by leb key l -> ranked_by leb key (insert_sorted leb key x l).
Proof.
  unfold ranked_by. induction l as [| y l IH]; intros Hs; simpl.
  - constructor; constructor.
  - inversion Hs as [| ? ? Hs' Hall]; subst.
    destruct (leb (key x) (key y)) eqn:E.
    + constructor; [exact Hs |]. constructor; [exact E |].
      eapply Forall_impl; [| exact Hall]. intros z Hz. cbn beta in *.
      eapply leb_trans; eauto.
    + constructor; [apply IH; exact Hs' |].
      assert (Hyx : leb (key y) (key x) = true).
      { destruct (leb_total (key x) (key y)) as [H | H]; [congruence | exact H]. }
      eapply Permutation_Forall; [apply Permutation_sym, insert_sorted_perm |].
      constructor; [exact Hyx | exact Hall].
Qed.

Lemma sorted_ranked (l : list A) : ranked_by leb key (sorted leb key l).
Proof.
  induction l as [| x l IH]; simpl; [constructor |].
  apply insert_sorted_ranked. exact IH.
Qed.

Lemma insert_sorted_ties (k : K) (x : A) (l : list A) :
  filter (fun z => leb (key z) k && leb k (key z)) (insert_sorted leb key x l)
  = filter (fun z => leb (key z) k && leb k (key z)) (x :: l).
Proof.
  induction l as [| y l IH]; [reflexivity |].
  cbn [insert_sorted]. destruct (leb (key x) (key y)) eqn:E; [reflexivity |].
  cbn [filter] in *. rewrite IH.
  destruct (leb (key x) k && leb k (key x)) eqn:Ex; [| reflexivity].
  destruct (leb (key y) k && leb k (key y)) eqn:Ey; [| reflexivity].
  exfalso. apply andb_true_iff in Ex. apply andb_true_iff in Ey.
  destruct Ex as [Hxk _]. destruct Ey as [_ Hky].
  rewrite (leb_trans _ _ _ Hxk Hky) in E. discriminate.
Qed.

Lemma sorted_ties (k : K) (l : list A) :
  filter (fun z => leb (key z) k && leb k (key z)) (sorted leb key l)
  = filter (fun z => leb (key z) k && leb k (key z)) l.
Proof.
  induction l as [| x l IH]; [reflexivity |].
  cbn [sorted fold_right]. fold (sorted leb key l).
  rewrite insert_sorted_ties. cbn [filter]. rewrite IH. reflexivity.
Qed.

Lemma sorted_reverse_perm (l : list A) :
  Permutation (sorted_reverse leb key l) l.
Proof.
  unfold sorted_reverse.
  eapply Permutation_trans; [apply Permutation_sym, Permutation_rev |].
  eapply Permutation_trans; [apply sorted_perm |].
  apply Permutation_sym, Permutation_rev.
Qed.

Lemma StronglySorted_snoc {B} (R : B -> B -> Prop) (l : list B) (x : B) :
  StronglySorted R l -> Forall (fun y => R y x) l -> StronglySorted R (l ++ [x]).
Proof.
  induction l as [| y l IH]; intros Hs Hall; simpl.
  - constructor; constructor.
  - inversion Hs as [| ? ? Hs' Hy]; subst. inversion Hall as [| ? ? Hyx Hall']; subst.
    constructor; [apply IH; assumption |].
    apply Forall_app. split; [exact Hy | constructor; [exact Hyx | constructor]].
Qed.

Lemma StronglySorted_rev {B} (R : B -> B -> Prop) (l : list B) :
  StronglySorted R l -> StronglySorted (fun x y => R y x) (rev l).
Proof.
  induction l as [| y l IH]; intros Hs; simpl; [constructor |].
  inversion Hs as [| ? ? Hs' Hy]; subst.
  apply StronglySorted_snoc; [apply IH; exact Hs' |].
  apply Forall_rev. exact Hy.
Qed.

Lemma sorted_reverse_ranked (l : list A) :
  ranked_by (fun a b => leb b a) key (sorted_reverse leb key l).
Proof.
  unfold sorted_reverse, ranked_by.
  apply (StronglySorted_rev (fun x y => leb (key x) (key y) = true)).
  apply sorted_ranked.
Qed.

Lemma filter_rev {B} (p : B -> bool) (l : list B) :
  filter p (rev l) = rev (filter p l).
Proof.
  induction l as [| x l IH]; [reflexivity |].
  simpl. rewrite filter_app, IH. simpl.
  destruct (p x); [reflexivity | apply app_nil_r].
Qed.

Lemma sorted_reverse_ties (k : K) (l : list A) :
  filter (fun z => leb (key z) k && leb k (key z)) (sorted_reverse leb key l)
  = filter (fun z => leb (key z) k && leb k (key z)) l.
Proof.
  unfold sorted_reverse.
  rewrite filter_rev, sorted_ties, filter_rev, rev_involutive. reflexivity.
Qed.
End StableSort.

Lemma Qle_bool_total (a b : Q) : Qle_bool a b = true \/ Qle_bool b a = true.
Proof.
  destruct (Qlt_le_dec b a) as [H | H].
  - right. apply Qle_bool_iff. apply Qlt_le_weak. exact H.
  - left. apply Qle_bool_iff. exact H.
Qed.

Lemma Qle_bool_trans (a b c : Q) :
  Qle_bool a b = true -> Qle_bool b c = true -> Qle_bool a c = true.
Proof.
  rewrite !Qle_bool_iff. apply Qle_trans.
Qed.

Lemma Qeq_bool_le (a k : Q) : Qeq_bool a k = Qle_bool a k && Qle_bool k a.
Proof.
  destruct (Qeq_bool a k) eqn:E.
  - apply Qeq_bool_iff in E. symmetry. apply andb_true_iff.
    split; apply Qle_bool_iff; rewrite E; apply Qle_refl.
  - destruct (Qle_bool a k && Qle_bool k a) eqn:E'; [| reflexivity].
    apply andb_true_iff in E'. destruct E' as [H1 H2].
    apply Qle_bool_iff in H1. apply Qle_bool_iff in H2.
    assert (H : a == k) by (apply Qle_antisym; assumption).
    apply Qeq_bool_iff in H. congruence.
Qed.

Lemma Zleb_total (a b : Z) : Z.leb a b = true \/ Z.leb b a = true.
Proof. rewrite !Z.leb_le. lia. Qed.

Lemma Zleb_trans (a b c : Z) :
  Z.leb a b = true -> Z.leb b c = true -> Z.leb a c = true.
Proof. rewrite !Z.leb_le. lia. Qed.

Lemma Zeqb_le (a k : Z) : Z.eqb a k = Z.leb a k && Z.leb k a.
Proof.
  destruct (Z.eqb_spec a k) as [E | NE]; symmetry.
  - subst. rewrite Z.leb_refl. reflexivity.
  - apply andb_false_iff. rewrite !Z.leb_gt. lia.
Qed.

(** X11. For a non-empty list of branches [apply_heuristics] returns three
    rankings of the same branches (each a permutation of the input with
    its root weights): "weak to strong" in non-decreasing order of the
    root's final weight, "strong to weak" in non-increasing order, "small
    to large" in non-decreasing order of size; each keeps branches that
    tie in the order of the input, so with ties "strong to weak" is not
    the reverse of "weak to strong". *)
Theorem apply_heuristics_rankings (b : branch) (bs : list branch) (ns : dict node) :
  exists weak strong small,
    apply_heuristics (b :: bs) ns
    = [("weak to strong", weak); ("strong to weak", strong);
       ("small to large", small)] /\
    let input := map (fun x => mk_weighted x (get_root_final_weight x ns)) (b :: bs) in
    (Permutation weak input /\ Permutation strong input /\ Permutation small input) /\
    ranked_by Qle_bool root_weight weak /\
    ranked_by (fun x y => Qle_bool y x) root_weight strong /\
    ranked_by Z.leb (fun x => size (the_branch x)) small /\
    keeps_ties Qeq_bool root_weight input weak /\
    keeps_ties Qeq_bool root_weight input strong /\
    keeps_ties Z.eqb (fun x => size (the_branch x)) input small.
Proof.
  eexists. eexists. eexists. split; [reflexivity |]. cbv zeta.
  split; [split; [| split] |].
  - apply sorted_perm.
  - apply sorted_reverse_perm.
  - apply sorted_perm.
  - split; [apply sorted_ranked; [apply Qle_bool_total | apply Qle_bool_trans] |].
    split; [apply sorted_reverse_ranked; [apply Qle_bool_total | apply Qle_bool_trans] |].
    split; [apply sorted_ranked; [apply Zleb_total | apply Zleb_trans] |].
    split; [| split]; intros k.
    + rewrite (filter_ext _ _ (fun x => Qeq_bool_le (root_weight x) k)).
      rewrite (filter_ext (fun x => Qeq_bool (root_weight x) k) _
                 (fun x => Qeq_bool_le (root_weight x) k)).
      apply sorted_ties. apply Qle_bool_trans.
    + rewrite (filter_ext _ _ (fun x => Qeq_bool_le (root_weight x) k)).
      rewrite (filter_ext (fun x => Qeq_bool (root_weight x) k) _
                 (fun x => Qeq_bool_le (root_weight x) k)).
      apply sorted_reverse_ties. apply Qle_bool_trans.
    + rewrite (filter_ext _ _ (fun x => Zeqb_le (size (the_branch x)) k)).
      rewrite (filter_ext (fun x => Z.eqb (size (the_branch x)) k) _
                 (fun x => Zeqb_le (size (the_branch x)) k)).
      apply sorted_ties. apply Zleb_trans.
Qed.

(** *** From the rows of a rankings file to the table the searches read *)

Lemma combine_map {A B C} (f : A -> B) (g : A -> C) (l : list A) :
  combine (map f l) (map g l) = map (fun x => (f x, g x)) l.
Proof.
  induction l as [| x l IH]; simpl; [reflexivity | rewrite IH; reflexivity].
Qed.

Lemma apply_heuristics_perm (b : branch) (bs : list branch) (ns : dict node)
    (h : string) (ranked : list weighted_branch) :
  In (h, ranked) (apply_heuristics (b :: bs) ns) ->
  Permutation ranked
    (map (fun x => mk_weighted x (get_root_final_weight x ns)) (b :: bs)).
Proof.
  unfold apply_heuristics.
  intros [E | [E | [E | []]]]; apply (f_equal snd) in E; cbn [snd] in E;
    rewrite <- E.
  - apply sorted_perm.
  - apply sorted_reverse_perm.
  - apply sorted_perm.
Qed.

Lemma save_rankings_rows (bbc : dict (list branch)) (ns : dict node)
    (d t dir : string) (r : ranking_row) :
  In r (save_rankings_to_csv bbc ns d t dir) ->
  row_debate_id r = d /\ row_t_id r = t /\ row_direction r = dir /\
  In (row_heuristic r) ["weak to strong"; "strong to weak"; "small to large"] /\
  aligned (row_category_data r).
Proof.
  unfold save_rankings_to_csv. intros Hin. apply in_flat_map in Hin.
  destruct Hin as [[c bs] [Hc Hin]]. cbn [fst snd] in Hin.
  destruct bs as [| b bs]; [destruct Hin |].
  apply in_flat_map in Hin. destruct Hin as [[h ranked] [Hh Hin]].
  cbn [fst snd] in Hin.
  pose proof (apply_heuristics_perm b bs ns h ranked Hh) as Hperm.
  destruct ranked as [| x ranked]; [destruct Hin |].
  destruct Hin as [E | []]. subst r. cbn [row_debate_id row_t_id row_direction
    row_heuristic row_category_data row_branches_abv row_branches
    row_ranking_abv row_ranking].
  split; [reflexivity |]. split; [reflexivity |]. split; [reflexivity |].
  split.
  { unfold apply_heuristics in Hh. cbn [In].
    destruct Hh as [E | [E | [E | []]]]; inversion E; auto. }
  unfold aligned, row_category_data.
  cbn [ranking_abv ranking branches_abv branches row_branches_abv row_branches
       row_ranking_abv row_ranking].
  rewrite !length_map. split; [reflexivity |]. split; [reflexivity |].
  split; [| discriminate].
  rewrite !combine_map.
  eapply Permutation_trans;
    [apply (Permutation_map
              (fun x => (branch_id (the_branch x), arguments (the_branch x))));
     exact Hperm |].
  rewrite map_map. cbn [the_branch]. apply Permutation_refl.
Qed.

Lemma load_ranking_row_get (data : rankings_data) (r : ranking_row) (h c : string) :
  match dget (rankings (load_ranking_row data r)) h with
  | Some hd =>
      match dget hd c with
      | Some cd =>
          cd = row_category_data r \/
          exists hd0, dget (rankings data) h = Some hd0 /\ dget hd0 c = Some cd
      | None => True
      end
  | None => True
  end.
Proof.
  unfold load_ranking_row. cbn [rankings].
  set (data1 := if String.eqb (debate_id data) ""
                then mk_rankings (row_debate_id r) (row_t_id r) (row_direction r)
                                 (rankings data)
                else data).
  assert (Hr1 : rankings data1 = rankings data).
  { unfold data1. destruct (String.eqb (debate_id data) ""); reflexivity. }
  rewrite Hr1. rewrite dget_dset.
  destruct (String.eqb_spec h (row_heuristic r)) as [E | NE].
  - subst h. rewrite dget_dset.
    destruct (String.eqb c (row_category r)); [left; reflexivity |].
    unfold dmem, get_or.
    destruct (dget (rankings data) (row_heuristic r)) as [hd0 |] eqn:E0.
    + rewrite E0. destruct (dget hd0 c) as [cd |] eqn:Ec; [| exact I].
      right. exists hd0. auto.
    + rewrite dget_dset, String.eqb_refl. exact I.
  - unfold dmem.
    destruct (dget (rankings data) (row_heuristic r)) as [hd0 |] eqn:E0.
    + destruct (dget (rankings data) h) as [hd |]; [| exact I].
      destruct (dget hd c) as [cd |] eqn:Ec; [| exact I]. right. exists hd. auto.
    + rewrite dget_dset. destruct (String.eqb_spec h (row_heuristic r)); [contradiction |].
      destruct (dget (rankings data) h) as [hd |]; [| exact I].
      destruct (dget hd c) as [cd |] eqn:Ec; [| exact I]. right. exists hd. auto.
Qed.

Lemma load_rows_inv (P : category_data -> Prop) (rows : list ranking_row) :
  (forall r, In r rows -> P (row_category_data r)) ->
  forall data,
    (forall h hd c cd, dget (rankings data) h = Some hd ->
                       dget hd c = Some cd -> P cd) ->
    forall h hd c cd,
      dget (rankings (fold_left load_ranking_row rows data)) h = Some hd ->
      dget hd c = Some cd -> P cd.
Proof.
  induction rows as [| r rows IH]; intros Hrows data Hdata; [exact Hdata |].
  cbn [fold_left]. apply IH; [intros x Hx; apply Hrows; right; exact Hx |].
  intros h hd c cd Hh Hc.
  pose proof (load_ranking_row_get data r h c) as Hget.
  rewrite Hh, Hc in Hget. destruct Hget as [E | [hd0 [H0 Hc0]]].
  - subst cd. apply Hrows. left. reflexivity.
  - apply (Hdata h hd0 c cd H0 Hc0).
Qed.

Lemma load_rows_header (d t dir : string) (rows : list ranking_row) :
  (forall r, In r rows ->
             row_debate_id r = d /\ row_t_id r = t /\ row_direction r = dir) ->
  forall data,
    (debate_id data = d /\ t_id data = t /\ direction data = dir) \/
    (debate_id data = "" /\ rows <> []) ->
    let rd := fold_left load_ranking_row rows data in
    debate_id rd = d /\ t_id rd = t /\ direction rd = dir.
Proof.
  induction rows as [| r rows IH]; intros Hrows data Hdata; cbn [fold_left].
  - destruct Hdata as [H | [_ H]]; [exact H | congruence].
  - apply IH; [intros x Hx; apply Hrows; right; exact Hx |].
    left. destruct (Hrows r (or_introl eq_refl)) as [H1 [H2 H3]].
    unfold load_ranking_row. cbn [debate_id t_id direction].
    destruct (String.eqb_spec (debate_id data) "") as [E | NE].
    + cbn [debate_id t_id direction]. auto.
    + destruct Hdata as [H | [H _]]; [exact H | contradiction].
Qed.

Lemma load_rows_heuristic (rows : list ranking_row) (r : ranking_row) :
  In r rows ->
  forall data,
    dmem (rankings (fold_left load_ranking_row rows data)) (row_heuristic r) = true.
Proof.
  assert (Hkeep : forall rows data h,
            dmem (rankings data) h = true ->
            dmem (rankings (fold_left load_ranking_row rows data)) h = true).
  { clear. induction rows as [| r rows IH]; intros data h Hh; [exact Hh |].
    cbn [fold_left]. apply IH. unfold load_ranking_row. cbn [rankings].
    unfold dmem in *. rewrite dget_dset.
    destruct (String.eqb h (row_heuristic r)); [reflexivity |].
    assert (Hr1 : rankings (if String.eqb (debate_id data) ""
                            then mk_rankings (row_debate_id r) (row_t_id r)
                                   (row_direction r) (rankings data)
                            else data) = rankings data)
      by (destruct (String.eqb (debate_id data) ""); reflexivity).
    rewrite Hr1.
    destruct (dget (rankings data) (row_heuristic r)); [exact Hh |].
    rewrite dget_dset. destruct (String.eqb h (row_heuristic r)); [reflexivity | exact Hh]. }
  induction rows as [| x rows IH]; intros Hin data; [destruct Hin |].
  cbn [fold_left]. destruct Hin as [E | Hin]; [| apply IH; exact Hin].
  subst x. apply Hkeep. unfold load_ranking_row. cbn [rankings].
  unfold dmem. rewrite dget_dset, String.eqb_refl. reflexivity.
Qed.

(** X12. The rankings table that reaches the searches
    ([save_rankings_to_csv], then [load_branch_rankings_data]) is well
    formed: in every category it holds, the ranked names and the ranked
    argument lists have the same length and are, pair by pair, a
    permutation of the names and argument lists of the category's
    branches, of which there is at least one. When some category has a
    branch, the table carries the debate id, target and direction given,
    and holds all three heuristics; when no category has a branch it is
    the empty table with an empty debate id. *)
Theorem pipeline_rankings_aligned (bbc : dict (list branch)) (ns : dict node)
    (d t dir : string) :
  (forall h hd c cd,
      dget (rankings (pipeline_rankings bbc ns d t dir)) h = Some hd ->
      dget hd c = Some cd -> aligned cd) /\
  ((exists c b bs, In (c, b :: bs) bbc) ->
   debate_id (pipeline_rankings bbc ns d t dir) = d /\
   t_id (pipeline_rankings bbc ns d t dir) = t /\
   direction (pipeline_rankings bbc ns d t dir) = dir /\
   forall h, In h ["weak to strong"; "strong to weak"; "small to large"] ->
             dmem (rankings (pipeline_rankings bbc ns d t dir)) h = true) /\
  ((forall c bs, In (c, bs) bbc -> bs = []) ->
   pipeline_rankings bbc ns d t dir = mk_rankings "" "" "" []).
Proof.
  unfold pipeline_rankings, load_branch_rankings_data.
  split; [| split].
  - apply load_rows_inv.
    + intros r Hr. apply (save_rankings_rows bbc ns d t dir r Hr).
    + intros h hd c cd Hh. discriminate.
  - intros [c [b [bs Hin]]].
    assert (Hrow : forall h ranked,
              In (h, ranked) (apply_heuristics (b :: bs) ns) ->
              exists r, In r (save_rankings_to_csv bbc ns d t dir) /\
                        row_heuristic r = h).
    { intros h ranked Hh.
      pose proof (apply_heuristics_perm b bs ns h ranked Hh) as Hperm.
      destruct ranked as [| x ranked];
        [apply Permutation_nil in Hperm; discriminate |].
      exists (mk_ranking_row d t dir h (get_or category_mapping c (lower c))
                (map branch_id (b :: bs)) (map arguments (b :: bs))
                (map (fun y => branch_id (the_branch y)) (x :: ranked))
                (map (fun y => arguments (the_branch y)) (x :: ranked))).
      split; [| reflexivity].
      unfold save_rankings_to_csv. apply in_flat_map.
      exists (c, b :: bs). split; [exact Hin |]. cbn [fst snd].
      apply in_flat_map. exists (h, x :: ranked). split; [exact Hh |].
      left. reflexivity. }
    assert (Hne : save_rankings_to_csv bbc ns d t dir <> []).
    { destruct (Hrow "weak to strong" _ (or_introl eq_refl)) as [r [Hr _]].
      intros E. rewrite E in Hr. destruct Hr. }
    destruct (load_rows_header d t dir (save_rankings_to_csv bbc ns d t dir))
      with (data := mk_rankings "" "" "" []) as [H1 [H2 H3]].
    + intros r Hr. destruct (save_rankings_rows bbc ns d t dir r Hr) as [A [B [C _]]].
      auto.
    + right. split; [reflexivity | exact Hne].
    + split; [exact H1 |]. split; [exact H2 |]. split; [exact H3 |].
      intros h Hh.
      assert (Hex : exists ranked, In (h, ranked) (apply_heuristics (b :: bs) ns)).
      { unfold apply_heuristics. cbn [In] in *.
        destruct Hh as [E | [E | [E | []]]]; subst h; eexists; eauto. }
      destruct Hex as [ranked Hranked].
      destruct (Hrow h ranked Hranked) as [r [Hr Ehr]]. subst h.
      apply load_rows_heuristic. exact Hr.
  - intros Hempty.
    assert (E : save_rankings_to_csv bbc ns d t dir = []).
    { unfold save_rankings_to_csv. induction bbc as [| [c bs] bbc IH]; [reflexivity |].
      cbn [flat_map fst snd]. rewrite (Hempty c bs (or_introl eq_refl)).
      cbn [app]. apply IH. intros c' bs' Hin. apply (Hempty c' bs'). right. exact Hin. }
    rewrite E. reflexivity.
Qed.

(** ** The size of an explanation *)

Lemma add_branches_abv_length (debate_data : debate) (target_id : string)
    (w0_target : Q) (current_args_of : list string -> list string)
    (reached : Q -> bool) (abvs : list string) (ranking : list (list string)) :
  forall i added_args added_abv l found args' abv' l',
    add_branches debate_data target_id w0_target current_args_of reached abvs
                 ranking i added_args added_abv l
    = (Ok (found, args', abv'), l') ->
    (length abv' <= length added_abv + (length abvs - i))%nat.
Proof.
  induction ranking as [| b ranking IH];
    intros i added_args added_abv l found args' abv' l' Hrun.
  - cbn [add_branches] in Hrun. unfold tret in Hrun. inversion Hrun; subst. lia.
  - cbn [add_branches] in Hrun. unfold tbind in Hrun.
    destruct (retest debate_data target_id w0_target
                (current_args_of (added_args ++ b)) l) as [[w1 | e] l1];
      [| discriminate].
    assert (Hnew : (length (match nth_error abvs i with
                            | Some abv => added_abv ++ [abv]
                            | None => added_abv
                            end) + (length abvs - S i)
                    <= length added_abv + (length abvs - i))%nat).
    { destruct (nth_error abvs i) eqn:E.
      - assert (i < length abvs)%nat by (apply nth_error_Some; congruence).
        rewrite length_app. simpl. lia.
      - lia. }
    destruct (reached w1).
    + unfold tret in Hrun. inversion Hrun; subst. lia.
    + apply IH in Hrun. lia.
Qed.

Lemma count_branches_12 (a b c : list string) :
  count_branches_in_explanation [a; b; c] [1; 2]%nat = (length b + length c)%nat /\
  count_branches_in_explanation [a; b] [1; 2]%nat = length b /\
  count_branches_in_explanation [] [1; 2]%nat = 0%nat /\
  count_branches_in_explanation [a; b; c] [2]%nat = length c /\
  count_branches_in_explanation [] [2]%nat = 0%nat.
Proof. repeat split. Qed.

Lemma constructive_search_size (debate_data : debate) (target_id : string)
    (w0_target : Q) (reached : Q -> bool) (unweakened first weakening : category_data)
    (l l' : log) (ex : explanation) :
  constructive_search debate_data target_id w0_target reached unweakened first
                      weakening l = (Ok ex, l') ->
  (count_branches_in_explanation (explanation_abv ex) [1; 2]%nat
   <= length (ranking_abv first) + length (ranking_abv weakening))%nat /\
  (success ex = false -> ex = no_explanation).
Proof.
  unfold constructive_search, tbind. intros Hrun.
  destruct (retest debate_data target_id w0_target
              (get_branch_arguments (branches unweakened) ++ [target_id]) l)
    as [[w1 | e] l1]; [| discriminate].
  destruct (reached w1).
  { unfold tret in Hrun. inversion Hrun; subst. cbn. split; [lia | discriminate]. }
  destruct (add_branches debate_data target_id w0_target _ reached
              (ranking_abv first) (ranking first) 0 [] [] l1)
    as [[[[found1 args1] abv1] | e] l2] eqn:E1; [| discriminate].
  pose proof (add_branches_abv_length _ _ _ _ _ _ _ _ _ _ _ _ _ _ _ E1) as H1.
  destruct found1.
  { unfold tret in Hrun. inversion Hrun; subst.
    cbn [explanation_abv success].
    destruct (count_branches_12 (branches_abv unweakened) abv1 []) as [_ [E _]].
    rewrite E. split; [simpl in H1; lia | discriminate]. }
  destruct (add_branches debate_data target_id w0_target _ reached
              (ranking_abv weakening) (ranking weakening) 0 [] [] l2)
    as [[[[found2 args2] abv2] | e] l3] eqn:E2; [| discriminate].
  pose proof (add_branches_abv_length _ _ _ _ _ _ _ _ _ _ _ _ _ _ _ E2) as H2.
  destruct found2; unfold tret in Hrun; inversion Hrun; subst.
  - cbn [explanation_abv success].
    destruct (count_branches_12 (branches_abv unweakened) abv1 abv2) as [E _].
    rewrite E. split; [simpl in H1, H2; lia | discriminate].
  - split; [cbn; lia | reflexivity].
Qed.

Lemma destructive_search_size (debate_data : debate) (target_id : string)
    (w0_target : Q) (reached : Q -> bool) (unweakened weakening opposing : category_data)
    (l l' : log) (ex : explanation) :
  destructive_search debate_data target_id w0_target reached unweakened weakening
                     opposing l = (Ok ex, l') ->
  (count_branches_in_explanation (explanation_abv ex) [2]%nat
   <= length (ranking_abv opposing))%nat /\
  (success ex = false -> ex = no_explanation).
Proof.
  unfold destructive_search, tbind. intros Hrun.
  destruct (retest debate_data target_id w0_target _ l)
    as [[w1 | e] l1]; [| discriminate].
  destruct (reached w1).
  { unfold tret in Hrun. inversion Hrun; subst. cbn. split; [lia | discriminate]. }
  destruct (add_branches debate_data target_id w0_target _ reached
              (ranking_abv opposing) (ranking opposing) 0 [] [] l1)
    as [[[[found args1] abv1] | e] l2] eqn:E1; [| discriminate].
  pose proof (add_branches_abv_length _ _ _ _ _ _ _ _ _ _ _ _ _ _ _ E1) as H1.
  destruct found; unfold tret in Hrun; inversion Hrun; subst.
  - cbn [explanation_abv success].
    destruct (count_branches_12 (branches_abv unweakened) (branches_abv weakening) abv1)
      as [_ [_ [_ [E _]]]].
    rewrite E. split; [simpl in H1; lia | discriminate].
  - split; [cbn; lia | reflexivity].
Qed.

Lemma category_complete (rd : rankings_data) (heuristic name : string) :
  rankings_complete rd heuristic ->
  length (ranking_abv (category (get_or (rankings rd) heuristic []) name))
  = total_branches (get_or (rankings rd) heuristic []) name.
Proof.
  intros Hc. unfold total_branches, category, get_or at 1 3.
  destruct (dget (get_or (rankings rd) heuristic []) name) as [cd |] eqn:E;
    [apply (Hc name cd E) | reflexivity].
Qed.

(** X13. Size analysis of what the searches return. When every category
    of the heuristic has as many ranked names as branches (as in the
    tables the pipeline writes), the number of branches
    [generate_size_analysis] counts in an explanation returned by the
    constructive or by the destructive search never exceeds the total it
    divides by; and an explanation that failed is counted as one argument
    (the target) and no branch. *)
Theorem explanation_size_bounded (rd : rankings_data) (debate_data : debate)
    (heuristic : string) (ex : explanation) :
  rankings_complete rd heuristic ->
  (generate_constructive_explanation rd debate_data heuristic = Ok ex ->
   let row := process_explanation_row (direction rd) heuristic "constructive"
                (explanation_abv ex) (explanation_arg ex) rd in
   (count_branches_returned row <= size_total_branches row)%nat /\
   (success ex = false ->
    count_args_returned row = 1%nat /\ count_branches_returned row = 0%nat)) /\
  (generate_destructive_explanation rd debate_data heuristic = Ok ex ->
   let row := process_explanation_row (direction rd) heuristic "destructive"
                (explanation_abv ex) (explanation_arg ex) rd in
   (count_branches_returned row <= size_total_branches row)%nat /\
   (success ex = false ->
    count_args_returned row = 1%nat /\ count_branches_returned row = 0%nat)).
Proof.
  intros Hc.
  assert (Hfail : forall etype,
            (count_arguments_in_explanation (explanation_arg no_explanation) + 1
             = 1)%nat /\
            count_branches_in_explanation (explanation_abv no_explanation)
              (get_relevant_branch_categories etype (direction rd)) = 0%nat).
  { intros etype. split; [reflexivity |]. unfold get_relevant_branch_categories.
    destruct (String.eqb etype "constructive");
      destruct (String.eqb (direction rd) "strengthening"); reflexivity. }
  split.
  - unfold generate_constructive_explanation,
      generate_constructive_explanation_traced.
    destruct (dget (nodes debate_data) (t_id rd)) as [target_node |].
    2:{ unfold tret. cbn [fst]. intros H. inversion H; subst ex. cbv zeta.
        cbn [count_branches_returned size_total_branches count_args_returned
             process_explanation_row].
        destruct (Hfail "constructive") as [F1 F2]. rewrite F2.
        split; [lia | intros _; split; [exact F1 | reflexivity]]. }
    unfold tbind.
    destruct (target_initial_weight target_node) as [w0 | e];
      [| cbn [fst]; discriminate].
    unfold process_explanation_row, get_relevant_branch_categories,
      get_total_branches_for_explanation_type.
    cbn [count_branches_returned size_total_branches count_args_returned].
    change (String.eqb "constructive" "constructive") with true. cbv iota.
    rewrite <- !(category_complete rd heuristic _ Hc).
    destruct (String.eqb (direction rd) "strengthening");
      match goal with
      | |- fst (constructive_search ?d ?t ?w ?r ?u ?f ?k ?l) = _ -> _ =>
          destruct (constructive_search d t w r u f k l) as [res l'] eqn:E
      end;
      cbn [fst]; intros H; subst res;
      destruct (constructive_search_size _ _ _ _ _ _ _ _ _ _ E) as [H1 H2];
      (split; [exact H1 |]); intros Hs; rewrite (H2 Hs); split; reflexivity.
  - unfold generate_destructive_explanation,
      generate_destructive_explanation_traced.
    destruct (dget (nodes debate_data) (t_id rd)) as [target_node |].
    2:{ unfold tret. cbn [fst]. intros H. inversion H; subst ex. cbv zeta.
        cbn [count_branches_returned size_total_branches count_args_returned
             process_explanation_row].
        destruct (Hfail "destructive") as [F1 F2]. rewrite F2.
        split; [lia | intros _; split; [exact F1 | reflexivity]]. }
    unfold tbind.
    destruct (target_initial_weight target_node) as [w0 | e];
      [| cbn [fst]; discriminate].
    unfold process_explanation_row, get_relevant_branch_categories,
      get_total_branches_for_explanation_type.
    cbn [count_branches_returned size_total_branches count_args_returned].
    change (String.eqb "destructive" "constructive") with false. cbv iota.
    rewrite <- !(category_complete rd heuristic _ Hc).
    destruct (String.eqb (direction rd) "strengthening");
      match goal with
      | |- fst (destructive_search ?d ?t ?w ?r ?u ?f ?k ?l) = _ -> _ =>
          destruct (destructive_search d t w r u f k l) as [res l'] eqn:E
      end;
      cbn [fst]; intros H; subst res;
      destruct (destructive_search_size _ _ _ _ _ _ _ _ _ _ E) as [H1 H2];
      (split; [exact H1 |]); intros Hs; rewrite (H2 Hs); split; reflexivity.
Qed.

Lemma chain_rankings_complete : rankings_complete chain_rankings "weak to strong".
Proof.
  intros c cd. cbn.
  destruct (String.eqb c "pro-branches");
    [intros H; inversion H; reflexivity |].
  destruct (String.eqb c "unweakened pro-branches");
    [intros H; inversion H; reflexivity | discriminate].
Defined.

Lemma explanation_size_bounded_witness :
  rankings_complete chain_rankings "weak to strong" /\
  exists ex,
    generate_constructive_explanation chain_rankings chain_debate_final
      "weak to strong" = Ok ex /\
    (count_branches_in_explanation (explanation_abv ex)
       (get_relevant_branch_categories "constructive" (direction chain_rankings))
     <= get_total_branches_for_explanation_type chain_rankings "weak to strong"
          "constructive" (direction chain_rankings))%nat.
Proof.
  split; [exact chain_rankings_complete |].
  destruct (generate_constructive_explanation chain_rankings chain_debate_final
              "weak to strong") as [ex | e] eqn:E;
    [| vm_compute in E; discriminate E].
  exists ex. split; [reflexivity |].
  apply (proj1 (explanation_size_bounded chain_rankings chain_debate_final
                  "weak to strong" ex chain_rankings_complete) E).
Defined.

(** ** Direction of a weight change *)

(** X14. The QEM update never moves a weight against the sign of the
    energy. With an initial weight in [0,1] and an energy of magnitude at
    most 1e150 (the range in which the square taken by [h] is a finite
    float), a positive energy gives a weight between the initial weight
    and 1, a negative energy a weight between 0 and the initial weight,
    and a zero energy leaves the weight as it is. The inequalities are not
    strict: a small energy can leave the weight where it was. *)
Theorem weight_change_follows_energy (w0 e : Q) :
  0 <= w0 <= 1 ->
  Qabs e <= inject_Z (10 ^ 150) ->
  (0 < e -> w0 <= qem_update w0 e <= 1) /\
  (e == 0 -> qem_update w0 e == w0) /\
  (e < 0 -> 0 <= qem_update w0 e <= w0).
Proof.
  intros Hw0 _. pose proof (qem_update_range w0 e Hw0) as [Hr0 Hr1].
  destruct Hw0 as [Hlo Hhi]. unfold qem_update in *.
  split; [| split].
  - intros He. assert (Hb : Qltb 0 e = true) by (apply Qltb_true; exact He).
    rewrite Hb in *. destruct (h_range e) as [Hh _].
    split; [| exact Hr1].
    assert (0 <= (1 - w0) * h e) by (apply Qmult_le_0_compat; lra). lra.
  - intros He. assert (Hb : Qltb 0 e = false) by (apply Qltb_false; lra).
    rewrite Hb. assert (Hh : h (- e) == 0) by (apply h_nonpos; lra).
    rewrite Hh. ring.
  - intros He. assert (Hb : Qltb 0 e = false) by (apply Qltb_false; lra).
    rewrite Hb in *. destruct (h_range (- e)) as [Hh _].
    split; [exact Hr0 |].
    assert (0 <= w0 * h (- e)) by (apply Qmult_le_0_compat; lra). lra.
Qed.

Lemma weight_change_follows_energy_witness :
  0 <= (1#2) <= 1 /\ Qabs (1#2) <= inject_Z (10 ^ 150) /\
  (1#2) <= qem_update (1#2) (1#2) <= 1 /\
  0 <= qem_update (1#2) (-(1#2)) <= (1#2).
Proof.
  assert (Hr : 0 <= (1#2) <= 1) by (split; unfold Qle; simpl; lia).
  assert (Hb : Qabs (1#2) <= inject_Z (10 ^ 150))
    by (unfold Qle; vm_compute; discriminate).
  assert (Hn : Qabs (-(1#2)) <= inject_Z (10 ^ 150))
    by (unfold Qle; vm_compute; discriminate).
  split; [exact Hr |]. split; [exact Hb |]. split.
  - destruct (weight_change_follows_energy (1#2) (1#2) Hr Hb) as [Hpos _].
    apply Hpos. unfold Qlt; simpl; lia.
  - destruct (weight_change_follows_energy (1#2) (-(1#2)) Hr Hn) as [_ [_ Hneg]].
    apply Hneg. unfold Qlt; simpl; lia.
Defined.

(** ** What the full-graph propagation changes *)

Lemma enrich_loop_frame (topo : list string) (sup att : dict (list string))
    (w_init : dict Q) :
  forall acc0 ns0 acc ns',
    enrich_loop topo sup att w_init acc0 ns0 = Ok (acc, ns') ->
    keys ns' = keys ns0 /\
    (forall k, ~ In k topo -> dget acc k = dget acc0 k) /\
    (forall k, In k topo -> dget acc k <> None) /\
    (forall k, match dget ns0 k with
               | None => dget ns' k = None
               | Some nd =>
                   exists nd', dget ns' k = Some nd' /\
                               initial_weight nd' = initial_weight nd /\
                               final_weight nd'
                               = if mem k topo then dget acc k else final_weight nd
               end).
Proof.
  induction topo as [| n topo IH]; intros acc0 ns0 acc ns' Hrun.
  - inversion Hrun; subst. split; [reflexivity |]. split; [reflexivity |].
    split; [intros k [] |].
    intros k. destruct (dget ns' k) as [nd |]; [| reflexivity].
    exists nd. auto.
  - cbn [enrich_loop] in Hrun.
    destruct (qem_accept n sup att acc0 w_init) as [w |]; [| discriminate].
    cbn [bind] in Hrun. unfold dindex in Hrun.
    destruct (dget ns0 n) as [nd0 |] eqn:En; [| discriminate].
    cbn [bind] in Hrun.
    destruct (IH _ _ _ _ Hrun) as [Hkeys [Hout [Hin Hget]]].
    assert (Hpresent : dget ns0 n <> None) by (rewrite En; discriminate).
    split; [rewrite Hkeys; apply keys_dset_present; exact Hpresent |].
    split.
    { intros k Hk. rewrite Hout by (intros H; apply Hk; right; exact H).
      rewrite dget_dset. destruct (String.eqb_spec k n) as [E | NE]; [| reflexivity].
      exfalso. apply Hk. left. congruence. }
    split.
    { intros k [E | Hk]; [| apply Hin; exact Hk].
      subst k. destruct (in_dec string_dec n topo) as [Hi | Hni];
        [apply Hin; exact Hi |].
      rewrite (Hout n Hni), dget_dset, String.eqb_refl. discriminate. }
    intros k. specialize (Hget k). rewrite dget_dset in Hget. rewrite mem_cons.
    destruct (String.eqb_spec k n) as [E | NE].
    + subst k. rewrite En. destruct Hget as [nd' [H1 [H2 H3]]].
      exists nd'. split; [exact H1 |]. split; [exact H2 |].
      cbn [orb]. rewrite H3. cbn [set_final final_weight].
      destruct (mem n topo) eqn:Hm; [reflexivity |].
      apply mem_false_iff in Hm. rewrite (Hout n Hm), dget_dset, String.eqb_refl.
      reflexivity.
    + cbn [orb]. exact Hget.
Qed.

(** X15. [enrich_with_final] changes nothing but final weights: the
    enriched debate has the same edges and the same node keys in the same
    order, every node keeps its initial weight, a node that received a
    weight has it as its final weight, and a node that received none (a
    node that no edge touches) keeps the final weight it had, if any. *)
Theorem enrich_with_final_frame (data : debate) (acc : dict Q) (d' : debate) :
  enrich_with_final_acc data = Ok (acc, d') ->
  edges d' = edges data /\
  keys (nodes d') = keys (nodes data) /\
  forall k,
    match dget (nodes data) k with
    | None => dget (nodes d') k = None
    | Some nd =>
        exists nd', dget (nodes d') k = Some nd' /\
                    initial_weight nd' = initial_weight nd /\
                    final_weight nd'
                    = match dget acc k with
                      | Some w => Some w
                      | None => final_weight nd
                      end
    end.
Proof.
  intros Hrun.
  destruct (enrich_inv data acc d' Hrun)
    as [w_init [topo [ns' [Hinit [Htopo [Hloop Hd']]]]]].
  subst d'. cbn [edges nodes].
  destruct (enrich_loop_frame _ _ _ _ _ _ _ _ Hloop) as [Hkeys [Hout [Hin Hget]]].
  split; [reflexivity |]. split; [exact Hkeys |].
  intros k. specialize (Hget k).
  destruct (dget (nodes data) k) as [nd |]; [| exact Hget].
  destruct Hget as [nd' [H1 [H2 H3]]]. exists nd'.
  split; [exact H1 |]. split; [exact H2 |]. rewrite H3.
  destruct (mem k topo) eqn:Hm.
  - apply mem_true_iff in Hm. specialize (Hin k Hm).
    destruct (dget acc k); [reflexivity | congruence].
  - apply mem_false_iff in Hm. rewrite (Hout k Hm). reflexivity.
Qed.

Lemma enrich_with_final_frame_witness :
  (exists acc d', enrich_with_final_acc isolated_debate = Ok (acc, d')) /\
  keys (nodes (match enrich_with_final_acc isolated_debate with
               | Ok r => snd r | Raise _ => isolated_debate end))
  = keys (nodes isolated_debate).
Proof.
  split; [eexists; eexists; vm_compute; reflexivity |].
  apply (enrich_with_final_frame isolated_debate
           (match enrich_with_final_acc isolated_debate with
            | Ok r => fst r | Raise _ => [] end)).
  vm_compute. reflexivity.
Defined.

(** ** Initial weights *)

Lemma aggregate_votes_range (v : dict nat) : 0 <= aggregate_votes v <= 1.
Proof.
  rewrite aggregate_votes_unfold.
  pose proof (Qnat_nonneg (bucket v 0)) as H0.
  pose proof (Qnat_nonneg (bucket v 1)) as H1.
  pose proof (Qnat_nonneg (bucket v 2)) as H2.
  pose proof (Qnat_nonneg (bucket v 3)) as H3.
  pose proof (Qnat_nonneg (bucket v 4)) as H4.
  pose proof (Qnat_total v) as Ht.
  destruct (Nat.eqb_spec (votes_total v) 0) as [E | Hn].
  - split; unfold Qle; simpl; lia.
  - assert (Hq : 0 < Qnat (votes_total v)) by (apply Qnat_pos; lia).
    split.
    + apply Qle_shift_div_l; [exact Hq | lra].
    + apply Qle_shift_div_r; [exact Hq | lra].
Qed.

(** X16. After [enrich_and_save] every node has an initial weight, and it
    lies in [0,1]. Propagating such a debate therefore never fails on a
    missing initial weight, and every final weight that
    [enrich_with_final] computes for it lies in [0,1]. *)
Theorem initial_weights_always_defined (raw_nodes : dict raw_node)
    (es : dict edge) :
  keys (enrich_and_save raw_nodes) = keys raw_nodes /\
  (forall k nd, In (k, nd) (enrich_and_save raw_nodes) ->
                exists w, initial_weight nd = Some w /\ 0 <= w <= 1) /\
  (exists w_init, initial_weights (enrich_and_save raw_nodes) = Ok w_init) /\
  (forall acc d',
      enrich_with_final_acc (mk_debate (enrich_and_save raw_nodes) es)
      = Ok (acc, d') ->
      forall k w, dget acc k = Some w -> 0 <= w <= 1).
Proof.
  assert (Hw : forall k nd, In (k, nd) (enrich_and_save raw_nodes) ->
                            exists w, initial_weight nd = Some w /\ 0 <= w <= 1).
  { intros k nd Hin. unfold enrich_and_save in Hin. apply in_map_iff in Hin.
    destruct Hin as [[k0 rn] [E _]]. inversion E; subst. cbn [initial_weight].
    eexists. split; [reflexivity | apply aggregate_votes_range]. }
  split.
  { unfold enrich_and_save, keys. rewrite map_map. reflexivity. }
  split; [exact Hw |].
  assert (Hinit : exists w_init, initial_weights (enrich_and_save raw_nodes) = Ok w_init).
  { destruct (initial_weights_cases (enrich_and_save raw_nodes))
      as [[ws [Hok _]] | [_ [k [nd [Hin Hnone]]]]]; [eauto |].
    destruct (Hw k nd Hin) as [w [E _]]. congruence. }
  split; [exact Hinit |].
  intros acc d' Hrun k w Hk.
  destruct (enrich_inv _ acc d' Hrun) as [w_init [topo [ns' [Hi [_ [Hloop _]]]]]].
  cbn [nodes edges] in *.
  apply enrich_loop_qem_loop in Hloop.
  refine (qem_loop_bounded topo _ _ w_init _ [] acc _ Hloop k w Hk).
  - apply (initial_weights_bounded (enrich_and_save raw_nodes)); [| exact Hi].
    intros k0 nd w1 Hin Hnd. destruct (Hw k0 nd Hin) as [w2 [E R]].
    rewrite E in Hnd. inversion Hnd; subst. exact R.
  - intros k0 w1 H. discriminate.
Qed.

(** ** The target of a sub-debate file *)

Lemma dmem_cons_eq {V} (k0 : string) (v : V) (d : dict V) (k : string) :
  dmem ((k0, v) :: d) k = String.eqb k k0 || dmem d k.
Proof.
  unfold dmem. simpl. destruct (String.eqb k k0); reflexivity.
Qed.

Lemma zero_counters_get (ns : dict node) :
  forall acc k,
    dget (fold_left (fun incoming (item : string * node) =>
                       dset incoming (fst item) 0%nat) ns acc) k
    = if dmem ns k then Some 0%nat else dget acc k.
Proof.
  induction ns as [| [k0 nd] ns IH]; intros acc k; [reflexivity |].
  cbn [fold_left fst]. rewrite IH, dmem_cons_eq, dget_dset.
  destruct (dmem ns k); [rewrite orb_true_r; reflexivity |].
  rewrite orb_false_r. reflexivity.
Qed.

Lemma zero_counters_NoDup (ns : dict node) :
  forall acc, NoDup (keys acc) ->
    NoDup (keys (fold_left (fun incoming (item : string * node) =>
                              dset incoming (fst item) 0%nat) ns acc)).
Proof.
  induction ns as [| [k0 nd] ns IH]; intros acc Hnd; [exact Hnd |].
  cbn [fold_left]. apply IH. apply NoDup_keys_dset. exact Hnd.
Qed.

Lemma incoming_edges_cons (item : string * edge) (es : dict edge) (k : string) :
  incoming_edges (item :: es) k
  = ((if String.eqb (successor_id (snd item)) k then 1 else 0)
     + incoming_edges es k)%nat.
Proof.
  unfold incoming_edges. cbn [filter].
  destruct (String.eqb (successor_id (snd item)) k); reflexivity.
Qed.

Lemma count_fold_get (es : dict edge) :
  forall inc,
    keys (fold_left (fun incoming (item : string * edge) =>
                       match dget incoming (successor_id (snd item)) with
                       | Some c => dset incoming (successor_id (snd item)) (S c)
                       | None => incoming
                       end) es inc) = keys inc /\
    forall k,
      dget (fold_left (fun incoming (item : string * edge) =>
                         match dget incoming (successor_id (snd item)) with
                         | Some c => dset incoming (successor_id (snd item)) (S c)
                         | None => incoming
                         end) es inc) k
      = match dget inc k with
        | Some c => Some (c + incoming_edges es k)%nat
        | None => None
        end.
Proof.
  induction es as [| item es IH]; intros inc.
  - split; [reflexivity |]. intros k. unfold incoming_edges. simpl.
    destruct (dget inc k); [rewrite Nat.add_0_r |]; reflexivity.
  - cbn [fold_left].
    destruct (dget inc (successor_id (snd item))) as [c |] eqn:E.
    + destruct (IH (dset inc (successor_id (snd item)) (S c))) as [Hk Hg].
      split.
      * rewrite Hk. apply keys_dset_present. rewrite E. discriminate.
      * intros k. rewrite Hg, dget_dset, incoming_edges_cons.
        rewrite (String.eqb_sym k).
        destruct (String.eqb_spec (successor_id (snd item)) k) as [Ek | NE].
        -- subst k. rewrite E. f_equal. lia.
        -- destruct (dget inc k); [f_equal |]; reflexivity.
    + destruct (IH inc) as [Hk Hg]. split; [exact Hk |].
      intros k. rewrite Hg, incoming_edges_cons.
      destruct (String.eqb_spec (successor_id (snd item)) k) as [Ek | NE].
      * subst k. rewrite E. reflexivity.
      * destruct (dget inc k); reflexivity.
Qed.

Lemma count_incoming_get (ns : dict node) (es : dict edge) (k : string) :
  dget (count_incoming ns es) k
  = if dmem ns k then Some (incoming_edges es k) else None.
Proof.
  unfold count_incoming.
  destruct (count_fold_get es
              (fold_left (fun incoming (item : string * node) =>
                            dset incoming (fst item) 0%nat) ns [])) as [_ Hg].
  rewrite Hg, zero_counters_get. destruct (dmem ns k); reflexivity.
Qed.

Lemma count_incoming_NoDup (ns : dict node) (es : dict edge) :
  NoDup (keys (count_incoming ns es)).
Proof.
  unfold count_incoming.
  destruct (count_fold_get es
              (fold_left (fun incoming (item : string * node) =>
                            dset incoming (fst item) 0%nat) ns [])) as [Hk _].
  rewrite Hk. apply zero_counters_NoDup. constructor.
Qed.

Lemma max_by_count_spec (items : list (string * nat)) :
  forall best,
    In (max_by_count best items) (best :: items) /\
    forall kv, In kv (best :: items) ->
               (snd kv <= snd (max_by_count best items))%nat.
Proof.
  induction items as [| kv items IH]; intros best.
  - split; [left; reflexivity |]. intros x [E | []]. subst. simpl. lia.
  - cbn [max_by_count]. destruct (snd best <? snd kv)%nat eqn:E.
    + apply Nat.ltb_lt in E. destruct (IH kv) as [Hin Hmax].
      split; [right; exact Hin |].
      intros x [Ex | Hx]; [| apply Hmax; exact Hx].
      subst x. specialize (Hmax kv (or_introl eq_refl)). lia.
    + apply Nat.ltb_ge in E. destruct (IH best) as [Hin Hmax].
      split; [destruct Hin as [H | H]; [left; exact H | right; right; exact H] |].
      intros x [Ex | [Ex | Hx]].
      * subst x. apply Hmax. left. reflexivity.
      * subst x. specialize (Hmax best (or_introl eq_refl)). lia.
      * apply Hmax. right. exact Hx.
Qed.

Lemma find_target_facts (ns : dict node) (es : dict edge) :
  (find_target_id_in_data ns es = None <-> ns = []) /\
  forall t, find_target_id_in_data ns es = Some t ->
    dmem ns t = true /\
    ((2 <= length ns)%nat ->
     forall k, dmem ns k = true -> (incoming_edges es k <= incoming_edges es t)%nat).
Proof.
  destruct ns as [| [k1 n1] [| [k2 n2] ns]].
  - split; [split; reflexivity |]. intros t H. discriminate.
  - split; [split; discriminate |]. intros t H. inversion H; subst.
    split; [rewrite dmem_cons_eq, String.eqb_refl; reflexivity |].
    simpl. lia.
  - set (all := (k1, n1) :: (k2, n2) :: ns).
    assert (Hlist : exists kv rest, count_incoming all es = kv :: rest).
    { destruct (count_incoming all es) as [| kv rest] eqn:E; [| eauto].
      pose proof (count_incoming_get all es k1) as H. rewrite E in H.
      unfold all in H. rewrite dmem_cons_eq, String.eqb_refl in H. discriminate. }
    destruct Hlist as [kv [rest Hlist]].
    unfold find_target_id_in_data. fold all. rewrite Hlist.
    split; [split; discriminate |].
    intros t H. inversion H; subst t. clear H.
    destruct (max_by_count_spec rest kv) as [Hin Hmax].
    rewrite <- Hlist in Hin.
    destruct (max_by_count kv rest) as [t c] eqn:Em. cbn [fst snd] in *.
    pose proof (In_dget _ _ _ (count_incoming_NoDup all es) Hin) as Ht.
    rewrite count_incoming_get in Ht.
    destruct (dmem all t) eqn:Hmem; [| discriminate]. inversion Ht; subst c.
    split; [reflexivity |]. intros _ k Hk.
    pose proof (count_incoming_get all es k) as Hget. rewrite Hk in Hget.
    apply dget_In in Hget. rewrite Hlist in Hget.
    apply (Hmax (k, incoming_edges es k) Hget).
Qed.

(** X17. The fallback [find_target_id_in_data] finds no target exactly
    when the debate has no node; a target it returns is a node of the
    debate, and when the debate has several nodes, one with the largest
    number of incoming edges. *)
Theorem inferred_target_is_most_pointed_at (ns : dict node) (es : dict edge) :
  (find_target_id_in_data ns es = None <-> ns = []) /\
  forall t, find_target_id_in_data ns es = Some t ->
    dmem ns t = true /\
    ((2 <= length ns)%nat ->
     forall k, dmem ns k = true -> (incoming_edges es k <= incoming_edges es t)%nat).
Proof. apply find_target_facts. Qed.



(** *** File names *)

Lemma rsplit1_no_sep (sep : ascii) (t : string) :
  (forall c, In c (list_ascii_of_string t) -> c <> sep) ->
  rsplit1 sep t = None.
Proof.
  induction t as [| c t IH]; intros H; [reflexivity |].
  cbn [rsplit1]. rewrite IH by (intros x Hx; apply H; right; exact Hx).
  destruct (Ascii.eqb_spec c sep) as [E | NE]; [| reflexivity].
  exfalso. apply (H c); [left; reflexivity | exact E].
Qed.

Lemma rsplit1_app (sep : ascii) (p t : string) :
  (forall c, In c (list_ascii_of_string t) -> c <> sep) ->
  rsplit1 sep (p ++ String sep t) = Some (p, t).
Proof.
  intros H. induction p as [| c p IH].
  - cbn [String.append rsplit1]. rewrite (rsplit1_no_sep sep t H).
    rewrite Ascii.eqb_refl. reflexivity.
  - cbn [String.append rsplit1]. rewrite IH. reflexivity.
Qed.

Lemma rsplit1_Some (sep : ascii) (s before after : string) :
  rsplit1 sep s = Some (before, after) ->
  s = (before ++ String sep after)%string /\
  (forall c, In c (list_ascii_of_string after) -> c <> sep).
Proof.
  revert before after. induction s as [| c s IH]; intros before after H;
    [discriminate |].
  cbn [rsplit1] in H. destruct (rsplit1 sep s) as [[b a] |] eqn:E.
  - inversion H; subst. destruct (IH b after eq_refl) as [Hs Hc].
    split; [cbn [String.append]; rewrite Hs; reflexivity | exact Hc].
  - destruct (Ascii.eqb_spec c sep) as [Ec | NE]; [| discriminate].
    inversion H; subst. split; [reflexivity |].
    clear IH H. induction after as [| x after IHa]; [intros c [] |].
    cbn [rsplit1] in E. destruct (rsplit1 sep after) as [[b a] |] eqn:Ea;
      [discriminate |].
    destruct (Ascii.eqb_spec x sep) as [Ex | NEx]; [discriminate |].
    intros c [Hc | Hc]; [subst; exact NEx | apply IHa; [reflexivity | exact Hc]].
Qed.

Lemma substring_app_prefix (t s : string) :
  substring 0 (String.length t) (t ++ s) = t.
Proof.
  induction t as [| c t IH]; [destruct s; reflexivity |].
  cbn [String.length String.append substring]. rewrite IH. reflexivity.
Qed.

Lemma substring_app_suffix (t s : string) :
  substring (String.length t) (String.length s) (t ++ s) = s.
Proof.
  induction t as [| c t IH]; cbn [String.length String.append substring].
  - induction s as [| c s IHs]; [reflexivity |].
    cbn [String.length substring]. rewrite IHs. reflexivity.
  - exact IH.
Qed.

Lemma string_length_app (t s : string) :
  String.length (t ++ s) = (String.length t + String.length s)%nat.
Proof.
  induction t as [| c t IH]; [reflexivity |].
  cbn [String.length String.append]. rewrite IH. reflexivity.
Qed.

Lemma endswith_app (t s : string) : endswith (t ++ s) s = true.
Proof.
  unfold endswith. rewrite string_length_app.
  replace (String.length t + String.length s - String.length s)%nat
    with (String.length t) by lia.
  rewrite substring_app_suffix, String.eqb_refl.
  apply andb_true_iff. split; [apply Nat.leb_le; lia | reflexivity].
Qed.

Lemma substring_split (s : string) :
  forall n, (n <= String.length s)%nat ->
    s = (substring 0 n s ++ substring n (String.length s - n) s)%string.
Proof.
  induction s as [| c s IH]; intros n Hn.
  - destruct n; [reflexivity | simpl in Hn; lia].
  - destruct n as [| n].
    + cbn [substring String.append String.length Nat.sub].
      f_equal. specialize (IH 0%nat ltac:(lia)).
      rewrite Nat.sub_0_r in IH.
      destruct s; [reflexivity |]. cbn [substring String.append] in IH. exact IH.
    + cbn [substring String.append String.length Nat.sub]. f_equal.
      apply IH. simpl in Hn. lia.
Qed.

Lemma endswith_inv (s suffix : string) :
  endswith s suffix = true ->
  s = (substring 0 (String.length s - String.length suffix) s ++ suffix)%string.
Proof.
  unfold endswith. intros H. apply andb_true_iff in H. destruct H as [Hlen Heq].
  apply Nat.leb_le in Hlen. apply String.eqb_eq in Heq.
  pose proof (substring_split s (String.length s - String.length suffix)
                ltac:(lia)) as Hs.
  replace (String.length s - (String.length s - String.length suffix))%nat
    with (String.length suffix) in Hs by lia.
  rewrite Heq in Hs. exact Hs.
Qed.

(** X19. Round trip of the file names. A file named
    [<prefix>_<target>.json], as [extract_subdebates] names its outputs,
    gives back the target when the target holds no underscore; whenever a
    target is extracted, the file name is that target between a prefix
    ending in an underscore and [.json]; a name with no underscore gives
    none. *)
Theorem target_of_file_name (prefix target fname : string) :
  ((forall c, In c (list_ascii_of_string target) -> c <> "_"%char) ->
   extract_target_id_from_filename (prefix ++ "_" ++ target ++ ".json")
   = Some target) /\
  (extract_target_id_from_filename fname = Some target ->
   exists before, fname = (before ++ "_" ++ target ++ ".json")%string) /\
  ((forall c, In c (list_ascii_of_string fname) -> c <> "_"%char) ->
   extract_target_id_from_filename fname = None).
Proof.
  split; [| split].
  - intros H. unfold extract_target_id_from_filename.
    assert (Hsep : forall c, In c (list_ascii_of_string (target ++ ".json")) ->
                             c <> "_"%char).
    { intros c Hc. clear - H Hc. induction target as [| x t IH].
      - simpl in Hc. intros E. subst c.
        repeat (destruct Hc as [Hc | Hc]; [discriminate Hc |]). destruct Hc.
      - destruct Hc as [E | Hc]; [subst; apply H; left; reflexivity |].
        apply IH; [intros y Hy; apply H; right; exact Hy | exact Hc]. }
    change (prefix ++ "_" ++ target ++ ".json")%string
      with (prefix ++ String "_" (target ++ ".json"))%string.
    rewrite (rsplit1_app "_" prefix (target ++ ".json") Hsep).
    rewrite endswith_app. cbn [negb].
    rewrite string_length_app. cbn [String.length].
    replace (String.length target + 5 - 5)%nat with (String.length target) by lia.
    rewrite substring_app_prefix. reflexivity.
  - unfold extract_target_id_from_filename. intros H.
    destruct (rsplit1 "_" fname) as [[before last] |] eqn:E; [| discriminate].
    destruct (endswith last ".json") eqn:Ee; [| discriminate].
    cbn [negb] in H. inversion H as [Ht].
    apply rsplit1_Some in E. destruct E as [Hs _].
    apply endswith_inv in Ee. cbn [String.length] in Ee.
    exists before. rewrite Hs. rewrite Ee at 1. reflexivity.
  - intros H. unfold extract_target_id_from_filename.
    rewrite (rsplit1_no_sep "_" fname H). reflexivity.
Qed.

Lemma Qltb_diff (a b : Q) : Qltb 0 (b - a) = Qltb a b /\ Qltb (b - a) 0 = Qltb b a.
Proof.
  split.
  - destruct (Qltb a b) eqn:E.
    + apply Qltb_true in E. apply Qltb_true. lra.
    + apply Qltb_false in E. apply Qltb_false. lra.
  - destruct (Qltb b a) eqn:E.
    + apply Qltb_true in E. apply Qltb_true. lra.
    + apply Qltb_false in E. apply Qltb_false. lra.
Qed.

(** X20. [analyze_weight_changes] and the rest of the pipeline on a file
    whose name gives a non-empty target that is a node with both weights:
    the file is counted as strengthening, weakening or no change exactly
    when [determine_direction] says "strengthening", "weakening" or
    "unchanged", and a file that [process_folder] copied is never counted
    as no change. When the target of the name is not a node, the file is
    counted as an error, whatever [process_folder] did with it. *)
Theorem analysis_agrees_with_direction (fname : string) (data : debate)
    (t : string) :
  extract_target_id_from_filename fname = Some t ->
  t <> "" ->
  (forall nd iw fw,
      dget (nodes data) t = Some nd ->
      initial_weight nd = Some iw -> final_weight nd = Some fw ->
      (fst (analyze_weight_change fname data) = "strengthening" <->
       determine_direction t (nodes data) = "strengthening") /\
      (fst (analyze_weight_change fname data) = "weakening" <->
       determine_direction t (nodes data) = "weakening") /\
      (fst (analyze_weight_change fname data) = "no_change" <->
       determine_direction t (nodes data) = "unchanged") /\
      (report_action (process_file fname data) = "copied" ->
       fst (analyze_weight_change fname data) <> "no_change")) /\
  (dget (nodes data) t = None ->
   fst (analyze_weight_change fname data) = "errors").
Proof.
  intros Hext Hne.
  assert (Hneb : String.eqb t "" = false) by (apply String.eqb_neq; exact Hne).
  unfold analyze_weight_change. rewrite Hext, Hneb.
  split.
  - intros nd iw fw Hnd Hiw Hfw. rewrite Hnd, Hiw, Hfw.
    unfold determine_direction, get_or. rewrite Hnd, Hiw, Hfw.
    destruct (Qltb_diff iw fw) as [E1 E2]. rewrite E1, E2.
    assert (Hcopy : report_action (process_file fname data) = "copied" ->
                    Qltb iw fw = true \/ Qltb fw iw = true).
    { unfold process_file, choose_target. rewrite Hext. unfold dmem.
      rewrite Hnd, Hnd, Hiw, Hfw.
      destruct (Qeq_bool iw fw) eqn:Eq; cbn [negb report_action];
        [discriminate |]. intros _.
      destruct (Qltb iw fw) eqn:A; [left; reflexivity |].
      destruct (Qltb fw iw) eqn:B; [right; reflexivity |].
      apply Qltb_false in A. apply Qltb_false in B.
      assert (H : iw == fw) by (apply Qle_antisym; assumption).
      apply Qeq_bool_iff in H. congruence. }
    destruct (Qltb iw fw) eqn:A; [| destruct (Qltb fw iw) eqn:B]; cbn [fst];
      (split; [split; intros H; (reflexivity || discriminate H) |]);
      (split; [split; intros H; (reflexivity || discriminate H) |]);
      (split; [split; intros H; (reflexivity || discriminate H) |]);
      try discriminate.
    intros Hc. destruct (Hcopy Hc); discriminate.
  - intros Hnd. rewrite Hnd. reflexivity.
Qed.

Lemma analysis_agrees_with_direction_witness :
  extract_target_id_from_filename "7_T1of1_target.json" = Some "target" /\
  (fst (analyze_weight_change "7_T1of1_target.json" chain_debate_final)
   = "strengthening" <->
   determine_direction "target" (nodes chain_debate_final) = "strengthening").
Proof.
  assert (Hext : extract_target_id_from_filename "7_T1of1_target.json"
                 = Some "target") by (vm_compute; reflexivity).
  split; [exact Hext |].
  assert (Hne : "target" <> "") by discriminate.
  destruct (analysis_agrees_with_direction "7_T1of1_target.json"
              chain_debate_final "target" Hext Hne) as [Hall _].
  destruct (dget (nodes chain_debate_final) "target") as [nd |] eqn:End;
    [| vm_compute in End; discriminate End].
  destruct (initial_weight nd) as [iw |] eqn:Eiw;
    [| vm_compute in End; inversion End; subst nd; discriminate Eiw].
  destruct (final_weight nd) as [fw |] eqn:Efw;
    [| vm_compute in End; inversion End; subst nd; discriminate Efw].
  apply (Hall nd iw fw eq_refl Eiw Efw).
Defined.

(** ** The destructive search *)

Lemma find_first_seq (g : nat -> result bool) (n : nat) :
  forall a k,
    find_first g (seq a n) = Ok (Some k) ->
    (a <= k < a + n)%nat /\ g k = Ok true /\
    forall j, (a <= j < k)%nat -> g j = Ok false.
Proof.
  induction n as [| n IH]; intros a k H; [discriminate |].
  cbn [seq find_first] in H.
  destruct (g a) as [[|] |] eqn:E; cbn [bind] in H; [| | discriminate].
  - inversion H; subst k. split; [lia |]. split; [exact E |]. intros j Hj. lia.
  - destruct (IH (S a) k H) as [Hr [Hk Hj]].
    split; [lia |]. split; [exact Hk |].
    intros j Hjr. destruct (Nat.eq_dec j a) as [Ej | NE]; [subst; exact E |].
    apply Hj. lia.
Qed.

Lemma find_first_prefixes {A} (test : list A -> result bool) (l p : list A) :
  find_first test (prefixes l) = Ok (Some p) ->
  exists k, (1 <= k <= length l)%nat /\ p = firstn k l /\
            test (firstn k l) = Ok true /\
            forall j, (1 <= j < k)%nat -> test (firstn j l) = Ok false.
Proof.
  unfold prefixes. rewrite find_first_map. intros H.
  destruct (find_first (fun a => test (firstn a l)) (seq 1 (length l)))
    as [[k |] |] eqn:E; cbn [bind option_map] in H; try discriminate.
  inversion H; subst p.
  destruct (find_first_seq _ _ _ _ E) as [Hr [Hk Hj]].
  exists k. split; [lia |]. split; [reflexivity |]. split; [exact Hk | exact Hj].
Qed.

Lemma destructive_search_value (debate_data : debate) (target_id : string)
    (w0_target : Q) (reached : Q -> bool)
    (unweakened weakening opposing : category_data) (l : log) :
  let base := concat (branches unweakened) ++ concat (branches weakening)
              ++ [target_id] in
  fst (destructive_search debate_data target_id w0_target reached
         unweakened weakening opposing l)
  = w1 <- fst (retest debate_data target_id w0_target base []) ;;
    if reached w1
    then Ok (mk_explanation true
               [branches_abv unweakened; branches_abv weakening; []]
               [concat (branches unweakened); concat (branches weakening); []])
    else
      stage <- find_first
                 (candidate_test debate_data target_id w0_target
                    (fun added => base ++ added) reached [])
                 (prefixes (ranking opposing)) ;;
      match stage with
      | Some p =>
          Ok (mk_explanation true
                [branches_abv unweakened; branches_abv weakening;
                 firstn (length p) (ranking_abv opposing)]
                [concat (branches unweakened); concat (branches weakening);
                 concat p])
      | None => Ok no_explanation
      end.
Proof.
  intros base. unfold destructive_search.
  rewrite !get_branch_arguments_concat. fold base.
  rewrite tbind_fst, retest_eq. cbn [fst snd].
  destruct (fst (retest debate_data target_id w0_target base [])) as [w1 | e];
    [| reflexivity].
  unfold bind at 1.
  destruct (reached w1); [reflexivity |].
  rewrite tbind_fst, add_branches_first_prefix.
  destruct (find_first
              (candidate_test debate_data target_id w0_target
                 (fun added => base ++ added) reached [])
              (prefixes (ranking opposing))) as [[p |] | e]; [| | reflexivity].
  - unfold bind at 1 2.
    destruct (add_branches debate_data target_id w0_target
                (fun added => base ++ added) reached
                (ranking_abv opposing) (ranking opposing) 0 [] []
                (l ++ [base])) as [r l'] eqn:E.
    unfold snd. reflexivity.
  - unfold bind at 1 2.
    destruct (add_branches debate_data target_id w0_target
                (fun added => base ++ added) reached
                (ranking_abv opposing) (ranking opposing) 0 [] []
                (l ++ [base])) as [r l'] eqn:E.
    unfold snd. reflexivity.
Qed.

Lemma generate_destructive_value (rd : rankings_data) (debate_data : debate)
    (heuristic : string) (target_node : node) (w0_target : Q) :
  dget (nodes debate_data) (t_id rd) = Some target_node ->
  initial_weight target_node = Some w0_target ->
  generate_destructive_explanation rd debate_data heuristic
  = fst (destructive_search debate_data (t_id rd) w0_target
           (direction_reached rd w0_target)
           (fst (fst (destructive_categories rd heuristic)))
           (snd (fst (destructive_categories rd heuristic)))
           (snd (destructive_categories rd heuristic)) []).
Proof.
  intros Hnode Hw.
  unfold generate_destructive_explanation, generate_destructive_explanation_traced.
  rewrite Hnode, tbind_fst. cbn [fst snd]. unfold target_initial_weight.
  rewrite Hw. unfold destructive_categories, direction_reached.
  destruct (String.eqb (direction rd) "strengthening"); reflexivity.
Qed.

(** X21. A destructive explanation is a shortest sufficient prefix. When
    the destructive search succeeds, it returns the unweakened and the
    weakening branches of its base together with the first k opposing
    branches of the ranking, under the first k names, where k is the
    least number of opposing branches whose addition to the base moves
    the target's weight in the direction of the table: the restriction
    with k of them passes the test, every restriction with fewer was
    propagated and did not. *)
Theorem destructive_explanation_minimal (rd : rankings_data)
    (debate_data : debate) (heuristic : string) (ex : explanation)
    (target_node : node) (w0_target : Q) :
  dget (nodes debate_data) (t_id rd) = Some target_node ->
  initial_weight target_node = Some w0_target ->
  generate_destructive_explanation rd debate_data heuristic = Ok ex ->
  success ex = true ->
  exists k,
    (k <= length (ranking (snd (destructive_categories rd heuristic))))%nat /\
    explanation_arg ex
    = [concat (branches (fst (fst (destructive_categories rd heuristic))));
       concat (branches (snd (fst (destructive_categories rd heuristic))));
       concat (firstn k (ranking (snd (destructive_categories rd heuristic))))] /\
    explanation_abv ex
    = [branches_abv (fst (fst (destructive_categories rd heuristic)));
       branches_abv (snd (fst (destructive_categories rd heuristic)));
       firstn k (ranking_abv (snd (destructive_categories rd heuristic)))] /\
    passes rd debate_data w0_target (destructive_candidate rd heuristic k)
    = Ok true /\
    forall j, (j < k)%nat ->
              passes rd debate_data w0_target (destructive_candidate rd heuristic j)
              = Ok false.
Proof.
  intros Hnode Hw Hres Hsucc.
  rewrite (generate_destructive_value rd debate_data heuristic target_node
             w0_target Hnode Hw) in Hres.
  rewrite destructive_search_value in Hres. cbv zeta in Hres.
  unfold destructive_candidate, passes.
  destruct (destructive_categories rd heuristic) as [[u w] o].
  cbn [fst snd] in *.
  set (base := concat (branches u) ++ concat (branches w) ++ [t_id rd]) in *.
  destruct (fst (retest debate_data (t_id rd) w0_target base [])) as [w1 | e]
    eqn:E0; [| discriminate].
  cbn [bind] in Hres.
  destruct (direction_reached rd w0_target w1) eqn:Er.
  - inversion Hres; subst ex. exists 0%nat.
    split; [lia |]. split; [reflexivity |]. split; [reflexivity |].
    cbn [firstn concat]. rewrite app_nil_r, E0. cbn [bind]. rewrite Er.
    split; [reflexivity | intros j Hj; lia].
  - destruct (find_first
                (candidate_test debate_data (t_id rd) w0_target
                   (fun added => base ++ added) (direction_reached rd w0_target) [])
                (prefixes (ranking o))) as [[p |] |] eqn:E1;
      cbn [bind] in Hres; [| | discriminate].
    + inversion Hres; subst ex.
      destruct (find_first_prefixes _ _ _ E1) as [k [Hk [Hp [Htrue Hfalse]]]].
      exists k. subst p.
      assert (Hlen : length (firstn k (ranking o)) = k)
        by (apply firstn_length_le; lia).
      rewrite Hlen.
      split; [lia |]. split; [reflexivity |]. split; [reflexivity |].
      unfold candidate_test in Htrue, Hfalse. cbn [app] in Htrue, Hfalse.
      split; [exact Htrue |].
      intros j Hj. destruct j as [| j].
      * cbn [firstn concat]. rewrite app_nil_r, E0. cbn [bind]. rewrite Er.
        reflexivity.
      * apply Hfalse. lia.
    + inversion Hres; subst ex. discriminate Hsucc.
Qed.

Lemma destructive_explanation_minimal_witness :
  exists ex k,
    generate_destructive_explanation chain_rankings chain_debate_final
      "weak to strong" = Ok ex /\
    success ex = true /\
    explanation_arg ex
    = [concat (branches (fst (fst (destructive_categories chain_rankings
                                      "weak to strong"))));
       concat (branches (snd (fst (destructive_categories chain_rankings
                                      "weak to strong"))));
       concat (firstn k (ranking (snd (destructive_categories chain_rankings
                                         "weak to strong"))))] /\
    passes chain_rankings chain_debate_final (1#2)
      (destructive_candidate chain_rankings "weak to strong" k) = Ok true.
Proof.
  destruct (generate_destructive_explanation chain_rankings chain_debate_final
              "weak to strong") as [ex | e] eqn:E;
    [| vm_compute in E; discriminate E].
  assert (Hs : success ex = true).
  { vm_compute in E. inversion E. reflexivity. }
  destruct (destructive_explanation_minimal chain_rankings chain_debate_final
              "weak to strong" ex
              (mk_node (Some (1#2)) (Some (140902400 # 222822400))) (1#2))
    as [k [_ [Hargs [_ [Hpass _]]]]].
  - vm_compute. reflexivity.
  - reflexivity.
  - exact E.
  - exact Hs.
  - exists ex, k. split; [reflexivity |]. split; [exact Hs |].
    split; [exact Hargs | exact Hpass].
Defined.

(** ** The bins of the aggregated statistics *)

Lemma Qle_bool_false (x y : Q) : Qle_bool x y = false <-> y < x.
Proof.
  split.
  - intros H. apply Qnot_le_lt. intros Hle. apply Qle_bool_iff in Hle. congruence.
  - intros H. destruct (Qle_bool x y) eqn:E; [| reflexivity].
    apply Qle_bool_iff in E. lra.
Qed.

Lemma Qeq_bool_false (x y : Q) : Qeq_bool x y = false <-> ~ x == y.
Proof.
  split.
  - intros H E. apply Qeq_bool_iff in E. congruence.
  - intros H. destruct (Qeq_bool x y) eqn:E; [| reflexivity].
    apply Qeq_bool_iff in E. contradiction.
Qed.

Ltac bool_to_Q :=
  repeat match goal with
         | H : Qle_bool _ _ = true |- _ => apply Qle_bool_iff in H
         | H : Qle_bool _ _ = false |- _ => apply Qle_bool_false in H
         | H : Qltb _ _ = true |- _ => apply Qltb_true in H
         | H : Qltb _ _ = false |- _ => apply Qltb_false in H
         | H : Qeq_bool _ _ = true |- _ => apply Qeq_bool_iff in H
         | H : Qeq_bool _ _ = false |- _ => apply Qeq_bool_false in H
         end.

Lemma in_bin_spec (v : Q) (i : nat) :
  (i < 10)%nat ->
  (in_bin v i = true <->
   (inject_Z (10 * Z.of_nat i) <= v /\ v < inject_Z (10 * Z.of_nat i + 10))
   \/ (v == 100 /\ i = 9%nat)).
Proof.
  intros Hi.
  do 10 (destruct i as [| i];
         [ unfold in_bin; cbn [nth BIN_EDGES length Nat.sub Nat.add Nat.eqb];
           repeat match goal with
                  | |- context [inject_Z ?z] =>
                      let q := eval vm_compute in (inject_Z z) in
                      change (inject_Z z) with q
                  end;
           destruct (Qeq_bool v 100) eqn:E1;
           match goal with
           | |- context [Qle_bool ?a v] => destruct (Qle_bool a v) eqn:E2
           end;
           match goal with
           | |- context [Qltb v ?b] => destruct (Qltb v b) eqn:E3
           end;
           cbn [andb orb]; bool_to_Q;
           (split; [intros H; try discriminate H;
                    first [left; split; lra | right; split; [lra | reflexivity]]
                   | intros [[H1 H2] | [H1 H2]];
                     first [reflexivity | exfalso; lra | discriminate H2 | exfalso; lia]])
         |]).
  lia.
Qed.

Lemma find_seq_Some (f : nat -> bool) (n : nat) :
  forall a j,
    find f (seq a n) = Some j <->
    (a <= j < a + n)%nat /\ f j = true /\
    forall k, (a <= k < j)%nat -> f k = false.
Proof.
  induction n as [| n IH]; intros a j.
  - simpl. split; [discriminate | intros [H _]; lia].
  - cbn [seq find]. destruct (f a) eqn:E.
    + split.
      * intros H. inversion H; subst j. split; [lia |]. split; [exact E |].
        intros k Hk. lia.
      * intros [Hr [Hj Hk]]. destruct (Nat.eq_dec j a) as [Ej | NE];
          [subst; reflexivity |].
        rewrite (Hk a) in E by lia. discriminate.
    + rewrite IH. split.
      * intros [Hr [Hj Hk]]. split; [lia |]. split; [exact Hj |].
        intros k Hkr. destruct (Nat.eq_dec k a) as [Ek | NE]; [subst; exact E |].
        apply Hk. lia.
      * intros [Hr [Hj Hk]].
        assert (j <> a) by (intros Ej; subst; congruence).
        split; [lia |]. split; [exact Hj |]. intros k Hkr. apply Hk. lia.
Qed.

Lemma find_seq_None (f : nat -> bool) (n a : nat) :
  find f (seq a n) = None <-> forall k, (a <= k < a + n)%nat -> f k = false.
Proof.
  split.
  - intros H k Hk. apply (find_none f (seq a n) H). apply in_seq. exact Hk.
  - intros H. destruct (find f (seq a n)) as [j |] eqn:E; [| reflexivity].
    apply find_some in E. destruct E as [Hin Hj]. apply in_seq in Hin.
    rewrite (H j Hin) in Hj. discriminate.
Qed.

Lemma bin_bounds (i : nat) :
  (i < 10)%nat ->
  0 <= inject_Z (10 * Z.of_nat i) /\ inject_Z (10 * Z.of_nat i + 10) <= 100.
Proof.
  intros Hi. unfold inject_Z, Qle. cbn [Qnum Qden]. lia.
Qed.

Lemma bins_disjoint (v : Q) (i j : nat) :
  (i < 10)%nat -> (j < i)%nat -> in_bin v i = true -> in_bin v j = false.
Proof.
  intros Hi Hj Hbi. destruct (in_bin v j) eqn:Hbj; [| reflexivity].
  apply in_bin_spec in Hbi; [| exact Hi]. apply in_bin_spec in Hbj; [| lia].
  assert (Hle : inject_Z (10 * Z.of_nat j + 10) <= inject_Z (10 * Z.of_nat i)).
  { rewrite <- Zle_Qle. lia. }
  destruct (bin_bounds i Hi) as [_ Hhi].
  assert (Hle9 : inject_Z (10 * Z.of_nat j + 10) <= 90).
  { change 90 with (inject_Z 90). rewrite <- Zle_Qle. lia. }
  destruct Hbj as [[_ H2] | [_ E]]; [| lia].
  destruct Hbi as [[H3 _] | [H3 _]]; lra.
Qed.

Lemma bin_of_spec (v : Q) (i : nat) :
  bin_of v = Some i <-> (i < 10)%nat /\ in_bin v i = true.
Proof.
  unfold bin_of. cbn [BIN_EDGES length Nat.sub]. rewrite find_seq_Some.
  split.
  - intros [Hr [Hi _]]. split; [lia | exact Hi].
  - intros [Hr Hi]. split; [lia |]. split; [exact Hi |].
    intros k Hk. apply (bins_disjoint v i k); [exact Hr | lia | exact Hi].
Qed.

Lemma bin_of_None (v : Q) : bin_of v = None <-> v < 0 \/ 100 < v.
Proof.
  unfold bin_of. cbn [BIN_EDGES length Nat.sub]. rewrite find_seq_None.
  split.
  - intros H.
    destruct (Qlt_le_dec v 0) as [H0 | H0]; [left; exact H0 |].
    destruct (Qlt_le_dec 100 v) as [H1 | H1]; [right; exact H1 |].
    exfalso.
    assert (Hex : exists i, (i < 10)%nat /\ in_bin v i = true).
    { destruct (Qlt_le_dec v 10); [exists 0%nat; split; [lia |];
        apply in_bin_spec; [lia |]; left; unfold inject_Z; simpl; lra |].
      destruct (Qlt_le_dec v 20); [exists 1%nat; split; [lia |];
        apply in_bin_spec; [lia |]; left; unfold inject_Z; simpl; lra |].
      destruct (Qlt_le_dec v 30); [exists 2%nat; split; [lia |];
        apply in_bin_spec; [lia |]; left; unfold inject_Z; simpl; lra |].
      destruct (Qlt_le_dec v 40); [exists 3%nat; split; [lia |];
        apply in_bin_spec; [lia |]; left; unfold inject_Z; simpl; lra |].
      destruct (Qlt_le_dec v 50); [exists 4%nat; split; [lia |];
        apply in_bin_spec; [lia |]; left; unfold inject_Z; simpl; lra |].
      destruct (Qlt_le_dec v 60); [exists 5%nat; split; [lia |];
        apply in_bin_spec; [lia |]; left; unfold inject_Z; simpl; lra |].
      destruct (Qlt_le_dec v 70); [exists 6%nat; split; [lia |];
        apply in_bin_spec; [lia |]; left; unfold inject_Z; simpl; lra |].
      destruct (Qlt_le_dec v 80); [exists 7%nat; split; [lia |];
        apply in_bin_spec; [lia |]; left; unfold inject_Z; simpl; lra |].
      destruct (Qlt_le_dec v 90); [exists 8%nat; split; [lia |];
        apply in_bin_spec; [lia |]; left; unfold inject_Z; simpl; lra |].
      exists 9%nat. split; [lia |]. apply in_bin_spec; [lia |].
      destruct (Qlt_le_dec v 100); [left; unfold inject_Z; simpl; lra |].
      right. split; [lra | reflexivity]. }
    destruct Hex as [i [Hi Hb]]. rewrite (H i) in Hb by lia. discriminate.
  - intros Hout k Hk. destruct (in_bin v k) eqn:E; [| reflexivity].
    apply in_bin_spec in E; [| lia]. destruct (bin_bounds k ltac:(lia)) as [B1 B2].
    destruct E as [[E1 E2] | [E1 _]]; destruct Hout; lra.
Qed.

Lemma bins_total_incr (bins : dict nat) (k : string) (c : nat) :
  dget bins k = Some c ->
  bins_total (dset bins k (c + 1)%nat) = S (bins_total bins).
Proof.
  unfold bins_total. induction bins as [| [k0 c0] bins IH]; [discriminate |].
  cbn [dget dset]. destruct (String.eqb k k0).
  - intros H. inversion H; subst. simpl. lia.
  - intros H. simpl. rewrite (IH H). lia.
Qed.

Lemma count_bins_fold (values : list Q) :
  forall bins,
    keys bins = BIN_LABELS ->
    let result :=
      fold_left (fun bins v =>
                   match bin_of v with
                   | Some i =>
                       dset bins (nth i BIN_LABELS "")
                            (get_or bins (nth i BIN_LABELS "") 0 + 1)%nat
                   | None => bins
                   end) values bins in
    keys result = BIN_LABELS /\
    bins_total result
    = (bins_total bins
       + length (filter (fun v => Qle_bool 0 v && Qle_bool v 100) values))%nat /\
    forall i, (i < 10)%nat ->
      get_or result (nth i BIN_LABELS "") 0%nat
      = (get_or bins (nth i BIN_LABELS "") 0
         + length (filter (fun v => in_bin v i) values))%nat.
Proof.
  induction values as [| v values IH]; intros bins Hkeys; cbv zeta.
  - cbn [fold_left filter length]. split; [exact Hkeys |].
    split; [lia |]. intros i Hi. lia.
  - cbn [fold_left filter].
    destruct (bin_of v) as [j |] eqn:Eb.
    + pose proof Eb as Hspec. apply bin_of_spec in Hspec. destruct Hspec as [Hj Hbj].
      assert (Hpresent : dget bins (nth j BIN_LABELS "") <> None).
      { intros Hnone. apply dget_None_keys in Hnone. apply Hnone.
        rewrite Hkeys. apply nth_In. simpl. lia. }
      assert (Hrange : Qle_bool 0 v && Qle_bool v 100 = true).
      { destruct (Qle_bool 0 v && Qle_bool v 100) eqn:E; [reflexivity |].
        exfalso. assert (Hn : bin_of v = None).
        { apply bin_of_None. apply andb_false_iff in E.
          destruct E as [E | E]; apply Qle_bool_false in E; [left | right]; exact E. }
        congruence. }
      rewrite Hrange.
      destruct (IH (dset bins (nth j BIN_LABELS "")
                         (get_or bins (nth j BIN_LABELS "") 0 + 1)%nat))
        as [Hk [Ht Hg]].
      { rewrite keys_dset_present; assumption. }
      cbv zeta in Hk, Ht, Hg.
      split; [exact Hk |]. split.
      * rewrite Ht. unfold get_or.
        destruct (dget bins (nth j BIN_LABELS "")) as [c |] eqn:Ec; [| congruence].
        rewrite (bins_total_incr bins _ c Ec). simpl. lia.
      * intros i Hi. rewrite (Hg i Hi). unfold get_or at 1. rewrite dget_dset.
        destruct (Nat.eq_dec i j) as [E | NE].
        -- subst i. rewrite String.eqb_refl, Hbj. simpl. unfold get_or. lia.
        -- assert (Hlab : String.eqb (nth i BIN_LABELS "") (nth j BIN_LABELS "") = false).
           { apply String.eqb_neq. intros Heq.
             apply (proj1 (NoDup_nth BIN_LABELS "")) in Heq; [contradiction | |
               simpl; lia | simpl; lia].
             repeat constructor; simpl; intuition discriminate. }
           rewrite Hlab.
           assert (Hbi : in_bin v i = false).
           { destruct (in_bin v i) eqn:E; [| reflexivity].
             assert (Hs : bin_of v = Some i) by (apply bin_of_spec; auto).
             congruence. }
           rewrite Hbi. unfold get_or. reflexivity.
    + pose proof Eb as Hout. apply bin_of_None in Hout.
      assert (Hrange : Qle_bool 0 v && Qle_bool v 100 = false).
      { apply andb_false_iff. destruct Hout as [H | H]; [left | right];
          apply Qle_bool_false; exact H. }
      rewrite Hrange. destruct (IH bins Hkeys) as [Hk [Ht Hg]].
      cbv zeta in Hk, Ht, Hg.
      split; [exact Hk |]. split; [exact Ht |].
      intros i Hi. rewrite (Hg i Hi).
      assert (Hbi : in_bin v i = false).
      { destruct (in_bin v i) eqn:E; [| reflexivity].
        assert (Hs : bin_of v = Some i) by (apply bin_of_spec; auto). congruence. }
      rewrite Hbi. reflexivity.
Qed.

(** X22. The ten bins of [aggregate_explanation_stats]. A value falls in
    the bin of index i exactly when 10 i <= v < 10 i + 10, or v is 100 and
    i is the last bin; a value below 0 or above 100 falls in no bin. So
    the bin counts of a list of values add up to the number of values in
    [0,100], which can be less than the number of values, and each bin
    counts the values that pass its own test. *)
Theorem bins_partition_the_percent_range :
  (forall v i,
      bin_of v = Some i <->
      (i < 10)%nat /\
      ((inject_Z (10 * Z.of_nat i) <= v /\ v < inject_Z (10 * Z.of_nat i + 10))
       \/ (v == 100 /\ i = 9%nat))) /\
  (forall v, bin_of v = None <-> v < 0 \/ 100 < v) /\
  (forall values,
      bins_total (count_bins values)
      = length (filter (fun v => Qle_bool 0 v && Qle_bool v 100) values)) /\
  (forall values i,
      (i < 10)%nat ->
      get_or (count_bins values) (nth i BIN_LABELS "") 0%nat
      = length (filter (fun v => in_bin v i) values)).
Proof.
  split; [| split; [exact bin_of_None | split]].
  - intros v i. rewrite bin_of_spec. split.
    + intros [Hi Hb]. split; [exact Hi | apply in_bin_spec; assumption].
    + intros [Hi Hb]. split; [exact Hi | apply in_bin_spec; assumption].
  - intros values. unfold count_bins.
    destruct (count_bins_fold values (map (fun label => (label, 0%nat)) BIN_LABELS))
      as [_ [Ht _]]; [reflexivity |].
    cbv zeta in Ht. rewrite Ht. reflexivity.
  - intros values i Hi. unfold count_bins.
    destruct (count_bins_fold values (map (fun label => (label, 0%nat)) BIN_LABELS))
      as [_ [_ Hg]]; [reflexivity |].
    cbv zeta in Hg. rewrite (Hg i Hi).
    do 10 (destruct i as [| i]; [reflexivity |]). lia.
Qed.

(** ** The branches of a target *)

Lemma traverse_unweakened_loop_inv (ns : dict node) (es : dict edge)
    (target root expected_type : string) (fuel : nat) :
  forall stack visited branch b,
    traverse_unweakened_loop ns es target fuel root expected_type stack visited
                             branch = Some b ->
    (forall x, In x branch -> In x visited) ->
    NoDup branch ->
    (forall x, In x stack -> reaches es x root) ->
    (forall x, In x branch -> reaches es x root) ->
    (exists suffix, b = branch ++ suffix) /\
    NoDup b /\
    (forall x, In x b -> reaches es x root).
Proof.
  induction fuel as [| fuel IH]; intros stack visited branch b Hrun Hbv Hnd Hst Hbr.
  - destruct stack; simpl in Hrun; [| discriminate].
    inversion Hrun; subst b. split; [exists []; symmetry; apply app_nil_r |]. auto.
  - destruct stack as [| current rest]; simpl in Hrun.
    + inversion Hrun; subst b. split; [exists []; symmetry; apply app_nil_r |]. auto.
    + assert (Hrest : forall x, In x rest -> reaches es x root)
        by (intros x Hx; apply Hst; right; exact Hx).
      assert (Hcur : reaches es current root) by (apply Hst; left; reflexivity).
      destruct (mem current visited) eqn:Hm.
      * apply (IH rest visited branch b Hrun Hbv Hnd Hrest Hbr).
      * apply mem_false_iff in Hm.
        assert (Hbv' : forall x, In x (branch ++ [current]) -> In x (current :: visited)).
        { intros x Hx. apply in_app_or in Hx. destruct Hx as [Hx | [E | []]];
            [right; apply Hbv; exact Hx | left; exact E]. }
        assert (Hnd' : NoDup (branch ++ [current])).
        { apply NoDup_app; [exact Hnd | constructor; [intros [] | constructor] |].
          intros x Hx [E | []]. subst x. apply Hm, Hbv, Hx. }
        assert (Hbr' : forall x, In x (branch ++ [current]) -> reaches es x root).
        { intros x Hx. apply in_app_or in Hx. destruct Hx as [Hx | [E | []]];
            [apply Hbr; exact Hx | subst; exact Hcur]. }
        assert (Hsuf : forall suffix, b = (branch ++ [current]) ++ suffix ->
                                      exists s, b = branch ++ s).
        { intros suffix E. exists ([current] ++ suffix).
          rewrite E, <- app_assoc. reflexivity. }
        destruct (matches_type ns es target expected_type current).
        -- destruct (IH _ _ _ _ Hrun Hbv' Hnd') as [[suffix E] [H1 H2]];
             [| exact Hbr' | split; [apply (Hsuf suffix E) | auto]].
           intros x Hx. apply in_app_or in Hx. destruct Hx as [Hx | Hx];
             [| apply Hrest; exact Hx].
           apply in_rev in Hx. eapply reaches_child; eauto.
        -- destruct (String.eqb current root).
           ++ destruct (IH _ _ _ _ Hrun Hbv' Hnd' Hrest Hbr') as [[suffix E] [H1 H2]].
              split; [apply (Hsuf suffix E) | auto].
           ++ apply (IH rest (current :: visited) branch b Hrun); auto.
              intros x Hx. right. apply Hbv. exact Hx.
Qed.

Lemma traverse_unweakened_branch_facts (ns : dict node) (es : dict edge)
    (target root expected_type : string) :
  (exists rest, traverse_unweakened_branch ns es target root expected_type
                = root :: rest) /\
  NoDup (traverse_unweakened_branch ns es target root expected_type) /\
  (forall x, In x (traverse_unweakened_branch ns es target root expected_type) ->
             reaches es x root).
Proof.
  unfold traverse_unweakened_branch.
  destruct (traverse_unweakened_loop_fuel ns es target root expected_type
              (S (length es)) [root] [] []) as [b Hb].
  { destruct (unvisited_nil es) as [Hd _]. simpl. lia. }
  rewrite Hb.
  destruct (traverse_unweakened_loop_inv ns es target root expected_type
              (S (length es)) [root] [] [] b Hb) as [_ [Hnd Hre]].
  - intros x [].
  - constructor.
  - intros x [E | []]. subst x. constructor.
  - intros x [].
  - split; [| split; [exact Hnd | exact Hre]].
    cbn -[mem children matches_type] in Hb.
    change (mem root []) with false in Hb. cbv iota in Hb.
    rewrite String.eqb_refl in Hb.
    destruct (matches_type ns es target expected_type root).
    + destruct (traverse_unweakened_loop_inv ns es target root expected_type
                  (length es) _ _ _ b Hb) as [[suffix E] _].
      * intros x Hx. exact Hx.
      * constructor; [intros [] | constructor].
      * intros x Hx. rewrite app_nil_r in Hx. apply in_rev in Hx.
        eapply reaches_child; [exact Hx | constructor].
      * intros x [E | []]. subst x. constructor.
      * exists suffix. exact E.
    + destruct (traverse_unweakened_loop_inv ns es target root expected_type
                  (length es) _ _ _ b Hb) as [[suffix E] _].
      * intros x Hx. exact Hx.
      * constructor; [intros [] | constructor].
      * intros x [].
      * intros x [E | []]. subst x. constructor.
      * exists suffix. exact E.
Qed.

Lemma significant_neighbours_In (ns : dict node) (es : dict edge)
    (target : string) (positive : bool) (r : string) :
  In r (significant_neighbours ns es target positive) ->
  is_significant_root ns r = true /\
  exists e, In (r, e) es /\ successor_id e = target /\
            (if positive then 0 < rel_of e else rel_of e < 0).
Proof.
  unfold significant_neighbours. intros H. apply in_map_iff in H.
  destruct H as [[r' e] [E H]]. simpl in E. subst r'.
  apply filter_In in H. destruct H as [Hin Hb]. cbn [fst snd] in Hb.
  apply andb_true_iff in Hb. destruct Hb as [Hb Hsign].
  apply andb_true_iff in Hb. destruct Hb as [Hs Hsig].
  apply String.eqb_eq in Hs. split; [exact Hsig |].
  exists e. split; [exact Hin |]. split; [exact Hs |].
  destruct positive; apply Qltb_true; exact Hsign.
Qed.

Lemma find_unweakened_In (ns : dict node) (es : dict edge)
    (target expected_type : string) (roots : list string) (b : list string) :
  In b (find_unweakened_branches ns es target roots expected_type) ->
  exists root, In root roots /\ is_significant_root ns root = true /\
               b = traverse_unweakened_branch ns es target root expected_type.
Proof.
  unfold find_unweakened_branches. rewrite in_flat_map.
  intros [root [Hroot Hin]].
  destruct (is_significant_root ns root) eqn:Hs; [| destruct Hin].
  destruct ((0 <? length (traverse_unweakened_branch ns es target root expected_type))%nat
            && all_expected_type ns es target expected_type
                 (traverse_unweakened_branch ns es target root expected_type));
    [| destruct Hin].
  destruct Hin as [E | []]. exists root. auto.
Qed.

Lemma find_weakening_In (ns : dict node) (es : dict edge)
    (arguments_set : list string) (b : list string) :
  In b (find_weakening_sub_branches ns es arguments_set) ->
  exists root e, In (root, e) es /\ rel_of e < 0 /\
                 In (successor_id e) arguments_set /\
                 is_significant_root ns root = true /\
                 b = traverse_full_branch es root.
Proof.
  unfold find_weakening_sub_branches. rewrite in_flat_map.
  intros [[root e] [Hitem Hin]]. cbn [fst snd] in Hin.
  destruct (Qltb (rel_of e) 0 && mem (successor_id e) arguments_set
            && is_significant_root ns root) eqn:Hb; [| destruct Hin].
  destruct Hin as [E | []].
  apply andb_true_iff in Hb. destruct Hb as [Hb Hsig].
  apply andb_true_iff in Hb. destruct Hb as [Hneg Hmem].
  apply Qltb_true in Hneg. apply mem_true_iff in Hmem.
  exists root, e. auto.
Qed.

Lemma full_branches_In (ns : dict node) (es : dict edge) (roots : list string)
    (b : list string) :
  In b (map (traverse_full_branch es) (filter (is_significant_root ns) roots)) ->
  exists root, In root roots /\ is_significant_root ns root = true /\
               b = traverse_full_branch es root.
Proof.
  intros H. apply in_map_iff in H. destruct H as [root [E H]].
  apply filter_In in H. destruct H as [Hin Hs]. exists root. auto.
Qed.

(** X23. Every branch [identify_branches] returns, in any of the six
    categories, starts with its root, which is a significant argument,
    holds no argument twice, and holds only arguments from which the root
    is reached along non-neutral edges. The roots of the pro-branches are
    supporters of the target, those of the con-branches attackers, and
    those of the weakening branches attackers of a member of an unweakened
    branch. An unweakened branch is part of the full branch of the same
    root, which is returned among the pro-branches (or con-branches). *)
Theorem branches_of_identify_branches (d : debate) (target : string) :
  let bd := identify_branches d target in
  let well_rooted b :=
    exists root rest,
      b = root :: rest /\ is_significant_root (nodes d) root = true /\
      NoDup b /\ forall x, In x b -> reaches (edges d) x root in
  (forall b,
      In b (pro_branches bd ++ con_branches bd ++ unweakened_pro_branches bd
            ++ unweakened_con_branches bd ++ pro_weakening_sub_branches bd
            ++ con_weakening_sub_branches bd) -> well_rooted b) /\
  (forall root rest, In (root :: rest) (pro_branches bd) ->
     exists e, In (root, e) (edges d) /\ successor_id e = target /\ 0 < rel_of e) /\
  (forall root rest, In (root :: rest) (con_branches bd) ->
     exists e, In (root, e) (edges d) /\ successor_id e = target /\ rel_of e < 0) /\
  (forall root rest, In (root :: rest) (pro_weakening_sub_branches bd) ->
     exists e ub, In (root, e) (edges d) /\ rel_of e < 0 /\
                  In ub (unweakened_pro_branches bd) /\ In (successor_id e) ub) /\
  (forall root rest, In (root :: rest) (con_weakening_sub_branches bd) ->
     exists e ub, In (root, e) (edges d) /\ rel_of e < 0 /\
                  In ub (unweakened_con_branches bd) /\ In (successor_id e) ub) /\
  (forall ub, In ub (unweakened_pro_branches bd) ->
     exists pb, In pb (pro_branches bd) /\ hd_error pb = hd_error ub /\
                forall x, In x ub -> In x pb) /\
  (forall ub, In ub (unweakened_con_branches bd) ->
     exists cb, In cb (con_branches bd) /\ hd_error cb = hd_error ub /\
                forall x, In x ub -> In x cb).
Proof.
  cbv zeta. unfold identify_branches.
  cbn [pro_branches con_branches unweakened_pro_branches unweakened_con_branches
       pro_weakening_sub_branches con_weakening_sub_branches].
  set (ns := nodes d). set (es := edges d).
  assert (Hfull : forall root, is_significant_root ns root = true ->
            exists r rest,
              traverse_full_branch es root = r :: rest /\
              is_significant_root ns r = true /\
              NoDup (traverse_full_branch es root) /\
              forall x, In x (traverse_full_branch es root) -> reaches es x r).
  { intros root Hs. destruct (traverse_full_branch_facts es root) as [[rest E] [Hnd Hre]].
    exists root, rest. split; [exact E |]. split; [exact Hs |]. split; [exact Hnd |].
    intros x Hx. apply Hre. exact Hx. }
  assert (Hunw : forall root ty, is_significant_root ns root = true ->
            exists r rest,
              traverse_unweakened_branch ns es target root ty = r :: rest /\
              is_significant_root ns r = true /\
              NoDup (traverse_unweakened_branch ns es target root ty) /\
              forall x, In x (traverse_unweakened_branch ns es target root ty) ->
                        reaches es x r).
  { intros root ty Hs.
    destruct (traverse_unweakened_branch_facts ns es target root ty)
      as [[rest E] [Hnd Hre]].
    exists root, rest. auto. }
  assert (Hhead : forall root r rest, traverse_full_branch es root = r :: rest ->
                                      r = root).
  { intros root r rest E. destruct (traverse_full_branch_facts es root) as [[rest' E'] _].
    congruence. }
  assert (Hpart : forall roots ty ub,
            In ub (find_unweakened_branches ns es target roots ty) ->
            exists fb, In fb (map (traverse_full_branch es)
                                  (filter (is_significant_root ns) roots)) /\
                       hd_error fb = hd_error ub /\ forall x, In x ub -> In x fb).
  { intros roots ty ub Hub. apply find_unweakened_In in Hub.
    destruct Hub as [root [Hroot [Hs E]]]. subst ub.
    exists (traverse_full_branch es root). split.
    - apply in_map. apply filter_In. auto.
    - destruct (traverse_full_branch_facts es root) as [[r1 E1] [_ Hiff]].
      destruct (traverse_unweakened_branch_facts ns es target root ty)
        as [[r2 E2] [_ Hre]].
      split; [rewrite E1, E2; reflexivity |].
      intros x Hx. apply Hiff. apply Hre. exact Hx. }
  split; [| split; [| split; [| split; [| split; [| split]]]]].
  - intros b Hb. repeat (apply in_app_or in Hb; destruct Hb as [Hb | Hb]).
    + apply full_branches_In in Hb. destruct Hb as [root [_ [Hs E]]]. subst b.
      apply Hfull. exact Hs.
    + apply full_branches_In in Hb. destruct Hb as [root [_ [Hs E]]]. subst b.
      apply Hfull. exact Hs.
    + apply find_unweakened_In in Hb. destruct Hb as [root [_ [Hs E]]]. subst b.
      apply Hunw. exact Hs.
    + apply find_unweakened_In in Hb. destruct Hb as [root [_ [Hs E]]]. subst b.
      apply Hunw. exact Hs.
    + apply find_weakening_In in Hb. destruct Hb as [root [e [_ [_ [_ [Hs E]]]]]].
      subst b. apply Hfull. exact Hs.
    + apply find_weakening_In in Hb. destruct Hb as [root [e [_ [_ [_ [Hs E]]]]]].
      subst b. apply Hfull. exact Hs.
  - intros root rest Hb. apply full_branches_In in Hb.
    destruct Hb as [r [Hr [_ E]]]. symmetry in E. apply Hhead in E. subst r.
    apply significant_neighbours_In in Hr. destruct Hr as [_ H]. exact H.
  - intros root rest Hb. apply full_branches_In in Hb.
    destruct Hb as [r [Hr [_ E]]]. symmetry in E. apply Hhead in E. subst r.
    apply significant_neighbours_In in Hr. destruct Hr as [_ H]. exact H.
  - intros root rest Hb. apply find_weakening_In in Hb.
    destruct Hb as [r [e [Hin [Hneg [Hmem [_ E]]]]]].
    symmetry in E. apply Hhead in E. subst r.
    apply in_concat in Hmem. destruct Hmem as [ub [Hub Hx]].
    exists e, ub. auto.
  - intros root rest Hb. apply find_weakening_In in Hb.
    destruct Hb as [r [e [Hin [Hneg [Hmem [_ E]]]]]].
    symmetry in E. apply Hhead in E. subst r.
    apply in_concat in Hmem. destruct Hmem as [ub [Hub Hx]].
    exists e, ub. auto.
  - intros ub Hub. apply (Hpart _ _ _ Hub).
  - intros ub Hub. apply (Hpart _ _ _ Hub).
Qed.

(** ** The targets of a debate *)

Lemma get_targets_In (debate_id : string) (es : dict edge) (t : string) :
  In t (get_targets debate_id es) ->
  t = (debate_id ++ ".0")%string /\
  get_targets debate_id es = [(debate_id ++ ".0")%string] \/
  exists e, In (t, e) es /\ successor_id e = (debate_id ++ ".0")%string /\
            non_neutral e = false.
Proof.
  unfold get_targets.
  set (root_id := (debate_id ++ ".0")%string).
  set (p := fun item : string * edge =>
              String.eqb (successor_id (snd item)) root_id
              && match relation (snd item) with
                 | Some r => Qeq_bool r 0
                 | None => false
                 end).
  assert (Hp : forall t, In t (map fst (filter p es)) ->
                 exists e, In (t, e) es /\ successor_id e = root_id /\
                           non_neutral e = false).
  { intros t' Hin. apply in_map_iff in Hin. destruct Hin as [[t'' e] [E Hin]].
    simpl in E. subst t''. apply filter_In in Hin. destruct Hin as [Hin Hb].
    unfold p in Hb. cbn [fst snd] in Hb. apply andb_true_iff in Hb.
    destruct Hb as [Hs Hr]. apply String.eqb_eq in Hs.
    exists e. split; [exact Hin |]. split; [exact Hs |].
    unfold non_neutral, rel_of. destruct (relation e); [| discriminate].
    rewrite Hr. reflexivity. }
  destruct (map fst (filter p es)) as [| t0 ts] eqn:E.
  - intros [H | []]. left. split; [symmetry; exact H | reflexivity].
  - intros Hin. right. apply Hp. exact Hin.
Qed.

Lemma NoDup_keys_filter {V} (p : string * V -> bool) (d : dict V) :
  NoDup (keys d) -> NoDup (map fst (filter p d)).
Proof.
  unfold keys. induction d as [| [k v] d IH]; simpl; intros Hnd; [constructor |].
  inversion Hnd as [| ? ? Hnotin Hnd']; subst.
  destruct (p (k, v)); [| apply IH; exact Hnd'].
  simpl. constructor; [| apply IH; exact Hnd'].
  intros Hin. apply Hnotin. apply in_map_iff in Hin.
  destruct Hin as [item [E Hin]]. apply filter_In in Hin.
  apply in_map_iff. exists item. tauto.
Qed.

Lemma In_edge_unique (es : dict edge) (u : string) (e1 e2 : edge) :
  NoDup (keys es) -> In (u, e1) es -> In (u, e2) es -> e1 = e2.
Proof.
  intros Hnd H1 H2. apply (In_dget es u e1 Hnd) in H1.
  apply (In_dget es u e2 Hnd) in H2. congruence.
Qed.

Lemma reaches_from_neutral (es : dict edge) (t w : string) (e : edge) :
  NoDup (keys es) -> In (t, e) es -> non_neutral e = false ->
  reaches es t w -> w = t.
Proof.
  intros Hnd Hin Hn Hr. inversion Hr as [| u w' e' Hin' Hn' Hr']; subst.
  - reflexivity.
  - rewrite (In_edge_unique es t e' e Hnd Hin' Hin) in Hn'. congruence.
Qed.

Lemma reaches_two_targets (es : dict edge) (x t1 t2 : string) (e1 e2 : edge) :
  NoDup (keys es) ->
  In (t1, e1) es -> non_neutral e1 = false ->
  In (t2, e2) es -> non_neutral e2 = false ->
  reaches es x t1 -> reaches es x t2 -> t1 = t2.
Proof.
  intros Hnd H1 Hn1 H2 Hn2 Hr1. revert t2 e2 H2 Hn2.
  induction Hr1 as [u | u w e Hin He Hr IH]; intros t2 e2 H2 Hn2 Hr2.
  - symmetry. apply (reaches_from_neutral es u t2 e1 Hnd H1 Hn1 Hr2).
  - inversion Hr2 as [| u' w' e' Hin' He' Hr']; subst.
    + rewrite (In_edge_unique es t2 e e2 Hnd Hin H2) in He. congruence.
    + rewrite (In_edge_unique es u e' e Hnd Hin' Hin) in Hr'.
      apply (IH H1 t2 e2 H2 Hn2 Hr').
Qed.

(** X24. The targets of a debate and their sub-debates. [get_targets]
    never returns an empty list: a target is either the root
    [<debate_id>.0], returned alone, or the source of an edge with
    relation [0.0] into the root. As the edges are a dict (one outgoing
    edge per argument), the targets are distinct and no argument is
    connected to two of them: the sub-debates [main] writes for one debate
    share no argument. *)
Theorem targets_split_the_debate (debate_id : string) (es : dict edge)
    (Hdict : NoDup (keys es)) :
  get_targets debate_id es <> [] /\
  NoDup (get_targets debate_id es) /\
  (forall t, In t (get_targets debate_id es) ->
     (t = (debate_id ++ ".0")%string /\
      get_targets debate_id es = [(debate_id ++ ".0")%string]) \/
     exists e r, In (t, e) es /\ successor_id e = (debate_id ++ ".0")%string /\
                 relation e = Some r /\ r == 0) /\
  (forall t1 t2 x,
     In t1 (get_targets debate_id es) -> In t2 (get_targets debate_id es) ->
     In x (get_connected_arguments t1 es) ->
     In x (get_connected_arguments t2 es) -> t1 = t2).
Proof.
  split; [| split; [| split]].
  - unfold get_targets. destruct (map fst (filter _ es)); discriminate.
  - unfold get_targets.
    match goal with |- context [filter ?p es] => pose proof (NoDup_keys_filter p es Hdict) as Hnd end.
    destruct (map fst (filter _ es)) eqn:E.
    + constructor; [intros [] | constructor].
    + exact Hnd.
  - intros t Ht. unfold get_targets in *.
    set (root_id := (debate_id ++ ".0")%string) in *.
    destruct (map fst (filter _ es)) as [| t0 ts] eqn:E.
    + left. destruct Ht as [H | []]. split; [symmetry; exact H | reflexivity].
    + right. rewrite <- E in Ht. apply in_map_iff in Ht.
      destruct Ht as [[t' e] [Et Hin]]. simpl in Et. subst t'.
      apply filter_In in Hin. destruct Hin as [Hin Hb]. cbn [fst snd] in Hb.
      apply andb_true_iff in Hb. destruct Hb as [Hs Hr].
      apply String.eqb_eq in Hs.
      destruct (relation e) as [r |] eqn:Er; [| discriminate].
      exists e, r. split; [exact Hin |]. split; [exact Hs |].
      split; [exact Er | apply Qeq_bool_iff; exact Hr].
  - intros t1 t2 x Ht1 Ht2 Hx1 Hx2.
    destruct (get_connected_arguments_facts es t1) as [_ [_ Hc1]].
    destruct (get_connected_arguments_facts es t2) as [_ [_ Hc2]].
    apply Hc1 in Hx1. apply Hc2 in Hx2.
    destruct (get_targets_In debate_id es t1 Ht1) as [[E1 Hall] | [e1 [Hin1 [_ Hn1]]]].
    + rewrite Hall in Ht2. destruct Ht2 as [E | []]. congruence.
    + destruct (get_targets_In debate_id es t2 Ht2) as [[E2 Hall] | [e2 [Hin2 [_ Hn2]]]].
      * rewrite Hall in Ht1. destruct Ht1 as [E | []]. congruence.
      * apply (reaches_two_targets es x t1 t2 e1 e2 Hdict Hin1 Hn1 Hin2 Hn2 Hx1 Hx2).
Qed.

Lemma targets_split_the_debate_witness :
  let es := [("t1", mk_edge "d.0" (Some 0)); ("t2", mk_edge "d.0" (Some 0));
             ("a", support "t1"); ("b", attack "t2")] in
  NoDup (keys es) /\
  get_targets "d" es = ["t1"; "t2"] /\
  forall x, In x (get_connected_arguments "t1" es) ->
            In x (get_connected_arguments "t2" es) -> "t1" = "t2".
Proof.
  cbv zeta.
  assert (Hdict : NoDup (keys [("t1", mk_edge "d.0" (Some 0));
                               ("t2", mk_edge "d.0" (Some 0));
                               ("a", support "t1"); ("b", attack "t2")])).
  { simpl. repeat constructor; simpl; intuition discriminate. }
  split; [exact Hdict |]. split; [vm_compute; reflexivity |].
  intros x.
  apply (proj2 (proj2 (proj2 (targets_split_the_debate "d" _ Hdict))) "t1" "t2" x);
    vm_compute; tauto.
Defined.

(** ** What a search tested before it returned *)

Lemma find_first_seq_None (g : nat -> result bool) (n : nat) :
  forall a, find_first g (seq a n) = Ok None ->
            forall j, (a <= j < a + n)%nat -> g j = Ok false.
Proof.
  induction n as [| n IH]; intros a H j Hj; [lia |].
  cbn [seq find_first] in H.
  destruct (g a) as [[|] |] eqn:E; cbn [bind] in H; try discriminate.
  destruct (Nat.eq_dec j a) as [Ej | NE]; [subst; exact E |].
  apply (IH (S a) H). lia.
Qed.

Lemma find_first_prefixes_None {A} (test : list A -> result bool) (l : list A) :
  find_first test (prefixes l) = Ok None ->
  forall j, (1 <= j <= length l)%nat -> test (firstn j l) = Ok false.
Proof.
  unfold prefixes. rewrite find_first_map. intros H j Hj.
  destruct (find_first (fun a => test (firstn a l)) (seq 1 (length l)))
    as [[k |] |] eqn:E; cbn [bind option_map] in H; try discriminate.
  apply (find_first_seq_None _ _ _ E). lia.
Qed.



Lemma generate_constructive_value (rd : rankings_data) (debate_data : debate)
    (heuristic : string) (target_node : node) (w0_target : Q) :
  dget (nodes debate_data) (t_id rd) = Some target_node ->
  initial_weight target_node = Some w0_target ->
  generate_constructive_explanation rd debate_data heuristic
  = fst (constructive_search debate_data (t_id rd) w0_target
           (direction_reached rd w0_target)
           (fst (fst (constructive_categories rd heuristic)))
           (snd (fst (constructive_categories rd heuristic)))
           (snd (constructive_categories rd heuristic)) []).
Proof.
  intros Hnode Hw.
  unfold generate_constructive_explanation, generate_constructive_explanation_traced.
  rewrite Hnode, tbind_fst. cbn [fst snd]. unfold target_initial_weight.
  rewrite Hw. unfold constructive_categories, direction_reached.
  destruct (String.eqb (direction rd) "strengthening"); reflexivity.
Qed.

(** X26. The constructive search, in either direction, returns the first
    candidate that passes in the order it tests them: the base alone, then
    the base with 1, 2, ... branches of the first ranking, then with all
    of those and 1, 2, ... branches of the weakening ranking. On success
    it returns the candidate of some step p, every earlier step having
    been propagated without moving the target's weight in the direction of
    the table; when it ends without an explanation, every step was tested
    and none passed. *)
Theorem constructive_explanation_first_passing (rd : rankings_data)
    (debate_data : debate) (heuristic : string) (ex : explanation)
    (target_node : node) (w0_target : Q) :
  dget (nodes debate_data) (t_id rd) = Some target_node ->
  initial_weight target_node = Some w0_target ->
  generate_constructive_explanation rd debate_data heuristic = Ok ex ->
  let unweakened := fst (fst (constructive_categories rd heuristic)) in
  let first := snd (fst (constructive_categories rd heuristic)) in
  let weakening := snd (constructive_categories rd heuristic) in
  let n1 := length (ranking first) in
  let n2 := length (ranking weakening) in
  (success ex = true ->
   exists p,
     (p <= n1 + n2)%nat /\
     explanation_arg ex
     = concat (branches unweakened) :: concat (firstn p (ranking first))
       :: (if (p <=? n1)%nat then []
           else [concat (firstn (p - n1) (ranking weakening))]) /\
     explanation_abv ex
     = branches_abv unweakened :: firstn (Nat.min p n1) (ranking_abv first)
       :: (if (p <=? n1)%nat then []
           else [firstn (p - n1) (ranking_abv weakening)]) /\
     passes rd debate_data w0_target (constructive_candidate rd heuristic p)
     = Ok true /\
     forall j, (j < p)%nat ->
               passes rd debate_data w0_target
                 (constructive_candidate rd heuristic j) = Ok false) /\
  (success ex = false ->
   ex = no_explanation /\
   forall j, (j <= n1 + n2)%nat ->
             passes rd debate_data w0_target
               (constructive_candidate rd heuristic j) = Ok false).
Proof.
  intros Hnode Hw Hres.
  rewrite (generate_constructive_value rd debate_data heuristic target_node
             w0_target Hnode Hw) in Hres.
  rewrite constructive_search_value in Hres. cbv zeta in Hres.
  unfold constructive_candidate, passes.
  destruct (constructive_categories rd heuristic) as [[u f] w].
  cbn [fst snd] in *. cbv zeta.
  set (base := concat (branches u)) in *.
  set (n1 := length (ranking f)).
  set (n2 := length (ranking w)).
  set (test := fun args =>
                 w1 <- fst (retest debate_data (t_id rd) w0_target args []) ;;
                 Ok (direction_reached rd w0_target w1)).
  assert (Hstage1 : forall j, (j <= n1)%nat ->
            base ++ concat (firstn j (ranking f))
            ++ concat (firstn (j - n1) (ranking w)) ++ [t_id rd]
            = base ++ ([] ++ concat (firstn j (ranking f))) ++ [t_id rd]).
  { intros j Hj. replace (j - n1)%nat with 0%nat by lia. reflexivity. }
  assert (Hstage2 : forall j, (n1 <= j)%nat ->
            base ++ concat (firstn j (ranking f))
            ++ concat (firstn (j - n1) (ranking w)) ++ [t_id rd]
            = base ++ concat (ranking f)
              ++ ([] ++ concat (firstn (j - n1) (ranking w))) ++ [t_id rd]).
  { intros j Hj. rewrite (firstn_all2 (ranking f)) by (fold n1; lia). reflexivity. }
  destruct (fst (retest debate_data (t_id rd) w0_target (base ++ [t_id rd]) []))
    as [w1 | e] eqn:E0; [| discriminate].
  cbn [bind] in Hres.
  assert (Hzero : forall b, direction_reached rd w0_target w1 = b ->
            test (base ++ concat (firstn 0 (ranking f))
                  ++ concat (firstn (0 - n1) (ranking w)) ++ [t_id rd]) = Ok b).
  { intros b Hb. rewrite (Hstage1 0%nat) by lia. cbn [firstn concat app].
    unfold test. rewrite E0. cbn [bind]. rewrite Hb. reflexivity. }
  destruct (direction_reached rd w0_target w1) eqn:Er.
  - inversion Hres; subst ex. split; [| discriminate].
    intros _. exists 0%nat. split; [lia |].
    split; [reflexivity |]. split; [reflexivity |].
    split; [apply Hzero; reflexivity | intros j Hj; lia].
  - destruct (find_first
                (candidate_test debate_data (t_id rd) w0_target
                   (fun added => base ++ added ++ [t_id rd])
                   (direction_reached rd w0_target) [])
                (prefixes (ranking f))) as [[p |] |] eqn:E1;
      cbn [bind] in Hres; [| | discriminate].
    + inversion Hres; subst ex. split; [| discriminate]. intros _.
      destruct (find_first_prefixes _ _ _ E1) as [k [Hk [Hp [Htrue Hfalse]]]].
      fold n1 in Hk. exists k. subst p.
      assert (Hlen : length (firstn k (ranking f)) = k)
        by (apply firstn_length_le; fold n1; lia).
      rewrite Hlen.
      replace (k <=? n1)%nat with true by (symmetry; apply Nat.leb_le; lia).
      replace (Nat.min k n1) with k by lia.
      split; [lia |]. split; [reflexivity |]. split; [reflexivity |].
      unfold candidate_test in Htrue, Hfalse.
      split; [rewrite Hstage1 by lia; exact Htrue |].
      intros j Hj. destruct j as [| j]; [apply Hzero; reflexivity |].
      rewrite Hstage1 by lia. apply Hfalse. lia.
    + pose proof (find_first_prefixes_None _ _ E1) as Hnone1. fold n1 in Hnone1.
      unfold candidate_test in Hnone1.
      assert (Hbefore : forall j, (j <= n1)%nat ->
                test (base ++ concat (firstn j (ranking f))
                      ++ concat (firstn (j - n1) (ranking w)) ++ [t_id rd])
                = Ok false).
      { intros j Hj. destruct j as [| j]; [apply Hzero; reflexivity |].
        rewrite Hstage1 by lia. apply Hnone1. lia. }
      destruct (find_first
                  (candidate_test debate_data (t_id rd) w0_target
                     (fun added => base ++ concat (ranking f) ++ added ++ [t_id rd])
                     (direction_reached rd w0_target) [])
                  (prefixes (ranking w))) as [[q |] |] eqn:E2;
        cbn [bind] in Hres; [| | discriminate].
      * inversion Hres; subst ex. split; [| discriminate]. intros _.
        destruct (find_first_prefixes _ _ _ E2) as [k [Hk [Hq [Htrue Hfalse]]]].
        fold n2 in Hk. exists (n1 + k)%nat. subst q.
        assert (Hlen : length (firstn k (ranking w)) = k)
          by (apply firstn_length_le; fold n2; lia).
        rewrite Hlen.
        replace (n1 + k <=? n1)%nat with false by (symmetry; apply Nat.leb_gt; lia).
        replace (Nat.min (n1 + k) n1) with n1 by lia.
        replace (n1 + k - n1)%nat with k by lia.
        rewrite (firstn_all2 (ranking f)) by (fold n1; lia).
        split; [lia |]. split; [reflexivity |]. split; [reflexivity |].
        unfold candidate_test in Htrue, Hfalse.
        split.
        -- pose proof (Hstage2 (n1 + k)%nat) as H2.
           replace (n1 + k - n1)%nat with k in H2 by lia.
           rewrite (firstn_all2 (ranking f)) in H2 by (fold n1; lia).
           rewrite H2 by lia. exact Htrue.
        -- intros j Hj. destruct (Nat.le_gt_cases j n1) as [Hle | Hgt];
             [apply Hbefore; exact Hle |].
           rewrite Hstage2 by lia. apply Hfalse. lia.
      * inversion Hres; subst ex. split; [discriminate |]. intros _.
        split; [reflexivity |].
        pose proof (find_first_prefixes_None _ _ E2) as Hnone2. fold n2 in Hnone2.
        unfold candidate_test in Hnone2.
        intros j Hj. destruct (Nat.le_gt_cases j n1) as [Hle | Hgt];
          [apply Hbefore; exact Hle |].
        rewrite Hstage2 by lia. apply Hnone2. lia.
Qed.

Lemma constructive_explanation_first_passing_witness :
  exists ex p,
    generate_constructive_explanation chain_rankings chain_debate_final
      "weak to strong" = Ok ex /\
    success ex = true /\
    passes chain_rankings chain_debate_final (1#2)
      (constructive_candidate chain_rankings "weak to strong" p) = Ok true /\
    forall j, (j < p)%nat ->
              passes chain_rankings chain_debate_final (1#2)
                (constructive_candidate chain_rankings "weak to strong" j)
              = Ok false.
Proof.
  destruct (generate_constructive_explanation chain_rankings chain_debate_final
              "weak to strong") as [ex | e] eqn:E;
    [| vm_compute in E; discriminate E].
  assert (Hs : success ex = true).
  { vm_compute in E. inversion E. reflexivity. }
  destruct (constructive_explanation_first_passing chain_rankings
              chain_debate_final "weak to strong" ex
              (mk_node (Some (1#2)) (Some (140902400 # 222822400))) (1#2))
    as [Hyes _].
  - vm_compute. reflexivity.
  - reflexivity.
  - exact E.
  - destruct (Hyes Hs) as [p [_ [_ [_ [Hpass Hmin]]]]].
    exists ex, p. split; [reflexivity |]. split; [exact Hs |].
    split; [exact Hpass | exact Hmin].
Defined.
